(** * HelFEM [sadatom::solver]: the SCF engine of the spherically averaged atom

    A shallow embedding of [src/sadatom/solver.cpp]: orbital channels and
    their occupations, the configuration ordering, the block-diagonal
    packing used for the convergence accelerator, the orbital refreshes,
    the Fock build and the SCF loop, followed by the properties the
    specification states about them.

    Conventions.
    - [double] is IEEE binary64, modelled by Rocq's primitive [float].
    - [arma::sword] and [int] are signed; signed overflow is undefined in
      C++, so the model covers the executions without it and signed
      arithmetic is arithmetic on [Z].
    - [arma::uword] and [size_t] are unsigned 64-bit; their arithmetic wraps
      and is written with [uword].
    - Armadillo checks indices and sizes (its default build); a failed check
      throws, which the model records in [outcome]. *)

From Stdlib Require Import ZArith Lia Floats.PrimFloat Floats.SpecFloat
  Floats.FloatOps Floats.FloatAxioms Numbers.Cyclic.Int63.Uint63.
From stdpp Require Import base numbers list list_numbers strings.

Local Open Scope Z_scope.

(** ** Exceptions *)

(** [std::logic_error] is what [Solve] throws itself and what Armadillo
    throws on a size mismatch; [std::out_of_range] (a subclass of
    [std::logic_error]) is what Armadillo throws on an index out of bounds. *)
Inductive exn : Type :=
| logic_error (what : string)
| out_of_range (what : string)
| fault (what : string).   (* no exception: a signal that ends the process *)

Inductive outcome (A : Type) : Type :=
| Ok (a : A)
| Throw (e : exn).
Arguments Ok {A} a.
Arguments Throw {A} e.

#[global] Instance outcome_ret : MRet outcome := λ A a, Ok a.
#[global] Instance outcome_bind : MBind outcome := λ A B k m,
  match m with
  | Ok a => k a
  | Throw e => Throw e
  end.

(** [for (i : idx) s = body(i, s);] with exceptions propagating. *)
Fixpoint for_each {S : Type} (idx : list Z) (body : Z → S → outcome S) (s : S)
  : outcome S :=
  match idx with
  | [] => Ok s
  | i :: idx' => s' ← body i s; for_each idx' body s'
  end.

(** [for (i = lo; i <= hi; i++)]. *)
Definition for_range {S : Type} (lo hi : Z) (body : Z → S → outcome S) (s : S)
  : outcome S :=
  for_each (seqZ lo (hi + 1 - lo)) body s.

(** [Σ f(x)] over the entries of a list. *)
Definition sum_over {A} (f : A → Z) (l : list A) : Z := foldr Z.add 0 (f <$> l).

(** ** Machine integers *)

Definition uword_modulus : Z := 2 ^ 64.

(** Conversion to, and arithmetic in, [arma::uword]. *)
Definition uword (z : Z) : Z := z mod uword_modulus.

(** Conversion to [int] (32 bits, two's complement). *)
Definition to_int (z : Z) : Z := (z + 2 ^ 31) mod 2 ^ 32 - 2 ^ 31.

(** The largest number of 8-byte elements Armadillo's allocator accepts;
    beyond it [Mat::init] or [memory::acquire] throw. Below it the model
    covers the executions in which memory suffices. *)
Definition max_n_elem : Z := (uword_modulus - 1) / 8.

(** A signed size handed to Armadillo is converted to [uword]; a negative
    one becomes a request that the allocator refuses (with this error, or
    with [std::bad_alloc] when the other dimensions of a cube are zero). *)
Definition alloc (n : Z) : outcome Z :=
  if n <? 0
  then Throw (logic_error "arma::memory::acquire(): requested size is too large")
  else Ok n.

(** ** Armadillo containers *)

#[global] Instance float_inhabited : Inhabited float := populate 0%float.

(** Dense columns of any element type ([arma::vec], [arma::ivec]). *)
Module col.

(** [v.subvec(a, b) = x], the bounds [a], [b] being [uword]s. *)
Definition set_subvec {A} (v : list A) (a b : Z) (x : list A) : outcome (list A) :=
  if bool_decide (b < a ∨ Z.of_nat (length v) ≤ b)
  then Throw (out_of_range "Col::subvec(): indices out of bounds or incorrectly used")
  else if bool_decide (Z.of_nat (length x) = b - a + 1)
  then Ok (take (Z.to_nat a) v ++ x ++ drop (Z.to_nat (b + 1)) v)
  else Throw (logic_error "copy into submatrix: incompatible matrix dimensions").

(** [v(idx)], the elements of [v] at the indices [idx]. *)
Definition elem {A} `{Inhabited A} (v : list A) (idx : list Z) : outcome (list A) :=
  if forallb (λ i, bool_decide (0 ≤ i < Z.of_nat (length v))) idx
  then Ok ((λ i, v !!! Z.to_nat i) <$> idx)
  else Throw (out_of_range "Mat::elem(): index out of bounds").

(** [arma::vec v(n)]: [n] entries that nothing has been assigned to yet,
    each [None] until it is written. *)
Definition unset {A} (n : Z) : outcome (list (option A)) :=
  if bool_decide (max_n_elem < n)
  then Throw (logic_error "arma::memory::acquire(): requested size is too large")
  else Ok (replicate (Z.to_nat n) None).

End col.

(** [arma::ivec] / [arma::uvec]. *)
Module ivec.
Abbreviation t := (list Z).

(** [v.zeros(n)]. *)
Definition zeros (n : Z) : outcome t :=
  n' ← alloc n; Ok (replicate (Z.to_nat n') 0).

Definition in_bounds (v : t) (i : Z) : bool :=
  bool_decide (0 ≤ i < Z.of_nat (length v)).

(** [v(i)], read. *)
Definition at_ (v : t) (i : Z) : outcome Z :=
  if in_bounds v i then Ok (v !!! Z.to_nat i)
  else Throw (out_of_range "Mat::operator(): index out of bounds").

(** [v(i) += d]. *)
Definition add_at (v : t) (i d : Z) : outcome t :=
  if in_bounds v i then Ok (<[Z.to_nat i := v !!! Z.to_nat i + d]> v)
  else Throw (out_of_range "Mat::operator(): index out of bounds").

(** [arma::sum(v)]. *)
Definition sum (v : t) : Z := foldr Z.add 0 v.
End ivec.

(** [arma::mat]: column-major storage, element [(i,j)] at [i + j*n_rows]. *)
Module mat.
Record t := Mat { n_rows : Z; n_cols : Z; mem : list float }.

Definition n_elem (A : t) : Z := n_rows A * n_cols A.

(** The sizes are [uword]s and the storage holds [n_elem] entries. *)
Definition wf (A : t) : Prop :=
  0 ≤ n_rows A ∧ 0 ≤ n_cols A ∧ n_rows A * n_cols A < uword_modulus ∧
  Z.of_nat (length (mem A)) = n_rows A * n_cols A.

(** [A.col(l)], read. *)
Definition col (A : t) (l : Z) : outcome (list float) :=
  if bool_decide (0 ≤ l < n_cols A)
  then Ok (take (Z.to_nat (n_rows A)) (drop (Z.to_nat (l * n_rows A)) (mem A)))
  else Throw (out_of_range "Mat::col(): index out of bounds").

(** A column as a matrix of one column. *)
Definition of_col (v : list float) : t := Mat (Z.of_nat (length v)) 1 v.

(** [arma::mat A(r, c); A.zeros();], the sizes being [uword]s. *)
Definition zeros (r c : Z) : outcome t :=
  if bool_decide (max_n_elem < r * c)
  then Throw (logic_error "arma::memory::acquire(): requested size is too large")
  else Ok (Mat r c (replicate (Z.to_nat (r * c)) 0%float)).

(** [A(i,j)], unchecked (used after a bounds check). *)
Definition get (A : t) (i j : Z) : float :=
  default 0%float (mem A !! Z.to_nat (i + j * n_rows A)).

(** The matrix with the given entries. *)
Definition tabulate (r c : Z) (f : Z → Z → float) : t :=
  Mat r c ((λ k, f (k mod r) (k / r)) <$> seqZ 0 (r * c)).

Definition submat_in_bounds (A : t) (r1 c1 r2 c2 : Z) : bool :=
  negb (bool_decide (r2 < r1 ∨ c2 < c1 ∨ n_rows A ≤ r2 ∨ n_cols A ≤ c2)).

(** [A.submat(r1, c1, r2, c2)], read; the corners are [uword]s. *)
Definition submat (A : t) (r1 c1 r2 c2 : Z) : outcome t :=
  if submat_in_bounds A r1 c1 r2 c2
  then Ok (tabulate (r2 - r1 + 1) (c2 - c1 + 1) (λ i j, get A (r1 + i) (c1 + j)))
  else Throw (out_of_range "Mat::submat(): indices out of bounds or incorrectly used").

(** [A.cols(c1, c2)], read. *)
Definition cols (A : t) (c1 c2 : Z) : outcome t :=
  if bool_decide (c2 < c1 ∨ n_cols A ≤ c2)
  then Throw (out_of_range "Mat::cols(): indices out of bounds or incorrectly used")
  else Ok (tabulate (n_rows A) (c2 - c1 + 1) (λ i j, get A i (c1 + j))).

(** The entries of column [l], top to bottom. *)
Definition col_of (A : t) (l : Z) : list float :=
  take (Z.to_nat (n_rows A)) (drop (Z.to_nat (l * n_rows A)) (mem A)).

(** [A.col(l) = v]. *)
Definition set_col (A : t) (l : Z) (v : list float) : outcome t :=
  if bool_decide (0 ≤ l < n_cols A)
  then
    if bool_decide (Z.of_nat (length v) = n_rows A)
    then Ok (Mat (n_rows A) (n_cols A)
               (imap (λ k x,
                        if bool_decide (Z.of_nat k / n_rows A = l)
                        then v !!! Z.to_nat (Z.of_nat k mod n_rows A) else x)
                     (mem A)))
    else Throw (logic_error "copy into submatrix: incompatible matrix dimensions")
  else Throw (out_of_range "Mat::col(): index out of bounds").

(** [A.resize(r, c)]: the entries that stay in range are kept in place, the
    new ones are zero. *)
Definition resize (A : t) (r c : Z) : outcome t :=
  if bool_decide (max_n_elem < r * c)
  then Throw (logic_error "arma::memory::acquire(): requested size is too large")
  else Ok (tabulate r c (λ i j,
             if bool_decide (i < n_rows A ∧ j < n_cols A) then get A i j
             else 0%float)).

(** [A.submat(r1, c1, r2, c2) = B]. *)
Definition set_submat (A : t) (r1 c1 r2 c2 : Z) (B : t) : outcome t :=
  if submat_in_bounds A r1 c1 r2 c2
  then
    if bool_decide (n_rows B = r2 - r1 + 1 ∧ n_cols B = c2 - c1 + 1)
    then Ok (Mat (n_rows A) (n_cols A)
               (imap (λ k x,
                        let i := Z.of_nat k mod n_rows A in
                        let j := Z.of_nat k / n_rows A in
                        if bool_decide (r1 ≤ i ≤ r2 ∧ c1 ≤ j ≤ c2)
                        then get B (i - r1) (j - c1) else x)
                     (mem A)))
    else Throw (logic_error "copy into submatrix: incompatible matrix dimensions")
  else Throw (out_of_range "Mat::submat(): indices out of bounds or incorrectly used").

(** [A(ri, ci) *= val], the index vectors being [uvec]s: column by column,
    row by row, each index checked when it is reached. *)
Definition scale_elems (A : t) (ri ci : list Z) (val : float) : outcome t :=
  for_each ci (λ col A,
    if bool_decide (n_cols A ≤ col)
    then Throw (out_of_range "Mat::elem(): index out of bounds")
    else for_each ri (λ row A,
           if bool_decide (n_rows A ≤ row)
           then Throw (out_of_range "Mat::elem(): index out of bounds")
           else Ok (Mat (n_rows A) (n_cols A)
                      (<[Z.to_nat (row + col * n_rows A) := (get A row col * val)%float]>
                         (mem A)))) A) A.
End mat.

#[global] Instance mat_inhabited : Inhabited mat.t := populate (mat.Mat 0 0 []).

(** [arma::cube]: a stack of [n_slices] matrices of one shape. *)
Module cube.
Record t := Cube { n_rows : Z; n_cols : Z; slices : list mat.t }.

Definition n_slices (Q : t) : Z := Z.of_nat (length (slices Q)).
Definition n_elem (Q : t) : Z := n_rows Q * n_cols Q * n_slices Q.

Definition wf (Q : t) : Prop :=
  0 ≤ n_rows Q ∧ 0 ≤ n_cols Q ∧
  Forall (λ A, mat.wf A ∧ mat.n_rows A = n_rows Q ∧ mat.n_cols A = n_cols Q)
         (slices Q).

(** [arma::cube Q(r, c, s); Q.zeros();], [s] being a signed size. *)
Definition zeros (r c s : Z) : outcome t :=
  s' ← alloc s;
  zero ← mat.zeros r c;
  Ok (Cube r c (replicate (Z.to_nat s') zero)).

Definition in_bounds (Q : t) (l : Z) : bool :=
  bool_decide (0 ≤ l < n_slices Q).

(** [Q.slice(l)], read. *)
Definition slice (Q : t) (l : Z) : outcome mat.t :=
  if in_bounds Q l then Ok (slices Q !!! Z.to_nat l)
  else Throw (out_of_range "Cube::slice(): index out of bounds").

(** [Q.resize(r, c, s)], [s] being a signed size: entries in range are kept,
    new ones are zero. *)
Definition resize (Q : t) (r c s : Z) : outcome t :=
  s' ← alloc s;
  zero ← mat.zeros r c;
  new ← for_each (seqZ 0 s') (λ l new,
           if in_bounds Q l
           then A ← mat.resize (slices Q !!! Z.to_nat l) r c; Ok (new ++ [A])
           else Ok (new ++ [zero])) [];
  Ok (Cube r c new).

(** [Q.slice(l) = A]: a slice has the shape of its cube. *)
Definition set_slice (Q : t) (l : Z) (A : mat.t) : outcome t :=
  if in_bounds Q l
  then
    if bool_decide (mat.n_rows A = n_rows Q ∧ mat.n_cols A = n_cols Q)
    then Ok (Cube (n_rows Q) (n_cols Q) (<[Z.to_nat l := A]> (slices Q)))
    else Throw (logic_error "Mat::init(): size is fixed and hence cannot be changed")
  else Throw (out_of_range "Cube::slice(): index out of bounds").
End cube.

(** ** Numerical kernels *)

(** [double(z)] for an [arma::sword] [z]. *)
Definition of_sword (z : Z) : float :=
  if z <? 0 then PrimFloat.opp (PrimFloat.of_uint63 (Uint63.of_Z (- z)))
  else PrimFloat.of_uint63 (Uint63.of_Z z).

(** The dense kernels of Armadillo and the eigen-solver of
    [general/scf_helpers], neither of which is part of this repository's
    sources: they are parameters of the model. They are total: the size
    errors they can raise are not represented. *)
Class Numerics := {
  mat_add : mat.t → mat.t → mat.t;           (* A + B *)
  mat_mul : mat.t → mat.t → mat.t;           (* A * B *)
  mat_scale : float → mat.t → mat.t;         (* x * A *)
  mat_div : mat.t → float → mat.t;           (* A / x *)
  mat_trans : mat.t → mat.t;                 (* A.t() *)
  trace : mat.t → float;                     (* arma::trace(A) *)
  (* helfem::scf::eig_gsym(E, C, F, Sinvh): eigenvalues and eigenvectors *)
  eig_gsym : mat.t → mat.t → list float * mat.t
}.

(** [Q + R], slice by slice. *)
Definition cube_add `{Numerics} (Q R : cube.t) : cube.t :=
  cube.Cube (cube.n_rows Q) (cube.n_cols Q)
            (zip_with mat_add (cube.slices Q) (cube.slices R)).

(** [x * Q]. *)
Definition cube_scale `{Numerics} (x : float) (Q : cube.t) : cube.t :=
  cube.Cube (cube.n_rows Q) (cube.n_cols Q) (mat_scale x <$> cube.slices Q).

(** The line feed that ends the messages. *)
Definition endl : string := String (Ascii.ascii_of_nat 10) EmptyString.

(** The basis set, the integration grids and the functional tables
    ([sadatom::basis::TwoDBasis], [dftgrid::DFTGrid], [general/dftfuncs]),
    consumed through these operations. The two static helpers
    [full_density] and [make_m_average] of [solver.cpp], which lay a cube
    out over the angular basis of [atbasis] and average it back, are taken
    the same way; [None] is their [throw std::logic_error("Shell not found!")]. *)
Class BasisProvider := {
  coulomb : mat.t → mat.t;
  exchange : cube.t → cube.t;
  rs_exchange : cube.t → cube.t;
  (* grid.eval_Fxc(x_func, x_pars, c_func, c_pars, P, XC, Exc, nelnum, thr) *)
  grid_eval_Fxc : Z → list float → Z → list float → mat.t → float
                  → mat.t * float * float;
  (* grid.eval_Fxc(.., Pa, Pb, XCa, XCb, Exc, nelnum, beta, thr) *)
  grid_eval_Fxc_ab : Z → list float → Z → list float → mat.t → mat.t → bool → float
                     → mat.t * mat.t * float * float;
  (* atgrid.eval_Fxc(.., P, XC, Exc, nelnum, Ekin, thr) *)
  atgrid_eval_Fxc : Z → list float → Z → list float → mat.t → float
                    → mat.t * float * float * float;
  (* atgrid.eval_Fxc(.., Pa, Pb, XCa, XCb, Exc, nelnum, Ekin, beta, thr) *)
  atgrid_eval_Fxc_ab : Z → list float → Z → list float → mat.t → mat.t → bool → float
                       → mat.t * mat.t * float * float * float;
  (* is_gga_mgga(func, gga, mgga_t, mgga_l) *)
  is_gga_mgga : Z → bool * bool * bool;
  (* range_separation(func, omega, kfrac, kshort) *)
  range_separation : Z → float * float * float;
  full_density : cube.t → option mat.t;
  make_m_average : mat.t → option cube.t
}.

(** The convergence accelerators [rDIIS] and [uDIIS] of [general/diis]:
    their state, constructor, [update] (which gives the error estimate) and
    [solve_F] (which gives the extrapolated Fock matrix). *)
Class Accelerator := {
  rDIIS : Type;
  rDIIS_new : mat.t → mat.t → bool → float → float → bool → bool → Z → rDIIS;
  rDIIS_update : rDIIS → mat.t → mat.t → float → rDIIS * float;
  rDIIS_solve_F : rDIIS → mat.t → rDIIS * mat.t;
  uDIIS : Type;
  uDIIS_new : mat.t → mat.t → bool → bool → float → float → bool → bool → Z → uDIIS;
  uDIIS_update : uDIIS → mat.t → mat.t → mat.t → mat.t → float → uDIIS * float;
  uDIIS_solve_F : uDIIS → mat.t → mat.t → uDIIS * mat.t * mat.t
}.

(** ** Shells *)

(** [shell_occupation_t], the helper for printing out configurations. *)
Module shell_occupation_t.
Record t := Build { n : Z; l : Z; E : float; nocc : Z }.

(** [operator<]: sort in energy. *)
Definition lt (lh rh : t) : bool := PrimFloat.ltb (E lh) (E rh).
End shell_occupation_t.

(** ** Orbital channels *)

Module OrbitalChannel.

(** The data members of [class OrbitalChannel] ([lfac] is never used). *)
Record t := Build {
  C : cube.t;        (* orbital coefficients: (nbf, nmo, lmax+1) *)
  E : mat.t;         (* orbital energies: (nmo, lmax+1) *)
  occs : ivec.t;     (* occupations per l channel *)
  restr : bool;      (* restricted occupations? *)
  lmax : Z           (* maximum angular channel *)
}.

(** [OrbitalChannel(bool restr_)]: no orbitals, no occupations, [lmax = -1]. *)
Definition create (restr_ : bool) : t :=
  Build (cube.Cube 0 0 []) (mat.Mat 0 0 []) [] restr_ (-1).

Definition SetRestricted (ch : t) (restr_ : bool) : t :=
  Build (C ch) (E ch) (occs ch) restr_ (lmax ch).

Definition Lmax (ch : t) : Z := lmax ch.

Definition Coeffs (ch : t) : cube.t := C ch.

Definition SetLmax (ch : t) (lmax_ : Z) : t :=
  Build (C ch) (E ch) (occs ch) (restr ch) lmax_.

Definition SetOccs (ch : t) (occs_ : ivec.t) : t :=
  Build (C ch) (E ch) occs_ (restr ch) (lmax ch).

Definition ShellCapacity (ch : t) (l : Z) : Z :=
  if restr ch then 4 * l + 2 else 2 * l + 1.

Definition Restricted (ch : t) : bool := restr ch.

Definition OrbitalsInitialized (ch : t) : bool :=
  if cube.n_elem (C ch) =? 0 then false else true.

Definition Nel (ch : t) : Z := ivec.sum (occs ch).

Definition OccupationsInitialized (ch : t) : bool := negb (Nel ch =? 0).

Definition Occs (ch : t) : ivec.t := occs ch.

Definition with_orbitals (ch : t) (C_ : cube.t) (E_ : mat.t) : t :=
  Build C_ E_ (occs ch) (restr ch) (lmax ch).

(** The inner loop of [GetOccupied] for channel [l], over the rows [ios] of
    the energy table; [E(io,l)] is in bounds by the loop tests. *)
Fixpoint occupied_shells (ch : t) (l numl : Z) (ios : list Z)
    (occlist : list shell_occupation_t.t) : list shell_occupation_t.t :=
  match ios with
  | [] => occlist
  | io :: ios' =>
      let nocc := Z.min (ShellCapacity ch l) numl in
      if nocc =? 0 then occlist   (* break *)
      else
        let sh := shell_occupation_t.Build (to_int (uword (l + io + 1))) (to_int l)
                                           (mat.get (E ch) io l) (to_int nocc) in
        occupied_shells ch l (numl - nocc) ios' (occlist ++ [sh])
  end.

(** [GetOccupied]. [std::sort] is the standard library's: the model takes it
    as the argument [sort]. *)
Definition GetOccupied
    (sort : list shell_occupation_t.t → list shell_occupation_t.t) (ch : t)
  : outcome (list shell_occupation_t.t) :=
  (* Form list of shells *)
  occlist ← for_each (seqZ 0 (mat.n_cols (E ch))) (λ l occlist,
      (* Number of electrons to put in *)
      numl ← ivec.at_ (occs ch) l;
      Ok (occupied_shells ch l numl (seqZ 0 (mat.n_rows (E ch))) occlist)) [];
  Ok (sort occlist).

(** The inner loop of [GetGap] for channel [l]: the value it assigns to
    [gap(l)], if it assigns one. *)
Fixpoint gap_of (ch : t) (l numl : Z) (ios : list Z) : option float :=
  match ios with
  | [] => None
  | io :: ios' =>
      let nocc := Z.min (ShellCapacity ch l) numl in
      if nocc =? 0 then
        Some (if io =? 0
              then mat.get (E ch) io l   (* gap is just orbital energy *)
              else (* gap is orbital energy difference *)
                (mat.get (E ch) io l - mat.get (E ch) (io - 1) l)%float)
      else gap_of ch l (numl - nocc) ios'
  end.

Definition GetGap (ch : t) : outcome (list (option float)) :=
  gap ← col.unset (mat.n_cols (E ch));
  for_each (seqZ 0 (mat.n_cols (E ch))) (λ l gap,
    (* Number of electrons to put in *)
    numl ← ivec.at_ (occs ch) l;
    match gap_of ch l numl (seqZ 0 (mat.n_rows (E ch))) with
    | Some g => Ok (<[Z.to_nat l := Some g]> gap)
    | None => Ok gap
    end) gap.

(** The loop of [operator==] over the indices [idx]. *)
Fixpoint eq_loop (occs rh_occs : ivec.t) (idx : list Z) : outcome bool :=
  match idx with
  | [] => Ok true
  | i :: idx' =>
      x ← ivec.at_ occs i;
      y ← ivec.at_ rh_occs i;
      if negb (x =? y) then Ok false else eq_loop occs rh_occs idx'
  end.

(** [operator==(const OrbitalChannel &)]. *)
Definition eq (ch rh : t) : outcome bool :=
  if negb (Z.of_nat (length (occs ch)) =? Z.of_nat (length (occs rh)))
  then Ok false
  else eq_loop (occs ch) (occs rh) (seqZ 0 (Z.of_nat (length (occs ch)))).

(** The counting loop of [CountOccupied]: [nsh] runs up to [C.n_cols]. *)
Fixpoint count_shells (cap numl : Z) (left : nat) (nsh : Z) : Z :=
  match left with
  | O => nsh
  | S left' =>
      let nocc := Z.min cap numl in
      if nocc =? 0 then nsh   (* break *)
      else count_shells cap (numl - nocc) left' (nsh + 1)
  end.

Definition CountOccupied (ch : t) (l : Z) : outcome Z :=
  (* Count occupied shells *)
  numl ← ivec.at_ (occs ch) l;
  Ok (count_shells (ShellCapacity ch l) numl (Z.to_nat (cube.n_cols (C ch))) 0).

(** [E.resize(F.n_rows, lmax+1); C.resize(F.n_rows, F.n_rows, lmax+1);] *)
Definition resize_orbitals (F : cube.t) (ch : t) : outcome t :=
  E' ← mat.resize (E ch) (cube.n_rows F) (uword (lmax ch + 1));
  C' ← cube.resize (C ch) (cube.n_rows F) (cube.n_rows F) (lmax ch + 1);
  Ok (with_orbitals ch C' E').

(** [eig_gsym(El, C.slice(l), Fl, Sinvh); E.col(l) = El;] *)
Definition diagonalize `{Numerics} (Fl Sinvh : mat.t) (l : Z) (ch : t) : outcome t :=
  let '(El, Cl) := eig_gsym Fl Sinvh in
  C' ← cube.set_slice (C ch) l Cl;
  E' ← mat.set_col (E ch) l El;
  Ok (with_orbitals ch C' E').

Definition UpdateOrbitals `{Numerics} (F : cube.t) (Sinvh : mat.t) (ch : t)
  : outcome t :=
  ch ← resize_orbitals F ch;
  for_range 0 (lmax ch) (λ l ch,
    Fl ← cube.slice F l;
    diagonalize Fl Sinvh l ch) ch.

(** [UpdateOrbitalsDamped]. With [nsh ≥ 1] occupied shells out of [nmo],
    [linspace<uvec>(0, nsh-1, nsh)] is [0 .. nsh-1] and
    [linspace<uvec>(nsh, nmo-1, nmo-nsh)] is [nsh .. nmo-1], empty when
    [nsh = nmo]. *)
Definition UpdateOrbitalsDamped `{Numerics} (F : cube.t) (Sinvh S : mat.t)
    (dampov : float) (ch : t) : outcome t :=
  ch ← resize_orbitals F ch;
  for_range 0 (lmax ch) (λ l ch,
    (* Fock matrix *)
    Fl ← cube.slice F l;
    nsh ← CountOccupied ch l;
    Fl ← (if negb (nsh =? 0) then
            Cl ← cube.slice (C ch) l;
            (* Go to MO basis *)
            let Fmo :=
              mat_mul (mat_mul (mat_mul (mat_mul (mat_trans Cl) S) Fl) S) Cl in
            let nmo := cube.n_cols (C ch) in
            let oidx := seqZ 0 nsh in
            let vidx := seqZ nsh (nmo - nsh) in
            (* Damp OV blocks *)
            Fmo ← mat.scale_elems Fmo oidx vidx dampov;
            Fmo ← mat.scale_elems Fmo vidx oidx dampov;
            (* Recreate Fock matrix *)
            Ok (mat_mul (mat_mul Cl Fmo) (mat_trans Cl))
          else Ok Fl);
    diagonalize Fl Sinvh l ch) ch.

Definition UpdateOrbitalsShifted `{Numerics} (F : cube.t) (Sinvh S : mat.t)
    (shift : float) (ch : t) : outcome t :=
  ch ← resize_orbitals F ch;
  for_range 0 (lmax ch) (λ l ch,
    (* Fock matrix *)
    Fl ← cube.slice F l;
    (* Count occupied shells *)
    nsh ← CountOccupied ch l;
    if negb (nsh =? 0) then
      (* Apply level shift to virtual orbitals *)
      Cl ← cube.slice (C ch) l;
      Cv ← mat.cols Cl nsh (uword (cube.n_cols (C ch) - 1));
      (* Shift matrix *)
      let shmat :=
        mat_mul (mat_mul (mat_mul (mat_scale shift S) Cv) (mat_trans Cv)) S in
      (* Update orbitals *)
      diagonalize (mat_add Fl shmat) Sinvh l ch
    else
      diagonalize Fl Sinvh l ch) ch.

(** The inner loop of [UpdateDensity] for channel [l], over the columns
    [ios] of [C.slice(l)]. *)
Fixpoint density_shells `{Numerics} (ch : t) (l numl : Z) (ios : list Z)
    (Pl : cube.t) : outcome cube.t :=
  match ios with
  | [] => Ok Pl
  | io :: ios' =>
      let nocc := Z.min (ShellCapacity ch l) numl in
      Pll ← cube.slice Pl l;
      Cl ← cube.slice (C ch) l;
      c ← mat.col Cl io;
      let c := mat.of_col c in
      Pl' ← cube.set_slice Pl l
              (mat_add Pll (mat_mul (mat_scale (of_sword nocc) c) (mat_trans c)));
      if nocc =? 0 then Ok Pl'   (* break *)
      else density_shells ch l (numl - nocc) ios' Pl'
  end.

Definition UpdateDensity `{Numerics} (ch : t) : outcome cube.t :=
  Pl ← cube.zeros (cube.n_rows (C ch)) (cube.n_rows (C ch)) (lmax ch + 1);
  for_range 0 (lmax ch) (λ l Pl,
    (* Number of electrons to put in *)
    numl ← ivec.at_ (occs ch) l;
    density_shells ch l numl (seqZ 0 (cube.n_cols (C ch))) Pl) Pl.

(** The inner loop of [AngularDensity] for channel [l]. *)
Fixpoint angular_shells `{Numerics} (ch : t) (l numl : Z) (ios : list Z)
    (P : cube.t) : outcome cube.t :=
  match ios with
  | [] => Ok P
  | io :: ios' =>
      let nocc := Z.min (ShellCapacity ch l) numl in
      if nocc =? 0 then Ok P   (* break *)
      else
        (* Fractional occupation is *)
        let fracocc := PrimFloat.div (PrimFloat.mul (of_sword nocc) 1)
                                     (of_sword (ShellCapacity ch l)) in
        Pl ← cube.slice P l;
        Cl ← cube.slice (C ch) l;
        c ← mat.col Cl io;
        let c := mat.of_col c in
        P' ← cube.set_slice P l
               (mat_add Pl (mat_mul (mat_scale fracocc c) (mat_trans c)));
        angular_shells ch l (numl - nocc) ios' P'
  end.

Definition AngularDensity `{Numerics} (ch : t) : outcome cube.t :=
  P ← cube.zeros (cube.n_rows (C ch)) (cube.n_rows (C ch)) (lmax ch + 1);
  for_range 0 (lmax ch) (λ l P,
    (* Number of electrons to put in *)
    numl ← ivec.at_ (occs ch) l;
    angular_shells ch l numl (seqZ 0 (cube.n_cols (C ch))) P) P.

(** One pass of the innermost loop body of [MoveElectrons]. *)
Definition move (ch : t) (shell_from shell_to nmove : Z) (ret : list t)
  : outcome (list t) :=
  have ← ivec.at_ (occs ch) shell_from;
  if have <? nmove then Ok ret   (* continue *)
  else
    o1 ← ivec.add_at (occs ch) shell_from (- nmove);
    o2 ← ivec.add_at o1 shell_to nmove;
    Ok (ret ++ [SetOccs ch o2]).

Definition MoveElectrons (ch : t) : outcome (list t) :=
  ret ← for_range 0 (lmax ch) (λ shell_from,
           for_range 0 (lmax ch) (λ shell_to,
             for_range 1 (Z.min (ShellCapacity ch shell_from)
                                (ShellCapacity ch shell_to))
                       (λ nmove, move ch shell_from shell_to nmove))) [];
  if bool_decide (length ret = 0%nat)
  then z ← ivec.zeros (lmax ch + 1); Ok [SetOccs ch z]   (* dummy list *)
  else Ok ret.

(** The filling loop of [AufbauOccupations] over the shells in increasing
    energy, [lval] holding the angular momentum of each. *)
Fixpoint aufbau_fill (ch : t) (lval : list Z) (occs : ivec.t) (numel : Z)
  : outcome ivec.t :=
  match lval with
  | [] => Ok occs
  | l :: lval' =>
      (* Number of electrons to occupy shell with *)
      let nocc := Z.min (ShellCapacity ch l) numel in
      occs' ← ivec.add_at occs l nocc;
      let numel' := numel - nocc in
      if numel' =? 0 then Ok occs'   (* break *)
      else aufbau_fill ch lval' occs' numel'
  end.

(** [AufbauOccupations]. [arma::sort_index(El, "ascend")] is Armadillo's:
    the model takes it as the argument [sort_index]. *)
Definition AufbauOccupations (sort_index : list float → list Z)
    (numel : Z) (ch : t) : outcome t :=
  (* Number of radial solutions *)
  let Nrad := mat.n_rows (E ch) in
  (* Collect energies *)
  let El0 := replicate (Z.to_nat (mat.n_elem (E ch))) 0%float in
  let lval0 := replicate (Z.to_nat (mat.n_elem (E ch))) 0 in
  '(El, lval) ← for_each (seqZ 0 (mat.n_cols (E ch))) (λ l '(El, lval),
      col_l ← mat.col (E ch) l;
      El' ← col.set_subvec El (uword (l * Nrad)) (uword ((l + 1) * Nrad - 1)) col_l;
      lval' ← col.set_subvec lval (uword (l * Nrad)) (uword ((l + 1) * Nrad - 1))
                             (replicate (Z.to_nat Nrad) l);
      Ok (El', lval')) (El0, lval0);
  (* Sort in increasing energy *)
  let idx := sort_index El in
  El ← col.elem El idx;
  lval ← col.elem lval idx;
  (* Fill in electrons to shells *)
  occs0 ← ivec.zeros (lmax ch + 1);
  occs' ← aufbau_fill ch lval occs0 numel;
  Ok (SetOccs ch occs').

(** The number of electrons all shells of the energy table hold together:
    [Nrad] shells in each channel [0..lmax]. *)
Definition total_capacity (ch : t) : Z :=
  sum_over (λ l, mat.n_rows (E ch) * ShellCapacity ch l) (seqZ 0 (lmax ch + 1)).

(** The angular momenta collected by [AufbauOccupations] before sorting:
    [Nrad] copies of each [l]. *)
Definition shell_labels (Nrad : nat) (ncols : Z) : list Z :=
  l ← seqZ 0 ncols; replicate Nrad l.

(** What the specification asks of the list [MoveElectrons] returns. *)
Definition preserves_count (ch : t) (ret : list t) : Prop :=
  ∀ c, c ∈ ret → Nel c = Nel ch.
Definition has_identity (ch : t) (ret : list t) : Prop :=
  ∃ c, c ∈ ret ∧ occs c = occs ch.

(** Shell [io] of channel [l] as [GetOccupied] lists it when the channel
    holds [numl] electrons: what the shells below leave of them, up to the
    capacity. *)
Definition listed_shell (ch : t) (l numl io : Z) : shell_occupation_t.t :=
  shell_occupation_t.Build (l + io + 1) l (mat.get (E ch) io l)
    (Z.min (ShellCapacity ch l) (numl - io * ShellCapacity ch l)).

(** The occupations of [ch] with [nmove] electrons taken from channel
    [shell_from] and given to channel [shell_to]. *)
Definition moved (ch : t) (shell_from shell_to nmove : Z) : ivec.t :=
  let o1 := <[Z.to_nat shell_from := occs ch !!! Z.to_nat shell_from - nmove]> (occs ch) in
  <[Z.to_nat shell_to := o1 !!! Z.to_nat shell_to + nmove]> o1.

(** A trial channel of [MoveElectrons]: the channel [ch] itself but for the
    occupations, which are those of [ch] with up to a whole shell of
    electrons that [ch] has moved from one channel to another. *)
Definition trial_of (ch c : t) : Prop :=
  C c = C ch ∧ E c = E ch ∧ restr c = restr ch ∧ lmax c = lmax ch ∧
  (occs c = occs ch ∨
   ∃ shell_from shell_to nmove,
     0 ≤ shell_from ≤ lmax ch ∧ 0 ≤ shell_to ≤ lmax ch ∧
     1 ≤ nmove ≤ Z.min (ShellCapacity ch shell_from) (ShellCapacity ch shell_to) ∧
     nmove ≤ occs ch !!! Z.to_nat shell_from ∧
     occs c = moved ch shell_from shell_to nmove).

(** Some angular channel holds an electron. *)
Definition populated (ch : t) : Prop :=
  ∃ l, 0 ≤ l < lmax ch + 1 ∧ 1 ≤ occs ch !!! Z.to_nat l.

(** What a partial result list satisfies all along the three loops of
    [MoveElectrons]. *)
Definition sound (ch : t) (ret : list t) : Prop :=
  preserves_count ch ret ∧ (ret = [] ∨ populated ch).

(** The share of the capacity of a shell list that lies in channel [l]. *)
Definition capacity_in (ch : t) (l : Z) (lval : list Z) : Z :=
  sum_over (λ x, if bool_decide (x = l) then ShellCapacity ch x else 0) lval.

(** What the [i]-th shell of the list [lval] is given when [numel]
    electrons are handed out in the order of the list: what the shells
    before it leave, up to its capacity. *)
Definition share (ch : t) (lval : list Z) (numel : Z) (i : nat) : Z :=
  Z.min (ShellCapacity ch (lval !!! i))
        (Z.max 0 (numel - sum_over (ShellCapacity ch) (take i lval))).

(** The electrons that the shells of channel [l] are given together. *)
Definition share_in (ch : t) (l : Z) (lval : list Z) (numel : Z) : Z :=
  sum_over (λ i, if bool_decide (lval !!! i = l) then share ch lval numel i else 0)
           (seq 0 (length lval)).

(** The electrons that shell [io] of channel [l] holds when the shells of
    the channel are filled one after the other. *)
Definition held (ch : t) (l io : Z) : Z :=
  Z.max 0 (Z.min (ShellCapacity ch l)
                 (occs ch !!! Z.to_nat l - io * ShellCapacity ch l)).

(** The number of shells of channel [l] that hold electrons, as far as there
    are orbitals. *)
Definition filled_shells (ch : t) (l : Z) : Z :=
  Z.min (cube.n_cols (C ch))
        ((occs ch !!! Z.to_nat l + ShellCapacity ch l - 1) / ShellCapacity ch l).

(** [P + (w · c) cᵀ] for the orbital [c = C.slice(l).col(io)]. *)
Definition add_shell `{Numerics} (ch : t) (l : Z) (w : Z → float) (P : mat.t) (io : Z)
  : mat.t :=
  let c := mat.of_col (mat.col_of (cube.slices (C ch) !!! Z.to_nat l) io) in
  mat_add P (mat_mul (mat_scale (w io) c) (mat_trans c)).

(** The sizes and occupations that an orbital refresh leaves alone. *)
Definition same_shape (a b : t) : Prop :=
  occs a = occs b ∧ restr a = restr b ∧ lmax a = lmax b ∧
  cube.n_rows (C a) = cube.n_rows (C b) ∧ cube.n_cols (C a) = cube.n_cols (C b) ∧
  length (cube.slices (C a)) = length (cube.slices (C b)) ∧
  mat.n_rows (E a) = mat.n_rows (E b) ∧ mat.n_cols (E a) = mat.n_cols (E b).

(** The energy table holds as many entries as its sizes say. *)
Definition stored (a : t) : Prop :=
  length (mat.mem (E a)) = Z.to_nat (mat.n_rows (E a) * mat.n_cols (E a)).

(** Channel [l] holds the eigenpairs of the plain [F.slice(l)]. *)
Definition slot_refreshed `{Numerics} (F : cube.t) (Sinvh : mat.t) (st : t) (l : Z)
  : Prop :=
  cube.in_bounds F l = true ∧ 0 ≤ l < mat.n_cols (E st) ∧
  cube.slices (C st) !! Z.to_nat l
    = Some (eig_gsym (cube.slices F !!! Z.to_nat l) Sinvh).2 ∧
  mat.col_of (E st) l = (eig_gsym (cube.slices F !!! Z.to_nat l) Sinvh).1.

(** The channels other than [l] are as they were. *)
Definition slots_kept (st st' : t) (l : Z) : Prop :=
  ∀ l', 0 ≤ l' → l' ≠ l →
    cube.slices (C st') !! Z.to_nat l' = cube.slices (C st) !! Z.to_nat l' ∧
    mat.col_of (E st') l' = mat.col_of (E st) l'.

End OrbitalChannel.

(** ** Configurations *)

(** The members are those [solver.cpp] reads and writes ([Fl], [Pl] and
    [converged]; the header [solver.h] predates them). *)
Module rconf.
Record t := Build {
  orbs : OrbitalChannel.t;   (* orbitals *)
  Fl : cube.t;               (* Fock matrices per l *)
  Pl : cube.t;               (* densities per l *)
  Econf : float;             (* total energy of configuration *)
  Ekin : float;              (* kinetic energy *)
  Epot : float;              (* potential energy *)
  Ecoul : float;             (* Coulomb repulsion energy *)
  Exc : float;               (* exchange-correlation energy *)
  converged : bool
}.

(** [operator<(const rconf_t &, const rconf_t &)]. *)
Definition lt (lh rh : t) : bool :=
  (* Sort first by convergence *)
  if converged lh && negb (converged rh) then true
  else if converged rh && negb (converged lh) then false
  else PrimFloat.ltb (Econf lh) (Econf rh).

(** [operator==(const rconf_t &, const rconf_t &)]. *)
Definition eq (lh rh : t) : outcome bool := OrbitalChannel.eq (orbs lh) (orbs rh).
End rconf.

Module uconf.
Record t := Build {
  orbsa : OrbitalChannel.t;
  orbsb : OrbitalChannel.t;
  Fal : cube.t;
  Fbl : cube.t;
  Pal : cube.t;
  Pbl : cube.t;
  Econf : float;
  Ekin : float;
  Epot : float;
  Ecoul : float;
  Exc : float;
  converged : bool
}.

(** [operator<(const uconf_t &, const uconf_t &)]. *)
Definition lt (lh rh : t) : bool :=
  (* Sort first by convergence *)
  if converged lh && negb (converged rh) then true
  else if converged rh && negb (converged lh) then false
  else PrimFloat.ltb (Econf lh) (Econf rh).

(** [operator==(const uconf_t &, const uconf_t &)]. *)
Definition eq (lh rh : t) : outcome bool :=
  a ← OrbitalChannel.eq (orbsa lh) (orbsa rh);
  if a : bool then OrbitalChannel.eq (orbsb lh) (orbsb rh) else Ok false.
End uconf.

(** ** The SCF solver *)

(** [M_PI]. *)
Definition M_PI : float := 0x1.921fb54442d18p+1%float.

Definition is_meta `{BasisProvider} (x_func c_func : Z) : bool :=
  let '(ggax, mggatx, mggalx) := is_gga_mgga x_func in
  let '(ggac, mggatc, mggalc) := is_gga_mgga c_func in
  mggatx || mggatc || mggalx || mggalc.

Definition shell_not_found : exn := logic_error ("Shell not found!" +:+ endl).

(** What [Solve] hands back: the number of passes of the SCF loop that were
    started, whether the line [*** Not converged ...] was printed, and the
    energy and configuration it returns with, or the exception it throws. *)
Record solve_result (conf : Type) := SolveResult {
  iterations : Z;
  reported : bool;
  returned : outcome (float * conf)
}.
Arguments SolveResult {conf}.
Arguments iterations {conf}.
Arguments reported {conf}.
Arguments returned {conf}.

(** Passes started when the loop [for(iscf=1; iscf<=maxit; iscf++)] is left
    with the counter at [iscf]: by [break] or a throw inside pass [iscf], or
    by the loop test failing. *)
Definition passes (maxit iscf : Z) : Z :=
  if maxit <? iscf then iscf - 1 else iscf.

Module SCFSolver.

(** The data members of [class SCFSolver] that are numbers and matrices.
    The basis set and the integration grids are collaborators. *)
Record t := Build {
  lmax : Z;           (* maximum l value *)
  S : mat.t;          (* overlap matrix *)
  Sinvh : mat.t;      (* half-inverse overlap *)
  T : mat.t;          (* kinetic energy, l-independent part *)
  Tl : mat.t;         (* kinetic energy, l-dependent part *)
  Vnuc : mat.t;       (* nuclear attraction *)
  H0 : mat.t;         (* core Hamiltonian *)
  x_func : Z;         (* exchange functional *)
  c_func : Z;         (* correlation functional *)
  x_pars : list float;
  c_pars : list float;
  maxit : Z;          (* maximum number of SCF iterations *)
  shift : float;      (* level shift *)
  convthr : float;    (* SCF convergence threshold *)
  dftthr : float;     (* DFT density threshold *)
  diiseps : float;    (* start mixing in DIIS when error smaller than *)
  diisthr : float;    (* use DIIS exclusively when error smaller than *)
  diisorder : Z       (* number of matrices to keep in memory *)
}.

(** [SuperMat]: [lmax+1] copies of [M] on the diagonal. *)
Definition SuperMat (sv : t) (M : mat.t) : outcome mat.t :=
  superM ← mat.zeros (uword (mat.n_rows M * (lmax sv + 1)))
                     (uword (mat.n_cols M * (lmax sv + 1)));
  for_range 0 (lmax sv) (λ l superM,
    mat.set_submat superM
      (uword (l * mat.n_rows M)) (uword (l * mat.n_cols M))
      (uword ((l + 1) * mat.n_rows M - 1)) (uword ((l + 1) * mat.n_cols M - 1))
      M) superM.

(** [SuperCube]: the slices of [M] on the diagonal. *)
Definition SuperCube (sv : t) (M : cube.t) : outcome mat.t :=
  Msuper ← mat.zeros (uword (cube.n_rows M * (lmax sv + 1)))
                     (uword (cube.n_cols M * (lmax sv + 1)));
  for_range 0 (lmax sv) (λ l Msuper,
    Ml ← cube.slice M l;
    mat.set_submat Msuper
      (uword (l * cube.n_rows M)) (uword (l * cube.n_cols M))
      (uword ((l + 1) * cube.n_rows M - 1)) (uword ((l + 1) * cube.n_cols M - 1))
      Ml) Msuper.

(** The entries of the block-diagonal matrix whose first [k] diagonal
    blocks are the [n×n] matrices [blocks], the rest being zero. *)
Definition block_diagonal (n : Z) (blocks : list mat.t) (k : Z) (i j : Z) : float :=
  if bool_decide (i / n = j / n ∧ i / n < k)
  then mat.get (blocks !!! Z.to_nat (i / n)) (i mod n) (j mod n)
  else 0%float.

(** Unsigned division; dividing by zero kills the process. *)
Definition udiv (a b : Z) : outcome Z :=
  if b =? 0 then Throw (fault "integer division by zero") else Ok (a / b).

(** [MiniMat]: the diagonal blocks of [Msuper] as slices. *)
Definition MiniMat (sv : t) (Msuper : mat.t) : outcome cube.t :=
  r ← udiv (mat.n_rows Msuper) (uword (lmax sv + 1));
  c ← udiv (mat.n_cols Msuper) (uword (lmax sv + 1));
  M ← cube.zeros r c (lmax sv + 1);
  for_range 0 (lmax sv) (λ l M,
    block ← mat.submat Msuper
      (uword (l * cube.n_rows M)) (uword (l * cube.n_cols M))
      (uword ((l + 1) * cube.n_rows M - 1)) (uword ((l + 1) * cube.n_cols M - 1));
    cube.set_slice M l block) M.

Definition TotalDensity `{Numerics} (Pl : cube.t) : outcome mat.t :=
  P ← cube.slice Pl 0;
  for_each (seqZ 1 (cube.n_slices Pl - 1)) (λ l P,
    Pll ← cube.slice Pl l; Ok (mat_add P Pll)) P.

Definition ReplicateCube (sv : t) (M : mat.t) : outcome cube.t :=
  Msuper ← cube.zeros (mat.n_rows M) (mat.n_cols M) (lmax sv + 1);
  for_range 0 (lmax sv) (λ l Msuper, cube.set_slice Msuper l M) Msuper.

Definition KineticCube `{Numerics} (sv : t) : outcome cube.t :=
  (* Kinetic energy l factors *)
  Tc ← cube.zeros (mat.n_rows (T sv)) (mat.n_cols (T sv)) (lmax sv + 1);
  for_range 0 (lmax sv) (λ l Tc,
    cube.set_slice Tc l (mat_scale (of_sword (l * (l + 1))) (Tl sv))) Tc.

(** [Initialize]: the orbitals of the core Hamiltonian. *)
Definition Initialize `{Numerics} (sv : t) (orbs : OrbitalChannel.t)
  : outcome OrbitalChannel.t :=
  let orbs := OrbitalChannel.SetLmax orbs (lmax sv) in
  H0c ← ReplicateCube sv (H0 sv);
  kc ← KineticCube sv;
  OrbitalChannel.UpdateOrbitals (cube_add H0c kc) (Sinvh sv) orbs.

Definition uses_dft (sv : t) : bool := (0 <? x_func sv) || (0 <? c_func sv).

Definition nonzero (x : float) : bool := negb (PrimFloat.eqb x 0).

(** [FockBuild(rconf_t &)]: the energy it returns and the configuration it
    leaves. *)
Definition FockBuild_r `{Numerics} `{BasisProvider} (sv : t) (conf : rconf.t)
  : outcome (float * rconf.t) :=
  (* Form density *)
  Pl ← OrbitalChannel.UpdateDensity (rconf.orbs conf);
  P ← TotalDensity Pl;
  (* Angular factor *)
  let angfac := (4 * M_PI)%float in
  (* Kinetic energy *)
  kc ← KineticCube sv;
  (* Compute energy *)
  Ekin ← for_range 0 (lmax sv) (λ l Ekin,
            Pll ← cube.slice Pl l;
            kcl ← cube.slice kc l;
            Ok (Ekin + trace (mat_mul Pll kcl))%float)
          (trace (mat_mul P (T sv)));
  let Epot := trace (mat_mul P (Vnuc sv)) in
  (* Form Coulomb matrix *)
  let J := coulomb (mat_div P angfac) in
  let Ecoul := (0.5 * trace (mat_mul P J))%float in
  (* Exchange-correlation *)
  '(XC, Exc) ←
    (if uses_dft sv then
       if is_meta (x_func sv) (c_func sv) then
         match full_density Pl with
         | None => Throw shell_not_found
         | Some Pfull =>
             let '(XCfull, Exc, nelnum, Ekin_) :=
               atgrid_eval_Fxc (x_func sv) (x_pars sv) (c_func sv) (c_pars sv)
                               Pfull (dftthr sv) in
             match make_m_average XCfull with
             | None => Throw shell_not_found
             | Some XC => Ok (XC, Exc)
             end
         end
       else
         let '(XCm, Exc, nelnum) :=
           grid_eval_Fxc (x_func sv) (x_pars sv) (c_func sv) (c_pars sv)
                         (mat_div P angfac) (dftthr sv) in
         (* Potential needs to be divided as well *)
         XC ← ReplicateCube sv (mat_div XCm angfac);
         Ok (XC, Exc)
     else Ok (cube.Cube 0 0 [], 0%float));
  (* Fraction of exact exchange *)
  let '(omega, kfrac, kshort) := range_separation (x_func sv) in
  let hybrid := nonzero kfrac || nonzero kshort in
  '(K, Exc) ←
    (if hybrid then
       K ← cube.zeros (mat.n_rows P) (mat.n_rows P) (lmax sv + 1);
       K ← (if nonzero kfrac then
              Pang ← OrbitalChannel.AngularDensity (rconf.orbs conf);
              Ok (cube_add K (cube_scale kfrac (exchange Pang)))
            else Ok K);
       K ← (if nonzero kshort then
              Pang ← OrbitalChannel.AngularDensity (rconf.orbs conf);
              Ok (cube_add K (cube_scale kshort (rs_exchange Pang)))
            else Ok K);
       Exx ← for_range 0 (lmax sv) (λ l Exx,
                Kl ← cube.slice K l;
                Pll ← cube.slice Pl l;
                Ok (Exx + 0.5 * trace (mat_mul Kl Pll))%float) 0%float;
       Ok (K, (Exc + Exx)%float)
     else Ok (cube.Cube 0 0 [], Exc));
  (* Fock matrices *)
  HJ ← ReplicateCube sv (mat_add (H0 sv) J);
  let Fl := cube_add HJ kc in
  let Fl := if hybrid then cube_add Fl K else Fl in
  let Fl := if uses_dft sv then cube_add Fl XC else Fl in
  (* Update energy *)
  let Econf := (Ekin + Epot + Ecoul + Exc)%float in
  Ok (Econf,
      rconf.Build (rconf.orbs conf) Fl Pl Econf Ekin Epot Ecoul Exc
                  (rconf.converged conf)).

(** [FockBuild(uconf_t &)]. *)
Definition FockBuild_u `{Numerics} `{BasisProvider} (sv : t) (conf : uconf.t)
  : outcome (float * uconf.t) :=
  (* Form density *)
  Pal ← OrbitalChannel.UpdateDensity (uconf.orbsa conf);
  Pbl ← OrbitalChannel.UpdateDensity (uconf.orbsb conf);
  let Pl := cube_add Pal Pbl in
  Pa ← TotalDensity Pal;
  Pb ← TotalDensity Pbl;
  let P := mat_add Pa Pb in
  (* Angular factor *)
  let angfac := (4 * M_PI)%float in
  (* Kinetic energy *)
  kc ← KineticCube sv;
  (* Compute energy *)
  Ekin ← for_range 0 (lmax sv) (λ l Ekin,
            Pll ← cube.slice Pl l;
            kcl ← cube.slice kc l;
            Ok (Ekin + trace (mat_mul Pll kcl))%float)
          (trace (mat_mul P (T sv)));
  let Epot := trace (mat_mul P (Vnuc sv)) in
  (* Form Coulomb matrix *)
  let J := coulomb (mat_div P angfac) in
  let Ecoul := (0.5 * trace (mat_mul P J))%float in
  (* Exchange-correlation *)
  '(XCa, XCb, Exc) ←
    (if is_meta (x_func sv) (c_func sv) then
       match full_density Pal, full_density Pbl with
       | Some Pafull, Some Pbfull =>
           let '(XCafull, XCbfull, Exc, nelnum, Ekin_) :=
             atgrid_eval_Fxc_ab (x_func sv) (x_pars sv) (c_func sv) (c_pars sv)
                                Pafull Pbfull true (dftthr sv) in
           match make_m_average XCafull, make_m_average XCbfull with
           | Some XCa, Some XCb => Ok (XCa, XCb, Exc)
           | _, _ => Throw shell_not_found
           end
       | _, _ => Throw shell_not_found
       end
     else
       let '(XCam, XCbm, Exc, nelnum) :=
         grid_eval_Fxc_ab (x_func sv) (x_pars sv) (c_func sv) (c_pars sv)
                          (mat_div Pa angfac) (mat_div Pb angfac) true (dftthr sv) in
       (* Potential needs to be divided as well *)
       XCa ← ReplicateCube sv (mat_div XCam angfac);
       XCb ← ReplicateCube sv (mat_div XCbm angfac);
       Ok (XCa, XCb, Exc));
  (* Fraction of exact exchange *)
  let '(omega, kfrac, kshort) := range_separation (x_func sv) in
  let hybrid := nonzero kfrac || nonzero kshort in
  '(Ka, Kb, Exc) ←
    (if hybrid then
       Ka ← cube.zeros (mat.n_rows P) (mat.n_rows P) (lmax sv + 1);
       Kb ← cube.zeros (mat.n_rows P) (mat.n_rows P) (lmax sv + 1);
       '(Ka, Kb) ← (if nonzero kfrac then
              Paang ← OrbitalChannel.AngularDensity (uconf.orbsa conf);
              Pbang ← OrbitalChannel.AngularDensity (uconf.orbsb conf);
              Ok (cube_add Ka (cube_scale kfrac (exchange Paang)),
                  cube_add Kb (cube_scale kfrac (exchange Pbang)))
            else Ok (Ka, Kb));
       '(Ka, Kb) ← (if nonzero kshort then
              Paang ← OrbitalChannel.AngularDensity (uconf.orbsa conf);
              Pbang ← OrbitalChannel.AngularDensity (uconf.orbsb conf);
              Ok (cube_add Ka (cube_scale kshort (rs_exchange Paang)),
                  cube_add Kb (cube_scale kshort (rs_exchange Pbang)))
            else Ok (Ka, Kb));
       Exx ← for_range 0 (lmax sv) (λ l Exx,
                Kal ← cube.slice Ka l;
                Pall ← cube.slice Pal l;
                Kbl ← cube.slice Kb l;
                Pbll ← cube.slice Pbl l;
                Ok (Exx + (0.5 * trace (mat_mul Kal Pall)
                           + 0.5 * trace (mat_mul Kbl Pbll)))%float) 0%float;
       Ok (Ka, Kb, (Exc + Exx)%float)
     else Ok (cube.Cube 0 0 [], cube.Cube 0 0 [], Exc));
  (* Fock matrices *)
  HJ ← ReplicateCube sv (mat_add (H0 sv) J);
  let Fal := cube_add HJ kc in
  let Fbl := Fal in
  let Fal := if hybrid then cube_add Fal Ka else Fal in
  let Fbl := if hybrid then cube_add Fbl Kb else Fbl in
  let Fal := if uses_dft sv then cube_add Fal XCa else Fal in
  let Fbl := if uses_dft sv then cube_add Fbl XCb else Fbl in
  (* Update energy *)
  let Econf := (Ekin + Epot + Ecoul + Exc)%float in
  Ok (Econf,
      uconf.Build (uconf.orbsa conf) (uconf.orbsb conf) Fal Fbl Pal Pbl
                  Econf Ekin Epot Ecoul Exc (uconf.converged conf)).

(** *** [Solve(rconf_t &)] *)

Definition orbitals_not_initialized : string :=
  "Orbitals not initialized!" +:+ endl.
Definition restricted_with_unrestricted : string :=
  "Running restricted calculation with unrestricted orbitals!" +:+ endl.
Definition unrestricted_with_restricted : string :=
  "Running unrestricted calculation with restricted orbitals!" +:+ endl.
Definition wrong_length : string :=
  "Occupation vector is of wrong length!" +:+ endl.

(** The messages of the [std::logic_error]s that [Solve] throws itself:
    the specification's InvalidState. *)
Definition InvalidState_r : list string :=
  [orbitals_not_initialized; restricted_with_unrestricted; wrong_length].
Definition InvalidState_u : list string :=
  [orbitals_not_initialized; wrong_length; unrestricted_with_restricted].

(** What Armadillo throws while [SuperMat] packs. *)
Definition packing_exn (e : exn) : Prop :=
  e = logic_error "arma::memory::acquire(): requested size is too large" ∨
  e = out_of_range "Mat::submat(): indices out of bounds or incorrectly used" ∨
  e = logic_error "copy into submatrix: incompatible matrix dimensions".

(** The checks [Solve(rconf_t &)] opens with. *)
Definition Solve_checks_r (sv : t) (conf : rconf.t) : outcome unit :=
  if negb (OrbitalChannel.OrbitalsInitialized (rconf.orbs conf))
  then Throw (logic_error orbitals_not_initialized)
  else if negb (OrbitalChannel.Restricted (rconf.orbs conf))
  then Throw (logic_error restricted_with_unrestricted)
  else if negb (Z.of_nat (length (OrbitalChannel.Occs (rconf.orbs conf)))
                =? uword (lmax sv + 1))
  then Throw (logic_error wrong_length)
  else Ok ().

(** The preconditions of [Solve(rconf_t &)], negated. *)
Definition violated_r (sv : t) (conf : rconf.t) : Prop :=
  OrbitalChannel.OrbitalsInitialized (rconf.orbs conf) = false ∨
  Z.of_nat (length (OrbitalChannel.Occs (rconf.orbs conf))) ≠ lmax sv + 1 ∨
  OrbitalChannel.Restricted (rconf.orbs conf) = false.

(** The variables of the SCF loop. [diiserr] is not initialized before the
    first [diis.update]. *)
Record rscf `{Accelerator} := RScf {
  r_conf : rconf.t;
  r_diis : rDIIS;
  r_E : float;
  r_diiserr : option float
}.
Arguments RScf {_} _ _ _ _.

(** One pass of the loop body, up to the test for [break]. *)
Definition iteration_r `{Numerics} `{BasisProvider} `{Accelerator}
    (sv : t) (st : rscf) : outcome rscf :=
  (* Form Fock matrix *)
  let Eold := r_E st in
  '(E, conf) ← FockBuild_r sv (r_conf st);
  let dE := (E - Eold)%float in
  (* Since Fock operator depends on the l channel, we need to create
     a supermatrix for DIIS. *)
  Fsuper ← SuperCube sv (rconf.Fl conf);
  (* Need density for DIIS as well *)
  Psuper ← SuperCube sv (rconf.Pl conf);
  (* Update DIIS *)
  let '(diis, diiserr) := rDIIS_update (r_diis st) Fsuper Psuper E in
  (* Have we converged? *)
  let converged :=
    PrimFloat.ltb diiserr (convthr sv) && PrimFloat.ltb (PrimFloat.abs dE) (convthr sv) in
  (* Solve DIIS to get Fock update *)
  let '(diis, Fsuper) := rDIIS_solve_F diis Fsuper in
  Fl ← MiniMat sv Fsuper;
  (* Update orbitals and density *)
  orbs ← (if PrimFloat.ltb (diisthr sv) diiserr
          then (* Since ADIIS is unreliable, we also use a level shift. *)
            OrbitalChannel.UpdateOrbitalsShifted Fl (Sinvh sv) (S sv) (shift sv)
                                                 (rconf.orbs conf)
          else OrbitalChannel.UpdateOrbitals Fl (Sinvh sv) (rconf.orbs conf));
  Ok (RScf (rconf.Build orbs Fl (rconf.Pl conf) (rconf.Econf conf)
                        (rconf.Ekin conf) (rconf.Epot conf) (rconf.Ecoul conf)
                        (rconf.Exc conf) converged)
           diis E (Some diiserr)).

(** [for(iscf=1; iscf<=maxit; iscf++) { ...; if(conf.converged) break; }]
    from the counter [iscf] with [left] passes to go; the result carries the
    counter on exit. *)
Fixpoint loop_r `{Numerics} `{BasisProvider} `{Accelerator}
    (sv : t) (left : nat) (iscf : Z) (st : rscf) : Z * outcome rscf :=
  match left with
  | O => (iscf, Ok st)
  | Datatypes.S left' =>
      match iteration_r sv st with
      | Throw e => (iscf, Throw e)
      | Ok st' =>
          if rconf.converged (r_conf st') then (iscf, Ok st')   (* break *)
          else loop_r sv left' (iscf + 1) st'
      end
  end.

(** The accelerator [Solve(rconf_t &)] starts from. *)
Definition start_r `{Accelerator} (sv : t) (conf : rconf.t) : outcome rscf :=
  SS ← SuperMat sv (S sv);
  SSinvh ← SuperMat sv (Sinvh sv);
  (* DIIS object. ADIIS doesn't work for (significant) fractional occupation *)
  let usediis := true in
  let useadiis := true in
  let verbose := false in
  Ok (RScf conf
        (rDIIS_new SS SSinvh usediis (diiseps sv) (diisthr sv) useadiis verbose
                   (diisorder sv))
        0%float None).

Definition Solve_r `{Numerics} `{BasisProvider} `{Accelerator}
    (sv : t) (conf : rconf.t) : solve_result rconf.t :=
  match Solve_checks_r sv conf with
  | Throw e => SolveResult 0 false (Throw e)
  | Ok _ =>
      match start_r sv conf with
      | Throw e => SolveResult 0 false (Throw e)
      | Ok st0 =>
          match loop_r sv (Z.to_nat (maxit sv)) 1 st0 with
          | (iscf, Throw e) => SolveResult (passes (maxit sv) iscf) false (Throw e)
          | (iscf, Ok st) =>
              SolveResult (passes (maxit sv) iscf)
                          (maxit sv <? iscf)   (* *** Not converged *** *)
                          (Ok (r_E st, r_conf st))
          end
      end
  end.

(** *** [Solve(uconf_t &)] *)

Definition Solve_checks_u (sv : t) (conf : uconf.t) : outcome unit :=
  if negb (OrbitalChannel.OrbitalsInitialized (uconf.orbsa conf))
  then Throw (logic_error orbitals_not_initialized)
  else if negb (OrbitalChannel.OrbitalsInitialized (uconf.orbsb conf))
  then Throw (logic_error orbitals_not_initialized)
  else if negb (Z.of_nat (length (OrbitalChannel.Occs (uconf.orbsa conf)))
                =? uword (lmax sv + 1))
  then Throw (logic_error wrong_length)
  else if negb (Z.of_nat (length (OrbitalChannel.Occs (uconf.orbsb conf)))
                =? uword (lmax sv + 1))
  then Throw (logic_error wrong_length)
  else if OrbitalChannel.Restricted (uconf.orbsa conf)
  then Throw (logic_error unrestricted_with_restricted)
  else if OrbitalChannel.Restricted (uconf.orbsb conf)
  then Throw (logic_error unrestricted_with_restricted)
  else Ok ().

(** The preconditions of [Solve(uconf_t &)], negated. *)
Definition violated_u (sv : t) (conf : uconf.t) : Prop :=
  OrbitalChannel.OrbitalsInitialized (uconf.orbsa conf) = false ∨
  OrbitalChannel.OrbitalsInitialized (uconf.orbsb conf) = false ∨
  Z.of_nat (length (OrbitalChannel.Occs (uconf.orbsa conf))) ≠ lmax sv + 1 ∨
  Z.of_nat (length (OrbitalChannel.Occs (uconf.orbsb conf))) ≠ lmax sv + 1 ∨
  OrbitalChannel.Restricted (uconf.orbsa conf) = true ∨
  OrbitalChannel.Restricted (uconf.orbsb conf) = true.

Record uscf `{Accelerator} := UScf {
  u_conf : uconf.t;
  u_diis : uDIIS;
  u_E : float;
  u_diiserr : option float
}.
Arguments UScf {_} _ _ _ _.

Definition iteration_u `{Numerics} `{BasisProvider} `{Accelerator}
    (sv : t) (st : uscf) : outcome uscf :=
  let Eold := u_E st in
  '(E, conf) ← FockBuild_u sv (u_conf st);
  let dE := (E - Eold)%float in
  (* Since Fock operator depends on the l channel, we need to create
     a supermatrix for DIIS. *)
  Fasuper ← SuperCube sv (uconf.Fal conf);
  Fbsuper ← SuperCube sv (uconf.Fbl conf);
  Pasuper ← SuperCube sv (uconf.Pal conf);
  Pbsuper ← SuperCube sv (uconf.Pbl conf);
  (* Update DIIS *)
  let '(diis, diiserr) := uDIIS_update (u_diis st) Fasuper Fbsuper Pasuper Pbsuper E in
  (* Have we converged? *)
  let converged :=
    PrimFloat.ltb diiserr (convthr sv) && PrimFloat.ltb (PrimFloat.abs dE) (convthr sv) in
  (* Solve DIIS to get Fock update *)
  let '(diis, Fasuper, Fbsuper) := uDIIS_solve_F diis Fasuper Fbsuper in
  Fal ← MiniMat sv Fasuper;
  Fbl ← MiniMat sv Fbsuper;
  (* Update orbitals and density *)
  '(orbsa, orbsb) ←
    (if PrimFloat.ltb (diisthr sv) diiserr
     then (* Since ADIIS is unreliable, we also use a level shift *)
       orbsa ← OrbitalChannel.UpdateOrbitalsShifted Fal (Sinvh sv) (S sv) (shift sv)
                                                    (uconf.orbsa conf);
       orbsb ← OrbitalChannel.UpdateOrbitalsShifted Fbl (Sinvh sv) (S sv) (shift sv)
                                                    (uconf.orbsb conf);
       Ok (orbsa, orbsb)
     else
       orbsa ← OrbitalChannel.UpdateOrbitals Fal (Sinvh sv) (uconf.orbsa conf);
       orbsb ← OrbitalChannel.UpdateOrbitals Fbl (Sinvh sv) (uconf.orbsb conf);
       Ok (orbsa, orbsb));
  Ok (UScf (uconf.Build orbsa orbsb Fal Fbl (uconf.Pal conf) (uconf.Pbl conf)
                        (uconf.Econf conf) (uconf.Ekin conf) (uconf.Epot conf)
                        (uconf.Ecoul conf) (uconf.Exc conf) converged)
           diis E (Some diiserr)).

Fixpoint loop_u `{Numerics} `{BasisProvider} `{Accelerator}
    (sv : t) (left : nat) (iscf : Z) (st : uscf) : Z * outcome uscf :=
  match left with
  | O => (iscf, Ok st)
  | Datatypes.S left' =>
      match iteration_u sv st with
      | Throw e => (iscf, Throw e)
      | Ok st' =>
          if uconf.converged (u_conf st') then (iscf, Ok st')   (* break *)
          else loop_u sv left' (iscf + 1) st'
      end
  end.

Definition start_u `{Accelerator} (sv : t) (conf : uconf.t) : outcome uscf :=
  (* S supermatrix *)
  SS ← SuperMat sv (S sv);
  SSinvh ← SuperMat sv (Sinvh sv);
  let combine := false in
  let usediis := true in
  let useadiis := true in
  let verbose := false in
  Ok (UScf conf
        (uDIIS_new SS SSinvh combine usediis (diiseps sv) (diisthr sv) useadiis
                   verbose (diisorder sv))
        0%float None).

Definition Solve_u `{Numerics} `{BasisProvider} `{Accelerator}
    (sv : t) (conf : uconf.t) : solve_result uconf.t :=
  match Solve_checks_u sv conf with
  | Throw e => SolveResult 0 false (Throw e)
  | Ok _ =>
      match start_u sv conf with
      | Throw e => SolveResult 0 false (Throw e)
      | Ok st0 =>
          match loop_u sv (Z.to_nat (maxit sv)) 1 st0 with
          | (iscf, Throw e) => SolveResult (passes (maxit sv) iscf) false (Throw e)
          | (iscf, Ok st) =>
              SolveResult (passes (maxit sv) iscf)
                          (maxit sv <? iscf)   (* *** Not converged *** *)
                          (Ok (u_E st, u_conf st))
          end
      end
  end.

End SCFSolver.

(** ** Sample data *)

Module sample.

Definition no_orbitals : cube.t := cube.Cube 0 0 [].
Definition no_energies : mat.t := mat.Mat 0 0 [].

(** A restricted channel with s and p shells holding two s electrons. *)
Definition two_s : OrbitalChannel.t :=
  OrbitalChannel.Build no_orbitals no_energies [2; 0] true 1.

Definition rconf_of (e : float) (c : bool) : rconf.t :=
  rconf.Build two_s no_orbitals no_orbitals e 0 0 0 0 c.
Definition uconf_of (e : float) (c : bool) : uconf.t :=
  uconf.Build two_s two_s no_orbitals no_orbitals no_orbitals no_orbitals
              e 0 0 0 0 c.

(** Index sort by insertion, earlier index first among equal keys: one
    admissible [arma::sort_index]. *)
Fixpoint insert_index (v : list float) (i : Z) (sorted : list Z) : list Z :=
  match sorted with
  | [] => [i]
  | j :: rest =>
      if PrimFloat.ltb (default 0%float (v !! Z.to_nat i))
                       (default 0%float (v !! Z.to_nat j))
      then i :: j :: rest
      else j :: insert_index v i rest
  end.
Definition sort_index (v : list float) : list Z :=
  foldl (λ sorted i, insert_index v i sorted) [] (seqZ 0 (Z.of_nat (length v))).

(** Two radial solutions in each of the s and p channels; the 2p level lies
    below the 2s level. *)
Definition levels : mat.t := mat.Mat 2 2 [-2; -0.5; -1; -0.25]%float.
Definition two_by_two : OrbitalChannel.t :=
  OrbitalChannel.Build no_orbitals levels [] true 1.

(** Textbook kernels on the column-major storage. *)
Definition dot (A B : mat.t) (i j : Z) : float :=
  foldl (λ acc k, acc + mat.get A i k * mat.get B k j)%float 0%float
        (seqZ 0 (mat.n_cols A)).

(** For a diagonal [F] and [Sinvh] the identity: the diagonal of [F] and the
    unit vectors. *)
Definition diagonal_eig (F Sinvh : mat.t) : list float * mat.t :=
  ((λ k, mat.get F k k) <$> seqZ 0 (mat.n_rows F), Sinvh).

#[export] Instance naive : Numerics := {|
  mat_add A B := mat.tabulate (mat.n_rows A) (mat.n_cols A)
                   (λ i j, mat.get A i j + mat.get B i j)%float;
  mat_mul A B := mat.tabulate (mat.n_rows A) (mat.n_cols B) (dot A B);
  mat_scale x A := mat.Mat (mat.n_rows A) (mat.n_cols A)
                     ((λ a, x * a)%float <$> mat.mem A);
  mat_div A x := mat.Mat (mat.n_rows A) (mat.n_cols A)
                   ((λ a, a / x)%float <$> mat.mem A);
  mat_trans A := mat.tabulate (mat.n_cols A) (mat.n_rows A) (λ i j, mat.get A j i);
  trace A := foldl (λ acc k, acc + mat.get A k k)%float 0%float
                   (seqZ 0 (mat.n_rows A));
  eig_gsym := diagonal_eig
|}.

(** No electron repulsion and no functional: the bare nucleus. *)
#[export] Instance bare : BasisProvider := {|
  coulomb P := mat.Mat (mat.n_rows P) (mat.n_cols P)
                 ((λ _, 0%float) <$> mat.mem P);
  exchange Q := Q;
  rs_exchange Q := Q;
  grid_eval_Fxc _ _ _ _ P _ := (P, 0%float, 0%float);
  grid_eval_Fxc_ab _ _ _ _ Pa Pb _ _ := (Pa, Pb, 0%float, 0%float);
  atgrid_eval_Fxc _ _ _ _ P _ := (P, 0%float, 0%float, 0%float);
  atgrid_eval_Fxc_ab _ _ _ _ Pa Pb _ _ := (Pa, Pb, 0%float, 0%float, 0%float);
  is_gga_mgga _ := (false, false, false);
  range_separation _ := (0%float, 0%float, 0%float);
  full_density _ := None;
  make_m_average _ := None
|}.

(** An accelerator that reports the error [err] and hands the Fock matrix
    back as it is. *)
Definition reporting (err : float) : Accelerator := {|
  rDIIS := unit;
  rDIIS_new _ _ _ _ _ _ _ _ := ();
  rDIIS_update d _ _ _ := (d, err);
  rDIIS_solve_F d F := (d, F);
  uDIIS := unit;
  uDIIS_new _ _ _ _ _ _ _ _ _ := ();
  uDIIS_update d _ _ _ _ _ := (d, err);
  uDIIS_solve_F d Fa Fb := (d, Fa, Fb)
|}.
#[export] Instance steady : Accelerator := reporting 0.

Definition identity2 : mat.t := mat.Mat 2 2 [1; 0; 0; 1]%float.

(** Two basis functions, channels [0..lmax]. *)
Definition solver_of (lmax maxit : Z) (convthr diisthr : float) : SCFSolver.t :=
  SCFSolver.Build lmax identity2 identity2
    (mat.Mat 2 2 [0.5; 0; 0; 2]%float) (mat.Mat 2 2 [0.5; 0; 0; 0.5]%float)
    (mat.Mat 2 2 [-2; 0; 0; -1]%float) (mat.Mat 2 2 [-1.5; 0; 0; 1]%float)
    0 0 [] [] maxit 0.25 convthr 0 0 diisthr 5.

(** Initialized orbitals for two channels, two electrons in the s channel. *)
Definition unit_orbitals : cube.t := cube.Cube 2 2 [identity2; identity2].
Definition ground : OrbitalChannel.t :=
  OrbitalChannel.Build unit_orbitals (mat.Mat 2 2 [-1.5; 1; -0.5; 2]%float)
                       [2; 0] true 1.
Definition ground_u : OrbitalChannel.t :=
  OrbitalChannel.Build unit_orbitals (mat.Mat 2 2 [-1.5; 1; -0.5; 2]%float)
                       [1; 0] false 1.

(** The Fock matrices of the bare nucleus in the two channels. *)
Definition fock : cube.t :=
  cube.Cube 2 2 [mat.Mat 2 2 [-1.5; 0; 0; 1]%float; mat.Mat 2 2 [-0.5; 0; 0; 2]%float].

Definition start : rconf.t :=
  rconf.Build ground no_orbitals no_orbitals 0 0 0 0 0 false.

(** Occupations for three channels, handed to a solver with two. *)
Definition three_channels : rconf.t :=
  rconf.Build (OrbitalChannel.SetOccs ground [2; 0; 0])
              no_orbitals no_orbitals 0 0 0 0 0 false.
Definition three_channels_u : uconf.t :=
  uconf.Build ground_u (OrbitalChannel.SetOccs ground_u [1; 0; 0])
              no_orbitals no_orbitals no_orbitals no_orbitals 0 0 0 0 0 false.
Definition start_u : uconf.t :=
  uconf.Build ground_u ground_u no_orbitals no_orbitals no_orbitals no_orbitals
              0 0 0 0 0 false.

(** Two 2x2 slices. *)
Definition two_slices : cube.t :=
  cube.Cube 2 2 [mat.Mat 2 2 [1; 2; 3; 4]%float; mat.Mat 2 2 [5; 6; 7; 8]%float].

(** Sorting by insertion with [operator<]: one admissible [std::sort]. *)
Fixpoint insert_shell (sh : shell_occupation_t.t) (sorted : list shell_occupation_t.t)
  : list shell_occupation_t.t :=
  match sorted with
  | [] => [sh]
  | x :: rest =>
      if shell_occupation_t.lt sh x then sh :: x :: rest
      else x :: insert_shell sh rest
  end.
Definition sort_shells (shells : list shell_occupation_t.t)
  : list shell_occupation_t.t :=
  foldr insert_shell [] shells.

(** Four s electrons and three p electrons on the two levels of each
    channel. *)
Definition filled : OrbitalChannel.t :=
  OrbitalChannel.Build no_orbitals levels [4; 3] true 1.

(** Orbitals refreshed, occupations not yet set. *)
Definition unoccupied : OrbitalChannel.t :=
  OrbitalChannel.Build no_orbitals levels [] true 1.

End sample.

(** * Properties *)

(** ** Loops *)

Lemma bind_Ok {A B} (m : outcome A) (k : A → outcome B) (b : B) :
  m ≫= k = Ok b ↔ ∃ a, m = Ok a ∧ k a = Ok b.
Proof.
  destruct m as [a|e]; simpl; split.
  - intros H. exists a. auto.
  - intros (a' & [= <-] & H). exact H.
  - discriminate.
  - intros (a' & [=] & _).
Qed.

(** Invariant rule: the invariant may mention the indices already visited. *)
Lemma for_each_inv_from {S : Type} (I : list Z → S → Prop)
    (body : Z → S → outcome S) (idx pre : list Z) (s : S) :
  I pre s →
  (∀ done i s, (pre ++ done) ++ [i] `prefix_of` pre ++ idx → I (pre ++ done) s →
     ∃ s', body i s = Ok s' ∧ I ((pre ++ done) ++ [i]) s') →
  ∃ s', for_each idx body s = Ok s' ∧ I (pre ++ idx) s'.
Proof.
  revert pre s. induction idx as [|i idx IH]; intros pre s Hpre Hstep.
  - exists s. rewrite app_nil_r. auto.
  - destruct (Hstep [] i s) as (s1 & Hb & Hs1).
    + rewrite app_nil_r. exists idx. by rewrite <- app_assoc.
    + by rewrite app_nil_r.
    + rewrite app_nil_r in Hs1.
      destruct (IH (pre ++ [i]) s1 Hs1) as (s2 & Hl & Hs2).
      * intros done j s' Hpref Hinv.
        rewrite <- (app_assoc pre [i] done) in Hinv.
        destruct (Hstep ([i] ++ done) j s') as (s3 & Hb3 & Hs3); auto.
        { rewrite <- !app_assoc in *. exact Hpref. }
        exists s3. split; [done|]. by rewrite <- (app_assoc pre [i] done).
      * exists s2. simpl. rewrite Hb. simpl. split; [done|].
        by rewrite <- app_assoc in Hs2.
Qed.

Lemma for_each_inv {S : Type} (I : list Z → S → Prop)
    (body : Z → S → outcome S) (idx : list Z) (s : S) :
  I [] s →
  (∀ done i s, done ++ [i] `prefix_of` idx → I done s →
     ∃ s', body i s = Ok s' ∧ I (done ++ [i]) s') →
  ∃ s', for_each idx body s = Ok s' ∧ I idx s'.
Proof. intros H0 Hstep. by apply (for_each_inv_from I body idx []). Qed.

Lemma prefix_snoc_elem {A} (done : list A) (i : A) (l : list A) :
  done ++ [i] `prefix_of` l → i ∈ l.
Proof. intros [k ->]. rewrite !elem_of_app, list_elem_of_singleton. auto. Qed.

(** ** Integer vectors *)

Lemma ivec_sum_insert (v : ivec.t) (i : nat) (x : Z) :
  (i < length v)%nat →
  ivec.sum (<[i := x]> v) = ivec.sum v - v !!! i + x.
Proof.
  unfold ivec.sum. rewrite list_lookup_total_alt. revert i.
  induction v as [|y v IH]; intros [|i] Hi; simpl in Hi; try lia.
  - change (foldr Z.add 0 (<[0%nat:=x]> (y :: v))) with (x + foldr Z.add 0 v).
    change (foldr Z.add 0 (y :: v)) with (y + foldr Z.add 0 v).
    change ((y :: v) !! 0%nat) with (Some y). simpl. lia.
  - change (foldr Z.add 0 (<[S i:=x]> (y :: v)))
      with (y + foldr Z.add 0 (<[i:=x]> v)).
    change (foldr Z.add 0 (y :: v)) with (y + foldr Z.add 0 v).
    change ((y :: v) !! S i) with (v !! i).
    rewrite IH by lia. lia.
Qed.

Lemma ivec_sum_replicate_zero (n : nat) : ivec.sum (replicate n 0) = 0.
Proof.
  unfold ivec.sum. induction n as [|n IH]; [done|].
  change (foldr Z.add 0 (replicate (S n) 0)) with (0 + foldr Z.add 0 (replicate n 0)).
  by rewrite IH.
Qed.

Lemma ivec_in_bounds_true (v : ivec.t) (i : Z) :
  0 ≤ i < Z.of_nat (length v) → ivec.in_bounds v i = true.
Proof. intros. unfold ivec.in_bounds. by rewrite bool_decide_eq_true. Qed.

(** ** Occupations *)

Lemma ShellCapacity_pos (ch : OrbitalChannel.t) (l : Z) :
  0 ≤ l → 1 ≤ OrbitalChannel.ShellCapacity ch l.
Proof.
  unfold OrbitalChannel.ShellCapacity. destruct (OrbitalChannel.restr ch); lia.
Qed.

Section MoveElectrons_facts.
Import OrbitalChannel.
Variable ch : OrbitalChannel.t.
Hypothesis Hlen : Z.of_nat (length (occs ch)) = lmax ch + 1.

Lemma has_identity_app (ret more : list t) :
  has_identity ch ret → has_identity ch (ret ++ more).
Proof. intros (c & Hc & Ho). exists c. rewrite elem_of_app. auto. Qed.

Lemma sound_nil : sound ch [].
Proof. split; [|by left]. intros c Hc. by apply elem_of_nil in Hc. Qed.

Lemma sound_snoc (ret : list t) (c : t) (l : Z) :
  sound ch ret → Nel c = Nel ch →
  0 ≤ l < lmax ch + 1 → 1 ≤ occs ch !!! Z.to_nat l →
  sound ch (ret ++ [c]).
Proof.
  intros [Hp _] Hn Hl H1. split.
  - intros c' Hc'. apply elem_of_app in Hc' as [Hc'|Hc']; [auto|].
    apply list_elem_of_singleton in Hc'. by subst.
  - right. by exists l.
Qed.

Lemma move_spec (shell_from shell_to nmove : Z) (ret : list t) :
  0 ≤ shell_from < lmax ch + 1 → 0 ≤ shell_to < lmax ch + 1 →
  ∃ ret', move ch shell_from shell_to nmove ret = Ok ret' ∧
    ((ret' = ret ∧ occs ch !!! Z.to_nat shell_from < nmove) ∨
     (∃ c, ret' = ret ++ [c] ∧ nmove ≤ occs ch !!! Z.to_nat shell_from ∧
           Nel c = Nel ch ∧ (shell_from = shell_to → occs c = occs ch))).
Proof.
  intros Hf Ht. unfold move, ivec.at_.
  rewrite ivec_in_bounds_true by lia. simpl.
  destruct (Z.ltb_spec (occs ch !!! Z.to_nat shell_from) nmove) as [Hlt|Hge].
  { eexists. split; [reflexivity|]. left. auto. }
  unfold ivec.add_at. rewrite ivec_in_bounds_true by lia. simpl.
  rewrite ivec_in_bounds_true by (rewrite length_insert; lia). simpl.
  eexists. split; [reflexivity|]. right. eexists. split; [reflexivity|].
  split; [done|]. split.
  - unfold Nel. simpl. rewrite !ivec_sum_insert by (rewrite ?length_insert; lia).
    lia.
  - intros <-. simpl.
    rewrite list_lookup_total_insert_eq by lia.
    rewrite list_insert_insert_eq.
    apply list_insert_id. rewrite list_lookup_lookup_total_lt by lia.
    f_equal. lia.
Qed.

Lemma move_loop_spec (shell_from shell_to m : Z) (ret0 : list t) :
  0 ≤ shell_from < lmax ch + 1 → 0 ≤ shell_to < lmax ch + 1 →
  sound ch ret0 →
  ∃ ret, for_range 1 m (λ nmove, move ch shell_from shell_to nmove) ret0 = Ok ret ∧
    sound ch ret ∧
    (has_identity ch ret0 → has_identity ch ret) ∧
    (shell_from = shell_to → 1 ≤ occs ch !!! Z.to_nat shell_from → 1 ≤ m →
     has_identity ch ret).
Proof.
  intros Hf Ht H0. unfold for_range.
  destruct (for_each_inv
    (λ done ret, sound ch ret ∧
       (has_identity ch ret0 → has_identity ch ret) ∧
       (shell_from = shell_to → 1 ≤ occs ch !!! Z.to_nat shell_from →
        1 ∈ done → has_identity ch ret))
    (λ nmove, move ch shell_from shell_to nmove) (seqZ 1 (m + 1 - 1)) ret0)
    as (ret & Hrun & Hp & Hmono & Hid).
  - split; [done|]. split; [done|]. intros _ _ Hin. by apply elem_of_nil in Hin.
  - intros done i ret Hpre (Hp & Hmono & Hid).
    apply prefix_snoc_elem, elem_of_seqZ in Hpre.
    destruct (move_spec shell_from shell_to i ret Hf Ht)
      as (ret' & Hmv & [[-> Hlt]|(c & -> & Hge & Hn & Hsame)]).
    + exists ret. split; [done|]. split; [done|]. split; [done|].
      intros Heq H1 Hin. apply elem_of_app in Hin as [Hin|Hin]; [auto|].
      apply list_elem_of_singleton in Hin. lia.
    + exists (ret ++ [c]). split; [done|]. split; [|split].
      * apply (sound_snoc ret c shell_from); auto. lia.
      * intros H. by apply has_identity_app, Hmono.
      * intros Heq H1 Hin. apply elem_of_app in Hin as [Hin|Hin].
        { by apply has_identity_app, Hid. }
        exists c. rewrite elem_of_app, list_elem_of_singleton. auto.
  - exists ret. split; [done|]. split; [done|]. split; [done|].
    intros Heq H1 Hm. apply Hid; auto. apply elem_of_seqZ. lia.
Qed.

Lemma move_to_loop_spec (shell_from : Z) (ret0 : list t) :
  0 ≤ shell_from < lmax ch + 1 →
  sound ch ret0 →
  ∃ ret, for_range 0 (lmax ch) (λ shell_to,
           for_range 1 (Z.min (ShellCapacity ch shell_from)
                              (ShellCapacity ch shell_to))
                     (λ nmove, move ch shell_from shell_to nmove)) ret0 = Ok ret ∧
    sound ch ret ∧
    (has_identity ch ret0 → has_identity ch ret) ∧
    (1 ≤ occs ch !!! Z.to_nat shell_from → has_identity ch ret).
Proof.
  intros Hf H0. unfold for_range at 1.
  destruct (for_each_inv
    (λ done ret, sound ch ret ∧
       (has_identity ch ret0 → has_identity ch ret) ∧
       (1 ≤ occs ch !!! Z.to_nat shell_from → shell_from ∈ done →
        has_identity ch ret))
    (λ shell_to,
       for_range 1 (Z.min (ShellCapacity ch shell_from)
                          (ShellCapacity ch shell_to))
                 (λ nmove, move ch shell_from shell_to nmove))
    (seqZ 0 (lmax ch + 1 - 0)) ret0)
    as (ret & Hrun & Hp & Hmono & Hid).
  - split; [done|]. split; [done|]. intros _ Hin. by apply elem_of_nil in Hin.
  - intros done i ret Hpre (Hp & Hmono & Hid).
    apply prefix_snoc_elem, elem_of_seqZ in Hpre.
    destruct (move_loop_spec shell_from i
                (Z.min (ShellCapacity ch shell_from) (ShellCapacity ch i)) ret)
      as (ret' & Hrun & Hp' & Hmono' & Hid'); [lia|lia|done|].
    exists ret'. split; [done|]. split; [done|]. split; [auto|].
    intros H1 Hin. apply elem_of_app in Hin as [Hin|Hin]; [auto|].
    apply list_elem_of_singleton in Hin. subst i.
    apply Hid'; auto. pose proof (ShellCapacity_pos ch shell_from). lia.
  - exists ret. split; [done|]. split; [done|]. split; [done|].
    intros H1. apply Hid; auto. apply elem_of_seqZ. lia.
Qed.

Lemma move_from_loop_spec :
  ∃ ret, for_range 0 (lmax ch) (λ shell_from,
           for_range 0 (lmax ch) (λ shell_to,
             for_range 1 (Z.min (ShellCapacity ch shell_from)
                                (ShellCapacity ch shell_to))
                       (λ nmove, move ch shell_from shell_to nmove))) [] = Ok ret ∧
    sound ch ret ∧
    (∀ l, 0 ≤ l < lmax ch + 1 → 1 ≤ occs ch !!! Z.to_nat l → has_identity ch ret).
Proof.
  unfold for_range at 1.
  destruct (for_each_inv
    (λ done ret, sound ch ret ∧
       (∀ l, l ∈ done → 1 ≤ occs ch !!! Z.to_nat l → has_identity ch ret))
    (λ shell_from,
       for_range 0 (lmax ch) (λ shell_to,
         for_range 1 (Z.min (ShellCapacity ch shell_from)
                            (ShellCapacity ch shell_to))
                   (λ nmove, move ch shell_from shell_to nmove)))
    (seqZ 0 (lmax ch + 1 - 0)) []) as (ret & Hrun & Hp & Hid).
  - split; [apply sound_nil|].
    intros l Hin. by apply elem_of_nil in Hin.
  - intros done i ret Hpre (Hp & Hid).
    apply prefix_snoc_elem, elem_of_seqZ in Hpre.
    destruct (move_to_loop_spec i ret) as (ret' & Hrun & Hp' & Hmono' & Hid');
      [lia|done|].
    exists ret'. split; [done|]. split; [done|].
    intros l Hin H1. apply elem_of_app in Hin as [Hin|Hin]; [eauto|].
    apply list_elem_of_singleton in Hin. subst l. auto.
  - exists ret. split; [done|]. split; [done|].
    intros l Hl. apply Hid, elem_of_seqZ. lia.
Qed.

End MoveElectrons_facts.

Lemma all_zero_replicate (v : ivec.t) :
  Forall (λ n, 0 ≤ n) v →
  (∀ i, (i < length v)%nat → default 0 (v !! i) < 1) →
  v = replicate (length v) 0.
Proof.
  induction v as [|x v IH]; intros Hnn Hlt; [done|].
  apply Forall_cons in Hnn as [Hx Hnn]. simpl. f_equal.
  - specialize (Hlt 0%nat). simpl in Hlt. lia.
  - apply IH; [done|]. intros i Hi. specialize (Hlt (S i)).
    simpl in Hlt. apply Hlt. lia.
Qed.

(** C4. For a channel whose occupation vector has [lmax+1] entries (each a
    non-negative electron count, as in the data model), the list returned by
    [MoveElectrons] contains a channel with the input's occupations, and
    every channel in the list has the input's total electron count. *)
Theorem MoveElectrons_identity_and_count (ch : OrbitalChannel.t) :
  Z.of_nat (length (OrbitalChannel.occs ch)) = OrbitalChannel.lmax ch + 1 →
  Forall (λ n, 0 ≤ n) (OrbitalChannel.occs ch) →
  ∃ ret, OrbitalChannel.MoveElectrons ch = Ok ret ∧
    (∃ c, c ∈ ret ∧ OrbitalChannel.occs c = OrbitalChannel.occs ch) ∧
    (∀ c, c ∈ ret → OrbitalChannel.Nel c = OrbitalChannel.Nel ch).
Proof.
  intros Hlen Hnn. unfold OrbitalChannel.MoveElectrons.
  destruct (move_from_loop_spec ch Hlen) as (ret & -> & [Hp Hpop] & Hid). simpl.
  case_bool_decide as Hempty.
  - apply nil_length_inv in Hempty. subst ret.
    unfold ivec.zeros, alloc.
    destruct (Z.ltb_spec (OrbitalChannel.lmax ch + 1) 0) as [?|_]; [lia|]. simpl.
    assert (Hz : OrbitalChannel.occs ch
                 = replicate (Z.to_nat (OrbitalChannel.lmax ch + 1)) 0).
    { rewrite <- Hlen, Nat2Z.id. apply all_zero_replicate; [done|].
      intros i Hi. rewrite (list_lookup_lookup_total_lt _ _ Hi). simpl.
      destruct (Z.lt_ge_cases (OrbitalChannel.occs ch !!! i) 1) as [|Hge]; [done|].
      destruct (Hid (Z.of_nat i)) as (c & Hc & _); [lia| |].
      - by rewrite Nat2Z.id.
      - by apply elem_of_nil in Hc. }
    eexists. split; [reflexivity|]. split.
    + eexists. split; [apply list_elem_of_singleton; reflexivity|].
      simpl. by rewrite <- Hz.
    + intros c Hc. apply list_elem_of_singleton in Hc. subst c.
      unfold OrbitalChannel.Nel. simpl. by rewrite <- Hz.
  - exists ret. split; [done|]. split; [|done].
    destruct Hpop as [->|(l & Hl & H1)]; [done|]. by apply (Hid l).
Qed.

Lemma MoveElectrons_identity_and_count_witness :
  ∃ ret, OrbitalChannel.MoveElectrons sample.two_s = Ok ret ∧
    (∃ c, c ∈ ret ∧ OrbitalChannel.occs c = OrbitalChannel.occs sample.two_s) ∧
    (∀ c, c ∈ ret → OrbitalChannel.Nel c = OrbitalChannel.Nel sample.two_s).
Proof.
  apply MoveElectrons_identity_and_count; [reflexivity|].
  repeat constructor; lia.
Defined.

(** The moves out of a doubly occupied s shell with an empty p shell. *)
Example MoveElectrons_two_s :
  (ret ← OrbitalChannel.MoveElectrons sample.two_s;
   Ok (map OrbitalChannel.occs ret))
  = Ok [[2; 0]; [2; 0]; [1; 1]; [0; 2]].
Proof. vm_compute. reflexivity. Qed.

(** With a negative entry, which the data model rules out, no move is made
    and the dummy list of zeroed occupations comes back. *)
Example MoveElectrons_negative :
  (ret ← OrbitalChannel.MoveElectrons
           (OrbitalChannel.Build sample.no_orbitals sample.no_energies [-1] true 0);
   Ok (map OrbitalChannel.occs ret))
  = Ok [[0]].
Proof. vm_compute. reflexivity. Qed.

(** C10. [OccupationsInitialized] answers whether [Nel], the sum of the
    occupation vector, is nonzero; so occupations set to all zeros read as
    not initialized. *)
Theorem OccupationsInitialized_iff_Nel_nonzero (ch : OrbitalChannel.t) :
  (OrbitalChannel.OccupationsInitialized ch = true ↔ OrbitalChannel.Nel ch ≠ 0) ∧
  (∀ n : nat, OrbitalChannel.OccupationsInitialized
                (OrbitalChannel.SetOccs ch (replicate n 0)) = false).
Proof.
  unfold OrbitalChannel.OccupationsInitialized. split.
  - rewrite negb_true_iff. apply Z.eqb_neq.
  - intros n. rewrite negb_false_iff. apply Z.eqb_eq.
    unfold OrbitalChannel.Nel. simpl. apply ivec_sum_replicate_zero.
Qed.

(** ** Ordering of configurations *)

(** C7. [operator<] puts a converged configuration before one that has not
    converged, never the other way round; two configurations with the same
    [converged] flag compare by [Econf], the strictly lower one first. Both
    the restricted and the unrestricted configuration. *)
Theorem conf_lt_converged_then_energy :
  (∀ lh rh : rconf.t,
     (rconf.converged lh = true → rconf.converged rh = false →
      rconf.lt lh rh = true ∧ rconf.lt rh lh = false) ∧
     (rconf.converged lh = rconf.converged rh →
      rconf.lt lh rh = PrimFloat.ltb (rconf.Econf lh) (rconf.Econf rh))) ∧
  (∀ lh rh : uconf.t,
     (uconf.converged lh = true → uconf.converged rh = false →
      uconf.lt lh rh = true ∧ uconf.lt rh lh = false) ∧
     (uconf.converged lh = uconf.converged rh →
      uconf.lt lh rh = PrimFloat.ltb (uconf.Econf lh) (uconf.Econf rh))).
Proof.
  split; intros lh rh; split.
  - unfold rconf.lt. intros -> ->. done.
  - unfold rconf.lt. intros ->. by destruct (rconf.converged rh).
  - unfold uconf.lt. intros -> ->. done.
  - unfold uconf.lt. intros ->. by destruct (uconf.converged rh).
Qed.

Lemma conf_lt_converged_then_energy_witness :
  (rconf.lt (sample.rconf_of 5 true) (sample.rconf_of (-3) false) = true ∧
   rconf.lt (sample.rconf_of (-3) false) (sample.rconf_of 5 true) = false) ∧
  rconf.lt (sample.rconf_of (-3) true) (sample.rconf_of (-2) true) = true ∧
  (uconf.lt (sample.uconf_of 5 true) (sample.uconf_of (-3) false) = true ∧
   uconf.lt (sample.uconf_of (-3) false) (sample.uconf_of 5 true) = false) ∧
  uconf.lt (sample.uconf_of (-3) false) (sample.uconf_of (-2) false) = true.
Proof.
  destruct conf_lt_converged_then_energy as [Hr Hu].
  split; [|split; [|split]].
  - apply (Hr (sample.rconf_of 5 true) (sample.rconf_of (-3) false)); reflexivity.
  - destruct (Hr (sample.rconf_of (-3) true) (sample.rconf_of (-2) true)) as [_ ->];
      reflexivity.
  - apply (Hu (sample.uconf_of 5 true) (sample.uconf_of (-3) false)); reflexivity.
  - destruct (Hu (sample.uconf_of (-3) false) (sample.uconf_of (-2) false)) as [_ ->];
      reflexivity.
Defined.

Example sort_index_levels : sample.sort_index (mat.mem sample.levels) = [0; 2; 1; 3].
Proof. vm_compute. reflexivity. Qed.

Example Aufbau_nine :
  (ch ← OrbitalChannel.AufbauOccupations sample.sort_index 9 sample.two_by_two;
   Ok (OrbitalChannel.occs ch)) = Ok [3; 6].
Proof. vm_compute. reflexivity. Qed.

(** ** Sums *)

Lemma sum_over_cons {A} (f : A → Z) (x : A) (l : list A) :
  sum_over f (x :: l) = f x + sum_over f l.
Proof. reflexivity. Qed.

Lemma sum_over_app {A} (f : A → Z) (l1 l2 : list A) :
  sum_over f (l1 ++ l2) = sum_over f l1 + sum_over f l2.
Proof.
  induction l1 as [|x l1 IH]; [done|].
  change ((x :: l1) ++ l2) with (x :: (l1 ++ l2)).
  rewrite !sum_over_cons, IH. lia.
Qed.

Lemma sum_over_perm {A} (f : A → Z) (l1 l2 : list A) :
  l1 ≡ₚ l2 → sum_over f l1 = sum_over f l2.
Proof.
  induction 1 as [|x l1 l2 _ IH|x y l|l1 l2 l3 _ IH1 _ IH2];
    rewrite ?sum_over_cons; lia.
Qed.

Lemma sum_over_replicate {A} (f : A → Z) (n : nat) (x : A) :
  sum_over f (replicate n x) = Z.of_nat n * f x.
Proof.
  induction n as [|n IH]; [done|].
  change (replicate (S n) x) with (x :: replicate n x).
  rewrite sum_over_cons, IH. lia.
Qed.

Lemma sum_over_ext {A} (f g : A → Z) (l : list A) :
  (∀ x, x ∈ l → f x = g x) → sum_over f l = sum_over g l.
Proof.
  induction l as [|x l IH]; intros H; [done|].
  rewrite !sum_over_cons, IH, (H x); [done|by left|].
  intros y Hy. apply H. by right.
Qed.

Lemma sum_over_nonneg {A} (f : A → Z) (l : list A) :
  (∀ x, x ∈ l → 0 ≤ f x) → 0 ≤ sum_over f l.
Proof.
  induction l as [|x l IH]; intros H; [done|].
  rewrite sum_over_cons.
  assert (0 ≤ f x) by (apply H; by left).
  assert (0 ≤ sum_over f l) by (apply IH; intros y Hy; apply H; by right).
  lia.
Qed.

Lemma sum_over_zero {A} (f : A → Z) (l : list A) :
  (∀ x, x ∈ l → f x = 0) → sum_over f l = 0.
Proof.
  induction l as [|x l IH]; intros H; [done|].
  rewrite sum_over_cons, IH, (H x); [done|by left|].
  intros y Hy. apply H. by right.
Qed.

(** Summing a function that vanishes off one entry of a duplicate-free list. *)
Lemma sum_over_pick (h : Z → Z) (l : Z) (L : list Z) :
  NoDup L → l ∈ L →
  sum_over (λ x, if bool_decide (x = l) then h x else 0) L = h l.
Proof.
  induction 1 as [|x L Hx Hnd IH]; intros Hin.
  - by apply elem_of_nil in Hin.
  - rewrite sum_over_cons. apply elem_of_cons in Hin as [<-|Hin].
    + rewrite bool_decide_eq_true_2 by done.
      rewrite sum_over_zero; [lia|]. intros y Hy.
      rewrite bool_decide_eq_false_2; [done|]. intros ->. done.
    + rewrite bool_decide_eq_false_2 by (intros ->; done).
      rewrite IH by done. lia.
Qed.

Lemma sum_over_shell_labels (f : Z → Z) (Nrad : nat) (ncols : Z) :
  sum_over f (OrbitalChannel.shell_labels Nrad ncols)
  = sum_over (λ l, Z.of_nat Nrad * f l) (seqZ 0 ncols).
Proof.
  unfold OrbitalChannel.shell_labels.
  induction (seqZ 0 ncols) as [|l L IH]; [done|].
  change ((l :: L) ≫= λ l, replicate Nrad l)
    with (replicate Nrad l ++ (L ≫= λ l, replicate Nrad l)).
  rewrite sum_over_app, sum_over_cons, sum_over_replicate, IH. done.
Qed.

Lemma ivec_sum_sum_over (v : ivec.t) : ivec.sum v = sum_over id v.
Proof. unfold ivec.sum, sum_over. by rewrite list_fmap_id. Qed.

(** ** Aufbau filling *)

Section Aufbau_facts.
Import OrbitalChannel.
Variable ch : OrbitalChannel.t.

Lemma capacity_in_nonneg (l : Z) (lval : list Z) :
  Forall (λ x, 0 ≤ x) lval → 0 ≤ capacity_in ch l lval.
Proof.
  intros H. apply sum_over_nonneg. intros x Hx.
  rewrite Forall_forall in H. pose proof (ShellCapacity_pos ch x (H x Hx)).
  case_bool_decide; lia.
Qed.

Lemma capacity_nonneg (lval : list Z) :
  Forall (λ x, 0 ≤ x) lval → 0 ≤ sum_over (ShellCapacity ch) lval.
Proof.
  intros H. apply sum_over_nonneg. intros x Hx.
  rewrite Forall_forall in H. pose proof (ShellCapacity_pos ch x (H x Hx)). lia.
Qed.

Lemma aufbau_fill_spec (lval : list Z) (occs : ivec.t) (numel : Z) :
  0 ≤ numel →
  Forall (λ l, 0 ≤ l < Z.of_nat (length occs)) lval →
  ∃ occs', aufbau_fill ch lval occs numel = Ok occs' ∧
    length occs' = length occs ∧
    ivec.sum occs' = ivec.sum occs + Z.min numel (sum_over (ShellCapacity ch) lval) ∧
    ∀ l : nat, (l < length occs)%nat →
      occs' !!! l ≤ occs !!! l + capacity_in ch (Z.of_nat l) lval.
Proof.
  revert occs numel. induction lval as [|l lval IH]; intros occs numel Hn Hin.
  - exists occs. simpl. split; [done|]. split; [done|].
    unfold capacity_in. change (sum_over _ []) with 0.
    split; [lia|]. intros. unfold sum_over. simpl. lia.
  - apply Forall_cons in Hin as [Hl Hin].
    assert (Hnn : Forall (λ x, 0 ≤ x) lval).
    { eapply Forall_impl; [exact Hin|]. simpl. lia. }
    pose proof (ShellCapacity_pos ch l ltac:(lia)) as Hcap.
    pose proof (capacity_nonneg lval Hnn) as Hrest.
    simpl. unfold ivec.add_at. rewrite ivec_in_bounds_true by lia. simpl.
    set (nocc := Z.min (ShellCapacity ch l) numel).
    set (occs1 := <[Z.to_nat l := occs !!! Z.to_nat l + nocc]> occs).
    assert (Hlen1 : length occs1 = length occs) by apply length_insert.
    assert (Hsum1 : ivec.sum occs1 = ivec.sum occs + nocc).
    { unfold occs1. rewrite ivec_sum_insert by lia. lia. }
    assert (Hat1 : ∀ j : nat, (j < length occs)%nat →
              occs1 !!! j = if bool_decide (l = Z.of_nat j)
                            then occs !!! j + nocc else occs !!! j).
    { intros j Hj. unfold occs1. case_bool_decide as Hlj.
      - subst l. rewrite Nat2Z.id. by rewrite list_lookup_total_insert_eq.
      - rewrite list_lookup_total_insert_ne; [done|]. lia. }
    rewrite sum_over_cons.
    destruct (Z.eqb_spec (numel - nocc) 0) as [Hz|Hnz].
    + exists occs1. split; [done|]. split; [done|]. split; [lia|].
      intros j Hj. rewrite (Hat1 j Hj).
      unfold capacity_in. rewrite sum_over_cons. fold (capacity_in ch (Z.of_nat j) lval).
      pose proof (capacity_in_nonneg (Z.of_nat j) lval Hnn).
      case_bool_decide; lia.
    + destruct (IH occs1 (numel - nocc)) as (occs' & Hrun & Hlen' & Hsum' & Hat').
      { lia. }
      { by rewrite Hlen1. }
      exists occs'. split; [done|]. split; [congruence|]. split; [lia|].
      intros j Hj. specialize (Hat' j ltac:(lia)). rewrite (Hat1 j Hj) in Hat'.
      unfold capacity_in. rewrite sum_over_cons. fold (capacity_in ch (Z.of_nat j) lval).
      case_bool_decide; lia.
Qed.

End Aufbau_facts.

(** ** Columns *)

Lemma prefix_seqZ_snoc (done : list Z) (i n : Z) :
  done ++ [i] `prefix_of` seqZ 0 n → i = Z.of_nat (length done) ∧ i < n.
Proof.
  intros [rest Heq].
  assert (Hi : seqZ 0 n !! length done = Some i).
  { rewrite Heq, <- app_assoc. rewrite lookup_app_r by lia.
    by rewrite Nat.sub_diag. }
  apply lookup_seqZ in Hi. lia.
Qed.

Lemma uword_small (z : Z) : 0 ≤ z < uword_modulus → uword z = z.
Proof. intros. unfold uword. by apply Z.mod_small. Qed.

Lemma set_subvec_block {A} (p q r x : list A) :
  length q = length x → (0 < length x)%nat →
  col.set_subvec (p ++ q ++ r) (Z.of_nat (length p))
                 (Z.of_nat (length p + length x) - 1) x
  = Ok (p ++ x ++ r).
Proof.
  intros Hq Hx. unfold col.set_subvec.
  rewrite bool_decide_eq_false_2 by (rewrite !length_app; lia).
  rewrite bool_decide_eq_true_2 by lia.
  rewrite Nat2Z.id, take_app_length.
  replace (Z.to_nat (Z.of_nat (length p + length x) - 1 + 1))
    with (length p + length q)%nat by lia.
  rewrite drop_app_add', drop_app_length; done.
Qed.

Lemma length_shell_labels (Nrad : nat) (k : nat) :
  length (OrbitalChannel.shell_labels Nrad (Z.of_nat k)) = (k * Nrad)%nat.
Proof.
  unfold OrbitalChannel.shell_labels. induction k as [|k IH]; [done|].
  rewrite seqZ_S, bind_app, length_app, IH. simpl.
  rewrite app_nil_r, length_replicate. lia.
Qed.

Lemma shell_labels_S (Nrad : nat) (k : nat) :
  OrbitalChannel.shell_labels Nrad (Z.of_nat (S k))
  = OrbitalChannel.shell_labels Nrad (Z.of_nat k) ++ replicate Nrad (Z.of_nat k).
Proof.
  unfold OrbitalChannel.shell_labels. rewrite seqZ_S, bind_app. simpl.
  by rewrite app_nil_r.
Qed.

Lemma elem_of_shell_labels (Nrad : nat) (ncols l : Z) :
  l ∈ OrbitalChannel.shell_labels Nrad ncols → 0 ≤ l < ncols.
Proof.
  unfold OrbitalChannel.shell_labels. rewrite list_elem_of_bind.
  intros (y & Hl & Hy). apply elem_of_replicate in Hl as [-> _].
  apply elem_of_seqZ in Hy. lia.
Qed.

Lemma fmap_lookup_total_seqZ {A} `{Inhabited A} (v : list A) :
  (λ i, v !!! Z.to_nat i) <$> seqZ 0 (Z.of_nat (length v)) = v.
Proof.
  apply list_eq. intros i. rewrite list_lookup_fmap.
  destruct (decide (i < length v)%nat) as [Hi|Hi].
  - rewrite lookup_seqZ_lt by lia. simpl.
    rewrite Z.add_0_l, Nat2Z.id. symmetry. by apply list_lookup_lookup_total_lt.
  - rewrite lookup_seqZ_ge by lia. simpl. symmetry. apply lookup_ge_None. lia.
Qed.

Lemma col_elem_perm {A} `{Inhabited A} (v : list A) (idx : list Z) :
  idx ≡ₚ seqZ 0 (Z.of_nat (length v)) →
  ∃ w, col.elem v idx = Ok w ∧ w ≡ₚ v.
Proof.
  intros Hp. unfold col.elem.
  assert (Hall : forallb (λ i, bool_decide (0 ≤ i < Z.of_nat (length v))) idx = true).
  { apply forallb_forall. intros i Hi. apply list_elem_of_In in Hi.
    rewrite Hp in Hi. apply elem_of_seqZ in Hi.
    apply bool_decide_eq_true_2. lia. }
  rewrite Hall. eexists. split; [reflexivity|].
  rewrite Hp. by rewrite fmap_lookup_total_seqZ.
Qed.

Lemma mat_col_block (A : mat.t) (k : nat) :
  mat.wf A → Z.of_nat k < mat.n_cols A →
  mat.col A (Z.of_nat k)
  = Ok (take (Z.to_nat (mat.n_rows A)) (drop (k * Z.to_nat (mat.n_rows A)) (mat.mem A))).
Proof.
  intros (Hr & Hc & Hu & Hlen) Hk. unfold mat.col.
  rewrite bool_decide_eq_true_2 by lia. do 3 f_equal. lia.
Qed.

(** The first loop of [AufbauOccupations] flattens the energy table column
    by column and labels each entry with its column. *)
Lemma aufbau_collect (A : mat.t) :
  mat.wf A → 0 < mat.n_rows A →
  for_each (seqZ 0 (mat.n_cols A)) (λ l '(El, lval),
      col_l ← mat.col A l;
      El' ← col.set_subvec El (uword (l * mat.n_rows A))
                           (uword ((l + 1) * mat.n_rows A - 1)) col_l;
      lval' ← col.set_subvec lval (uword (l * mat.n_rows A))
                             (uword ((l + 1) * mat.n_rows A - 1))
                             (replicate (Z.to_nat (mat.n_rows A)) l);
      Ok (El', lval'))
    (replicate (Z.to_nat (mat.n_elem A)) 0%float,
     replicate (Z.to_nat (mat.n_elem A)) 0)
  = Ok (mat.mem A,
        OrbitalChannel.shell_labels (Z.to_nat (mat.n_rows A)) (mat.n_cols A)).
Proof.
  intros Hwf Hpos. pose proof Hwf as (Hr & Hc & Hu & Hlen).
  set (N := Z.to_nat (mat.n_rows A)).
  set (n := Z.to_nat (mat.n_elem A)).
  assert (HN : mat.n_rows A = Z.of_nat N) by lia.
  assert (Hn : length (mat.mem A) = n) by (unfold n, mat.n_elem; lia).
  assert (Hnc : (n = Z.to_nat (mat.n_cols A) * N)%nat) by (unfold n, mat.n_elem; nia).
  match goal with |- for_each ?idx ?body ?s = _ =>
    destruct (for_each_inv
      (λ done '(El, lval),
         El = take (length done * N) (mat.mem A)
              ++ replicate (n - length done * N) 0%float ∧
         lval = OrbitalChannel.shell_labels N (Z.of_nat (length done))
              ++ replicate (n - length done * N) 0)
      body idx s) as ([El lval] & -> & HEl & Hlval)
  end.
  - simpl. by rewrite Nat.sub_0_r.
  - intros done i [El lval] Hpre [-> ->].
    apply prefix_seqZ_snoc in Hpre as [-> Hlt].
    set (k := length done) in *.
    assert (Hk : ((k + 1) * N ≤ n)%nat) by nia.
    rewrite mat_col_block by done. fold N. simpl.
    replace (n - k * N)%nat with (N + (n - (k + 1) * N))%nat by lia.
    rewrite !replicate_add.
    assert (Hlp : length (take (k * N) (mat.mem A)) = (k * N)%nat).
    { rewrite length_take. lia. }
    assert (Hlx : length (take N (drop (k * N) (mat.mem A))) = N).
    { rewrite length_take, length_drop. lia. }
    rewrite !uword_small by (unfold uword_modulus in *; nia).
    replace (Z.of_nat k * mat.n_rows A)
      with (Z.of_nat (length (take (k * N) (mat.mem A)))) by nia.
    replace ((Z.of_nat k + 1) * mat.n_rows A - 1)
      with (Z.of_nat (length (take (k * N) (mat.mem A))
                      + length (take N (drop (k * N) (mat.mem A)))) - 1) by nia.
    rewrite set_subvec_block by (rewrite ?length_replicate; lia). simpl.
    rewrite Hlp, Hlx.
    replace (Z.of_nat (k * N)) with
      (Z.of_nat (length (OrbitalChannel.shell_labels N (Z.of_nat k))))
      by (by rewrite length_shell_labels).
    replace (Z.of_nat (k * N + N)) with
      (Z.of_nat (length (OrbitalChannel.shell_labels N (Z.of_nat k))
                 + length (replicate N (Z.of_nat k))))
      by (rewrite length_shell_labels, length_replicate; lia).
    rewrite set_subvec_block by (rewrite ?length_replicate; lia). simpl.
    eexists. split; [reflexivity|]. rewrite length_app. simpl.
    replace (length done + 1)%nat with (S k) by (unfold k; lia).
    split.
    + rewrite app_assoc, take_take_drop. do 2 f_equal; lia.
    + rewrite shell_labels_S, <- app_assoc. do 3 f_equal. lia.
  - rewrite length_seqZ in HEl, Hlval.
    rewrite <- Hnc, Nat.sub_diag in HEl, Hlval. simpl in HEl, Hlval.
    rewrite app_nil_r in HEl, Hlval.
    rewrite <- Hn, firstn_all in HEl. rewrite Z2Nat.id in Hlval by done.
    by subst.
Qed.

(** C5. For [numel ≥ 0] and an energy table of [Nrad ≥ 1] rows over the
    channels [0..lmax], [AufbauOccupations(numel)] returns with occupations
    that sum to [min(numel, total_capacity)], where [total_capacity] is the
    sum of [Nrad·ShellCapacity(l)] over the channels, and no channel holds
    more than [Nrad·ShellCapacity(l)]. The index sort is any that returns a
    permutation of the indices. *)
Theorem AufbauOccupations_fills (sort_index : list float → list Z)
    (numel Nrad : Z) (ch : OrbitalChannel.t) :
  0 ≤ numel →
  0 < Nrad →
  mat.wf (OrbitalChannel.E ch) →
  mat.n_rows (OrbitalChannel.E ch) = Nrad →
  mat.n_cols (OrbitalChannel.E ch) = OrbitalChannel.lmax ch + 1 →
  sort_index (mat.mem (OrbitalChannel.E ch))
    ≡ₚ seqZ 0 (mat.n_elem (OrbitalChannel.E ch)) →
  ∃ ch', OrbitalChannel.AufbauOccupations sort_index numel ch = Ok ch' ∧
    OrbitalChannel.Nel ch' = Z.min numel (OrbitalChannel.total_capacity ch) ∧
    Z.of_nat (length (OrbitalChannel.occs ch')) = OrbitalChannel.lmax ch + 1 ∧
    ∀ l, 0 ≤ l ≤ OrbitalChannel.lmax ch →
      OrbitalChannel.occs ch' !!! Z.to_nat l ≤ Nrad * OrbitalChannel.ShellCapacity ch l.
Proof.
  intros Hnumel HNrad Hwf Hrows Hcols Hperm.
  pose proof Hwf as (Hr & Hc & Hu & Hlen).
  unfold OrbitalChannel.AufbauOccupations.
  rewrite aufbau_collect by (done || lia). simpl.
  assert (HlenE : Z.of_nat (length (mat.mem (OrbitalChannel.E ch)))
                  = mat.n_elem (OrbitalChannel.E ch)) by done.
  set (N := Z.to_nat (mat.n_rows (OrbitalChannel.E ch))) in *.
  set (labels := OrbitalChannel.shell_labels N (mat.n_cols (OrbitalChannel.E ch))).
  assert (Hlab : Z.of_nat (length labels) = mat.n_elem (OrbitalChannel.E ch)).
  { unfold labels.
    rewrite <- (Z2Nat.id (mat.n_cols _)) by done.
    rewrite length_shell_labels. unfold mat.n_elem, N. lia. }
  destruct (col_elem_perm (mat.mem (OrbitalChannel.E ch))
              (sort_index (mat.mem (OrbitalChannel.E ch)))) as (El & -> & _).
  { by rewrite HlenE. }
  destruct (col_elem_perm labels (sort_index (mat.mem (OrbitalChannel.E ch))))
    as (lval & -> & Hlval).
  { by rewrite Hlab. }
  simpl. unfold ivec.zeros, alloc.
  destruct (Z.ltb_spec (OrbitalChannel.lmax ch + 1) 0) as [?|_]; [lia|]. simpl.
  set (occs0 := replicate (Z.to_nat (OrbitalChannel.lmax ch + 1)) 0).
  assert (Hlen0 : Z.of_nat (length occs0) = OrbitalChannel.lmax ch + 1).
  { unfold occs0. rewrite length_replicate. lia. }
  destruct (aufbau_fill_spec ch lval occs0 numel Hnumel)
    as (occs' & -> & Hlen' & Hsum & Hat).
  { apply Forall_forall. intros l Hl. rewrite Hlval in Hl.
    apply elem_of_shell_labels in Hl. lia. }
  simpl. eexists. split; [reflexivity|].
  unfold OrbitalChannel.Nel. simpl. split; [|split].
  - rewrite Hsum. unfold occs0. rewrite ivec_sum_replicate_zero.
    rewrite (sum_over_perm _ _ _ Hlval). unfold labels.
    rewrite sum_over_shell_labels. unfold OrbitalChannel.total_capacity.
    rewrite Hcols. unfold N. rewrite Z2Nat.id by done. lia.
  - lia.
  - intros l Hl. specialize (Hat (Z.to_nat l) ltac:(lia)).
    rewrite Z2Nat.id in Hat by lia.
    unfold OrbitalChannel.capacity_in in Hat. rewrite (sum_over_perm _ _ _ Hlval) in Hat.
    unfold labels in Hat. rewrite sum_over_shell_labels in Hat.
    rewrite (sum_over_ext _
      (λ x, if bool_decide (x = l)
            then Z.of_nat N * OrbitalChannel.ShellCapacity ch x else 0)) in Hat.
    2: { intros x _. case_bool_decide; lia. }
    rewrite sum_over_pick in Hat.
    + unfold occs0 in Hat. rewrite lookup_total_replicate_2 in Hat by lia.
      unfold N in Hat. lia.
    + apply NoDup_seqZ.
    + apply elem_of_seqZ. lia.
Qed.

Lemma AufbauOccupations_fills_witness :
  ∃ ch', OrbitalChannel.AufbauOccupations sample.sort_index 9 sample.two_by_two
         = Ok ch' ∧
    OrbitalChannel.Nel ch'
    = Z.min 9 (OrbitalChannel.total_capacity sample.two_by_two) ∧
    Z.of_nat (length (OrbitalChannel.occs ch')) = 1 + 1 ∧
    ∀ l, 0 ≤ l ≤ 1 →
      OrbitalChannel.occs ch' !!! Z.to_nat l
      ≤ 2 * OrbitalChannel.ShellCapacity sample.two_by_two l.
Proof.
  apply (AufbauOccupations_fills sample.sort_index 9 2 sample.two_by_two).
  - lia.
  - lia.
  - vm_compute. repeat split; congruence.
  - reflexivity.
  - reflexivity.
  - vm_compute. apply perm_skip, perm_swap.
Defined.

(** An energy table without rows is refused by the bounds check of
    [subvec]. *)
Example Aufbau_no_rows :
  OrbitalChannel.AufbauOccupations sample.sort_index 2
    (OrbitalChannel.Build sample.no_orbitals (mat.Mat 0 1 []) [] true 0)
  = Throw (out_of_range "Col::subvec(): indices out of bounds or incorrectly used").
Proof. vm_compute. reflexivity. Qed.

(** ** Block-diagonal packing *)

Example SuperCube_two_slices :
  SCFSolver.SuperCube (sample.solver_of 1 10 0 0) sample.two_slices
  = Ok (mat.Mat 4 4 [1; 2; 0; 0;  3; 4; 0; 0;  0; 0; 5; 6;  0; 0; 7; 8]%float).
Proof. vm_compute. reflexivity. Qed.

Example MiniMat_two_slices :
  (Msuper ← SCFSolver.SuperCube (sample.solver_of 1 10 0 0) sample.two_slices;
   SCFSolver.MiniMat (sample.solver_of 1 10 0 0) Msuper)
  = Ok sample.two_slices.
Proof. vm_compute. reflexivity. Qed.

(** A cube of empty slices is refused by the sub-matrix bounds check. *)
Example SuperCube_empty_slices :
  SCFSolver.SuperCube (sample.solver_of 0 10 0 0) (cube.Cube 0 0 [mat.Mat 0 0 []])
  = Throw (out_of_range "Mat::submat(): indices out of bounds or incorrectly used").
Proof. vm_compute. reflexivity. Qed.

Lemma index_split (nr i j : Z) :
  0 ≤ i < nr → (i + j * nr) mod nr = i ∧ (i + j * nr) / nr = j.
Proof.
  intros Hi. split.
  - rewrite Z.mod_add by lia. apply Z.mod_small. lia.
  - rewrite Z.div_add by lia. rewrite Z.div_small by lia. lia.
Qed.

Lemma index_range (nr nc k : Z) :
  0 ≤ nr → 0 ≤ k < nr * nc → 0 ≤ k mod nr < nr ∧ 0 ≤ k / nr < nc.
Proof.
  intros Hnr Hk.
  assert (0 < nr).
  { destruct (Z.eq_dec nr 0) as [->|]; [rewrite Z.mul_0_l in Hk|]; lia. }
  split.
  - apply Z.mod_pos_bound. lia.
  - split; [apply Z.div_pos; lia|]. apply Z.div_lt_upper_bound; lia.
Qed.

Lemma mat_get_tabulate (nr nc : Z) (f : Z → Z → float) (i j : Z) :
  0 ≤ i < nr → 0 ≤ j < nc → mat.get (mat.tabulate nr nc f) i j = f i j.
Proof.
  intros Hi Hj. unfold mat.get, mat.tabulate. simpl.
  rewrite list_lookup_fmap, lookup_seqZ_lt by nia. simpl.
  rewrite Z.add_0_l, Z2Nat.id by nia.
  by destruct (index_split nr i j Hi) as [-> ->].
Qed.

Lemma mat_tabulate_ext (nr nc : Z) (f g : Z → Z → float) :
  0 ≤ nr →
  (∀ i j, 0 ≤ i < nr → 0 ≤ j < nc → f i j = g i j) →
  mat.tabulate nr nc f = mat.tabulate nr nc g.
Proof.
  intros Hnr H. unfold mat.tabulate. f_equal.
  apply list_fmap_ext. intros _ k Hk%list_elem_of_lookup_2%elem_of_seqZ.
  destruct (index_range nr nc k) as [? ?]; [lia|lia|]. by apply H.
Qed.

Lemma mat_tabulate_wf (nr nc : Z) (f : Z → Z → float) :
  0 ≤ nr → 0 ≤ nc → nr * nc < uword_modulus → mat.wf (mat.tabulate nr nc f).
Proof.
  intros. unfold mat.wf, mat.tabulate. simpl.
  rewrite length_fmap, length_seqZ. repeat split; lia.
Qed.

(** A well-formed matrix is the table of its entries. *)
Lemma mat_tabulate_get (A : mat.t) :
  mat.wf A → mat.tabulate (mat.n_rows A) (mat.n_cols A) (mat.get A) = A.
Proof.
  destruct A as [nr nc mem]. intros (Hr & Hc & Hu & Hlen). simpl in *.
  unfold mat.tabulate. f_equal. apply list_eq. intros k.
  rewrite list_lookup_fmap.
  destruct (decide (k < length mem)%nat) as [Hk|Hk].
  - rewrite lookup_seqZ_lt by lia. simpl. rewrite Z.add_0_l.
    unfold mat.get. simpl.
    assert (0 < nr).
    { destruct (Z.eq_dec nr 0) as [->|]; [rewrite Z.mul_0_l in Hlen|]; lia. }
    replace (Z.of_nat k mod nr + Z.of_nat k / nr * nr) with (Z.of_nat k).
    2: { rewrite (Z.div_mod (Z.of_nat k) nr) at 1 by lia. lia. }
    rewrite Nat2Z.id.
    destruct (lookup_lt_is_Some_2 mem k Hk) as [x Hx]. by rewrite Hx.
  - rewrite lookup_seqZ_ge by lia. simpl. symmetry. apply lookup_ge_None. lia.
Qed.

Lemma mat_zeros_tabulate (nr nc : Z) :
  0 ≤ nr → 0 ≤ nc → nr * nc ≤ max_n_elem →
  mat.zeros nr nc = Ok (mat.tabulate nr nc (λ _ _, 0%float)).
Proof.
  intros. unfold mat.zeros, mat.tabulate.
  rewrite bool_decide_eq_false_2 by lia. do 2 f_equal.
  apply list_eq. intros k. rewrite list_lookup_fmap.
  destruct (decide (Z.of_nat k < nr * nc)) as [Hk|Hk].
  - rewrite lookup_replicate_2 by lia. by rewrite lookup_seqZ_lt by lia.
  - rewrite (proj1 (lookup_replicate_None _ _ _)) by lia.
    by rewrite lookup_seqZ_ge by lia.
Qed.

Lemma submat_in_bounds_true (A : mat.t) (r1 c1 r2 c2 : Z) :
  r1 ≤ r2 < mat.n_rows A → c1 ≤ c2 < mat.n_cols A →
  mat.submat_in_bounds A r1 c1 r2 c2 = true.
Proof.
  intros. unfold mat.submat_in_bounds.
  rewrite bool_decide_eq_false_2; [done|]. lia.
Qed.

(** Assigning a block of a table gives the table with the block replaced. *)
Lemma mat_set_submat_tabulate (nr nc : Z) (f : Z → Z → float)
    (r1 c1 r2 c2 : Z) (B : mat.t) :
  0 ≤ nr →
  r1 ≤ r2 < nr → c1 ≤ c2 < nc →
  mat.n_rows B = r2 - r1 + 1 → mat.n_cols B = c2 - c1 + 1 →
  mat.set_submat (mat.tabulate nr nc f) r1 c1 r2 c2 B
  = Ok (mat.tabulate nr nc (λ i j,
          if bool_decide (r1 ≤ i ≤ r2 ∧ c1 ≤ j ≤ c2)
          then mat.get B (i - r1) (j - c1) else f i j)).
Proof.
  intros Hnr Hr Hc HBr HBc. unfold mat.set_submat.
  rewrite submat_in_bounds_true by done.
  rewrite bool_decide_eq_true_2 by done.
  unfold mat.tabulate. simpl. do 2 f_equal.
  apply list_eq. intros k.
  rewrite list_lookup_imap, !list_lookup_fmap.
  destruct (decide (Z.of_nat k < nr * nc)) as [Hk|Hk].
  - rewrite lookup_seqZ_lt by lia. simpl. by rewrite Z.add_0_l.
  - by rewrite lookup_seqZ_ge by lia.
Qed.

Lemma div_block (n k i : Z) : 0 < n → k * n ≤ i ≤ (k + 1) * n - 1 ↔ i / n = k.
Proof.
  intros Hn. split.
  - intros Hi. symmetry. apply (Z.div_unique i n k (i - k * n)); lia.
  - intros <-. pose proof (Z.mod_pos_bound i n Hn).
    pose proof (Z.div_mod i n ltac:(lia)). nia.
Qed.

Lemma mod_block (n k i : Z) : 0 < n → i / n = k → i mod n = i - k * n.
Proof. intros Hn <-. pose proof (Z.div_mod i n ltac:(lia)). lia. Qed.

Section Packing.
Variable sv : SCFSolver.t.
Variable n : Z.
Variable M : cube.t.
Let L := SCFSolver.lmax sv + 1.
Let D := n * L.
Hypothesis Hlmax : 0 ≤ SCFSolver.lmax sv.
Hypothesis Hn : 0 < n.
Hypothesis Hfits : D * D ≤ max_n_elem.
Hypothesis Hwf : cube.wf M.
Hypothesis Hrows : cube.n_rows M = n.
Hypothesis Hcols : cube.n_cols M = n.
Hypothesis Hslices : cube.n_slices M = L.

Lemma max_n_elem_lt : max_n_elem < uword_modulus.
Proof. reflexivity. Qed.

Lemma packing_sizes :
  0 < L ∧ n ≤ D ∧ D < uword_modulus ∧ n * n ≤ max_n_elem ∧ D * D < uword_modulus.
Proof. pose proof max_n_elem_lt. unfold D, L in *. nia. Qed.

Lemma packing_slice (k : Z) :
  0 ≤ k < L →
  cube.slice M k = Ok (cube.slices M !!! Z.to_nat k) ∧
  mat.wf (cube.slices M !!! Z.to_nat k) ∧
  mat.n_rows (cube.slices M !!! Z.to_nat k) = n ∧
  mat.n_cols (cube.slices M !!! Z.to_nat k) = n.
Proof.
  intros Hk. unfold cube.slice, cube.in_bounds.
  rewrite bool_decide_eq_true_2 by lia. split; [done|].
  destruct Hwf as (_ & _ & Hall). rewrite Forall_lookup in Hall.
  destruct (Hall (Z.to_nat k) (cube.slices M !!! Z.to_nat k)) as (? & ? & ?).
  - apply list_lookup_lookup_total_lt. unfold cube.n_slices in Hslices. lia.
  - split; [done|split; congruence].
Qed.

Lemma SuperCube_spec :
  SCFSolver.SuperCube sv M
  = Ok (mat.tabulate D D (SCFSolver.block_diagonal n (cube.slices M) L)).
Proof.
  pose proof packing_sizes as (HL & HnD & HD & Hnn & HDD).
  unfold SCFSolver.SuperCube. rewrite Hrows, Hcols. fold L. fold D.
  rewrite uword_small by lia.
  rewrite mat_zeros_tabulate by lia. simpl.
  unfold for_range.
  match goal with |- for_each ?idx ?body ?s = _ =>
    destruct (for_each_inv
      (λ done Ms, Ms = mat.tabulate D D
         (SCFSolver.block_diagonal n (cube.slices M) (Z.of_nat (length done))))
      body idx s) as (Ms & -> & ->)
  end.
  - apply mat_tabulate_ext; [lia|]. intros i j Hi _.
    pose proof (Z.div_pos i n ltac:(lia) Hn).
    unfold SCFSolver.block_diagonal. by rewrite bool_decide_eq_false_2 by (simpl; lia).
  - intros done k Ms Hpre ->. apply prefix_seqZ_snoc in Hpre as [-> Hk].
    set (k := Z.of_nat (length done)) in *.
    destruct (packing_slice k) as (-> & HBwf & HBr & HBc); [unfold L; lia|]. simpl.
    assert (Hk1 : (k + 1) * n ≤ D) by (unfold D, L; nia).
    rewrite !uword_small by (unfold uword_modulus in *; nia).
    rewrite mat_set_submat_tabulate by lia.
    eexists. split; [reflexivity|].
    apply mat_tabulate_ext; [lia|]. intros i j Hi Hj.
    rewrite length_app. simpl. replace (Z.of_nat (length done + 1)) with (k + 1) by lia.
    unfold SCFSolver.block_diagonal.
    case_bool_decide as Hblock.
    + destruct Hblock as [Hik%div_block Hjk%div_block]; [|done..].
      rewrite bool_decide_eq_true_2 by lia.
      rewrite Hik, (mod_block n k i), (mod_block n k j) by done. done.
    + assert (Hnk : ¬ (i / n = j / n ∧ i / n = k)).
      { intros [Hij Hik]. apply Hblock. split; apply div_block; lia. }
      repeat case_bool_decide; try done; lia.
  - rewrite length_seqZ. replace (Z.of_nat (Z.to_nat (SCFSolver.lmax sv + 1 - 0)))
      with L by (unfold L; lia).
    done.
Qed.

Lemma MiniMat_spec :
  SCFSolver.MiniMat sv
    (mat.tabulate D D (SCFSolver.block_diagonal n (cube.slices M) L))
  = Ok M.
Proof.
  pose proof packing_sizes as (HL & HnD & HD & Hnn & HDD).
  unfold SCFSolver.MiniMat. simpl. fold L.
  rewrite uword_small by (unfold uword_modulus in *; lia).
  unfold SCFSolver.udiv.
  destruct (Z.eqb_spec L 0) as [?|_]; [lia|]. simpl.
  replace (D / L) with n by (unfold D; by rewrite Z.div_mul by lia).
  unfold cube.zeros, alloc.
  destruct (Z.ltb_spec L 0) as [?|_]; [lia|]. simpl.
  rewrite mat_zeros_tabulate by lia. simpl.
  set (Z0 := mat.tabulate n n (λ _ _ : Z, 0%float)).
  assert (Hlen : length (cube.slices M) = Z.to_nat L).
  { unfold cube.n_slices in Hslices. lia. }
  unfold for_range.
  match goal with |- for_each ?idx ?body ?s = _ =>
    destruct (for_each_inv
      (λ done Q, Q = cube.Cube n n
         (take (length done) (cube.slices M)
          ++ replicate (Z.to_nat L - length done) Z0))
      body idx s) as (Q & -> & ->)
  end.
  - simpl. by rewrite Nat.sub_0_r.
  - intros done k Q Hpre ->. apply prefix_seqZ_snoc in Hpre as [-> Hk].
    set (k := length done) in *. simpl.
    destruct (packing_slice (Z.of_nat k)) as (_ & HBwf & HBr & HBc); [unfold L; lia|].
    assert (Hk1 : (Z.of_nat k + 1) * n ≤ D) by (unfold D, L; nia).
    rewrite !uword_small by (unfold uword_modulus in *; nia).
    unfold mat.submat. rewrite submat_in_bounds_true by (simpl; lia). simpl.
    replace ((Z.of_nat k + 1) * n - 1 - Z.of_nat k * n + 1) with n by lia.
    rewrite (mat_tabulate_ext n n _ (mat.get (cube.slices M !!! k))).
    2: lia.
    2: { intros i j Hi Hj. rewrite mat_get_tabulate by nia.
         unfold SCFSolver.block_diagonal.
         assert (Hdi : (Z.of_nat k * n + i) / n = Z.of_nat k)
           by (apply div_block; lia).
         assert (Hdj : (Z.of_nat k * n + j) / n = Z.of_nat k)
           by (apply div_block; lia).
         rewrite bool_decide_eq_true_2 by (unfold L; lia).
         rewrite Hdi, Nat2Z.id, (mod_block n (Z.of_nat k)), (mod_block n (Z.of_nat k))
           by done.
         f_equal; lia. }
    rewrite Nat2Z.id in *.
    pose proof (mat_tabulate_get _ HBwf) as Heta. rewrite HBr, HBc in Heta.
    rewrite Heta.
    unfold cube.set_slice, cube.in_bounds, cube.n_slices. simpl.
    rewrite bool_decide_eq_true_2
      by (rewrite length_app, length_take, length_replicate; lia).
    rewrite bool_decide_eq_true_2 by done.
    eexists. split; [reflexivity|]. f_equal.
    rewrite length_app. simpl.
    rewrite Nat2Z.id.
    replace (Z.to_nat L - k)%nat with (S (Z.to_nat L - (k + 1))) by lia.
    simpl.
    rewrite insert_app_r_alt by (rewrite length_take; lia).
    rewrite length_take. replace (k - k `min` length (cube.slices M))%nat with 0%nat by lia.
    simpl.
    fold k. replace (k + 1)%nat with (S k) by lia.
    rewrite (take_S_r _ _ (cube.slices M !!! k)).
    2: { apply list_lookup_lookup_total_lt. lia. }
    by rewrite <- app_assoc.
  - rewrite length_seqZ.
    replace (Z.to_nat (SCFSolver.lmax sv + 1 - 0)) with (Z.to_nat L) by (unfold L; lia).
    rewrite Nat.sub_diag. simpl. rewrite app_nil_r, <- Hlen, firstn_all.
    destruct M; simpl in *. by subst.
Qed.

End Packing.

(** C8. For a cube [M] of [lmax+1] square [n×n] slices, [n ≥ 1], whose
    packed matrix fits the index type, [SuperCube(M)] is the square matrix of
    order [(lmax+1)·n] whose [l]-th diagonal block is the slice [l] and whose
    other entries are zero, and [MiniMat] gives [M] back from it. *)
Theorem SuperCube_block_diagonal_MiniMat_inverse
    (sv : SCFSolver.t) (n : Z) (M : cube.t) :
  0 ≤ SCFSolver.lmax sv →
  0 < n →
  (n * (SCFSolver.lmax sv + 1)) * (n * (SCFSolver.lmax sv + 1)) ≤ max_n_elem →
  cube.wf M →
  cube.n_rows M = n →
  cube.n_cols M = n →
  cube.n_slices M = SCFSolver.lmax sv + 1 →
  ∃ Msuper, SCFSolver.SuperCube sv M = Ok Msuper ∧
    mat.wf Msuper ∧
    mat.n_rows Msuper = (SCFSolver.lmax sv + 1) * n ∧
    mat.n_cols Msuper = (SCFSolver.lmax sv + 1) * n ∧
    (∀ i j, 0 ≤ i < (SCFSolver.lmax sv + 1) * n →
            0 ≤ j < (SCFSolver.lmax sv + 1) * n →
       mat.get Msuper i j
       = if bool_decide (i / n = j / n)
         then mat.get (cube.slices M !!! Z.to_nat (i / n)) (i mod n) (j mod n)
         else 0%float) ∧
    SCFSolver.MiniMat sv Msuper = Ok M.
Proof.
  intros Hlmax Hn Hfits Hwf Hrows Hcols Hslices.
  pose proof (packing_sizes sv n Hlmax Hn Hfits) as (HL & HnD & HD & Hnn & HDD).
  pose proof (SuperCube_spec sv n M Hlmax Hn Hfits Hwf Hrows Hcols Hslices) as Hpack.
  pose proof (MiniMat_spec sv n M Hlmax Hn Hfits Hwf Hrows Hcols Hslices) as Hunpack.
  eexists. split; [exact Hpack|].
  split; [apply mat_tabulate_wf; lia|].
  split; [simpl; lia|]. split; [simpl; lia|]. split.
  - intros i j Hi Hj. rewrite mat_get_tabulate by lia.
    unfold SCFSolver.block_diagonal.
    assert (i / n < SCFSolver.lmax sv + 1) by (apply Z.div_lt_upper_bound; lia).
    repeat case_bool_decide; try done; lia.
  - exact Hunpack.
Qed.

Lemma SuperCube_block_diagonal_MiniMat_inverse_witness :
  ∃ Msuper, SCFSolver.SuperCube (sample.solver_of 1 10 0 0) sample.two_slices
            = Ok Msuper ∧
    mat.wf Msuper ∧
    mat.n_rows Msuper = (1 + 1) * 2 ∧
    mat.n_cols Msuper = (1 + 1) * 2 ∧
    (∀ i j, 0 ≤ i < (1 + 1) * 2 → 0 ≤ j < (1 + 1) * 2 →
       mat.get Msuper i j
       = if bool_decide (i / 2 = j / 2)
         then mat.get (cube.slices sample.two_slices !!! Z.to_nat (i / 2))
                      (i mod 2) (j mod 2)
         else 0%float) ∧
    SCFSolver.MiniMat (sample.solver_of 1 10 0 0) Msuper = Ok sample.two_slices.
Proof.
  apply (SuperCube_block_diagonal_MiniMat_inverse
           (sample.solver_of 1 10 0 0) 2 sample.two_slices).
  - simpl. lia.
  - lia.
  - vm_compute. discriminate.
  - unfold cube.wf, mat.wf. simpl. repeat constructor; simpl; lia.
  - reflexivity.
  - reflexivity.
  - reflexivity.
Defined.

(** ** Orbital refresh *)

(** Partial-correctness rule for loops: what every completed pass keeps
    holds when the loop completes. *)
Lemma for_each_Ok_inv_from {S : Type} (I : list Z → S → Prop)
    (body : Z → S → outcome S) (idx pre : list Z) (s s' : S) :
  for_each idx body s = Ok s' →
  I pre s →
  (∀ done i s s1, (pre ++ done) ++ [i] `prefix_of` pre ++ idx →
     I (pre ++ done) s → body i s = Ok s1 → I ((pre ++ done) ++ [i]) s1) →
  I (pre ++ idx) s'.
Proof.
  revert pre s. induction idx as [|i idx IH]; intros pre s Hrun Hpre Hstep.
  - simpl in Hrun. injection Hrun as <-. by rewrite app_nil_r.
  - simpl in Hrun. apply bind_Ok in Hrun as (s1 & Hb & Hrun).
    assert (Hs1 : I (pre ++ [i]) s1).
    { specialize (Hstep [] i s s1). rewrite app_nil_r in Hstep.
      apply Hstep; [|done..]. exists idx. by rewrite <- app_assoc. }
    specialize (IH (pre ++ [i]) s1 Hrun Hs1).
    rewrite <- app_assoc in IH. apply IH.
    intros done j t t1 Hpref Hinv Hbody.
    rewrite <- (app_assoc pre [i] done) in Hinv.
    rewrite <- (app_assoc pre [i] done).
    apply (Hstep ([i] ++ done) j t t1); [|done..].
    by rewrite <- !app_assoc in *.
Qed.

Lemma for_each_Ok_inv {S : Type} (I : list Z → S → Prop)
    (body : Z → S → outcome S) (idx : list Z) (s s' : S) :
  for_each idx body s = Ok s' →
  I [] s →
  (∀ done i s s1, done ++ [i] `prefix_of` idx →
     I done s → body i s = Ok s1 → I (done ++ [i]) s1) →
  I idx s'.
Proof. intros Hrun H0 Hstep. by apply (for_each_Ok_inv_from I body idx [] s s'). Qed.

Lemma mat_col_of_set_col_same (A A' : mat.t) (l : Z) (v : list float) :
  length (mat.mem A) = Z.to_nat (mat.n_rows A * mat.n_cols A) →
  mat.set_col A l v = Ok A' →
  mat.col_of A' l = v ∧
  mat.n_rows A' = mat.n_rows A ∧ mat.n_cols A' = mat.n_cols A ∧
  length (mat.mem A') = length (mat.mem A) ∧
  ∀ l', 0 ≤ l' → l' ≠ l → mat.col_of A' l' = mat.col_of A l'.
Proof.
  intros Hlen. unfold mat.set_col.
  case_bool_decide as Hl; [|done]. case_bool_decide as Hv; [|done].
  intros [= <-]. simpl. unfold mat.col_of. simpl.
  set (nr := mat.n_rows A) in *.
  split; [|split; [done|split; [done|split; [by rewrite length_imap|]]]].
  - apply list_eq. intros r.
    destruct (decide (r < length v)%nat) as [Hr|Hr].
    + rewrite lookup_take_lt by lia. rewrite lookup_drop, list_lookup_imap.
      assert (Hk : (Z.to_nat (l * nr) + r < length (mat.mem A))%nat) by nia.
      destruct (lookup_lt_is_Some_2 _ _ Hk) as [x ->]. simpl.
      assert (Hdiv : Z.of_nat (Z.to_nat (l * nr) + r) / nr = l).
      { apply div_block; nia. }
      rewrite bool_decide_eq_true_2 by done.
      rewrite (mod_block nr l) by (done || lia).
      replace (Z.to_nat (Z.of_nat (Z.to_nat (l * nr) + r) - l * nr)) with r by nia.
      symmetry. by apply list_lookup_lookup_total_lt.
    + rewrite lookup_take_ge by lia. symmetry. apply lookup_ge_None. lia.
  - intros l' Hl' Hne. apply list_eq. intros r.
    destruct (decide (r < Z.to_nat nr)%nat) as [Hr|Hr].
    + rewrite !lookup_take_lt by lia. rewrite !lookup_drop, list_lookup_imap.
      destruct (mat.mem A !! (Z.to_nat (l' * nr) + r)%nat) as [x|]; [|done]. simpl.
      assert (Hdiv : Z.of_nat (Z.to_nat (l' * nr) + r) / nr = l').
      { apply div_block; nia. }
      rewrite bool_decide_eq_false_2 by congruence. done.
    + by rewrite !lookup_take_ge by lia.
Qed.

Lemma cube_set_slice_spec (Q Q' : cube.t) (l : Z) (A : mat.t) :
  cube.set_slice Q l A = Ok Q' →
  0 ≤ l ∧
  cube.n_rows Q' = cube.n_rows Q ∧ cube.n_cols Q' = cube.n_cols Q ∧
  length (cube.slices Q') = length (cube.slices Q) ∧
  cube.slices Q' !! Z.to_nat l = Some A ∧
  ∀ l', 0 ≤ l' → l' ≠ l →
    cube.slices Q' !! Z.to_nat l' = cube.slices Q !! Z.to_nat l'.
Proof.
  unfold cube.set_slice, cube.in_bounds, cube.n_slices.
  case_bool_decide as Hl; [|done]. case_bool_decide as Hs; [|done].
  intros [= <-]. simpl.
  split; [lia|]. split; [done|]. split; [done|].
  split; [by rewrite length_insert|]. split.
  - apply list_lookup_insert_eq. lia.
  - intros l' Hl' Hne. apply list_lookup_insert_ne. lia.
Qed.

Section Refresh.
Import OrbitalChannel.
Context `{Numerics}.
Variable F : cube.t.
Variable Sinvh : mat.t.

Lemma same_shape_refl (a : OrbitalChannel.t) : same_shape a a.
Proof. by repeat split. Qed.

Lemma same_shape_trans (a b c : OrbitalChannel.t) :
  same_shape a b → same_shape b c → same_shape a c.
Proof.
  intros (?&?&?&?&?&?&?&?) (?&?&?&?&?&?&?&?). repeat split; congruence.
Qed.

Lemma CountOccupied_same_shape (a b : OrbitalChannel.t) (l : Z) :
  same_shape a b → CountOccupied a l = CountOccupied b l.
Proof.
  intros (Ho&Hr&_&_&Hc&_). unfold CountOccupied, ShellCapacity.
  by rewrite Ho, Hr, Hc.
Qed.

Lemma diagonalize_effect (Fl : mat.t) (l : Z) (st st' : OrbitalChannel.t) :
  stored st →
  diagonalize Fl Sinvh l st = Ok st' →
  same_shape st st' ∧ stored st' ∧ 0 ≤ l < mat.n_cols (E st') ∧
  cube.slices (C st') !! Z.to_nat l = Some (eig_gsym Fl Sinvh).2 ∧
  mat.col_of (E st') l = (eig_gsym Fl Sinvh).1 ∧
  slots_kept st st' l.
Proof.
  intros Hst. unfold diagonalize.
  destruct (eig_gsym Fl Sinvh) as [El Cl]. simpl.
  intros (C' & HC & (E' & HE & [= <-])%bind_Ok)%bind_Ok.
  apply cube_set_slice_spec in HC as (Hl & Hnr & Hnc & Hlen & Hat & Hother).
  pose proof HE as Hcol. unfold mat.set_col in Hcol.
  case_bool_decide as Hlcol; [|done]. clear Hcol.
  apply (mat_col_of_set_col_same _ _ _ _ Hst) in HE
    as (Hsame & Hr & Hc & Hmem & Hkeep).
  unfold same_shape, stored, slots_kept. simpl.
  repeat split; try done; try lia; try congruence.
  - by apply Hother.
  - by apply Hkeep.
Qed.

(** A refresh loop whose passes over the channels in [good] diagonalize the
    plain Fock slice leaves those channels refreshed. *)
Lemma refresh_loop (good : Z → Prop)
    (body : Z → OrbitalChannel.t → outcome OrbitalChannel.t)
    (idx : list Z) (ch1 chX : OrbitalChannel.t) :
  (∀ l st st', same_shape ch1 st → stored st → body l st = Ok st' →
     same_shape st st' ∧ stored st' ∧ 0 ≤ l ∧
     (good l → slot_refreshed F Sinvh st' l) ∧ slots_kept st st' l) →
  NoDup idx → stored ch1 →
  for_each idx body ch1 = Ok chX →
  same_shape ch1 chX ∧ ∀ l, l ∈ idx → good l → slot_refreshed F Sinvh chX l.
Proof.
  intros Hbody Hnd Hst Hrun.
  pose proof (for_each_Ok_inv
    (λ done st, same_shape ch1 st ∧ stored st ∧
       (∀ l, l ∈ done → 0 ≤ l) ∧
       (∀ l, l ∈ done → good l → slot_refreshed F Sinvh st l))
    body idx ch1 chX Hrun) as Hinv.
  destruct Hinv as (Hshape & _ & _ & Hslots).
  - split; [apply same_shape_refl|]. split; [done|].
    split; intros l Hl; by apply elem_of_nil in Hl.
  - intros done i st st1 Hpre (Hsh & Hsto & Hpos & Hslots) Hb.
    destruct (Hbody i st st1 Hsh Hsto Hb) as (Hsh1 & Hsto1 & Hi & Hnew & Hkept).
    assert (Hfresh : i ∉ done).
    { destruct Hpre as [rest ->]. rewrite <- app_assoc in Hnd.
      apply NoDup_app in Hnd as (_ & Hdisj & _).
      intros Hin. apply (Hdisj i Hin). by left. }
    split; [by apply (same_shape_trans _ st)|]. split; [done|]. split.
    + intros l [Hl|Hl%list_elem_of_singleton]%elem_of_app; [auto|by subst l].
    + intros l [Hl|Hl%list_elem_of_singleton]%elem_of_app Hgood;
        [|subst l; auto].
      destruct (Hslots l Hl Hgood) as (Hin & Hcol & Hsl & Hco).
      assert (l ≠ i) by (intros ->; done).
      destruct (Hkept l (Hpos l Hl) ltac:(done)) as [Hsl' Hco'].
      destruct Hsh1 as (_&_&_&_&_&_&_&HncE).
      unfold slot_refreshed. rewrite Hsl', Hco', <- HncE. done.
  - done.
Qed.

Lemma slice_Ok_inv (Q : cube.t) (l : Z) (A : mat.t) :
  cube.slice Q l = Ok A →
  cube.in_bounds Q l = true ∧ A = cube.slices Q !!! Z.to_nat l.
Proof.
  unfold cube.slice. destruct (cube.in_bounds Q l); [|done].
  intros [= <-]. done.
Qed.

Lemma UpdateOrbitals_body_spec (ch1 : OrbitalChannel.t) :
  ∀ l st st', same_shape ch1 st → stored st →
    (Fl ← cube.slice F l; diagonalize Fl Sinvh l st) = Ok st' →
    same_shape st st' ∧ stored st' ∧ 0 ≤ l ∧
    (True → slot_refreshed F Sinvh st' l) ∧ slots_kept st st' l.
Proof.
  intros l st st' _ Hsto (Fl & [Hin ->]%slice_Ok_inv & Hd)%bind_Ok.
  apply (diagonalize_effect _ _ _ _ Hsto) in Hd
    as (Hsh & Hsto' & Hl & Hsl & Hco & Hkept).
  split; [done|]. split; [done|]. split; [lia|]. split; [|done].
  intros _. unfold slot_refreshed. split; [done|]. split; [lia|]. done.
Qed.

Lemma UpdateOrbitalsShifted_body_spec (S : mat.t) (shift : float)
    (ch1 : OrbitalChannel.t) :
  ∀ l st st', same_shape ch1 st → stored st →
    (Fl ← cube.slice F l;
     nsh ← CountOccupied st l;
     if negb (nsh =? 0) then
       Cl ← cube.slice (C st) l;
       Cv ← mat.cols Cl nsh (uword (cube.n_cols (C st) - 1));
       diagonalize
         (mat_add Fl
            (mat_mul (mat_mul (mat_mul (mat_scale shift S) Cv) (mat_trans Cv)) S))
         Sinvh l st
     else diagonalize Fl Sinvh l st) = Ok st' →
    same_shape st st' ∧ stored st' ∧ 0 ≤ l ∧
    (CountOccupied ch1 l = Ok 0 → slot_refreshed F Sinvh st' l) ∧ slots_kept st st' l.
Proof.
  intros l st st' Hsh Hsto (Fl & [Hin ->]%slice_Ok_inv & (nsh & Hn & Hd)%bind_Ok)%bind_Ok.
  rewrite <- (CountOccupied_same_shape _ _ l Hsh) in Hn.
  destruct (Z.eqb_spec nsh 0) as [->|Hnz]; simpl in Hd.
  - apply (diagonalize_effect _ _ _ _ Hsto) in Hd
      as (Hsh' & Hsto' & Hl & Hsl & Hco & Hkept).
    split; [done|]. split; [done|]. split; [lia|]. split; [|done].
    intros _. unfold slot_refreshed. split; [done|]. split; [lia|]. done.
  - apply bind_Ok in Hd as (Cl & _ & (Cv & _ & Hd)%bind_Ok).
    apply (diagonalize_effect _ _ _ _ Hsto) in Hd
      as (Hsh' & Hsto' & Hl & Hsl & Hco & Hkept).
    split; [done|]. split; [done|]. split; [lia|]. split; [|done].
    intros Hzero. rewrite Hn in Hzero. congruence.
Qed.

Lemma resize_orbitals_stored (ch ch1 : OrbitalChannel.t) :
  resize_orbitals F ch = Ok ch1 →
  stored ch1 ∧ occs ch1 = occs ch ∧ restr ch1 = restr ch ∧ lmax ch1 = lmax ch.
Proof.
  unfold resize_orbitals.
  intros (E' & HE & (C' & HC & [= <-])%bind_Ok)%bind_Ok.
  unfold mat.resize in HE. case_bool_decide; [done|]. injection HE as <-.
  unfold stored. simpl. by rewrite length_fmap, length_seqZ.
Qed.

End Refresh.

(** C9. When both refreshes complete, every channel [l] in which
    [UpdateOrbitalsShifted] counts no occupied shell ends with the same
    eigenvalues and eigenvectors as after the plain [UpdateOrbitals]: those
    of the unshifted [F.slice(l)]. *)
Theorem UpdateOrbitalsShifted_unoccupied_as_plain `{Numerics}
    (F : cube.t) (Sinvh S : mat.t) (shift : float)
    (ch chS chP : OrbitalChannel.t) (l : Z) :
  OrbitalChannel.UpdateOrbitalsShifted F Sinvh S shift ch = Ok chS →
  OrbitalChannel.UpdateOrbitals F Sinvh ch = Ok chP →
  0 ≤ l ≤ OrbitalChannel.lmax ch →
  OrbitalChannel.CountOccupied chS l = Ok 0 →
  ∃ Fl, cube.slice F l = Ok Fl ∧
    cube.slice (OrbitalChannel.C chS) l = Ok (eig_gsym Fl Sinvh).2 ∧
    cube.slice (OrbitalChannel.C chP) l = Ok (eig_gsym Fl Sinvh).2 ∧
    mat.col (OrbitalChannel.E chS) l = Ok (eig_gsym Fl Sinvh).1 ∧
    mat.col (OrbitalChannel.E chP) l = Ok (eig_gsym Fl Sinvh).1.
Proof.
  unfold OrbitalChannel.UpdateOrbitalsShifted, OrbitalChannel.UpdateOrbitals.
  intros (ch1 & Hres & HS)%bind_Ok (ch1' & Hres' & HP)%bind_Ok Hl Hzero.
  rewrite Hres in Hres'. injection Hres' as <-.
  destruct (resize_orbitals_stored F ch ch1 Hres) as (Hsto & _ & _ & Hlmax).
  unfold for_range in HS, HP.
  assert (Hin : l ∈ seqZ 0 (OrbitalChannel.lmax ch1 + 1 - 0))
    by (apply elem_of_seqZ; lia).
  destruct (refresh_loop F Sinvh (λ _, True) _ _ ch1 chP
              (UpdateOrbitals_body_spec F Sinvh ch1) (NoDup_seqZ _ _) Hsto HP)
    as (HshP & HslotP).
  destruct (refresh_loop F Sinvh (λ l, OrbitalChannel.CountOccupied ch1 l = Ok 0)
              _ _ ch1 chS
              (UpdateOrbitalsShifted_body_spec F Sinvh S shift ch1)
              (NoDup_seqZ _ _) Hsto HS)
    as (HshS & HslotS).
  rewrite <- (CountOccupied_same_shape _ _ l HshS) in Hzero.
  destruct (HslotP l Hin I) as (HinF & HlP & HCP & HEP).
  destruct (HslotS l Hin Hzero) as (_ & HlS & HCS & HES).
  exists (cube.slices F !!! Z.to_nat l).
  assert (Hslice : ∀ Q A, cube.slices Q !! Z.to_nat l = Some A →
                          cube.slice Q l = Ok A).
  { intros Q A HA. unfold cube.slice, cube.in_bounds, cube.n_slices.
    pose proof (lookup_lt_Some _ _ _ HA).
    rewrite bool_decide_eq_true_2 by lia.
    by rewrite (list_lookup_total_correct _ _ _ HA). }
  assert (Hcol : ∀ A, 0 ≤ l < mat.n_cols A → mat.col A l = Ok (mat.col_of A l)).
  { intros A HA. unfold mat.col. by rewrite bool_decide_eq_true_2. }
  split; [unfold cube.slice; by rewrite HinF|].
  split; [by apply Hslice|]. split; [by apply Hslice|].
  split; [by rewrite Hcol, HES|]. by rewrite Hcol, HEP.
Qed.

(** Two s electrons: the s channel is shifted, the empty p channel is not. *)
Lemma UpdateOrbitalsShifted_unoccupied_as_plain_witness :
  ∃ chS chP Fl,
    @OrbitalChannel.UpdateOrbitalsShifted sample.naive sample.fock
       sample.identity2 sample.identity2 0.25 sample.ground = Ok chS ∧
    @OrbitalChannel.UpdateOrbitals sample.naive sample.fock sample.identity2
       sample.ground = Ok chP ∧
    OrbitalChannel.CountOccupied chS 0 = Ok 1 ∧
    OrbitalChannel.CountOccupied chS 1 = Ok 0 ∧
    cube.slice sample.fock 1 = Ok Fl ∧
    cube.slice (OrbitalChannel.C chS) 1 = Ok (sample.diagonal_eig Fl sample.identity2).2 ∧
    cube.slice (OrbitalChannel.C chP) 1 = Ok (sample.diagonal_eig Fl sample.identity2).2 ∧
    mat.col (OrbitalChannel.E chS) 1 = Ok (sample.diagonal_eig Fl sample.identity2).1 ∧
    mat.col (OrbitalChannel.E chP) 1 = Ok (sample.diagonal_eig Fl sample.identity2).1.
Proof.
  destruct (@OrbitalChannel.UpdateOrbitalsShifted sample.naive sample.fock
              sample.identity2 sample.identity2 0.25 sample.ground)
    as [chS|e] eqn:HS; [|vm_compute in HS; discriminate].
  destruct (@OrbitalChannel.UpdateOrbitals sample.naive sample.fock
              sample.identity2 sample.ground)
    as [chP|e] eqn:HP; [|vm_compute in HP; discriminate].
  assert (Hocc : OrbitalChannel.CountOccupied chS 0 = Ok 1 ∧
                 OrbitalChannel.CountOccupied chS 1 = Ok 0).
  { vm_compute in HS. injection HS as <-. split; reflexivity. }
  destruct Hocc as [Hocc0 Hocc1].
  destruct (@UpdateOrbitalsShifted_unoccupied_as_plain sample.naive sample.fock
              sample.identity2 sample.identity2 0.25 sample.ground chS chP 1
              HS HP) as (Fl & HFl & H1 & H2 & H3 & H4).
  - simpl. lia.
  - exact Hocc1.
  - exists chS, chP, Fl. repeat split; assumption.
Defined.

(** ** Fock build *)

(** Follows a completed monadic computation through its steps, keeping only
    what the last step returns. *)
Ltac peel H :=
  repeat (cbv beta zeta in H;
    match type of H with
    | (_ ≫= _) = Ok _ => apply bind_Ok in H as (? & _ & H)
    | (match ?x with _ => _ end) = Ok _ => destruct x; try discriminate H
    end).

Lemma FockBuild_r_energy `{Numerics} `{BasisProvider}
    (sv : SCFSolver.t) (conf conf' : rconf.t) (E : float) :
  SCFSolver.FockBuild_r sv conf = Ok (E, conf') →
  rconf.Econf conf'
  = (rconf.Ekin conf' + rconf.Epot conf' + rconf.Ecoul conf' + rconf.Exc conf')%float
  ∧ E = rconf.Econf conf'.
Proof.
  intros Hrun. unfold SCFSolver.FockBuild_r in Hrun. peel Hrun.
  all: injection Hrun as <- <-; split; reflexivity.
Qed.

Lemma FockBuild_u_energy `{Numerics} `{BasisProvider}
    (sv : SCFSolver.t) (conf conf' : uconf.t) (E : float) :
  SCFSolver.FockBuild_u sv conf = Ok (E, conf') →
  uconf.Econf conf'
  = (uconf.Ekin conf' + uconf.Epot conf' + uconf.Ecoul conf' + uconf.Exc conf')%float
  ∧ E = uconf.Econf conf'.
Proof.
  intros Hrun. unfold SCFSolver.FockBuild_u in Hrun. peel Hrun.
  all: injection Hrun as <- <-; split; reflexivity.
Qed.

(** C6. When [FockBuild] returns, restricted or unrestricted, the stored
    total energy is the sum [Ekin + Epot + Ecoul + Exc] of the four stored
    components, added in that order in binary64, and the value returned is
    the stored total energy. *)
Theorem FockBuild_total_energy `{Numerics} `{BasisProvider} (sv : SCFSolver.t) :
  (∀ conf E conf', SCFSolver.FockBuild_r sv conf = Ok (E, conf') →
     rconf.Econf conf'
     = (rconf.Ekin conf' + rconf.Epot conf' + rconf.Ecoul conf' + rconf.Exc conf')%float
     ∧ E = rconf.Econf conf') ∧
  (∀ conf E conf', SCFSolver.FockBuild_u sv conf = Ok (E, conf') →
     uconf.Econf conf'
     = (uconf.Ekin conf' + uconf.Epot conf' + uconf.Ecoul conf' + uconf.Exc conf')%float
     ∧ E = uconf.Econf conf').
Proof.
  split; intros conf E conf' Hrun.
  - by apply (FockBuild_r_energy sv conf).
  - by apply (FockBuild_u_energy sv conf).
Qed.

Lemma FockBuild_total_energy_witness :
  (∃ E conf', @SCFSolver.FockBuild_r sample.naive sample.bare
                (sample.solver_of 1 10 0.5 0.5) sample.start = Ok (E, conf') ∧
     rconf.Econf conf'
     = (rconf.Ekin conf' + rconf.Epot conf' + rconf.Ecoul conf' + rconf.Exc conf')%float
     ∧ E = rconf.Econf conf') ∧
  (∃ E conf', @SCFSolver.FockBuild_u sample.naive sample.bare
                (sample.solver_of 1 10 0.5 0.5) sample.start_u = Ok (E, conf') ∧
     uconf.Econf conf'
     = (uconf.Ekin conf' + uconf.Epot conf' + uconf.Ecoul conf' + uconf.Exc conf')%float
     ∧ E = uconf.Econf conf').
Proof.
  destruct (@FockBuild_total_energy sample.naive sample.bare
              (sample.solver_of 1 10 0.5 0.5)) as [Hr Hu].
  split.
  - destruct (@SCFSolver.FockBuild_r sample.naive sample.bare
                (sample.solver_of 1 10 0.5 0.5) sample.start)
      as [[E conf']|e] eqn:Hrun; [|vm_compute in Hrun; discriminate].
    exists E, conf'. split; [reflexivity|]. exact (Hr _ _ _ Hrun).
  - destruct (@SCFSolver.FockBuild_u sample.naive sample.bare
                (sample.solver_of 1 10 0.5 0.5) sample.start_u)
      as [[E conf']|e] eqn:Hrun; [|vm_compute in Hrun; discriminate].
    exists E, conf'. split; [reflexivity|]. exact (Hu _ _ _ Hrun).
Defined.

(** ** The SCF loop *)

Section Solve_facts.
Import SCFSolver.
Context `{Numerics} `{BasisProvider} `{Accelerator}.
Variable sv : SCFSolver.t.

(** What one completed pass leaves behind: the energy of [FockBuild], the
    error estimate of the accelerator on the packed Fock and density
    matrices, the flag computed from both, and the unpacked Fock matrices. *)
Lemma iteration_r_spec (st st' : rscf) :
  iteration_r sv st = Ok st' →
  ∃ conf1 Fsuper Psuper Fsuper',
    FockBuild_r sv (r_conf st) = Ok (r_E st', conf1) ∧
    SuperCube sv (rconf.Fl conf1) = Ok Fsuper ∧
    SuperCube sv (rconf.Pl conf1) = Ok Psuper ∧
    r_diiserr st' = Some (rDIIS_update (r_diis st) Fsuper Psuper (r_E st')).2 ∧
    rconf.converged (r_conf st')
    = PrimFloat.ltb (rDIIS_update (r_diis st) Fsuper Psuper (r_E st')).2 (convthr sv)
      && PrimFloat.ltb (PrimFloat.abs (r_E st' - r_E st)) (convthr sv) ∧
    rconf.Econf (r_conf st') = r_E st' ∧
    MiniMat sv Fsuper' = Ok (rconf.Fl (r_conf st')).
Proof.
  unfold iteration_r. intros Hrun.
  apply bind_Ok in Hrun as ([E conf1] & HF & Hrun).
  apply bind_Ok in Hrun as (Fsuper & HFs & Hrun).
  apply bind_Ok in Hrun as (Psuper & HPs & Hrun).
  destruct (rDIIS_update (r_diis st) Fsuper Psuper E) as [diis diiserr] eqn:Hup.
  destruct (rDIIS_solve_F diis Fsuper) as [diis' Fsuper'].
  apply bind_Ok in Hrun as (Fl & HFl & Hrun).
  apply bind_Ok in Hrun as (orbs & _ & Hrun).
  injection Hrun as <-. simpl.
  exists conf1, Fsuper, Psuper, Fsuper'. rewrite Hup. simpl.
  repeat split; try done.
  destruct (FockBuild_r_energy sv _ _ _ HF) as [_ ->]. done.
Qed.

Lemma iteration_u_spec (st st' : uscf) :
  iteration_u sv st = Ok st' →
  ∃ conf1 Fasuper Fbsuper Pasuper Pbsuper Fasuper' Fbsuper',
    FockBuild_u sv (u_conf st) = Ok (u_E st', conf1) ∧
    SuperCube sv (uconf.Fal conf1) = Ok Fasuper ∧
    SuperCube sv (uconf.Fbl conf1) = Ok Fbsuper ∧
    SuperCube sv (uconf.Pal conf1) = Ok Pasuper ∧
    SuperCube sv (uconf.Pbl conf1) = Ok Pbsuper ∧
    u_diiserr st'
    = Some (uDIIS_update (u_diis st) Fasuper Fbsuper Pasuper Pbsuper (u_E st')).2 ∧
    uconf.converged (u_conf st')
    = PrimFloat.ltb
        (uDIIS_update (u_diis st) Fasuper Fbsuper Pasuper Pbsuper (u_E st')).2
        (convthr sv)
      && PrimFloat.ltb (PrimFloat.abs (u_E st' - u_E st)) (convthr sv) ∧
    uconf.Econf (u_conf st') = u_E st' ∧
    MiniMat sv Fasuper' = Ok (uconf.Fal (u_conf st')) ∧
    MiniMat sv Fbsuper' = Ok (uconf.Fbl (u_conf st')).
Proof.
  unfold iteration_u. intros Hrun.
  apply bind_Ok in Hrun as ([E conf1] & HF & Hrun).
  apply bind_Ok in Hrun as (Fasuper & HFas & Hrun).
  apply bind_Ok in Hrun as (Fbsuper & HFbs & Hrun).
  apply bind_Ok in Hrun as (Pasuper & HPas & Hrun).
  apply bind_Ok in Hrun as (Pbsuper & HPbs & Hrun).
  destruct (uDIIS_update (u_diis st) Fasuper Fbsuper Pasuper Pbsuper E)
    as [diis diiserr] eqn:Hup.
  destruct (uDIIS_solve_F diis Fasuper Fbsuper) as [[diis' Fasuper'] Fbsuper'].
  apply bind_Ok in Hrun as (Fal & HFal & Hrun).
  apply bind_Ok in Hrun as (Fbl & HFbl & Hrun).
  apply bind_Ok in Hrun as ([orbsa orbsb] & _ & Hrun).
  injection Hrun as <-. simpl.
  exists conf1, Fasuper, Fbsuper, Pasuper, Pbsuper, Fasuper', Fbsuper'.
  rewrite Hup. simpl. repeat split; try done.
  destruct (FockBuild_u_energy sv _ _ _ HF) as [_ ->]. done.
Qed.

(** How the restricted loop can end: out of passes, or by [break]. *)
Lemma loop_r_Ok (left : nat) (iscf iscf' : Z) (st0 st : rscf) :
  loop_r sv left iscf st0 = (iscf', Ok st) →
  (iscf' = iscf + Z.of_nat left ∧
   (left = 0%nat → st = st0) ∧
   (left ≠ 0%nat → rconf.converged (r_conf st) = false ∧
                   ∃ prev, iteration_r sv prev = Ok st)) ∨
  (iscf ≤ iscf' < iscf + Z.of_nat left ∧
   rconf.converged (r_conf st) = true ∧
   ∃ prev, iteration_r sv prev = Ok st).
Proof.
  revert iscf st0. induction left as [|left IH]; intros iscf st0 Hrun.
  - simpl in Hrun. injection Hrun as <- <-. left. split; [lia|]. done.
  - simpl in Hrun. destruct (iteration_r sv st0) as [st1|e] eqn:Hit; [|done].
    destruct (rconf.converged (r_conf st1)) eqn:Hconv.
    + injection Hrun as <- <-. right. split; [lia|]. eauto.
    + apply IH in Hrun as [(-> & H0 & Hn0)|(Hi & Hc & Hp)].
      * left. split; [lia|]. split; [done|]. intros _.
        destruct left as [|left]; [|by apply Hn0].
        rewrite (H0 eq_refl). eauto.
      * right. split; [lia|]. done.
Qed.

Lemma loop_u_Ok (left : nat) (iscf iscf' : Z) (st0 st : uscf) :
  loop_u sv left iscf st0 = (iscf', Ok st) →
  (iscf' = iscf + Z.of_nat left ∧
   (left = 0%nat → st = st0) ∧
   (left ≠ 0%nat → uconf.converged (u_conf st) = false ∧
                   ∃ prev, iteration_u sv prev = Ok st)) ∨
  (iscf ≤ iscf' < iscf + Z.of_nat left ∧
   uconf.converged (u_conf st) = true ∧
   ∃ prev, iteration_u sv prev = Ok st).
Proof.
  revert iscf st0. induction left as [|left IH]; intros iscf st0 Hrun.
  - simpl in Hrun. injection Hrun as <- <-. left. split; [lia|]. done.
  - simpl in Hrun. destruct (iteration_u sv st0) as [st1|e] eqn:Hit; [|done].
    destruct (uconf.converged (u_conf st1)) eqn:Hconv.
    + injection Hrun as <- <-. right. split; [lia|]. eauto.
    + apply IH in Hrun as [(-> & H0 & Hn0)|(Hi & Hc & Hp)].
      * left. split; [lia|]. split; [done|]. intros _.
        destruct left as [|left]; [|by apply Hn0].
        rewrite (H0 eq_refl). eauto.
      * right. split; [lia|]. done.
Qed.

(** A throw inside the loop happens in a pass that was started. *)
Lemma loop_r_Throw (left : nat) (iscf iscf' : Z) (st0 : rscf) (e : exn) :
  loop_r sv left iscf st0 = (iscf', Throw e) → iscf ≤ iscf' < iscf + Z.of_nat left.
Proof.
  revert iscf st0. induction left as [|left IH]; intros iscf st0 Hrun; [done|].
  simpl in Hrun. destruct (iteration_r sv st0) as [st1|e1] eqn:Hit.
  - destruct (rconf.converged (r_conf st1)); [done|]. apply IH in Hrun. lia.
  - injection Hrun as <- <-. lia.
Qed.

Lemma loop_u_Throw (left : nat) (iscf iscf' : Z) (st0 : uscf) (e : exn) :
  loop_u sv left iscf st0 = (iscf', Throw e) → iscf ≤ iscf' < iscf + Z.of_nat left.
Proof.
  revert iscf st0. induction left as [|left IH]; intros iscf st0 Hrun; [done|].
  simpl in Hrun. destruct (iteration_u sv st0) as [st1|e1] eqn:Hit.
  - destruct (uconf.converged (u_conf st1)); [done|]. apply IH in Hrun. lia.
  - injection Hrun as <- <-. lia.
Qed.

Lemma loop_r_counter (left : nat) (iscf iscf' : Z) (st0 : rscf) (out : outcome rscf) :
  loop_r sv left iscf st0 = (iscf', out) → iscf ≤ iscf'.
Proof.
  destruct out as [st|e]; intros Hrun.
  - apply loop_r_Ok in Hrun. lia.
  - apply loop_r_Throw in Hrun. lia.
Qed.

End Solve_facts.

(** C2. In every pass of [Solve] the [converged] flag is set to whether the
    accelerator's error estimate (what [diis.update] gives for the packed
    Fock and density matrices and the energy of [FockBuild]) is below
    [convthr] and the absolute change of the energy since the previous pass
    is below [convthr]. When the loop (of [maxit ≥ 1] passes) runs out
    without [break], [Solve] returns normally, having printed the
    not-converged line, with [converged] false and with the configuration as
    the last pass left it: its [Econf] is the energy returned, its Fock
    matrices the last unpacked ones. Restricted and unrestricted. *)
Theorem Solve_converged_flag_and_exhaustion
    `{Numerics} `{BasisProvider} `{Accelerator} (sv : SCFSolver.t) :
  ((∀ st st', SCFSolver.iteration_r sv st = Ok st' →
      ∃ conf1 Fsuper Psuper,
        SCFSolver.FockBuild_r sv (SCFSolver.r_conf st)
        = Ok (SCFSolver.r_E st', conf1) ∧
        SCFSolver.SuperCube sv (rconf.Fl conf1) = Ok Fsuper ∧
        SCFSolver.SuperCube sv (rconf.Pl conf1) = Ok Psuper ∧
        let diiserr :=
          (rDIIS_update (SCFSolver.r_diis st) Fsuper Psuper (SCFSolver.r_E st')).2 in
        SCFSolver.r_diiserr st' = Some diiserr ∧
        rconf.converged (SCFSolver.r_conf st')
        = PrimFloat.ltb diiserr (SCFSolver.convthr sv)
          && PrimFloat.ltb
               (PrimFloat.abs (SCFSolver.r_E st' - SCFSolver.r_E st))
               (SCFSolver.convthr sv)) ∧
   (∀ conf st0 iscf st,
      1 ≤ SCFSolver.maxit sv →
      SCFSolver.Solve_checks_r sv conf = Ok () →
      SCFSolver.start_r sv conf = Ok st0 →
      SCFSolver.loop_r sv (Z.to_nat (SCFSolver.maxit sv)) 1 st0 = (iscf, Ok st) →
      SCFSolver.maxit sv < iscf →
      SCFSolver.Solve_r sv conf
      = SolveResult (SCFSolver.maxit sv) true
          (Ok (SCFSolver.r_E st, SCFSolver.r_conf st)) ∧
      rconf.converged (SCFSolver.r_conf st) = false ∧
      rconf.Econf (SCFSolver.r_conf st) = SCFSolver.r_E st ∧
      ∃ prev Fsuper, SCFSolver.iteration_r sv prev = Ok st ∧
        SCFSolver.MiniMat sv Fsuper = Ok (rconf.Fl (SCFSolver.r_conf st)))) ∧
  ((∀ st st', SCFSolver.iteration_u sv st = Ok st' →
      ∃ conf1 Fasuper Fbsuper Pasuper Pbsuper,
        SCFSolver.FockBuild_u sv (SCFSolver.u_conf st)
        = Ok (SCFSolver.u_E st', conf1) ∧
        SCFSolver.SuperCube sv (uconf.Fal conf1) = Ok Fasuper ∧
        SCFSolver.SuperCube sv (uconf.Fbl conf1) = Ok Fbsuper ∧
        SCFSolver.SuperCube sv (uconf.Pal conf1) = Ok Pasuper ∧
        SCFSolver.SuperCube sv (uconf.Pbl conf1) = Ok Pbsuper ∧
        let diiserr :=
          (uDIIS_update (SCFSolver.u_diis st) Fasuper Fbsuper Pasuper Pbsuper
                        (SCFSolver.u_E st')).2 in
        SCFSolver.u_diiserr st' = Some diiserr ∧
        uconf.converged (SCFSolver.u_conf st')
        = PrimFloat.ltb diiserr (SCFSolver.convthr sv)
          && PrimFloat.ltb
               (PrimFloat.abs (SCFSolver.u_E st' - SCFSolver.u_E st))
               (SCFSolver.convthr sv)) ∧
   (∀ conf st0 iscf st,
      1 ≤ SCFSolver.maxit sv →
      SCFSolver.Solve_checks_u sv conf = Ok () →
      SCFSolver.start_u sv conf = Ok st0 →
      SCFSolver.loop_u sv (Z.to_nat (SCFSolver.maxit sv)) 1 st0 = (iscf, Ok st) →
      SCFSolver.maxit sv < iscf →
      SCFSolver.Solve_u sv conf
      = SolveResult (SCFSolver.maxit sv) true
          (Ok (SCFSolver.u_E st, SCFSolver.u_conf st)) ∧
      uconf.converged (SCFSolver.u_conf st) = false ∧
      uconf.Econf (SCFSolver.u_conf st) = SCFSolver.u_E st ∧
      ∃ prev Fasuper Fbsuper, SCFSolver.iteration_u sv prev = Ok st ∧
        SCFSolver.MiniMat sv Fasuper = Ok (uconf.Fal (SCFSolver.u_conf st)) ∧
        SCFSolver.MiniMat sv Fbsuper = Ok (uconf.Fbl (SCFSolver.u_conf st)))).
Proof.
  split; split.
  - intros st st' Hit.
    destruct (iteration_r_spec sv st st' Hit)
      as (c & Fs & Ps & Fs' & HF & HFs & HPs & He & Hc & _).
    exists c, Fs, Ps. simpl. done.
  - intros conf st0 iscf st Hmaxit Hchk Hst Hloop Hout.
    unfold SCFSolver.Solve_r. rewrite Hchk, Hst, Hloop.
    destruct (loop_r_Ok sv _ _ _ _ _ Hloop)
      as [(-> & _ & Hlast)|(Hi & _)]; [|lia].
    destruct Hlast as (Hconv & prev & Hprev); [lia|].
    destruct (iteration_r_spec sv prev st Hprev)
      as (c & Fs & Ps & Fs' & _ & _ & _ & _ & _ & HE & HFl).
    unfold passes.
    destruct (Z.ltb_spec (SCFSolver.maxit sv)
                (1 + Z.of_nat (Z.to_nat (SCFSolver.maxit sv)))) as [_|?]; [|lia].
    replace (1 + Z.of_nat (Z.to_nat (SCFSolver.maxit sv)) - 1)
      with (SCFSolver.maxit sv) by lia.
    eauto 10.
  - intros st st' Hit.
    destruct (iteration_u_spec sv st st' Hit)
      as (c & Fa & Fb & Pa & Pb & Fa' & Fb' & HF & HFa & HFb & HPa & HPb & He & Hc & _).
    exists c, Fa, Fb, Pa, Pb. simpl. done.
  - intros conf st0 iscf st Hmaxit Hchk Hst Hloop Hout.
    unfold SCFSolver.Solve_u. rewrite Hchk, Hst, Hloop.
    destruct (loop_u_Ok sv _ _ _ _ _ Hloop)
      as [(-> & _ & Hlast)|(Hi & _)]; [|lia].
    destruct Hlast as (Hconv & prev & Hprev); [lia|].
    destruct (iteration_u_spec sv prev st Hprev)
      as (c & Fa & Fb & Pa & Pb & Fa' & Fb' & _ & _ & _ & _ & _ & _ & _ & HE & HFa & HFb).
    unfold passes.
    destruct (Z.ltb_spec (SCFSolver.maxit sv)
                (1 + Z.of_nat (Z.to_nat (SCFSolver.maxit sv)))) as [_|?]; [|lia].
    replace (1 + Z.of_nat (Z.to_nat (SCFSolver.maxit sv)) - 1)
      with (SCFSolver.maxit sv) by lia.
    eauto 10.
Qed.

(** Three passes with an accelerator that keeps reporting the error [1]. *)
Lemma Solve_converged_flag_and_exhaustion_witness :
  (∃ out, @SCFSolver.Solve_r sample.naive sample.bare (sample.reporting 1)
            (sample.solver_of 1 3 0x1p-20 0.5) sample.start
          = SolveResult 3 true (Ok out) ∧
     rconf.converged out.2 = false ∧ rconf.Econf out.2 = out.1) ∧
  (∃ out, @SCFSolver.Solve_u sample.naive sample.bare (sample.reporting 1)
            (sample.solver_of 1 3 0x1p-20 0.5) sample.start_u
          = SolveResult 3 true (Ok out) ∧
     uconf.converged out.2 = false ∧ uconf.Econf out.2 = out.1).
Proof.
  destruct (@Solve_converged_flag_and_exhaustion sample.naive sample.bare
              (sample.reporting 1) (sample.solver_of 1 3 0x1p-20 0.5))
    as [[Hflag_r Hout_r] [Hflag_u Hout_u]].
  split.
  - destruct (@SCFSolver.start_r (sample.reporting 1)
                (sample.solver_of 1 3 0x1p-20 0.5) sample.start)
      as [st0|e] eqn:Hst; [|vm_compute in Hst; discriminate].
    destruct (@SCFSolver.loop_r sample.naive sample.bare (sample.reporting 1)
                (sample.solver_of 1 3 0x1p-20 0.5) (Z.to_nat 3) 1 st0)
      as [iscf [st|e]] eqn:Hloop.
    2: { vm_compute in Hst. injection Hst as <-. vm_compute in Hloop. discriminate. }
    assert (Hiscf : iscf = 4).
    { vm_compute in Hst. injection Hst as <-. vm_compute in Hloop. congruence. }
    destruct (Hout_r sample.start st0 iscf st) as (Hsolve & Hconv & HE & prev & Fs & Hprev & _).
    + simpl. lia.
    + reflexivity.
    + exact Hst.
    + exact Hloop.
    + subst iscf. simpl. lia.
    + destruct (Hflag_r prev st Hprev) as (c & Fs1 & Ps1 & _).
      eexists. split; [exact Hsolve|]. split; [exact Hconv|exact HE].
  - destruct (@SCFSolver.start_u (sample.reporting 1)
                (sample.solver_of 1 3 0x1p-20 0.5) sample.start_u)
      as [st0|e] eqn:Hst; [|vm_compute in Hst; discriminate].
    destruct (@SCFSolver.loop_u sample.naive sample.bare (sample.reporting 1)
                (sample.solver_of 1 3 0x1p-20 0.5) (Z.to_nat 3) 1 st0)
      as [iscf [st|e]] eqn:Hloop.
    2: { vm_compute in Hst. injection Hst as <-. vm_compute in Hloop. discriminate. }
    assert (Hiscf : iscf = 4).
    { vm_compute in Hst. injection Hst as <-. vm_compute in Hloop. congruence. }
    destruct (Hout_u sample.start_u st0 iscf st)
      as (Hsolve & Hconv & HE & prev & Fa & Fb & Hprev & _).
    + simpl. lia.
    + reflexivity.
    + exact Hst.
    + exact Hloop.
    + subst iscf. simpl. lia.
    + destruct (Hflag_u prev st Hprev) as (c & Fa1 & Fb1 & Pa1 & Pb1 & _).
      eexists. split; [exact Hsolve|]. split; [exact Hconv|exact HE].
Defined.

(** C1, as the code has it. The first pass of [Solve] measures the energy
    change against the initial [E = 0], not against the [Econf] stored by
    an earlier call: the flag it sets is whether the accelerator error and
    the absolute value of the new energy minus zero are both below
    [convthr]. If it is set, [Solve] returns after that one pass; if not,
    and [maxit ≥ 2], a second pass is started. *)
Theorem Solve_first_pass_against_zero
    `{Numerics} `{BasisProvider} `{Accelerator}
    (sv : SCFSolver.t) (conf : rconf.t) (st0 st1 : SCFSolver.rscf) :
  1 ≤ SCFSolver.maxit sv →
  SCFSolver.Solve_checks_r sv conf = Ok () →
  SCFSolver.start_r sv conf = Ok st0 →
  SCFSolver.iteration_r sv st0 = Ok st1 →
  ∃ conf1 diiserr,
    SCFSolver.FockBuild_r sv conf = Ok (SCFSolver.r_E st1, conf1) ∧
    SCFSolver.r_diiserr st1 = Some diiserr ∧
    rconf.converged (SCFSolver.r_conf st1)
    = PrimFloat.ltb diiserr (SCFSolver.convthr sv)
      && PrimFloat.ltb (PrimFloat.abs (SCFSolver.r_E st1 - 0))
                       (SCFSolver.convthr sv) ∧
    (rconf.converged (SCFSolver.r_conf st1) = true →
     SCFSolver.Solve_r sv conf
     = SolveResult 1 false (Ok (SCFSolver.r_E st1, SCFSolver.r_conf st1))) ∧
    (rconf.converged (SCFSolver.r_conf st1) = false →
     2 ≤ SCFSolver.maxit sv →
     2 ≤ iterations (SCFSolver.Solve_r sv conf)).
Proof.
  intros Hmaxit Hchk Hst Hit.
  assert (Hst0 : SCFSolver.r_conf st0 = conf ∧ SCFSolver.r_E st0 = 0%float).
  { unfold SCFSolver.start_r in Hst.
    apply bind_Ok in Hst as (SS & _ & Hst).
    apply bind_Ok in Hst as (SSinvh & _ & Hst).
    injection Hst as <-. done. }
  destruct Hst0 as [Hconf0 HE0].
  destruct (iteration_r_spec sv st0 st1 Hit)
    as (conf1 & Fs & Ps & Fs' & HF & _ & _ & Herr & Hc & _).
  rewrite Hconf0 in HF. rewrite HE0 in Hc.
  eexists conf1, _. split; [done|]. split; [exact Herr|]. split; [done|].
  unfold SCFSolver.Solve_r. rewrite Hchk, Hst.
  destruct (Z.to_nat (SCFSolver.maxit sv)) as [|left] eqn:Hleft; [lia|].
  simpl. rewrite Hit. split.
  - intros ->. unfold passes.
    destruct (Z.ltb_spec (SCFSolver.maxit sv) 1); [lia|]. done.
  - intros ->. intros Hmaxit2.
    destruct (SCFSolver.loop_r sv left (1 + 1) st1) as [iscf out] eqn:Hloop.
    pose proof (loop_r_counter sv _ _ _ _ _ Hloop) as Hge.
    assert (Hpass : 2 ≤ passes (SCFSolver.maxit sv) iscf).
    { unfold passes. destruct (Z.ltb_spec (SCFSolver.maxit sv) iscf); lia. }
    by destruct out.
Qed.

Lemma Solve_first_pass_against_zero_witness :
  ∃ (st1 : @SCFSolver.rscf sample.steady) conf1 diiserr,
    @SCFSolver.FockBuild_r sample.naive sample.bare
       (sample.solver_of 1 10 0x1p-20 0x1p-7) sample.start
    = Ok (SCFSolver.r_E st1, conf1) ∧
    SCFSolver.r_diiserr st1 = Some diiserr ∧
    rconf.converged (SCFSolver.r_conf st1)
    = PrimFloat.ltb diiserr 0x1p-20
      && PrimFloat.ltb (PrimFloat.abs (SCFSolver.r_E st1 - 0)) 0x1p-20 ∧
    rconf.converged (SCFSolver.r_conf st1) = false ∧
    2 ≤ iterations (@SCFSolver.Solve_r sample.naive sample.bare sample.steady
                      (sample.solver_of 1 10 0x1p-20 0x1p-7) sample.start).
Proof.
  destruct (@SCFSolver.start_r sample.steady
              (sample.solver_of 1 10 0x1p-20 0x1p-7) sample.start)
    as [st0|e] eqn:Hst; [|vm_compute in Hst; discriminate].
  destruct (@SCFSolver.iteration_r sample.naive sample.bare sample.steady
              (sample.solver_of 1 10 0x1p-20 0x1p-7) st0)
    as [st1|e] eqn:Hit.
  2: { vm_compute in Hst. injection Hst as <-. vm_compute in Hit. discriminate. }
  assert (Hflag : rconf.converged (SCFSolver.r_conf st1) = false).
  { vm_compute in Hst. injection Hst as <-. vm_compute in Hit.
    injection Hit as <-. reflexivity. }
  destruct (@Solve_first_pass_against_zero sample.naive sample.bare sample.steady
              (sample.solver_of 1 10 0x1p-20 0x1p-7) sample.start st0 st1)
    as (conf1 & err & HF & Herr & Hc & _ & Hnext).
  - simpl. lia.
  - reflexivity.
  - exact Hst.
  - exact Hit.
  - exists st1, conf1, err. split; [exact HF|]. split; [exact Herr|].
    split; [exact Hc|]. split; [exact Hflag|].
    apply Hnext; [exact Hflag|]. simpl. lia.
Defined.

(** C1 as stated fails. The configuration that a first [Solve] leaves
    converged at the energy [-3] is a fixed point of the bare-nucleus model,
    yet [Solve] on it runs two passes: in the first the energy change is
    [-3 - 0]. *)
Lemma Solve_again_takes_two_passes :
  ¬ (∀ conf E conf1,
       returned (@SCFSolver.Solve_r sample.naive sample.bare sample.steady
                   (sample.solver_of 1 10 0x1p-20 0x1p-7) conf) = Ok (E, conf1) →
       rconf.converged conf1 = true →
       iterations (@SCFSolver.Solve_r sample.naive sample.bare sample.steady
                     (sample.solver_of 1 10 0x1p-20 0x1p-7) conf1) ≤ 1).
Proof.
  intros Hclaim.
  destruct (returned (@SCFSolver.Solve_r sample.naive sample.bare sample.steady
                        (sample.solver_of 1 10 0x1p-20 0x1p-7) sample.start))
    as [[E conf1]|e] eqn:Hfirst; [|vm_compute in Hfirst; discriminate].
  specialize (Hclaim sample.start E conf1 Hfirst).
  vm_compute in Hfirst. injection Hfirst as <- <-.
  specialize (Hclaim eq_refl). vm_compute in Hclaim. by apply Hclaim.
Qed.

(** ** The checks of [Solve] *)

Lemma for_each_Throw {S : Type} (body : Z → S → outcome S) (idx : list Z)
    (s : S) (e : exn) :
  for_each idx body s = Throw e → ∃ i s', body i s' = Throw e.
Proof.
  revert s. induction idx as [|i idx IH]; intros s Hrun; [done|].
  simpl in Hrun. destruct (body i s) as [s1|e1] eqn:Hb.
  - simpl in Hrun. eauto.
  - simpl in Hrun. injection Hrun as ->. eauto.
Qed.

Lemma SuperMat_Throw (sv : SCFSolver.t) (M : mat.t) (e : exn) :
  SCFSolver.SuperMat sv M = Throw e → SCFSolver.packing_exn e.
Proof.
  unfold SCFSolver.SuperMat, mat.zeros. case_bool_decide.
  - intros [= <-]. by left.
  - simpl. unfold for_range. intros (l & A & Hb)%for_each_Throw.
    unfold mat.set_submat in Hb.
    destruct (mat.submat_in_bounds _ _ _ _ _).
    + case_bool_decide; [done|]. injection Hb as <-. right. by right.
    + injection Hb as <-. right. by left.
Qed.

Lemma packing_exn_not_InvalidState (e : exn) (what : string) :
  SCFSolver.packing_exn e → e = logic_error what →
  (what ∉ SCFSolver.InvalidState_r) ∧ (what ∉ SCFSolver.InvalidState_u).
Proof.
  intros He Heq. destruct He as [He|[He|He]]; rewrite He in Heq;
    try discriminate Heq; injection Heq as <-;
    split; intros Hin;
    repeat (apply elem_of_cons in Hin as [Hin|Hin]; [by vm_compute in Hin|]);
    by apply elem_of_nil in Hin.
Qed.

Lemma start_r_Throw `{Accelerator} (sv : SCFSolver.t) (conf : rconf.t) (e : exn) :
  SCFSolver.start_r sv conf = Throw e → SCFSolver.packing_exn e.
Proof.
  unfold SCFSolver.start_r.
  destruct (SCFSolver.SuperMat sv (SCFSolver.S sv)) as [SS|e1] eqn:H1; simpl.
  - destruct (SCFSolver.SuperMat sv (SCFSolver.Sinvh sv)) as [SSi|e2] eqn:H2; simpl;
      [done|]. intros [= <-]. by apply SuperMat_Throw in H2.
  - intros [= <-]. by apply SuperMat_Throw in H1.
Qed.

Lemma start_u_Throw `{Accelerator} (sv : SCFSolver.t) (conf : uconf.t) (e : exn) :
  SCFSolver.start_u sv conf = Throw e → SCFSolver.packing_exn e.
Proof.
  unfold SCFSolver.start_u.
  destruct (SCFSolver.SuperMat sv (SCFSolver.S sv)) as [SS|e1] eqn:H1; simpl.
  - destruct (SCFSolver.SuperMat sv (SCFSolver.Sinvh sv)) as [SSi|e2] eqn:H2; simpl;
      [done|]. intros [= <-]. by apply SuperMat_Throw in H2.
  - intros [= <-]. by apply SuperMat_Throw in H1.
Qed.

(** The length test [n_elem != (arma::uword)(lmax+1)] on an [int] [lmax+1]
    and a vector that fits in memory. *)
Lemma wrong_length_test (len lmax : Z) :
  (- 2 ^ 31 ≤ lmax + 1 < 2 ^ 31) → 0 ≤ len ≤ max_n_elem →
  negb (len =? uword (lmax + 1)) = true ↔ len ≠ lmax + 1.
Proof.
  intros Hint Hlen. rewrite negb_true_iff, Z.eqb_neq.
  assert (Hmax : max_n_elem < uword_modulus - 2 ^ 31) by reflexivity.
  destruct (Z.lt_ge_cases (lmax + 1) 0) as [Hneg|Hpos].
  - assert (uword (lmax + 1) = uword_modulus + (lmax + 1)) as ->.
    { unfold uword. symmetry.
      apply (Z.mod_unique_pos _ _ (-1)); unfold uword_modulus in *; lia. }
    lia.
  - rewrite uword_small by (unfold uword_modulus; lia). done.
Qed.

Section Checks.
Import SCFSolver.
Variable sv : SCFSolver.t.
Hypothesis Hint : (- 2 ^ 31 ≤ lmax sv + 1 < 2 ^ 31).

Lemma Solve_checks_r_spec (conf : rconf.t) :
  Z.of_nat (length (OrbitalChannel.Occs (rconf.orbs conf))) ≤ max_n_elem →
  (Solve_checks_r sv conf = Ok () ∧ ¬ violated_r sv conf) ∨
  (∃ what, what ∈ InvalidState_r ∧
           Solve_checks_r sv conf = Throw (logic_error what) ∧ violated_r sv conf).
Proof.
  intros Hlen. unfold Solve_checks_r, violated_r.
  destruct (OrbitalChannel.OrbitalsInitialized (rconf.orbs conf)); simpl.
  2: { right. eexists. split; [|split; [reflexivity|by left]].
       unfold InvalidState_r. apply elem_of_cons. by left. }
  destruct (OrbitalChannel.Restricted (rconf.orbs conf)); simpl.
  2: { right. eexists. split; [|split; [reflexivity|by right; right]].
       unfold InvalidState_r. apply elem_of_cons. right. apply elem_of_cons. by left. }
  destruct (negb (_ =? _)) eqn:Hw.
  - right. eexists. split; [|split; [reflexivity|]].
    + unfold InvalidState_r. do 2 (apply elem_of_cons; right).
      apply elem_of_cons. by left.
    + right. left. apply wrong_length_test in Hw; [done|done|lia].
  - left. split; [done|]. intros [?|[Hne|?]]; try done.
    apply wrong_length_test in Hne; [congruence|done|lia].
Qed.

Lemma Solve_checks_u_spec (conf : uconf.t) :
  Z.of_nat (length (OrbitalChannel.Occs (uconf.orbsa conf))) ≤ max_n_elem →
  Z.of_nat (length (OrbitalChannel.Occs (uconf.orbsb conf))) ≤ max_n_elem →
  (Solve_checks_u sv conf = Ok () ∧ ¬ violated_u sv conf) ∨
  (∃ what, what ∈ InvalidState_u ∧
           Solve_checks_u sv conf = Throw (logic_error what) ∧ violated_u sv conf).
Proof.
  intros Hlena Hlenb. unfold Solve_checks_u, violated_u.
  assert (Hin1 : orbitals_not_initialized ∈ InvalidState_u)
    by (apply elem_of_cons; by left).
  assert (Hin2 : wrong_length ∈ InvalidState_u)
    by (apply elem_of_cons; right; apply elem_of_cons; by left).
  assert (Hin3 : unrestricted_with_restricted ∈ InvalidState_u)
    by (do 2 (apply elem_of_cons; right); apply elem_of_cons; by left).
  destruct (OrbitalChannel.OrbitalsInitialized (uconf.orbsa conf)); simpl.
  2: { right. eexists. split; [exact Hin1|]. split; [reflexivity|]. by left. }
  destruct (OrbitalChannel.OrbitalsInitialized (uconf.orbsb conf)); simpl.
  2: { right. eexists. split; [exact Hin1|]. split; [reflexivity|]. right. by left. }
  destruct (negb (Z.of_nat (length (OrbitalChannel.Occs (uconf.orbsa conf))) =? _))
    eqn:Hwa.
  { right. eexists. split; [exact Hin2|]. split; [reflexivity|].
    right. right. left. apply wrong_length_test in Hwa; [done|done|lia]. }
  destruct (negb (Z.of_nat (length (OrbitalChannel.Occs (uconf.orbsb conf))) =? _))
    eqn:Hwb.
  { right. eexists. split; [exact Hin2|]. split; [reflexivity|].
    do 3 right. left. apply wrong_length_test in Hwb; [done|done|lia]. }
  destruct (OrbitalChannel.Restricted (uconf.orbsa conf)); simpl.
  { right. eexists. split; [exact Hin3|]. split; [reflexivity|]. do 4 right. by left. }
  destruct (OrbitalChannel.Restricted (uconf.orbsb conf)); simpl.
  { right. eexists. split; [exact Hin3|]. split; [reflexivity|]. by do 5 right. }
  left. split; [done|]. intros [?|[?|[Hne|[Hne|[?|?]]]]]; try done.
  - apply wrong_length_test in Hne; [congruence|done|lia].
  - apply wrong_length_test in Hne; [congruence|done|lia].
Qed.

End Checks.

(** C3. [Solve] throws one of its own [std::logic_error]s, with no pass of
    the loop started, exactly when a precondition fails: a channel's
    orbitals are not initialized, an occupation vector does not have
    [lmax+1] entries, or a channel's restricted flag does not suit the
    variant (unrestricted orbitals for the restricted [Solve], restricted
    ones for the unrestricted). [lmax+1] is an [int]; the vectors fit in
    memory. In particular the restricted [Solve] on occupations of another
    length than [lmax+1] throws so. *)
Theorem Solve_InvalidState_iff_precondition_violated
    `{Numerics} `{BasisProvider} `{Accelerator} (sv : SCFSolver.t) :
  (- 2 ^ 31 ≤ SCFSolver.lmax sv + 1 < 2 ^ 31) →
  (∀ conf : rconf.t,
     Z.of_nat (length (OrbitalChannel.Occs (rconf.orbs conf))) ≤ max_n_elem →
     (OrbitalChannel.OrbitalsInitialized (rconf.orbs conf) = false ∨
      Z.of_nat (length (OrbitalChannel.Occs (rconf.orbs conf)))
        ≠ SCFSolver.lmax sv + 1 ∨
      OrbitalChannel.Restricted (rconf.orbs conf) = false)
     ↔ ∃ what, what ∈ SCFSolver.InvalidState_r ∧
         SCFSolver.Solve_r sv conf = SolveResult 0 false (Throw (logic_error what))) ∧
  (∀ conf : uconf.t,
     Z.of_nat (length (OrbitalChannel.Occs (uconf.orbsa conf))) ≤ max_n_elem →
     Z.of_nat (length (OrbitalChannel.Occs (uconf.orbsb conf))) ≤ max_n_elem →
     (OrbitalChannel.OrbitalsInitialized (uconf.orbsa conf) = false ∨
      OrbitalChannel.OrbitalsInitialized (uconf.orbsb conf) = false ∨
      Z.of_nat (length (OrbitalChannel.Occs (uconf.orbsa conf)))
        ≠ SCFSolver.lmax sv + 1 ∨
      Z.of_nat (length (OrbitalChannel.Occs (uconf.orbsb conf)))
        ≠ SCFSolver.lmax sv + 1 ∨
      OrbitalChannel.Restricted (uconf.orbsa conf) = true ∨
      OrbitalChannel.Restricted (uconf.orbsb conf) = true)
     ↔ ∃ what, what ∈ SCFSolver.InvalidState_u ∧
         SCFSolver.Solve_u sv conf = SolveResult 0 false (Throw (logic_error what))).
Proof.
  intros Hint. split.
  - intros conf Hlen. fold (SCFSolver.violated_r sv conf).
    destruct (Solve_checks_r_spec sv Hint conf Hlen)
      as [[Hok Hnv]|(what & Hin & Hthrow & Hv)].
    + split; [done|]. intros (what & Hin & Hsolve). exfalso.
      unfold SCFSolver.Solve_r in Hsolve. rewrite Hok in Hsolve.
      destruct (SCFSolver.start_r sv conf) as [st0|e] eqn:Hst.
      * destruct (SCFSolver.loop_r sv _ 1 st0) as [iscf [st|e]] eqn:Hloop; [done|].
        apply loop_r_Throw in Hloop. injection Hsolve as Hpass _.
        unfold passes in Hpass.
        destruct (Z.ltb_spec (SCFSolver.maxit sv) iscf); lia.
      * injection Hsolve as ->. apply start_r_Throw in Hst.
        by destruct (packing_exn_not_InvalidState _ what Hst eq_refl).
    + split; [|done]. intros _. exists what. split; [done|].
      unfold SCFSolver.Solve_r. by rewrite Hthrow.
  - intros conf Hlena Hlenb. fold (SCFSolver.violated_u sv conf).
    destruct (Solve_checks_u_spec sv Hint conf Hlena Hlenb)
      as [[Hok Hnv]|(what & Hin & Hthrow & Hv)].
    + split; [done|]. intros (what & Hin & Hsolve). exfalso.
      unfold SCFSolver.Solve_u in Hsolve. rewrite Hok in Hsolve.
      destruct (SCFSolver.start_u sv conf) as [st0|e] eqn:Hst.
      * destruct (SCFSolver.loop_u sv _ 1 st0) as [iscf [st|e]] eqn:Hloop; [done|].
        apply loop_u_Throw in Hloop. injection Hsolve as Hpass _.
        unfold passes in Hpass.
        destruct (Z.ltb_spec (SCFSolver.maxit sv) iscf); lia.
      * injection Hsolve as ->. apply start_u_Throw in Hst.
        by destruct (packing_exn_not_InvalidState _ what Hst eq_refl).
    + split; [|done]. intros _. exists what. split; [done|].
      unfold SCFSolver.Solve_u. by rewrite Hthrow.
Qed.

Lemma Solve_InvalidState_iff_precondition_violated_witness :
  (∃ what, what ∈ SCFSolver.InvalidState_r ∧
     @SCFSolver.Solve_r sample.naive sample.bare sample.steady
        (sample.solver_of 1 10 0x1p-20 0x1p-7) sample.three_channels
     = SolveResult 0 false (Throw (logic_error what))) ∧
  (∃ what, what ∈ SCFSolver.InvalidState_u ∧
     @SCFSolver.Solve_u sample.naive sample.bare sample.steady
        (sample.solver_of 1 10 0x1p-20 0x1p-7) sample.three_channels_u
     = SolveResult 0 false (Throw (logic_error what))).
Proof.
  destruct (@Solve_InvalidState_iff_precondition_violated
              sample.naive sample.bare sample.steady
              (sample.solver_of 1 10 0x1p-20 0x1p-7)) as [Hr Hu].
  - simpl. lia.
  - split.
    + apply (Hr sample.three_channels).
      * vm_compute. discriminate.
      * right. left. simpl. lia.
    + apply (Hu sample.three_channels_u).
      * vm_compute. discriminate.
      * vm_compute. discriminate.
      * right. right. right. left. simpl. lia.
Defined.

Example Solve_wrong_length :
  @SCFSolver.Solve_r sample.naive sample.bare sample.steady
     (sample.solver_of 1 10 0x1p-20 0x1p-7) sample.three_channels
  = SolveResult 0 false (Throw (logic_error SCFSolver.wrong_length)).
Proof. vm_compute. reflexivity. Qed.

(** * Further properties of the code *)

(** ** Comparing channels *)

Lemma ivec_at_lookup (v : ivec.t) (k : nat) (x : Z) :
  v !! k = Some x → ivec.at_ v (Z.of_nat k) = Ok x.
Proof.
  intros Hk. pose proof (lookup_lt_Some _ _ _ Hk).
  unfold ivec.at_, ivec.in_bounds. rewrite bool_decide_eq_true_2 by lia.
  rewrite Nat2Z.id. by rewrite (list_lookup_total_correct _ _ _ Hk).
Qed.

Lemma eq_loop_spec (a b : ivec.t) (n k : nat) :
  length a = (k + n)%nat → length b = (k + n)%nat →
  OrbitalChannel.eq_loop a b (seqZ (Z.of_nat k) (Z.of_nat n))
  = Ok (bool_decide (drop k a = drop k b)).
Proof.
  revert k. induction n as [|n IH]; intros k Ha Hb.
  - simpl. rewrite !drop_ge by lia. by rewrite bool_decide_eq_true_2.
  - rewrite seqZ_cons by lia. simpl.
    destruct (lookup_lt_is_Some_2 a k ltac:(lia)) as [x Hx].
    destruct (lookup_lt_is_Some_2 b k ltac:(lia)) as [y Hy].
    rewrite (ivec_at_lookup _ _ _ Hx), (ivec_at_lookup _ _ _ Hy). simpl.
    rewrite (drop_S _ _ _ Hx), (drop_S _ _ _ Hy).
    destruct (Z.eqb_spec x y) as [->|Hne]; simpl.
    + replace (Z.succ (Z.of_nat k)) with (Z.of_nat (S k)) by lia.
      replace (Z.pred (Z.of_nat (S n))) with (Z.of_nat n) by lia.
      rewrite IH by lia. f_equal. apply bool_decide_ext. split; congruence.
    + rewrite bool_decide_eq_false_2; [done|]. congruence.
Qed.

Lemma OrbitalChannel_eq_spec (ch rh : OrbitalChannel.t) :
  OrbitalChannel.eq ch rh
  = Ok (bool_decide (OrbitalChannel.occs ch = OrbitalChannel.occs rh)).
Proof.
  unfold OrbitalChannel.eq.
  destruct (Z.eqb_spec (Z.of_nat (length (OrbitalChannel.occs ch)))
                       (Z.of_nat (length (OrbitalChannel.occs rh)))) as [Hlen|Hlen];
    simpl.
  - by rewrite (eq_loop_spec _ _ _ 0) by lia.
  - rewrite bool_decide_eq_false_2; [done|]. congruence.
Qed.

(** [operator==] compares the occupation vectors and nothing else: it
    returns, never throws, and answers [true] exactly when the two vectors
    have the same length and the same entries, whatever the orbitals, the
    energies, the [restr] flags and [lmax] are. Two configurations compare
    equal exactly when their channels do. *)
Theorem eq_compares_occupations_only :
  (∀ ch rh, OrbitalChannel.eq ch rh
            = Ok (bool_decide (OrbitalChannel.Occs ch = OrbitalChannel.Occs rh))) ∧
  (∀ lh rh, rconf.eq lh rh
            = Ok (bool_decide (OrbitalChannel.Occs (rconf.orbs lh)
                               = OrbitalChannel.Occs (rconf.orbs rh)))) ∧
  (∀ lh rh, uconf.eq lh rh
            = Ok (bool_decide (OrbitalChannel.Occs (uconf.orbsa lh)
                               = OrbitalChannel.Occs (uconf.orbsa rh) ∧
                               OrbitalChannel.Occs (uconf.orbsb lh)
                               = OrbitalChannel.Occs (uconf.orbsb rh)))).
Proof.
  split; [|split].
  - apply OrbitalChannel_eq_spec.
  - intros lh rh. apply OrbitalChannel_eq_spec.
  - intros lh rh. unfold uconf.eq. rewrite !OrbitalChannel_eq_spec. simpl.
    unfold OrbitalChannel.Occs.
    repeat case_bool_decide; try done; tauto.
Qed.

(** ** Counting the occupied shells *)

(** Shells of capacity [cap] are filled one after the other: [numl]
    electrons take [⌈numl/cap⌉] of them, as far as there are shells. *)
Lemma count_shells_closed (cap numl : Z) (left : nat) (nsh : Z) :
  1 ≤ cap → 0 ≤ numl →
  OrbitalChannel.count_shells cap numl left nsh
  = nsh + Z.min (Z.of_nat left) ((numl + cap - 1) / cap).
Proof.
  intros Hcap. revert numl nsh. induction left as [|left IH]; intros numl nsh Hn.
  - simpl. assert (0 ≤ (numl + cap - 1) / cap) by (apply Z.div_pos; lia).
    set (q := (numl + cap - 1) / cap) in *. lia.
  - cbn [OrbitalChannel.count_shells].
    destruct (Z.eqb_spec (Z.min cap numl) 0) as [Hz|Hnz].
    + assert (numl = 0) as -> by lia.
      rewrite Z.div_small by lia. lia.
    + rewrite IH by lia.
      destruct (Z.le_gt_cases cap numl) as [Hfull|Hpart].
      * rewrite (Z.min_l cap numl) by lia.
        replace (numl + cap - 1) with ((numl - cap + cap - 1) + 1 * cap) by lia.
        rewrite Z.div_add by lia.
        set (q := (numl - cap + cap - 1) / cap). lia.
      * rewrite (Z.min_r cap numl) by lia.
        replace (numl - numl + cap - 1) with (cap - 1) by lia.
        rewrite (Z.div_small (cap - 1)) by lia.
        assert ((numl + cap - 1) / cap = 1) as ->; [|lia].
        symmetry. apply (Z.div_unique _ _ 1 (numl - 1)); lia.
Qed.

(** [CountOccupied(l)] for a channel [l] of the occupation vector that holds
    [numl ≥ 0] electrons gives [min(C.n_cols, ⌈numl/ShellCapacity(l)⌉)]; for
    an [l] outside the occupation vector it throws Armadillo's bounds
    error. *)
Theorem CountOccupied_closed_form (ch : OrbitalChannel.t) (l : Z) :
  0 ≤ cube.n_cols (OrbitalChannel.C ch) →
  (∀ numl, 0 ≤ l → OrbitalChannel.occs ch !! Z.to_nat l = Some numl → 0 ≤ numl →
     OrbitalChannel.CountOccupied ch l
     = Ok (Z.min (cube.n_cols (OrbitalChannel.C ch))
                 ((numl + OrbitalChannel.ShellCapacity ch l - 1)
                  / OrbitalChannel.ShellCapacity ch l))) ∧
  (¬ (0 ≤ l < Z.of_nat (length (OrbitalChannel.occs ch))) →
     OrbitalChannel.CountOccupied ch l
     = Throw (out_of_range "Mat::operator(): index out of bounds")).
Proof.
  intros Hcols. split.
  - intros numl Hl Hat Hnuml. unfold OrbitalChannel.CountOccupied.
    rewrite <- (Z2Nat.id l Hl) at 1. rewrite (ivec_at_lookup _ _ _ Hat). simpl.
    rewrite count_shells_closed; [|pose proof (ShellCapacity_pos ch l); lia|done].
    f_equal. lia.
  - intros Hout. unfold OrbitalChannel.CountOccupied, ivec.at_, ivec.in_bounds.
    by rewrite bool_decide_eq_false_2.
Qed.

Lemma CountOccupied_closed_form_witness :
  OrbitalChannel.CountOccupied sample.ground 0 = Ok (Z.min 2 ((2 + 2 - 1) / 2)) ∧
  OrbitalChannel.CountOccupied sample.ground 5
  = Throw (out_of_range "Mat::operator(): index out of bounds").
Proof.
  destruct (CountOccupied_closed_form sample.ground 0) as [H0 _]; [simpl; lia|].
  destruct (CountOccupied_closed_form sample.ground 5) as [_ H5]; [simpl; lia|].
  split.
  - apply (H0 2); [lia|reflexivity|lia].
  - apply H5. simpl. lia.
Defined.

(** ** Listing the occupied shells *)

Lemma to_int_small (z : Z) : - 2 ^ 31 ≤ z < 2 ^ 31 → to_int z = z.
Proof. intros Hz. unfold to_int. rewrite Z.mod_small; lia. Qed.

Lemma ceil_pos (cap numl : Z) :
  1 ≤ cap → 1 ≤ numl → 1 ≤ (numl + cap - 1) / cap.
Proof.
  intros Hcap Hn. apply Z.div_le_lower_bound; lia.
Qed.

Lemma ceil_step (cap numl : Z) :
  1 ≤ cap → cap ≤ numl → (numl + cap - 1) / cap = 1 + (numl - cap + cap - 1) / cap.
Proof.
  intros Hcap Hn.
  replace (numl + cap - 1) with ((numl - cap + cap - 1) + 1 * cap) by lia.
  rewrite Z.div_add by lia. lia.
Qed.

Lemma ceil_one (cap numl : Z) :
  1 ≤ numl < cap → (numl + cap - 1) / cap = 1.
Proof. intros Hn. symmetry. apply (Z.div_unique _ _ 1 (numl - 1)); lia. Qed.

(** [io] shells do not exhaust [numl] electrons exactly when [io] is below
    the number of shells the electrons take. *)
Lemma ceil_gt (cap numl io : Z) :
  1 ≤ cap → io < (numl + cap - 1) / cap ↔ io * cap < numl.
Proof.
  intros Hcap. split.
  - intros Hio. apply Z.lt_nge. intros Hle.
    assert ((numl + cap - 1) / cap < io + 1) as Hlt.
    { apply Z.div_lt_upper_bound; [lia|]. nia. }
    set (q := (numl + cap - 1) / cap) in *. lia.
  - intros Hio. apply Z.lt_le_trans with (io + 1); [lia|].
    apply Z.div_le_lower_bound; [lia|]. nia.
Qed.

Section Listing.
Variable ch : OrbitalChannel.t.
Variable l : Z.
Let cap := OrbitalChannel.ShellCapacity ch l.
Hypothesis Hl : 0 ≤ l.
Hypothesis Hcap : cap < 2 ^ 31.

Lemma occupied_shells_closed (m : nat) (k numl : Z)
    (occlist : list shell_occupation_t.t) :
  0 ≤ k → l + k + Z.of_nat m < 2 ^ 31 → 0 ≤ numl →
  OrbitalChannel.occupied_shells ch l numl (seqZ k (Z.of_nat m)) occlist
  = occlist ++
    ((λ io, shell_occupation_t.Build (l + io + 1) l
              (mat.get (OrbitalChannel.E ch) io l)
              (Z.min cap (numl - (io - k) * cap)))
     <$> seqZ k (Z.min (Z.of_nat m) ((numl + cap - 1) / cap))).
Proof.
  assert (Hcap1 : 1 ≤ cap) by (apply ShellCapacity_pos; lia).
  revert k numl occlist. induction m as [|m IH]; intros k numl occlist Hk Hm Hn.
  - simpl. assert (0 ≤ (numl + cap - 1) / cap) by (apply Z.div_pos; lia).
    rewrite Z.min_l by done. simpl. by rewrite app_nil_r.
  - rewrite seqZ_cons by lia. cbn [OrbitalChannel.occupied_shells]. fold cap.
    destruct (Z.eqb_spec (Z.min cap numl) 0) as [Hz|Hnz].
    + assert (numl = 0) as -> by lia.
      rewrite (Z.div_small (0 + cap - 1)) by lia.
      rewrite Z.min_r by lia. simpl. by rewrite app_nil_r.
    + replace (Z.succ k) with (k + 1) by lia.
      replace (Z.pred (Z.of_nat (S m))) with (Z.of_nat m) by lia.
      rewrite IH by lia.
      rewrite (uword_small (l + k + 1)) by (unfold uword_modulus; lia).
      rewrite !to_int_small by lia.
      rewrite <- app_assoc. f_equal. simpl.
      pose proof (ceil_pos cap numl Hcap1 ltac:(lia)) as Hc1.
      rewrite (seqZ_cons k (Z.min (Z.of_nat (S m)) _)) by lia.
      rewrite fmap_cons. f_equal.
      { f_equal. lia. }
      replace (Z.succ k) with (k + 1) by lia.
      destruct (Z.le_gt_cases cap numl) as [Hfull|Hpart].
      * rewrite (Z.min_l cap numl) by lia.
        rewrite (ceil_step cap numl) by lia.
        set (q := (numl - cap + cap - 1) / cap).
        replace (Z.pred (Z.min (Z.of_nat (S m)) (1 + q))) with (Z.min (Z.of_nat m) q)
          by lia.
        apply list_fmap_ext. intros _ io _. f_equal. lia.
      * rewrite (Z.min_r cap numl) by lia.
        rewrite (ceil_one cap numl) by lia.
        replace (numl - numl + cap - 1) with (cap - 1) by lia.
        rewrite (Z.div_small (cap - 1)) by lia.
        rewrite (Z.min_r (Z.of_nat m) 0) by lia.
        replace (Z.pred (Z.min (Z.of_nat (S m)) 1)) with 0 by lia. done.
Qed.

Lemma occupied_shells_sum (m : nat) (k numl : Z)
    (occlist : list shell_occupation_t.t) :
  0 ≤ numl →
  sum_over shell_occupation_t.nocc
    (OrbitalChannel.occupied_shells ch l numl (seqZ k (Z.of_nat m)) occlist)
  = sum_over shell_occupation_t.nocc occlist + Z.min numl (Z.of_nat m * cap).
Proof.
  assert (Hcap1 : 1 ≤ cap) by (apply ShellCapacity_pos; lia).
  revert k numl occlist. induction m as [|m IH]; intros k numl occlist Hn.
  - simpl. lia.
  - rewrite seqZ_cons by lia. cbn [OrbitalChannel.occupied_shells]. fold cap.
    destruct (Z.eqb_spec (Z.min cap numl) 0) as [Hz|Hnz].
    + nia.
    + replace (Z.pred (Z.of_nat (S m))) with (Z.of_nat m) by lia.
      rewrite IH by lia. rewrite sum_over_app, sum_over_cons. simpl.
      rewrite to_int_small by lia. unfold sum_over at 2. simpl. nia.
Qed.

End Listing.

(** [GetOccupied] on non-negative occupations that cover the columns of the
    energy table, with numbers that fit an [int] and a [std::sort] that
    permutes: it returns, and the list holds exactly the shells [io] of the
    channels [l] that the shells below them do not exhaust
    ([io·ShellCapacity(l) < occs(l)]), each with [n = l+io+1], its energy
    [E(io,l)] and what is left for it up to the capacity. The electrons
    listed per channel are [min(occs(l), E.n_rows·ShellCapacity(l))]
    together. *)
Theorem GetOccupied_lists_filled_shells
    (sort : list shell_occupation_t.t → list shell_occupation_t.t)
    (ch : OrbitalChannel.t) :
  (∀ shells, sort shells ≡ₚ shells) →
  0 ≤ mat.n_rows (OrbitalChannel.E ch) →
  mat.n_cols (OrbitalChannel.E ch) ≤ Z.of_nat (length (OrbitalChannel.occs ch)) →
  Forall (λ numl, 0 ≤ numl) (OrbitalChannel.occs ch) →
  mat.n_rows (OrbitalChannel.E ch) + 4 * mat.n_cols (OrbitalChannel.E ch) < 2 ^ 31 →
  ∃ occlist, OrbitalChannel.GetOccupied sort ch = Ok occlist ∧
    (∀ sh, sh ∈ occlist ↔
       ∃ l io, 0 ≤ l < mat.n_cols (OrbitalChannel.E ch) ∧
               0 ≤ io < mat.n_rows (OrbitalChannel.E ch) ∧
               io * OrbitalChannel.ShellCapacity ch l
                 < OrbitalChannel.occs ch !!! Z.to_nat l ∧
               sh = OrbitalChannel.listed_shell ch l
                      (OrbitalChannel.occs ch !!! Z.to_nat l) io) ∧
    sum_over shell_occupation_t.nocc occlist
    = sum_over (λ l, Z.min (OrbitalChannel.occs ch !!! Z.to_nat l)
                           (mat.n_rows (OrbitalChannel.E ch)
                            * OrbitalChannel.ShellCapacity ch l))
               (seqZ 0 (mat.n_cols (OrbitalChannel.E ch))).
Proof.
  intros Hsort Hrows Hcols Hocc Hint.
  set (nr := mat.n_rows (OrbitalChannel.E ch)) in *.
  set (nc := mat.n_cols (OrbitalChannel.E ch)) in *.
  set (occ := λ l, OrbitalChannel.occs ch !!! Z.to_nat l).
  unfold OrbitalChannel.GetOccupied. fold nr nc.
  match goal with |- context [for_each ?idx ?body ?s] =>
    destruct (for_each_inv
      (λ done occlist,
         (∀ sh, sh ∈ occlist ↔
            ∃ l io, l ∈ done ∧ 0 ≤ io < nr ∧
                    io * OrbitalChannel.ShellCapacity ch l < occ l ∧
                    sh = OrbitalChannel.listed_shell ch l (occ l) io) ∧
         sum_over shell_occupation_t.nocc occlist
         = sum_over (λ l, Z.min (occ l) (nr * OrbitalChannel.ShellCapacity ch l)) done)
      body idx s) as (occlist & -> & Hmem & Hsum)
  end.
  - split; [|done]. intros sh. split.
    + by intros ?%elem_of_nil.
    + by intros (l & io & ?%elem_of_nil & _).
  - intros done l occlist Hpre [Hmem Hsum].
    apply prefix_seqZ_snoc in Hpre as [Hl Hlt].
    assert (Hl0 : 0 ≤ l) by lia.
    destruct (lookup_lt_is_Some_2 (OrbitalChannel.occs ch) (Z.to_nat l) ltac:(lia))
      as [numl Hnuml].
    assert (Hat : ivec.at_ (OrbitalChannel.occs ch) l = Ok numl).
    { rewrite <- (Z2Nat.id l Hl0) at 1. by apply ivec_at_lookup. }
    assert (Hoccl : occ l = numl).
    { unfold occ. by apply list_lookup_total_correct. }
    assert (Hpos : 0 ≤ numl).
    { rewrite Forall_lookup in Hocc. by apply (Hocc _ _ Hnuml). }
    assert (Hcap1 : 1 ≤ OrbitalChannel.ShellCapacity ch l)
      by (by apply ShellCapacity_pos).
    assert (Hcap : OrbitalChannel.ShellCapacity ch l < 2 ^ 31).
    { unfold OrbitalChannel.ShellCapacity. destruct (OrbitalChannel.restr ch); lia. }
    rewrite Hat. simpl. eexists. split; [reflexivity|].
    rewrite <- (Z2Nat.id nr Hrows).
    split.
    + rewrite (occupied_shells_closed ch l Hl0 Hcap) by lia.
      intros sh. rewrite elem_of_app, Hmem, list_elem_of_fmap. split.
      * intros [(l' & io & Hin & Hio & Hlt' & ->)|(io & -> & Hio%elem_of_seqZ)].
        -- exists l', io. rewrite elem_of_app. rewrite Z2Nat.id by done. tauto.
        -- exists l, io. rewrite elem_of_app, list_elem_of_singleton.
           rewrite Z2Nat.id in * by done.
           assert (io < (numl + OrbitalChannel.ShellCapacity ch l - 1)
                        / OrbitalChannel.ShellCapacity ch l) as Hc by lia.
           apply ceil_gt in Hc; [|done].
           rewrite Hoccl. split; [by right|]. split; [lia|]. split; [done|].
           unfold OrbitalChannel.listed_shell. do 2 f_equal. lia.
      * rewrite Z2Nat.id by done.
        intros (l' & io & [Hin|Hin%list_elem_of_singleton]%elem_of_app & Hio & Hlt' & ->).
        -- left. exists l', io. done.
        -- subst l'. right. exists io. rewrite Hoccl in *. split.
           ++ unfold OrbitalChannel.listed_shell. do 2 f_equal. lia.
           ++ apply elem_of_seqZ. apply ceil_gt in Hlt'; [|done]. lia.
    + rewrite (occupied_shells_sum ch l Hl0 Hcap) by done.
      rewrite sum_over_app, sum_over_cons, Hsum, Hoccl, Z2Nat.id by done.
      unfold sum_over at 3. simpl. lia.
  - eexists. split; [reflexivity|]. split.
    + intros sh. rewrite (Hsort occlist), Hmem.
      split; intros (l & io & Hl & H); exists l, io; (split; [|exact H]).
      * apply elem_of_seqZ in Hl. lia.
      * apply elem_of_seqZ. lia.
    + by rewrite (sum_over_perm _ _ _ (Hsort occlist)).
Qed.

Lemma insert_shell_perm (sh : shell_occupation_t.t)
    (sorted : list shell_occupation_t.t) :
  sample.insert_shell sh sorted ≡ₚ sh :: sorted.
Proof.
  induction sorted as [|x rest IH]; [done|]. simpl.
  destruct (shell_occupation_t.lt sh x); [done|].
  rewrite IH. apply Permutation_swap.
Qed.

Lemma sort_shells_perm (shells : list shell_occupation_t.t) :
  sample.sort_shells shells ≡ₚ shells.
Proof.
  induction shells as [|sh shells IH]; [done|]. simpl.
  by rewrite insert_shell_perm, IH.
Qed.

Lemma GetOccupied_lists_filled_shells_witness :
  ∃ occlist, OrbitalChannel.GetOccupied sample.sort_shells sample.filled = Ok occlist ∧
    (∀ sh, sh ∈ occlist ↔
       ∃ l io, 0 ≤ l < 2 ∧ 0 ≤ io < 2 ∧
               io * OrbitalChannel.ShellCapacity sample.filled l
                 < OrbitalChannel.occs sample.filled !!! Z.to_nat l ∧
               sh = OrbitalChannel.listed_shell sample.filled l
                      (OrbitalChannel.occs sample.filled !!! Z.to_nat l) io) ∧
    sum_over shell_occupation_t.nocc occlist
    = sum_over (λ l, Z.min (OrbitalChannel.occs sample.filled !!! Z.to_nat l)
                           (2 * OrbitalChannel.ShellCapacity sample.filled l))
               (seqZ 0 2).
Proof.
  apply (GetOccupied_lists_filled_shells sample.sort_shells sample.filled).
  - apply sort_shells_perm.
  - simpl. lia.
  - simpl. lia.
  - repeat constructor; lia.
  - simpl. lia.
Defined.

(** 1s² 2p³ 2s²: the 2p level of [sample.levels] lies below the 2s level. *)
Example GetOccupied_filled :
  OrbitalChannel.GetOccupied sample.sort_shells sample.filled
  = Ok [shell_occupation_t.Build 1 0 (-2) 2;
        shell_occupation_t.Build 2 1 (-1) 3;
        shell_occupation_t.Build 2 0 (-0.5) 2].
Proof. vm_compute. reflexivity. Qed.

(** ** The gap of each channel *)

Lemma gap_of_closed (ch : OrbitalChannel.t) (l : Z) (m : nat) (k numl : Z) :
  0 ≤ l → 0 ≤ k → 0 ≤ numl →
  OrbitalChannel.gap_of ch l numl (seqZ k (Z.of_nat m))
  = let c := (numl + OrbitalChannel.ShellCapacity ch l - 1)
             / OrbitalChannel.ShellCapacity ch l in
    if c <? Z.of_nat m
    then Some (if k + c =? 0
               then mat.get (OrbitalChannel.E ch) (k + c) l
               else (mat.get (OrbitalChannel.E ch) (k + c) l
                     - mat.get (OrbitalChannel.E ch) (k + c - 1) l)%float)
    else None.
Proof.
  intros Hl. set (cap := OrbitalChannel.ShellCapacity ch l).
  assert (Hcap1 : 1 ≤ cap) by (by apply ShellCapacity_pos).
  revert k numl. induction m as [|m IH]; intros k numl Hk Hn.
  - assert (0 ≤ (numl + cap - 1) / cap) by (apply Z.div_pos; lia).
    change (Z.of_nat 0) with 0. cbv zeta.
    destruct (Z.ltb_spec ((numl + cap - 1) / cap) 0) as [?|_]; [|done].
    set (q := (numl + cap - 1) / cap) in *. lia.
  - rewrite seqZ_cons by lia. cbn [OrbitalChannel.gap_of]. fold cap.
    destruct (Z.eqb_spec (Z.min cap numl) 0) as [Hz|Hnz].
    + assert (numl = 0) as -> by lia. cbv zeta.
      rewrite (Z.div_small (0 + cap - 1)) by lia.
      destruct (Z.ltb_spec 0 (Z.of_nat (S m))); [|lia].
      by rewrite !Z.add_0_r.
    + replace (Z.succ k) with (k + 1) by lia.
      replace (Z.pred (Z.of_nat (S m))) with (Z.of_nat m) by lia.
      rewrite IH by lia. cbv zeta.
      assert (Hc : (numl + cap - 1) / cap
                   = 1 + (numl - Z.min cap numl + cap - 1) / cap).
      { destruct (Z.le_gt_cases cap numl) as [Hfull|Hpart].
        - rewrite (Z.min_l cap numl) by lia. by apply ceil_step.
        - rewrite (Z.min_r cap numl) by lia. rewrite ceil_one by lia.
          replace (numl - numl + cap - 1) with (cap - 1) by lia.
          rewrite (Z.div_small (cap - 1)) by lia. done. }
      rewrite Hc. set (c' := (numl - Z.min cap numl + cap - 1) / cap).
      replace (k + (1 + c')) with (k + 1 + c') by lia.
      destruct (Z.ltb_spec c' (Z.of_nat m)), (Z.ltb_spec (1 + c') (Z.of_nat (S m)));
        try lia; done.
Qed.

(** [GetGap] on non-negative occupations that cover the columns of the
    energy table: with [k = ⌈occs(l)/ShellCapacity(l)⌉] the number of shells
    the electrons of channel [l] take, [gap(l)] is [E(0,l)] if [k = 0], the
    difference [E(k,l) - E(k-1,l)] of the lowest empty and the highest
    occupied level if [0 < k < E.n_rows], and is not assigned at all if
    every level of the channel is occupied. *)
Theorem GetGap_lowest_empty_minus_highest_occupied (ch : OrbitalChannel.t) :
  0 ≤ mat.n_rows (OrbitalChannel.E ch) →
  mat.n_cols (OrbitalChannel.E ch) ≤ Z.of_nat (length (OrbitalChannel.occs ch)) →
  mat.n_cols (OrbitalChannel.E ch) ≤ max_n_elem →
  Forall (λ numl, 0 ≤ numl) (OrbitalChannel.occs ch) →
  OrbitalChannel.GetGap ch
  = Ok ((λ l,
           let k := (OrbitalChannel.occs ch !!! Z.to_nat l
                     + OrbitalChannel.ShellCapacity ch l - 1)
                    / OrbitalChannel.ShellCapacity ch l in
           if k <? mat.n_rows (OrbitalChannel.E ch)
           then Some (if k =? 0
                      then mat.get (OrbitalChannel.E ch) 0 l
                      else (mat.get (OrbitalChannel.E ch) k l
                            - mat.get (OrbitalChannel.E ch) (k - 1) l)%float)
           else None)
        <$> seqZ 0 (mat.n_cols (OrbitalChannel.E ch))).
Proof.
  intros Hrows Hcols Hfits Hocc.
  set (nr := mat.n_rows (OrbitalChannel.E ch)) in *.
  set (nc := mat.n_cols (OrbitalChannel.E ch)) in *.
  unfold OrbitalChannel.GetGap, col.unset. fold nr nc.
  rewrite bool_decide_eq_false_2 by lia. simpl.
  match goal with |- _ = Ok (?f <$> _) => set (expected := f) end.
  match goal with |- for_each ?idx ?body ?s = _ =>
    destruct (for_each_inv
      (λ done gap, gap = (expected <$> done)
                         ++ replicate (Z.to_nat nc - length done) None)
      body idx s) as (gap & -> & ->)
  end.
  - simpl. by rewrite Nat.sub_0_r.
  - intros done l gap Hpre ->.
    apply prefix_seqZ_snoc in Hpre as [Hl Hlt].
    assert (Hl0 : 0 ≤ l) by lia.
    destruct (lookup_lt_is_Some_2 (OrbitalChannel.occs ch) (Z.to_nat l) ltac:(lia))
      as [numl Hnuml].
    assert (Hat : ivec.at_ (OrbitalChannel.occs ch) l = Ok numl).
    { rewrite <- (Z2Nat.id l Hl0) at 1. by apply ivec_at_lookup. }
    assert (Hpos : 0 ≤ numl).
    { rewrite Forall_lookup in Hocc. by apply (Hocc _ _ Hnuml). }
    rewrite Hat. simpl.
    replace (seqZ 0 nr) with (seqZ 0 (Z.of_nat (Z.to_nat nr)))
      by (by rewrite Z2Nat.id).
    rewrite gap_of_closed by lia. cbv zeta.
    rewrite Z2Nat.id by done. rewrite !Z.add_0_l.
    assert (Hexp : expected l
                   = let k := (numl + OrbitalChannel.ShellCapacity ch l - 1)
                              / OrbitalChannel.ShellCapacity ch l in
                     if k <? nr
                     then Some (if k =? 0
                                then mat.get (OrbitalChannel.E ch) 0 l
                                else (mat.get (OrbitalChannel.E ch) k l
                                      - mat.get (OrbitalChannel.E ch) (k - 1) l)%float)
                     else None).
    { unfold expected. by rewrite (list_lookup_total_correct _ _ _ Hnuml). }
    cbv zeta in Hexp.
    set (k := (numl + OrbitalChannel.ShellCapacity ch l - 1)
              / OrbitalChannel.ShellCapacity ch l) in *.
    rewrite fmap_app. simpl. rewrite <- app_assoc. simpl.
    replace (Z.to_nat nc - length done)%nat
      with (S (Z.to_nat nc - length (done ++ [l]))) by (rewrite length_app; simpl; lia).
    destruct (Z.ltb_spec k nr) as [Hk|Hk].
    + eexists. split; [reflexivity|].
      rewrite Hl, Nat2Z.id.
      rewrite insert_app_r_alt by (rewrite length_fmap; lia).
      rewrite length_fmap, Nat.sub_diag. simpl. rewrite <- Hl, Hexp.
      do 3 f_equal. destruct (Z.eqb_spec k 0) as [Hk0|]; [by rewrite Hk0|done].
    + eexists. split; [reflexivity|]. by rewrite Hexp.
  - rewrite length_seqZ, Nat.sub_diag. simpl. by rewrite app_nil_r.
Qed.

Lemma GetGap_lowest_empty_minus_highest_occupied_witness :
  OrbitalChannel.GetGap sample.filled
  = Ok ((λ l,
           let k := (OrbitalChannel.occs sample.filled !!! Z.to_nat l
                     + OrbitalChannel.ShellCapacity sample.filled l - 1)
                    / OrbitalChannel.ShellCapacity sample.filled l in
           if k <? 2
           then Some (if k =? 0
                      then mat.get sample.levels 0 l
                      else (mat.get sample.levels k l
                            - mat.get sample.levels (k - 1) l)%float)
           else None)
        <$> seqZ 0 2).
Proof.
  apply (GetGap_lowest_empty_minus_highest_occupied sample.filled).
  - simpl. lia.
  - simpl. lia.
  - vm_compute. discriminate.
  - repeat constructor; lia.
Defined.

(** The s channel is full; the p channel has its second level empty. *)
Example GetGap_filled :
  OrbitalChannel.GetGap sample.filled = Ok [None; Some 0.75%float].
Proof. vm_compute. reflexivity. Qed.

(** A loop whose passes before [i] complete and whose pass [i] throws,
    throws. *)
Lemma for_each_throw_at {S : Type} (body : Z → S → outcome S)
    (idx1 idx2 : list Z) (i : Z) (s : S) (e : exn) :
  (∀ j s, j ∈ idx1 → ∃ s', body j s = Ok s') →
  (∀ s, body i s = Throw e) →
  for_each (idx1 ++ i :: idx2) body s = Throw e.
Proof.
  revert s. induction idx1 as [|j idx1 IH]; intros s Hok Hthrow; simpl.
  - by rewrite Hthrow.
  - destruct (Hok j s) as [s' ->]; [by left|]. simpl.
    apply IH; [|done]. intros j' s'' Hj'. apply Hok. by right.
Qed.

Lemma seqZ_split_at (n k : Z) :
  0 ≤ k < n → seqZ 0 n = seqZ 0 k ++ k :: seqZ (k + 1) (n - k - 1).
Proof.
  intros Hk. replace n with (k + (n - k)) at 1 by lia.
  rewrite seqZ_app by lia. rewrite Z.add_0_l. rewrite (seqZ_cons k) by lia.
  repeat f_equal; lia.
Qed.

(** [GetOccupied] and [GetGap] walk the columns of the energy table and read
    [occs(l)] for each: on a channel whose occupation vector is shorter than
    the table has columns (orbitals refreshed, occupations not set) both
    throw Armadillo's bounds error. *)
Theorem GetOccupied_GetGap_need_occupations
    (sort : list shell_occupation_t.t → list shell_occupation_t.t)
    (ch : OrbitalChannel.t) :
  Z.of_nat (length (OrbitalChannel.occs ch)) < mat.n_cols (OrbitalChannel.E ch) →
  mat.n_cols (OrbitalChannel.E ch) ≤ max_n_elem →
  OrbitalChannel.GetOccupied sort ch
  = Throw (out_of_range "Mat::operator(): index out of bounds") ∧
  OrbitalChannel.GetGap ch
  = Throw (out_of_range "Mat::operator(): index out of bounds").
Proof.
  intros Hshort Hfits.
  set (len := Z.of_nat (length (OrbitalChannel.occs ch))) in *.
  assert (Hin : ∀ j, j ∈ seqZ 0 len → ∃ numl,
                  ivec.at_ (OrbitalChannel.occs ch) j = Ok numl).
  { intros j Hj%elem_of_seqZ. unfold ivec.at_, ivec.in_bounds.
    rewrite bool_decide_eq_true_2 by (unfold len in *; lia). eauto. }
  assert (Hout : ivec.at_ (OrbitalChannel.occs ch) len
                 = Throw (out_of_range "Mat::operator(): index out of bounds")).
  { unfold ivec.at_, ivec.in_bounds.
    rewrite bool_decide_eq_false_2 by (unfold len; lia). done. }
  split.
  - unfold OrbitalChannel.GetOccupied.
    rewrite (seqZ_split_at _ len) by (unfold len in *; lia).
    rewrite for_each_throw_at with (e := out_of_range "Mat::operator(): index out of bounds");
      [done| |].
    + intros j s Hj. destruct (Hin j Hj) as [numl ->]. simpl. eauto.
    + intros s. by rewrite Hout.
  - unfold OrbitalChannel.GetGap, col.unset.
    rewrite bool_decide_eq_false_2 by lia. simpl.
    rewrite (seqZ_split_at _ len) by (unfold len in *; lia).
    apply for_each_throw_at.
    + intros j s Hj. destruct (Hin j Hj) as [numl ->]. simpl.
      destruct (OrbitalChannel.gap_of _ _ _ _); eauto.
    + intros s. by rewrite Hout.
Qed.

Lemma GetOccupied_GetGap_need_occupations_witness :
  OrbitalChannel.GetOccupied sample.sort_shells sample.unoccupied
  = Throw (out_of_range "Mat::operator(): index out of bounds") ∧
  OrbitalChannel.GetGap sample.unoccupied
  = Throw (out_of_range "Mat::operator(): index out of bounds").
Proof.
  apply (GetOccupied_GetGap_need_occupations sample.sort_shells sample.unoccupied).
  - simpl. lia.
  - vm_compute. discriminate.
Defined.

(** ** Refreshing the orbitals *)

Lemma cube_resize_shape (Q Q' : cube.t) (r c s : Z) :
  cube.resize Q r c s = Ok Q' →
  0 ≤ s ∧ cube.n_rows Q' = r ∧ cube.n_cols Q' = c ∧
  length (cube.slices Q') = Z.to_nat s.
Proof.
  unfold cube.resize, alloc. destruct (Z.ltb_spec s 0) as [?|Hs]; [done|]. simpl.
  intros (zero & _ & (new & Hloop & [= <-])%bind_Ok)%bind_Ok. simpl.
  split; [done|]. split; [done|]. split; [done|].
  pose proof (for_each_Ok_inv (λ done new, length new = length done)
                _ _ _ _ Hloop) as Hinv.
  rewrite Hinv; [by rewrite length_seqZ| done |].
  intros done l new0 new1 _ Hlen Hb.
  destruct (cube.in_bounds Q l).
  - apply bind_Ok in Hb as (A & _ & [= <-]). rewrite !length_app, Hlen. done.
  - injection Hb as <-. rewrite !length_app, Hlen. done.
Qed.

Lemma resize_orbitals_shape (F : cube.t) (ch ch1 : OrbitalChannel.t) :
  OrbitalChannel.resize_orbitals F ch = Ok ch1 →
  0 ≤ OrbitalChannel.lmax ch + 1 ∧
  cube.n_rows (OrbitalChannel.C ch1) = cube.n_rows F ∧
  cube.n_cols (OrbitalChannel.C ch1) = cube.n_rows F ∧
  cube.n_slices (OrbitalChannel.C ch1) = OrbitalChannel.lmax ch + 1 ∧
  mat.n_rows (OrbitalChannel.E ch1) = cube.n_rows F ∧
  mat.n_cols (OrbitalChannel.E ch1) = uword (OrbitalChannel.lmax ch + 1).
Proof.
  unfold OrbitalChannel.resize_orbitals.
  intros (E' & HE & (C' & HC & [= <-])%bind_Ok)%bind_Ok. simpl.
  apply cube_resize_shape in HC as (Hs & Hr & Hc & Hlen).
  unfold mat.resize in HE. case_bool_decide; [done|]. injection HE as <-.
  unfold cube.n_slices. simpl. repeat split; try done. lia.
Qed.

Lemma slice_lookup (Q : cube.t) (l : Z) (A : mat.t) :
  0 ≤ l → cube.slices Q !! Z.to_nat l = Some A → cube.slice Q l = Ok A.
Proof.
  intros Hl HA. unfold cube.slice, cube.in_bounds, cube.n_slices.
  pose proof (lookup_lt_Some _ _ _ HA).
  rewrite bool_decide_eq_true_2 by lia.
  by rewrite (list_lookup_total_correct _ _ _ HA).
Qed.

(** What a completed refresh leaves, given what each pass of its loop does:
    the occupations and flags as they were, the shapes set by the resize,
    and in every channel of [good] the eigenpairs of the plain Fock slice. *)
Lemma refresh_postcondition `{Numerics} (F : cube.t) (Sinvh : mat.t)
    (good : Z → Prop)
    (body : Z → OrbitalChannel.t → outcome OrbitalChannel.t)
    (ch ch1 ch' : OrbitalChannel.t) :
  OrbitalChannel.resize_orbitals F ch = Ok ch1 →
  (∀ l st st', OrbitalChannel.same_shape ch1 st → OrbitalChannel.stored st →
     body l st = Ok st' →
     OrbitalChannel.same_shape st st' ∧ OrbitalChannel.stored st' ∧ 0 ≤ l ∧
     (good l → OrbitalChannel.slot_refreshed F Sinvh st' l) ∧
     OrbitalChannel.slots_kept st st' l) →
  for_range 0 (OrbitalChannel.lmax ch1) body ch1 = Ok ch' →
  OrbitalChannel.occs ch' = OrbitalChannel.occs ch ∧
  OrbitalChannel.restr ch' = OrbitalChannel.restr ch ∧
  OrbitalChannel.lmax ch' = OrbitalChannel.lmax ch ∧
  cube.n_rows (OrbitalChannel.C ch') = cube.n_rows F ∧
  cube.n_cols (OrbitalChannel.C ch') = cube.n_rows F ∧
  cube.n_slices (OrbitalChannel.C ch') = OrbitalChannel.lmax ch + 1 ∧
  mat.n_rows (OrbitalChannel.E ch') = cube.n_rows F ∧
  mat.n_cols (OrbitalChannel.E ch') = uword (OrbitalChannel.lmax ch + 1) ∧
  ∀ l, 0 ≤ l ≤ OrbitalChannel.lmax ch → good l →
    ∃ Fl, cube.slice F l = Ok Fl ∧
      cube.slice (OrbitalChannel.C ch') l = Ok (eig_gsym Fl Sinvh).2 ∧
      mat.col (OrbitalChannel.E ch') l = Ok (eig_gsym Fl Sinvh).1.
Proof.
  intros Hres Hbody Hrun.
  destruct (resize_orbitals_stored F ch ch1 Hres) as (Hsto & Ho & Hr & Hlmax).
  destruct (resize_orbitals_shape F ch ch1 Hres) as (Hs & HCr & HCc & HCs & HEr & HEc).
  unfold for_range in Hrun.
  destruct (refresh_loop F Sinvh good _ _ ch1 ch' Hbody (NoDup_seqZ _ _) Hsto Hrun)
    as ((Ho' & Hr' & Hl' & HCr' & HCc' & HCs' & HEr' & HEc') & Hslots).
  unfold cube.n_slices in *.
  repeat (split; [congruence|]).
  intros l Hl Hgood.
  destruct (Hslots l) as (HinF & HlE & HC & HE); [apply elem_of_seqZ; lia|done|].
  exists (cube.slices F !!! Z.to_nat l).
  split; [unfold cube.slice; by rewrite HinF|].
  split; [apply slice_lookup; [lia|done]|].
  unfold mat.col. rewrite bool_decide_eq_true_2 by done.
  fold (mat.col_of (OrbitalChannel.E ch') l). by rewrite HE.
Qed.

(** What a completed [UpdateOrbitals] leaves. *)
Lemma UpdateOrbitals_effect `{Numerics}
    (F : cube.t) (Sinvh : mat.t) (ch ch' : OrbitalChannel.t) :
  OrbitalChannel.UpdateOrbitals F Sinvh ch = Ok ch' →
  OrbitalChannel.occs ch' = OrbitalChannel.occs ch ∧
  OrbitalChannel.restr ch' = OrbitalChannel.restr ch ∧
  OrbitalChannel.lmax ch' = OrbitalChannel.lmax ch ∧
  cube.n_rows (OrbitalChannel.C ch') = cube.n_rows F ∧
  cube.n_cols (OrbitalChannel.C ch') = cube.n_rows F ∧
  cube.n_slices (OrbitalChannel.C ch') = OrbitalChannel.lmax ch + 1 ∧
  mat.n_rows (OrbitalChannel.E ch') = cube.n_rows F ∧
  mat.n_cols (OrbitalChannel.E ch') = uword (OrbitalChannel.lmax ch + 1) ∧
  ∀ l, 0 ≤ l ≤ OrbitalChannel.lmax ch →
    ∃ Fl, cube.slice F l = Ok Fl ∧
      cube.slice (OrbitalChannel.C ch') l = Ok (eig_gsym Fl Sinvh).2 ∧
      mat.col (OrbitalChannel.E ch') l = Ok (eig_gsym Fl Sinvh).1.
Proof.
  unfold OrbitalChannel.UpdateOrbitals. intros (ch1 & Hres & Hrun)%bind_Ok.
  destruct (refresh_postcondition F Sinvh (λ _, True) _ ch ch1 ch' Hres
              (UpdateOrbitals_body_spec F Sinvh ch1) Hrun)
    as (?&?&?&?&?&?&?&?&Hslots).
  repeat (split; [done|]). intros l Hl. by apply Hslots.
Qed.

(** [UpdateOrbitals], when it returns: the occupations, [restr] and [lmax]
    are untouched; [C] is [(n, n, lmax+1)] and [E] is [(n, lmax+1)] for
    [n = F.n_rows]; and every channel [l] of [0..lmax] holds the eigenvectors
    and eigenvalues that [eig_gsym] gives for [F.slice(l)]: the passes for
    the later channels leave the earlier ones alone. In particular [F] has
    a slice for every channel. *)
Theorem UpdateOrbitals_postcondition `{Numerics}
    (F : cube.t) (Sinvh : mat.t) (ch ch' : OrbitalChannel.t) :
  OrbitalChannel.UpdateOrbitals F Sinvh ch = Ok ch' →
  OrbitalChannel.occs ch' = OrbitalChannel.occs ch ∧
  OrbitalChannel.restr ch' = OrbitalChannel.restr ch ∧
  OrbitalChannel.lmax ch' = OrbitalChannel.lmax ch ∧
  cube.n_rows (OrbitalChannel.C ch') = cube.n_rows F ∧
  cube.n_cols (OrbitalChannel.C ch') = cube.n_rows F ∧
  cube.n_slices (OrbitalChannel.C ch') = OrbitalChannel.lmax ch + 1 ∧
  mat.n_rows (OrbitalChannel.E ch') = cube.n_rows F ∧
  mat.n_cols (OrbitalChannel.E ch') = uword (OrbitalChannel.lmax ch + 1) ∧
  ∀ l, 0 ≤ l ≤ OrbitalChannel.lmax ch →
    ∃ Fl, cube.slice F l = Ok Fl ∧
      cube.slice (OrbitalChannel.C ch') l = Ok (eig_gsym Fl Sinvh).2 ∧
      mat.col (OrbitalChannel.E ch') l = Ok (eig_gsym Fl Sinvh).1.
Proof.
  unfold OrbitalChannel.UpdateOrbitals. intros (ch1 & Hres & Hrun)%bind_Ok.
  destruct (refresh_postcondition F Sinvh (λ _, True) _ ch ch1 ch' Hres
              (UpdateOrbitals_body_spec F Sinvh ch1) Hrun)
    as (?&?&?&?&?&?&?&?&Hslots).
  repeat (split; [done|]). intros l Hl. by apply Hslots.
Qed.

Lemma UpdateOrbitals_postcondition_witness :
  ∃ ch', @OrbitalChannel.UpdateOrbitals sample.naive sample.fock sample.identity2
           sample.ground = Ok ch' ∧
    OrbitalChannel.occs ch' = [2; 0] ∧
    cube.n_slices (OrbitalChannel.C ch') = 1 + 1 ∧
    ∀ l, 0 ≤ l ≤ 1 →
      ∃ Fl, cube.slice sample.fock l = Ok Fl ∧
        cube.slice (OrbitalChannel.C ch') l
        = Ok (sample.diagonal_eig Fl sample.identity2).2 ∧
        mat.col (OrbitalChannel.E ch') l
        = Ok (sample.diagonal_eig Fl sample.identity2).1.
Proof.
  destruct (@OrbitalChannel.UpdateOrbitals sample.naive sample.fock sample.identity2
              sample.ground) as [ch'|e] eqn:Hrun; [|vm_compute in Hrun; discriminate].
  destruct (@UpdateOrbitals_postcondition sample.naive _ _ _ _ Hrun)
    as (Ho & _ & _ & _ & _ & Hs & _ & _ & Hslots).
  exists ch'. split; [reflexivity|]. split; [exact Ho|]. split; [exact Hs|].
  exact Hslots.
Defined.

Lemma UpdateOrbitalsDamped_body_spec `{Numerics} (F : cube.t) (Sinvh S : mat.t)
    (dampov : float) (ch1 : OrbitalChannel.t) :
  ∀ l st st', OrbitalChannel.same_shape ch1 st → OrbitalChannel.stored st →
    (Fl ← cube.slice F l;
     nsh ← OrbitalChannel.CountOccupied st l;
     Fl ← (if negb (nsh =? 0) then
             Cl ← cube.slice (OrbitalChannel.C st) l;
             let Fmo :=
               mat_mul (mat_mul (mat_mul (mat_mul (mat_trans Cl) S) Fl) S) Cl in
             let nmo := cube.n_cols (OrbitalChannel.C st) in
             let oidx := seqZ 0 nsh in
             let vidx := seqZ nsh (nmo - nsh) in
             Fmo ← mat.scale_elems Fmo oidx vidx dampov;
             Fmo ← mat.scale_elems Fmo vidx oidx dampov;
             Ok (mat_mul (mat_mul Cl Fmo) (mat_trans Cl))
           else Ok Fl);
     OrbitalChannel.diagonalize Fl Sinvh l st) = Ok st' →
    OrbitalChannel.same_shape st st' ∧ OrbitalChannel.stored st' ∧ 0 ≤ l ∧
    (OrbitalChannel.CountOccupied ch1 l = Ok 0 →
     OrbitalChannel.slot_refreshed F Sinvh st' l) ∧
    OrbitalChannel.slots_kept st st' l.
Proof.
  intros l st st' Hsh Hsto
    (Fl & [Hin ->]%slice_Ok_inv & (nsh & Hn & (Fl' & HFl' & Hd)%bind_Ok)%bind_Ok)%bind_Ok.
  rewrite <- (CountOccupied_same_shape _ _ l Hsh) in Hn.
  apply (diagonalize_effect _ _ _ _ _ Hsto) in Hd
    as (Hsh' & Hsto' & Hl & Hsl & Hco & Hkept).
  split; [done|]. split; [done|]. split; [lia|]. split; [|done].
  intros Hzero. rewrite Hn in Hzero. injection Hzero as ->.
  simpl in HFl'. injection HFl' as <-.
  unfold OrbitalChannel.slot_refreshed. split; [done|]. split; [lia|]. done.
Qed.

(** [UpdateOrbitalsDamped], when it returns, leaves the occupations, [restr]
    and [lmax] untouched and [C], [E] in the shapes [(n, n, lmax+1)] and
    [(n, lmax+1)], [n = F.n_rows]; and in every channel in which it counts
    no occupied shell it stores what the plain [UpdateOrbitals] stores, the
    eigenpairs of the undamped [F.slice(l)]. *)
Theorem UpdateOrbitalsDamped_unoccupied_as_plain `{Numerics}
    (F : cube.t) (Sinvh S : mat.t) (dampov : float) (ch ch' : OrbitalChannel.t) :
  OrbitalChannel.UpdateOrbitalsDamped F Sinvh S dampov ch = Ok ch' →
  OrbitalChannel.occs ch' = OrbitalChannel.occs ch ∧
  OrbitalChannel.restr ch' = OrbitalChannel.restr ch ∧
  OrbitalChannel.lmax ch' = OrbitalChannel.lmax ch ∧
  cube.n_rows (OrbitalChannel.C ch') = cube.n_rows F ∧
  cube.n_cols (OrbitalChannel.C ch') = cube.n_rows F ∧
  cube.n_slices (OrbitalChannel.C ch') = OrbitalChannel.lmax ch + 1 ∧
  mat.n_rows (OrbitalChannel.E ch') = cube.n_rows F ∧
  mat.n_cols (OrbitalChannel.E ch') = uword (OrbitalChannel.lmax ch + 1) ∧
  ∀ l, 0 ≤ l ≤ OrbitalChannel.lmax ch →
    OrbitalChannel.CountOccupied ch' l = Ok 0 →
    ∃ Fl, cube.slice F l = Ok Fl ∧
      cube.slice (OrbitalChannel.C ch') l = Ok (eig_gsym Fl Sinvh).2 ∧
      mat.col (OrbitalChannel.E ch') l = Ok (eig_gsym Fl Sinvh).1.
Proof.
  unfold OrbitalChannel.UpdateOrbitalsDamped. intros (ch1 & Hres & Hrun)%bind_Ok.
  destruct (refresh_postcondition F Sinvh
              (λ l, OrbitalChannel.CountOccupied ch1 l = Ok 0) _ ch ch1 ch' Hres
              (UpdateOrbitalsDamped_body_spec F Sinvh S dampov ch1) Hrun)
    as (Ho&Hr&Hlm&HCr&HCc&HCs&HEr&HEc&Hslots).
  repeat (split; [done|]). intros l Hl Hzero. apply Hslots; [done|].
  rewrite <- Hzero. unfold OrbitalChannel.CountOccupied, OrbitalChannel.ShellCapacity.
  destruct (resize_orbitals_stored F ch ch1 Hres) as (_ & Ho1 & Hr1 & _).
  destruct (resize_orbitals_shape F ch ch1 Hres) as (_ & _ & HCc1 & _).
  by rewrite Ho, Hr, HCc, Ho1, Hr1, HCc1.
Qed.

(** Two s electrons: the s channel is damped, the empty p channel is not. *)
Lemma UpdateOrbitalsDamped_unoccupied_as_plain_witness :
  ∃ ch' Fl,
    @OrbitalChannel.UpdateOrbitalsDamped sample.naive sample.fock
       sample.identity2 sample.identity2 0.5 sample.ground = Ok ch' ∧
    OrbitalChannel.CountOccupied ch' 0 = Ok 1 ∧
    OrbitalChannel.CountOccupied ch' 1 = Ok 0 ∧
    cube.slice sample.fock 1 = Ok Fl ∧
    cube.slice (OrbitalChannel.C ch') 1 = Ok (sample.diagonal_eig Fl sample.identity2).2 ∧
    mat.col (OrbitalChannel.E ch') 1 = Ok (sample.diagonal_eig Fl sample.identity2).1.
Proof.
  destruct (@OrbitalChannel.UpdateOrbitalsDamped sample.naive sample.fock
              sample.identity2 sample.identity2 0.5 sample.ground)
    as [ch'|e] eqn:Hrun; [|vm_compute in Hrun; discriminate].
  assert (Hocc : OrbitalChannel.CountOccupied ch' 0 = Ok 1 ∧
                 OrbitalChannel.CountOccupied ch' 1 = Ok 0).
  { vm_compute in Hrun. injection Hrun as <-. split; reflexivity. }
  destruct Hocc as [Hocc0 Hocc1].
  destruct (@UpdateOrbitalsDamped_unoccupied_as_plain sample.naive _ _ _ _ _ _ Hrun)
    as (_&_&_&_&_&_&_&_&Hslots).
  destruct (Hslots 1) as (Fl & HFl & HC & HE); [simpl; lia|exact Hocc1|].
  exists ch', Fl. repeat split; assumption.
Defined.

(** ** The guess of the core Hamiltonian *)

Lemma cube_zeros_shape (r c s : Z) (Q : cube.t) :
  cube.zeros r c s = Ok Q →
  0 ≤ s ∧ cube.n_rows Q = r ∧ cube.n_cols Q = c ∧
  length (cube.slices Q) = Z.to_nat s.
Proof.
  unfold cube.zeros, alloc. destruct (Z.ltb_spec s 0) as [?|Hs]; [done|]. simpl.
  intros (zero & _ & [= <-])%bind_Ok. simpl. by rewrite length_replicate.
Qed.

(** The indices a loop over [0..n-1] has visited lie below the current
    one. *)
Lemma prefix_seqZ_before (done : list Z) (i n : Z) :
  done ++ [i] `prefix_of` seqZ 0 n → ∀ j, j ∈ done → 0 ≤ j < i.
Proof.
  intros Hpre j Hj. pose proof (prefix_seqZ_snoc _ _ _ Hpre) as [-> _].
  apply list_elem_of_lookup in Hj as [k Hk].
  pose proof (lookup_lt_Some _ _ _ Hk).
  assert (Hk' : seqZ 0 n !! k = Some j).
  { destruct Hpre as [rest ->]. rewrite <- app_assoc.
    by rewrite lookup_app_l by lia. }
  apply lookup_seqZ in Hk'. lia.
Qed.

(** A loop that assigns [f l] to slice [l] for [l = 0..lmax]. *)
Lemma fill_slices_spec (f : Z → mat.t) (lmax : Z) (Q0 Q : cube.t) :
  length (cube.slices Q0) = Z.to_nat (lmax + 1) →
  for_range 0 lmax (λ l Q, cube.set_slice Q l (f l)) Q0 = Ok Q →
  cube.n_rows Q = cube.n_rows Q0 ∧ cube.n_cols Q = cube.n_cols Q0 ∧
  cube.slices Q = f <$> seqZ 0 (lmax + 1).
Proof.
  intros Hlen Hrun. unfold for_range in Hrun. rewrite Z.sub_0_r in Hrun.
  pose proof (for_each_Ok_inv
    (λ done Q, cube.n_rows Q = cube.n_rows Q0 ∧ cube.n_cols Q = cube.n_cols Q0 ∧
               length (cube.slices Q) = length (cube.slices Q0) ∧
               ∀ l, l ∈ done → cube.slices Q !! Z.to_nat l = Some (f l))
    _ _ _ _ Hrun) as Hinv.
  destruct Hinv as (Hr & Hc & Hl & Hall).
  - repeat split; try done. by intros l ?%elem_of_nil.
  - intros done l Q1 Q2 Hpre (Hr & Hc & Hl & Hall) Hb.
    pose proof (prefix_seqZ_before _ _ _ Hpre) as Hbefore.
    apply cube_set_slice_spec in Hb as (Hl0 & Hr' & Hc' & Hlen2 & Hat & Hother).
    repeat split; try congruence.
    intros l' [Hin|Hin%list_elem_of_singleton]%elem_of_app; [|by subst l'].
    specialize (Hbefore l' Hin). rewrite Hother by lia. by apply Hall.
  - split; [done|]. split; [done|].
    apply list_eq. intros i. rewrite list_lookup_fmap.
    destruct (decide (i < Z.to_nat (lmax + 1))%nat) as [Hi|Hi].
    + rewrite lookup_seqZ_lt by lia. simpl. rewrite Z.add_0_l.
      rewrite <- (Nat2Z.id i) at 1. apply Hall. apply elem_of_seqZ. lia.
    + rewrite lookup_seqZ_ge by lia. simpl. apply lookup_ge_None. lia.
Qed.

Lemma ReplicateCube_spec (sv : SCFSolver.t) (M : mat.t) (Q : cube.t) :
  SCFSolver.ReplicateCube sv M = Ok Q →
  0 ≤ SCFSolver.lmax sv + 1 ∧
  Q = cube.Cube (mat.n_rows M) (mat.n_cols M)
        (replicate (Z.to_nat (SCFSolver.lmax sv + 1)) M).
Proof.
  unfold SCFSolver.ReplicateCube. intros (Q0 & HQ0 & Hrun)%bind_Ok.
  apply cube_zeros_shape in HQ0 as (Hs & Hr & Hc & Hlen).
  apply (fill_slices_spec (λ _, M)) in Hrun as (Hr' & Hc' & Hsl); [|done].
  split; [done|]. destruct Q as [r c sl]. simpl in *. subst sl.
  f_equal; [congruence|congruence|].
  apply list_eq. intros i. rewrite list_lookup_fmap.
  destruct (decide (i < Z.to_nat (SCFSolver.lmax sv + 1))%nat) as [Hi|Hi].
  - rewrite lookup_seqZ_lt by lia. simpl. by rewrite lookup_replicate_2.
  - rewrite lookup_seqZ_ge by lia. simpl. symmetry.
    apply lookup_replicate_None. lia.
Qed.

Lemma KineticCube_spec `{Numerics} (sv : SCFSolver.t) (Tc : cube.t) :
  SCFSolver.KineticCube sv = Ok Tc →
  0 ≤ SCFSolver.lmax sv + 1 ∧
  Tc = cube.Cube (mat.n_rows (SCFSolver.T sv)) (mat.n_cols (SCFSolver.T sv))
         ((λ l, mat_scale (of_sword (l * (l + 1))) (SCFSolver.Tl sv))
          <$> seqZ 0 (SCFSolver.lmax sv + 1)).
Proof.
  unfold SCFSolver.KineticCube. intros (Q0 & HQ0 & Hrun)%bind_Ok.
  apply cube_zeros_shape in HQ0 as (Hs & Hr & Hc & Hlen).
  apply (fill_slices_spec
           (λ l, mat_scale (of_sword (l * (l + 1))) (SCFSolver.Tl sv)))
    in Hrun as (Hr' & Hc' & Hsl); [|done].
  split; [done|]. destruct Tc as [r c sl]. simpl in *. subst sl.
  f_equal; congruence.
Qed.

(** The Fock matrices [Initialize] diagonalizes: [H0 + l(l+1)·Tl]. *)
Lemma Initialize_Ok `{Numerics} (sv : SCFSolver.t) (orbs orbs' : OrbitalChannel.t) :
  SCFSolver.Initialize sv orbs = Ok orbs' →
  ∃ F, OrbitalChannel.UpdateOrbitals F (SCFSolver.Sinvh sv)
         (OrbitalChannel.SetLmax orbs (SCFSolver.lmax sv)) = Ok orbs' ∧
    cube.n_rows F = mat.n_rows (SCFSolver.H0 sv) ∧
    ∀ l, 0 ≤ l ≤ SCFSolver.lmax sv →
      cube.slices F !! Z.to_nat l
      = Some (mat_add (SCFSolver.H0 sv)
                (mat_scale (of_sword (l * (l + 1))) (SCFSolver.Tl sv))).
Proof.
  unfold SCFSolver.Initialize.
  intros (H0c & HH0 & (kc & Hkc & Hrun)%bind_Ok)%bind_Ok.
  apply ReplicateCube_spec in HH0 as [HL ->].
  apply KineticCube_spec in Hkc as [_ ->].
  eexists. split; [exact Hrun|]. split; [done|].
  intros l Hl. unfold cube_add. simpl.
  rewrite lookup_zip_with, lookup_replicate_2 by lia. simpl.
  rewrite list_lookup_fmap, lookup_seqZ_lt by lia. simpl.
  do 4 f_equal; lia.
Qed.

Lemma OrbitalsInitialized_shape (ch : OrbitalChannel.t) (n L : Z) :
  cube.n_rows (OrbitalChannel.C ch) = n → cube.n_cols (OrbitalChannel.C ch) = n →
  cube.n_slices (OrbitalChannel.C ch) = L → 0 < n → 0 < L →
  OrbitalChannel.OrbitalsInitialized ch = true.
Proof.
  intros Hr Hc Hs Hn HL. unfold OrbitalChannel.OrbitalsInitialized, cube.n_elem.
  rewrite Hr, Hc, Hs. destruct (Z.eqb_spec (n * n * L) 0); [nia|done].
Qed.

(** [Initialize], when it returns: the channel has the solver's [lmax], its
    occupations and [restr] are untouched, and every channel [l] of
    [0..lmax] holds the eigenvectors and eigenvalues that [eig_gsym] gives
    for [H0 + l(l+1)·Tl]; with at least one basis function and [lmax ≥ 0]
    the orbitals then count as initialized. *)
Theorem Initialize_core_guess `{Numerics}
    (sv : SCFSolver.t) (orbs orbs' : OrbitalChannel.t) :
  SCFSolver.Initialize sv orbs = Ok orbs' →
  OrbitalChannel.Lmax orbs' = SCFSolver.lmax sv ∧
  OrbitalChannel.Occs orbs' = OrbitalChannel.Occs orbs ∧
  OrbitalChannel.Restricted orbs' = OrbitalChannel.Restricted orbs ∧
  cube.n_rows (OrbitalChannel.C orbs') = mat.n_rows (SCFSolver.H0 sv) ∧
  cube.n_cols (OrbitalChannel.C orbs') = mat.n_rows (SCFSolver.H0 sv) ∧
  cube.n_slices (OrbitalChannel.C orbs') = SCFSolver.lmax sv + 1 ∧
  (∀ l, 0 ≤ l ≤ SCFSolver.lmax sv →
     let Fl := mat_add (SCFSolver.H0 sv)
                       (mat_scale (of_sword (l * (l + 1))) (SCFSolver.Tl sv)) in
     cube.slice (OrbitalChannel.C orbs') l = Ok (eig_gsym Fl (SCFSolver.Sinvh sv)).2 ∧
     mat.col (OrbitalChannel.E orbs') l = Ok (eig_gsym Fl (SCFSolver.Sinvh sv)).1) ∧
  (0 < mat.n_rows (SCFSolver.H0 sv) → 0 ≤ SCFSolver.lmax sv →
   OrbitalChannel.OrbitalsInitialized orbs' = true).
Proof.
  intros (F & Hrun & HFr & HF)%Initialize_Ok.
  apply UpdateOrbitals_effect in Hrun
    as (Ho & Hr & Hlm & HCr & HCc & HCs & _ & _ & Hslots).
  simpl in *. rewrite HFr in *.
  unfold OrbitalChannel.Lmax, OrbitalChannel.Occs, OrbitalChannel.Restricted.
  repeat (split; [done|]). split.
  - intros l Hl. destruct (Hslots l Hl) as (Fl' & HFl' & HC & HE).
    apply slice_Ok_inv in HFl' as [_ ->].
    by rewrite (list_lookup_total_correct _ _ _ (HF l Hl)) in HC, HE.
  - intros Hn Hlmax.
    apply (OrbitalsInitialized_shape _ _ _ HCr HCc HCs); lia.
Qed.

Lemma Initialize_core_guess_witness :
  ∃ orbs', @SCFSolver.Initialize sample.naive (sample.solver_of 1 10 0 0)
             (OrbitalChannel.create true) = Ok orbs' ∧
    OrbitalChannel.Lmax orbs' = 1 ∧
    cube.n_slices (OrbitalChannel.C orbs') = 1 + 1 ∧
    (∀ l, 0 ≤ l ≤ 1 →
       let Fl := @mat_add sample.naive (mat.Mat 2 2 [-1.5; 0; 0; 1]%float)
                   (@mat_scale sample.naive (of_sword (l * (l + 1)))
                      (mat.Mat 2 2 [0.5; 0; 0; 0.5]%float)) in
       cube.slice (OrbitalChannel.C orbs') l
       = Ok (sample.diagonal_eig Fl sample.identity2).2 ∧
       mat.col (OrbitalChannel.E orbs') l
       = Ok (sample.diagonal_eig Fl sample.identity2).1) ∧
    OrbitalChannel.OrbitalsInitialized orbs' = true.
Proof.
  destruct (@SCFSolver.Initialize sample.naive (sample.solver_of 1 10 0 0)
              (OrbitalChannel.create true))
    as [orbs'|e] eqn:Hrun; [|vm_compute in Hrun; discriminate].
  destruct (@Initialize_core_guess sample.naive _ _ _ Hrun)
    as (Hlm & _ & _ & _ & _ & Hs & Hslots & Hinit).
  exists orbs'. split; [reflexivity|]. split; [exact Hlm|]. split; [exact Hs|].
  split; [exact Hslots|]. apply Hinit; simpl; lia.
Defined.

(** The orbitals of the bare nucleus of [sample.solver_of]: the s channel
    diagonalizes [H0], the p channel [H0 + 2·Tl]. *)
Example Initialize_sample :
  @SCFSolver.Initialize sample.naive (sample.solver_of 1 10 0 0)
    (OrbitalChannel.create true)
  = Ok (OrbitalChannel.Build sample.unit_orbitals
          (mat.Mat 2 2 [-1.5; 1; -0.5; 2]%float) [] true 1).
Proof. vm_compute. reflexivity. Qed.

Lemma mat_resize_Ok (A : mat.t) (r c : Z) :
  r * c ≤ max_n_elem → ∃ A', mat.resize A r c = Ok A'.
Proof.
  intros Hfit. unfold mat.resize. rewrite bool_decide_eq_false_2 by lia. eauto.
Qed.

Lemma cube_resize_Ok (Q : cube.t) (r c s : Z) :
  0 ≤ s → r * c ≤ max_n_elem → ∃ Q', cube.resize Q r c s = Ok Q'.
Proof.
  intros Hs Hfit. unfold cube.resize, alloc, mat.zeros.
  destruct (Z.ltb_spec s 0) as [?|_]; [lia|]. simpl.
  rewrite bool_decide_eq_false_2 by lia. simpl.
  match goal with |- context [for_each ?idx ?body ?s0] =>
    destruct (for_each_inv (λ _ _, True) body idx s0) as (new & -> & _)
  end; [done| |simpl; eauto].
  intros done l new _ _. destruct (cube.in_bounds Q l); [|eauto].
  destruct (mat_resize_Ok (cube.slices Q !!! Z.to_nat l) r c Hfit) as [A ->].
  simpl. eauto.
Qed.

(** [UpdateOrbitals] returns when [F] has a slice for every channel, the
    sizes fit, and [eig_gsym] gives [n] eigenvalues and an [n×n] matrix of
    eigenvectors, [n = F.n_rows]. *)
Lemma UpdateOrbitals_returns `{Numerics}
    (F : cube.t) (Sinvh : mat.t) (ch : OrbitalChannel.t) :
  let n := cube.n_rows F in
  - 1 ≤ OrbitalChannel.lmax ch < 2 ^ 31 →
  0 ≤ n → n * n ≤ max_n_elem → n * (OrbitalChannel.lmax ch + 1) ≤ max_n_elem →
  OrbitalChannel.lmax ch < cube.n_slices F →
  (∀ l, 0 ≤ l ≤ OrbitalChannel.lmax ch →
     Z.of_nat (length (eig_gsym (cube.slices F !!! Z.to_nat l) Sinvh).1) = n ∧
     mat.n_rows (eig_gsym (cube.slices F !!! Z.to_nat l) Sinvh).2 = n ∧
     mat.n_cols (eig_gsym (cube.slices F !!! Z.to_nat l) Sinvh).2 = n) →
  ∃ ch', OrbitalChannel.UpdateOrbitals F Sinvh ch = Ok ch'.
Proof.
  intros n Hlmax Hn Hnn Hnl Hslices Heig.
  unfold OrbitalChannel.UpdateOrbitals.
  destruct (OrbitalChannel.resize_orbitals F ch) as [ch1|e] eqn:Hres.
  2: { exfalso. unfold OrbitalChannel.resize_orbitals in Hres. fold n in Hres.
       rewrite uword_small in Hres by (unfold uword_modulus; lia).
       destruct (mat_resize_Ok (OrbitalChannel.E ch) n (OrbitalChannel.lmax ch + 1) Hnl)
         as [E' HE'].
       destruct (cube_resize_Ok (OrbitalChannel.C ch) n n (OrbitalChannel.lmax ch + 1)
                   ltac:(lia) Hnn) as [C' HC'].
       by rewrite HE', HC' in Hres. }
  simpl.
  destruct (resize_orbitals_stored F ch ch1 Hres) as (Hsto & _ & _ & Hlm).
  destruct (resize_orbitals_shape F ch ch1 Hres) as (_ & HCr & HCc & HCs & HEr & HEc).
  rewrite uword_small in HEc by (unfold uword_modulus; lia).
  unfold for_range.
  match goal with |- context [for_each ?idx ?body ?s0] =>
    destruct (for_each_inv
      (λ _ st, OrbitalChannel.same_shape ch1 st ∧ OrbitalChannel.stored st)
      body idx s0) as (ch' & -> & _)
  end; [split; [apply same_shape_refl|done]| |eauto].
  intros done l st Hpre [Hsh Hsto'].
  rewrite Hlm, Z.sub_0_r in Hpre. apply prefix_seqZ_snoc in Hpre as [Hl Hlt].
  assert (Hl0 : 0 ≤ l ≤ OrbitalChannel.lmax ch) by lia.
  unfold cube.slice, cube.in_bounds. rewrite bool_decide_eq_true_2 by lia. simpl.
  destruct (Heig l Hl0) as (HEl & HClr & HClc).
  pose proof Hsh as (_ & _ & _ & Hr & Hc & Hlen & HEr' & HEc').
  assert (Hstep : ∃ st', OrbitalChannel.diagonalize
                           (cube.slices F !!! Z.to_nat l) Sinvh l st = Ok st').
  { unfold OrbitalChannel.diagonalize.
    destruct (eig_gsym (cube.slices F !!! Z.to_nat l) Sinvh) as [El Cl]. simpl in *.
    unfold cube.set_slice, cube.in_bounds, cube.n_slices in *.
    rewrite bool_decide_eq_true_2 by lia.
    rewrite bool_decide_eq_true_2 by (fold n in HCr, HCc; lia). simpl.
    unfold mat.set_col.
    rewrite bool_decide_eq_true_2 by lia.
    rewrite bool_decide_eq_true_2 by (fold n in HEr; lia). simpl. eauto. }
  destruct Hstep as [st' Hst']. exists st'. split; [done|].
  apply (diagonalize_effect _ _ _ _ _ Hsto') in Hst' as (Hsh' & Hsto'' & _).
  split; [|done]. by apply (same_shape_trans _ st).
Qed.

Lemma fill_slices_Ok (f : Z → mat.t) (lmax : Z) (Q0 : cube.t) :
  length (cube.slices Q0) = Z.to_nat (lmax + 1) →
  (∀ l, 0 ≤ l ≤ lmax →
     mat.n_rows (f l) = cube.n_rows Q0 ∧ mat.n_cols (f l) = cube.n_cols Q0) →
  ∃ Q, for_range 0 lmax (λ l Q, cube.set_slice Q l (f l)) Q0 = Ok Q.
Proof.
  intros Hlen Hshape. unfold for_range. rewrite Z.sub_0_r.
  match goal with |- context [for_each ?idx ?body ?s0] =>
    destruct (for_each_inv
      (λ _ Q, cube.n_rows Q = cube.n_rows Q0 ∧ cube.n_cols Q = cube.n_cols Q0 ∧
              length (cube.slices Q) = length (cube.slices Q0))
      body idx s0) as (Q & -> & _)
  end; [done| |eauto].
  intros done l Q Hpre (Hr & Hc & Hl).
  apply prefix_seqZ_snoc in Hpre as [Hl' Hlt].
  destruct (Hshape l ltac:(lia)) as [Hfr Hfc].
  unfold cube.set_slice, cube.in_bounds, cube.n_slices.
  rewrite bool_decide_eq_true_2 by lia.
  rewrite bool_decide_eq_true_2 by (split; congruence).
  eexists. split; [reflexivity|]. simpl. by rewrite length_insert.
Qed.

Lemma cube_zeros_Ok (r c s : Z) :
  0 ≤ s → r * c ≤ max_n_elem →
  cube.zeros r c s
  = Ok (cube.Cube r c (replicate (Z.to_nat s)
                         (mat.Mat r c (replicate (Z.to_nat (r * c)) 0%float)))).
Proof.
  intros Hs Hfit. unfold cube.zeros, alloc, mat.zeros.
  destruct (Z.ltb_spec s 0) as [?|_]; [lia|]. simpl.
  by rewrite bool_decide_eq_false_2 by lia.
Qed.

(** [Initialize] returns, with orbitals that count as initialized, for a
    solver with [lmax ≥ 0] and [n ≥ 1] basis functions whose matrices [H0]
    and [T] are [n×n] and fit in memory, when scaling [Tl] gives [n×n]
    matrices and [eig_gsym] gives [n] eigenvalues and [n×n] eigenvectors for
    the matrices [H0 + l(l+1)·Tl]. *)
Theorem Initialize_returns `{Numerics} (sv : SCFSolver.t) (orbs : OrbitalChannel.t) :
  let n := mat.n_rows (SCFSolver.H0 sv) in
  0 ≤ SCFSolver.lmax sv < 2 ^ 31 →
  0 < n → n * n ≤ max_n_elem → n * (SCFSolver.lmax sv + 1) ≤ max_n_elem →
  mat.n_cols (SCFSolver.H0 sv) = n →
  mat.n_rows (SCFSolver.T sv) = n → mat.n_cols (SCFSolver.T sv) = n →
  (∀ l, 0 ≤ l ≤ SCFSolver.lmax sv →
     let Tll := mat_scale (of_sword (l * (l + 1))) (SCFSolver.Tl sv) in
     let eig := eig_gsym (mat_add (SCFSolver.H0 sv) Tll) (SCFSolver.Sinvh sv) in
     mat.n_rows Tll = n ∧ mat.n_cols Tll = n ∧
     Z.of_nat (length eig.1) = n ∧ mat.n_rows eig.2 = n ∧ mat.n_cols eig.2 = n) →
  ∃ orbs', SCFSolver.Initialize sv orbs = Ok orbs' ∧
    OrbitalChannel.OrbitalsInitialized orbs' = true.
Proof.
  intros n Hlmax Hn Hnn Hnl HH0c HTr HTc Hkernels.
  assert (Hguess : ∃ orbs', SCFSolver.Initialize sv orbs = Ok orbs').
  { unfold SCFSolver.Initialize, SCFSolver.ReplicateCube, SCFSolver.KineticCube.
    rewrite !cube_zeros_Ok by (rewrite ?HH0c, ?HTr, ?HTc; fold n; lia). simpl.
    destruct (fill_slices_Ok (λ _, SCFSolver.H0 sv) (SCFSolver.lmax sv)
                (cube.Cube n (mat.n_cols (SCFSolver.H0 sv))
                   (replicate (Z.to_nat (SCFSolver.lmax sv + 1))
                      (mat.Mat n (mat.n_cols (SCFSolver.H0 sv))
                         (replicate (Z.to_nat (n * mat.n_cols (SCFSolver.H0 sv)))
                            0%float)))))
      as [H0c HH0].
    { simpl. by rewrite length_replicate. }
    { done. }
    fold n. rewrite HH0. simpl.
    destruct (fill_slices_Ok
                (λ l, mat_scale (of_sword (l * (l + 1))) (SCFSolver.Tl sv))
                (SCFSolver.lmax sv)
                (cube.Cube (mat.n_rows (SCFSolver.T sv)) (mat.n_cols (SCFSolver.T sv))
                   (replicate (Z.to_nat (SCFSolver.lmax sv + 1))
                      (mat.Mat (mat.n_rows (SCFSolver.T sv))
                         (mat.n_cols (SCFSolver.T sv))
                         (replicate (Z.to_nat (mat.n_rows (SCFSolver.T sv)
                                               * mat.n_cols (SCFSolver.T sv)))
                            0%float)))))
      as [kc Hkc].
    { simpl. by rewrite length_replicate. }
    { intros l Hl. simpl. destruct (Hkernels l Hl) as (? & ? & _). split; congruence. }
    rewrite Hkc. simpl.
    apply (fill_slices_spec (λ _, SCFSolver.H0 sv)) in HH0 as (HH0r & HH0c' & HH0s);
      [|simpl; by rewrite length_replicate].
    apply (fill_slices_spec
             (λ l, mat_scale (of_sword (l * (l + 1))) (SCFSolver.Tl sv)))
      in Hkc as (Hkcr & Hkcc & Hkcs); [|simpl; by rewrite length_replicate].
    simpl in *.
    assert (Hslice : ∀ l, 0 ≤ l ≤ SCFSolver.lmax sv →
              cube.slices (cube_add H0c kc) !!! Z.to_nat l
              = mat_add (SCFSolver.H0 sv)
                  (mat_scale (of_sword (l * (l + 1))) (SCFSolver.Tl sv))).
    { intros l Hl. apply list_lookup_total_correct. unfold cube_add. simpl.
      rewrite lookup_zip_with, HH0s, Hkcs, !list_lookup_fmap.
      rewrite lookup_seqZ_lt by lia. simpl. do 4 f_equal; lia. }
    assert (HFr : cube.n_rows (cube_add H0c kc) = n) by done.
    apply UpdateOrbitals_returns;
      change (OrbitalChannel.lmax (OrbitalChannel.SetLmax orbs (SCFSolver.lmax sv)))
        with (SCFSolver.lmax sv);
      rewrite ?HFr; try lia.
    - unfold cube.n_slices, cube_add. simpl.
      rewrite length_zip_with, HH0s, Hkcs, !length_fmap, length_seqZ. lia.
    - intros l Hl. rewrite (Hslice l Hl).
      destruct (Hkernels l Hl) as (_ & _ & ? & ? & ?). done. }
  destruct Hguess as [orbs' Hrun]. exists orbs'. split; [done|].
  apply Initialize_Ok in Hrun as (F & Hrun & HFr & _).
  apply UpdateOrbitals_effect in Hrun as (_ & _ & _ & HCr & HCc & HCs & _).
  simpl in *. apply (OrbitalsInitialized_shape _ _ _ HCr HCc HCs); fold n; lia.
Qed.

Lemma Initialize_returns_witness :
  ∃ orbs', @SCFSolver.Initialize sample.naive (sample.solver_of 1 10 0 0)
             (OrbitalChannel.create true) = Ok orbs' ∧
    OrbitalChannel.OrbitalsInitialized orbs' = true.
Proof.
  apply (@Initialize_returns sample.naive (sample.solver_of 1 10 0 0)
           (OrbitalChannel.create true)).
  - simpl. lia.
  - simpl. lia.
  - vm_compute. discriminate.
  - vm_compute. discriminate.
  - reflexivity.
  - reflexivity.
  - reflexivity.
  - intros l Hl. simpl in Hl.
    assert (l = 0 ∨ l = 1) as [-> | ->] by lia; vm_compute; repeat split.
Defined.

(** ** What the Fock build touches *)

(** Every pass of a completed loop completed. *)
Lemma for_each_Ok_all {S : Type} (body : Z → S → outcome S) (idx : list Z)
    (s s' : S) :
  for_each idx body s = Ok s' → ∀ i, i ∈ idx → ∃ s1 s2, body i s1 = Ok s2.
Proof.
  revert s. induction idx as [|j idx IH]; intros s Hrun i Hi.
  - by apply elem_of_nil in Hi.
  - simpl in Hrun. apply bind_Ok in Hrun as (s1 & Hb & Hrun).
    apply elem_of_cons in Hi as [->|Hi]; [eauto|]. by apply (IH s1).
Qed.

Lemma density_shells_shape `{Numerics} (ch : OrbitalChannel.t) (l : Z)
    (ios : list Z) (numl : Z) (Pl Pl' : cube.t) :
  OrbitalChannel.density_shells ch l numl ios Pl = Ok Pl' →
  cube.n_rows Pl' = cube.n_rows Pl ∧ cube.n_cols Pl' = cube.n_cols Pl ∧
  length (cube.slices Pl') = length (cube.slices Pl).
Proof.
  revert numl Pl. induction ios as [|io ios IH]; intros numl Pl Hrun.
  - simpl in Hrun. by injection Hrun as <-.
  - simpl in Hrun.
    apply bind_Ok in Hrun as (Pll & _ & Hrun).
    apply bind_Ok in Hrun as (Cl & _ & Hrun).
    apply bind_Ok in Hrun as (c & _ & Hrun).
    apply bind_Ok in Hrun as (Pl1 & Hset & Hrun).
    apply cube_set_slice_spec in Hset as (_ & Hr & Hc & Hlen & _).
    destruct (Z.min _ _ =? 0).
    + injection Hrun as <-. done.
    + apply IH in Hrun as (? & ? & ?). repeat split; congruence.
Qed.

(** The density [UpdateDensity] returns has a slice for each channel of the
    orbital channel. *)
Lemma UpdateDensity_shape `{Numerics} (ch : OrbitalChannel.t) (Pl : cube.t) :
  OrbitalChannel.UpdateDensity ch = Ok Pl →
  cube.n_rows Pl = cube.n_rows (OrbitalChannel.C ch) ∧
  cube.n_cols Pl = cube.n_rows (OrbitalChannel.C ch) ∧
  cube.n_slices Pl = OrbitalChannel.lmax ch + 1.
Proof.
  unfold OrbitalChannel.UpdateDensity. intros (Pl0 & HPl0 & Hrun)%bind_Ok.
  apply cube_zeros_shape in HPl0 as (Hs & Hr & Hc & Hlen).
  unfold for_range in Hrun.
  pose proof (for_each_Ok_inv
    (λ _ Q, cube.n_rows Q = cube.n_rows Pl0 ∧ cube.n_cols Q = cube.n_cols Pl0 ∧
            length (cube.slices Q) = length (cube.slices Pl0))
    _ _ _ _ Hrun) as Hinv.
  destruct Hinv as (Hr' & Hc' & Hlen').
  - done.
  - intros done l Q Q' _ (?&?&?) (numl & _ & Hsh%density_shells_shape)%bind_Ok.
    destruct Hsh as (?&?&?). repeat split; congruence.
  - unfold cube.n_slices. repeat split; try congruence. lia.
Qed.

Lemma MiniMat_shape (sv : SCFSolver.t) (Msuper : mat.t) (M : cube.t) :
  SCFSolver.MiniMat sv Msuper = Ok M →
  cube.n_slices M = SCFSolver.lmax sv + 1.
Proof.
  unfold SCFSolver.MiniMat.
  intros (r & _ & (c & _ & (M0 & HM0 & Hrun)%bind_Ok)%bind_Ok)%bind_Ok.
  apply cube_zeros_shape in HM0 as (Hs & _ & _ & Hlen).
  unfold for_range in Hrun.
  pose proof (for_each_Ok_inv
    (λ _ Q, length (cube.slices Q) = length (cube.slices M0))
    _ _ _ _ Hrun) as Hinv.
  unfold cube.n_slices. rewrite Hinv; [lia|done|].
  intros done l Q Q' _ HQ (block & _ & Hset)%bind_Ok.
  apply cube_set_slice_spec in Hset as (_ & _ & _ & Hlen' & _). congruence.
Qed.

(** [FockBuild(rconf_t &)] leaves the orbitals and the flag alone; the
    density it stores is that of the orbitals, and the loop of the kinetic
    energy has read a slice of it for every channel of the solver. *)
Lemma FockBuild_r_frame `{Numerics} `{BasisProvider}
    (sv : SCFSolver.t) (conf conf' : rconf.t) (E : float) :
  SCFSolver.FockBuild_r sv conf = Ok (E, conf') →
  rconf.orbs conf' = rconf.orbs conf ∧
  rconf.converged conf' = rconf.converged conf ∧
  OrbitalChannel.UpdateDensity (rconf.orbs conf) = Ok (rconf.Pl conf') ∧
  (0 ≤ SCFSolver.lmax sv → SCFSolver.lmax sv < cube.n_slices (rconf.Pl conf')).
Proof.
  intros Hrun. unfold SCFSolver.FockBuild_r in Hrun.
  apply bind_Ok in Hrun as (Pl & HPl & Hrun).
  apply bind_Ok in Hrun as (P & _ & Hrun).
  apply bind_Ok in Hrun as (kc & _ & Hrun).
  apply bind_Ok in Hrun as (Ekin & HEkin & Hrun).
  assert (Hread : 0 ≤ SCFSolver.lmax sv → SCFSolver.lmax sv < cube.n_slices Pl).
  { intros Hlmax. unfold for_range in HEkin.
    destruct (for_each_Ok_all _ _ _ _ HEkin (SCFSolver.lmax sv))
      as (s1 & s2 & (Pll & [Hin _]%slice_Ok_inv & _)%bind_Ok).
    { apply elem_of_seqZ. lia. }
    unfold cube.in_bounds in Hin. apply bool_decide_eq_true in Hin. lia. }
  peel Hrun.
  all: injection Hrun as <- <-; simpl; done.
Qed.

Lemma FockBuild_u_frame `{Numerics} `{BasisProvider}
    (sv : SCFSolver.t) (conf conf' : uconf.t) (E : float) :
  SCFSolver.FockBuild_u sv conf = Ok (E, conf') →
  uconf.orbsa conf' = uconf.orbsa conf ∧
  uconf.orbsb conf' = uconf.orbsb conf ∧
  uconf.converged conf' = uconf.converged conf ∧
  OrbitalChannel.UpdateDensity (uconf.orbsa conf) = Ok (uconf.Pal conf') ∧
  OrbitalChannel.UpdateDensity (uconf.orbsb conf) = Ok (uconf.Pbl conf') ∧
  (0 ≤ SCFSolver.lmax sv →
   SCFSolver.lmax sv < Z.min (cube.n_slices (uconf.Pal conf'))
                             (cube.n_slices (uconf.Pbl conf'))).
Proof.
  intros Hrun. unfold SCFSolver.FockBuild_u in Hrun.
  apply bind_Ok in Hrun as (Pal & HPal & Hrun).
  apply bind_Ok in Hrun as (Pbl & HPbl & Hrun).
  apply bind_Ok in Hrun as (Pa & _ & Hrun).
  apply bind_Ok in Hrun as (Pb & _ & Hrun).
  apply bind_Ok in Hrun as (kc & _ & Hrun).
  apply bind_Ok in Hrun as (Ekin & HEkin & Hrun).
  assert (Hread : 0 ≤ SCFSolver.lmax sv →
                  SCFSolver.lmax sv < Z.min (cube.n_slices Pal) (cube.n_slices Pbl)).
  { intros Hlmax. unfold for_range in HEkin.
    destruct (for_each_Ok_all _ _ _ _ HEkin (SCFSolver.lmax sv))
      as (s1 & s2 & (Pll & [Hin _]%slice_Ok_inv & _)%bind_Ok).
    { apply elem_of_seqZ. lia. }
    unfold cube.in_bounds, cube.n_slices, cube_add in Hin.
    apply bool_decide_eq_true in Hin. simpl in Hin.
    rewrite length_zip_with in Hin. unfold cube.n_slices. lia. }
  peel Hrun.
  all: injection Hrun as <- <-; simpl; done.
Qed.

(** ** What the SCF loop keeps *)

Lemma UpdateOrbitalsShifted_frame `{Numerics}
    (F : cube.t) (Sinvh S : mat.t) (shift : float) (ch ch' : OrbitalChannel.t) :
  OrbitalChannel.UpdateOrbitalsShifted F Sinvh S shift ch = Ok ch' →
  OrbitalChannel.occs ch' = OrbitalChannel.occs ch ∧
  OrbitalChannel.restr ch' = OrbitalChannel.restr ch ∧
  OrbitalChannel.lmax ch' = OrbitalChannel.lmax ch ∧
  (0 ≤ OrbitalChannel.lmax ch → OrbitalChannel.lmax ch < cube.n_slices F).
Proof.
  unfold OrbitalChannel.UpdateOrbitalsShifted. intros (ch1 & Hres & Hrun)%bind_Ok.
  destruct (refresh_postcondition F Sinvh
              (λ l, OrbitalChannel.CountOccupied ch1 l = Ok 0) _ ch ch1 ch' Hres
              (UpdateOrbitalsShifted_body_spec F Sinvh S shift ch1) Hrun)
    as (Ho & Hr & Hlm & _).
  repeat (split; [done|]). intros Hlmax.
  destruct (resize_orbitals_stored F ch ch1 Hres) as (_ & _ & _ & Hlm1).
  unfold for_range in Hrun.
  destruct (for_each_Ok_all _ _ _ _ Hrun (OrbitalChannel.lmax ch))
    as (s1 & s2 & (Fl & [Hin _]%slice_Ok_inv & _)%bind_Ok).
  { apply elem_of_seqZ. lia. }
  unfold cube.in_bounds in Hin. apply bool_decide_eq_true in Hin. lia.
Qed.

Lemma UpdateOrbitals_frame `{Numerics}
    (F : cube.t) (Sinvh : mat.t) (ch ch' : OrbitalChannel.t) :
  OrbitalChannel.UpdateOrbitals F Sinvh ch = Ok ch' →
  OrbitalChannel.occs ch' = OrbitalChannel.occs ch ∧
  OrbitalChannel.restr ch' = OrbitalChannel.restr ch ∧
  OrbitalChannel.lmax ch' = OrbitalChannel.lmax ch ∧
  (0 ≤ OrbitalChannel.lmax ch → OrbitalChannel.lmax ch < cube.n_slices F).
Proof.
  intros Hrun. apply UpdateOrbitals_effect in Hrun
    as (Ho & Hr & Hlm & _ & _ & _ & _ & _ & Hslots).
  repeat (split; [done|]). intros Hlmax.
  destruct (Hslots (OrbitalChannel.lmax ch)) as (Fl & [Hin _]%slice_Ok_inv & _);
    [lia|].
  unfold cube.in_bounds in Hin. apply bool_decide_eq_true in Hin. lia.
Qed.

Section Solve_invariants.
Import SCFSolver.
Context `{Numerics} `{BasisProvider} `{Accelerator}.
Variable sv : SCFSolver.t.

(** One completed pass keeps the occupations, [restr] and [lmax] of the
    channel, and can only complete on a channel with the [lmax] of the
    solver: the densities have [orbs.lmax+1] slices, the Fock matrices
    [lmax+1]. *)
Lemma iteration_r_orbitals (st st' : rscf) :
  iteration_r sv st = Ok st' →
  OrbitalChannel.occs (rconf.orbs (r_conf st'))
  = OrbitalChannel.occs (rconf.orbs (r_conf st)) ∧
  OrbitalChannel.restr (rconf.orbs (r_conf st'))
  = OrbitalChannel.restr (rconf.orbs (r_conf st)) ∧
  OrbitalChannel.lmax (rconf.orbs (r_conf st'))
  = OrbitalChannel.lmax (rconf.orbs (r_conf st)) ∧
  (0 ≤ lmax sv → OrbitalChannel.lmax (rconf.orbs (r_conf st)) = lmax sv).
Proof.
  unfold iteration_r. intros Hrun.
  apply bind_Ok in Hrun as ([E conf1] & HF & Hrun).
  apply FockBuild_r_frame in HF as (Horbs & _ & HPl & Hread).
  apply UpdateDensity_shape in HPl as (_ & _ & HPls).
  apply bind_Ok in Hrun as (Fsuper & _ & Hrun).
  apply bind_Ok in Hrun as (Psuper & _ & Hrun).
  destruct (rDIIS_update (r_diis st) Fsuper Psuper E) as [diis diiserr].
  destruct (rDIIS_solve_F diis Fsuper) as [diis' Fsuper'].
  apply bind_Ok in Hrun as (Fl & HFl & Hrun).
  apply MiniMat_shape in HFl.
  apply bind_Ok in Hrun as (orbs & Horbs' & Hrun).
  injection Hrun as <-. simpl.
  assert (Hframe : OrbitalChannel.occs orbs = OrbitalChannel.occs (rconf.orbs conf1) ∧
                   OrbitalChannel.restr orbs = OrbitalChannel.restr (rconf.orbs conf1) ∧
                   OrbitalChannel.lmax orbs = OrbitalChannel.lmax (rconf.orbs conf1) ∧
                   (0 ≤ OrbitalChannel.lmax (rconf.orbs conf1) →
                    OrbitalChannel.lmax (rconf.orbs conf1) < cube.n_slices Fl)).
  { destruct (PrimFloat.ltb (diisthr sv) diiserr).
    - by apply UpdateOrbitalsShifted_frame in Horbs'.
    - by apply UpdateOrbitals_frame in Horbs'. }
  rewrite Horbs in *. destruct Hframe as (Ho & Hr & Hlm & Hfit).
  repeat (split; [done|]). intros Hlmax. specialize (Hread Hlmax). lia.
Qed.

Lemma iteration_u_orbitals (st st' : uscf) :
  iteration_u sv st = Ok st' →
  (OrbitalChannel.occs (uconf.orbsa (u_conf st'))
   = OrbitalChannel.occs (uconf.orbsa (u_conf st)) ∧
   OrbitalChannel.restr (uconf.orbsa (u_conf st'))
   = OrbitalChannel.restr (uconf.orbsa (u_conf st)) ∧
   OrbitalChannel.lmax (uconf.orbsa (u_conf st'))
   = OrbitalChannel.lmax (uconf.orbsa (u_conf st))) ∧
  (OrbitalChannel.occs (uconf.orbsb (u_conf st'))
   = OrbitalChannel.occs (uconf.orbsb (u_conf st)) ∧
   OrbitalChannel.restr (uconf.orbsb (u_conf st'))
   = OrbitalChannel.restr (uconf.orbsb (u_conf st)) ∧
   OrbitalChannel.lmax (uconf.orbsb (u_conf st'))
   = OrbitalChannel.lmax (uconf.orbsb (u_conf st))) ∧
  (0 ≤ lmax sv → OrbitalChannel.lmax (uconf.orbsa (u_conf st)) = lmax sv ∧
                  OrbitalChannel.lmax (uconf.orbsb (u_conf st)) = lmax sv).
Proof.
  unfold iteration_u. intros Hrun.
  apply bind_Ok in Hrun as ([E conf1] & HF & Hrun).
  apply FockBuild_u_frame in HF as (Horbsa & Horbsb & _ & HPal & HPbl & Hread).
  apply UpdateDensity_shape in HPal as (_ & _ & HPas).
  apply UpdateDensity_shape in HPbl as (_ & _ & HPbs).
  apply bind_Ok in Hrun as (Fasuper & _ & Hrun).
  apply bind_Ok in Hrun as (Fbsuper & _ & Hrun).
  apply bind_Ok in Hrun as (Pasuper & _ & Hrun).
  apply bind_Ok in Hrun as (Pbsuper & _ & Hrun).
  destruct (uDIIS_update (u_diis st) Fasuper Fbsuper Pasuper Pbsuper E)
    as [diis diiserr].
  destruct (uDIIS_solve_F diis Fasuper Fbsuper) as [[diis' Fasuper'] Fbsuper'].
  apply bind_Ok in Hrun as (Fal & HFal & Hrun).
  apply bind_Ok in Hrun as (Fbl & HFbl & Hrun).
  apply MiniMat_shape in HFal. apply MiniMat_shape in HFbl.
  apply bind_Ok in Hrun as ([orbsa orbsb] & Horbs' & Hrun).
  injection Hrun as <-. simpl.
  assert (Hframe :
    (OrbitalChannel.occs orbsa = OrbitalChannel.occs (uconf.orbsa conf1) ∧
     OrbitalChannel.restr orbsa = OrbitalChannel.restr (uconf.orbsa conf1) ∧
     OrbitalChannel.lmax orbsa = OrbitalChannel.lmax (uconf.orbsa conf1) ∧
     (0 ≤ OrbitalChannel.lmax (uconf.orbsa conf1) →
      OrbitalChannel.lmax (uconf.orbsa conf1) < cube.n_slices Fal)) ∧
    (OrbitalChannel.occs orbsb = OrbitalChannel.occs (uconf.orbsb conf1) ∧
     OrbitalChannel.restr orbsb = OrbitalChannel.restr (uconf.orbsb conf1) ∧
     OrbitalChannel.lmax orbsb = OrbitalChannel.lmax (uconf.orbsb conf1) ∧
     (0 ≤ OrbitalChannel.lmax (uconf.orbsb conf1) →
      OrbitalChannel.lmax (uconf.orbsb conf1) < cube.n_slices Fbl))).
  { destruct (PrimFloat.ltb (diisthr sv) diiserr).
    - apply bind_Ok in Horbs' as (a & Ha & (b & Hb & [= <- <-])%bind_Ok).
      split; [by apply UpdateOrbitalsShifted_frame in Ha
             |by apply UpdateOrbitalsShifted_frame in Hb].
    - apply bind_Ok in Horbs' as (a & Ha & (b & Hb & [= <- <-])%bind_Ok).
      split; [by apply UpdateOrbitals_frame in Ha
             |by apply UpdateOrbitals_frame in Hb]. }
  rewrite Horbsa, Horbsb in *.
  destruct Hframe as [(Hoa & Hra & Hla & Hfa) (Hob & Hrb & Hlb & Hfb)].
  split; [done|]. split; [done|]. intros Hlmax. specialize (Hread Hlmax). lia.
Qed.

(** What every completed pass keeps, the loop keeps. *)
Lemma loop_r_keeps (R : rscf → rscf → Prop) :
  (∀ st, R st st) → (∀ a b c, R a b → R b c → R a c) →
  (∀ st st', iteration_r sv st = Ok st' → R st st') →
  ∀ left iscf iscf' st0 st,
    loop_r sv left iscf st0 = (iscf', Ok st) → R st0 st.
Proof.
  intros Hrefl Htrans Hstep. induction left as [|left IH]; intros iscf iscf' st0 st Hrun.
  - simpl in Hrun. injection Hrun as _ <-. apply Hrefl.
  - simpl in Hrun. destruct (iteration_r sv st0) as [st1|e] eqn:Hit; [|done].
    destruct (rconf.converged (r_conf st1)).
    + injection Hrun as _ <-. by apply Hstep.
    + apply (Htrans _ st1); [by apply Hstep|by apply (IH _ _ _ _ Hrun)].
Qed.

Lemma loop_u_keeps (R : uscf → uscf → Prop) :
  (∀ st, R st st) → (∀ a b c, R a b → R b c → R a c) →
  (∀ st st', iteration_u sv st = Ok st' → R st st') →
  ∀ left iscf iscf' st0 st,
    loop_u sv left iscf st0 = (iscf', Ok st) → R st0 st.
Proof.
  intros Hrefl Htrans Hstep. induction left as [|left IH]; intros iscf iscf' st0 st Hrun.
  - simpl in Hrun. injection Hrun as _ <-. apply Hrefl.
  - simpl in Hrun. destruct (iteration_u sv st0) as [st1|e] eqn:Hit; [|done].
    destruct (uconf.converged (u_conf st1)).
    + injection Hrun as _ <-. by apply Hstep.
    + apply (Htrans _ st1); [by apply Hstep|by apply (IH _ _ _ _ Hrun)].
Qed.



Lemma start_r_conf (conf : rconf.t) (st0 : rscf) :
  start_r sv conf = Ok st0 → r_conf st0 = conf ∧ r_E st0 = 0%float.
Proof.
  unfold start_r. intros (SS & _ & (SSi & _ & [= <-])%bind_Ok)%bind_Ok. done.
Qed.

Lemma start_u_conf (conf : uconf.t) (st0 : uscf) :
  start_u sv conf = Ok st0 → u_conf st0 = conf ∧ u_E st0 = 0%float.
Proof.
  unfold start_u. intros (SS & _ & (SSi & _ & [= <-])%bind_Ok)%bind_Ok. done.
Qed.

(** [Solve(rconf_t &)] returning [Ok] unfolds into its checks, its start and
    its loop. *)
Lemma Solve_r_Ok (conf conf' : rconf.t) (E : float) :
  returned (Solve_r sv conf) = Ok (E, conf') →
  ∃ st0 iscf st,
    Solve_checks_r sv conf = Ok () ∧ start_r sv conf = Ok st0 ∧
    loop_r sv (Z.to_nat (maxit sv)) 1 st0 = (iscf, Ok st) ∧
    E = r_E st ∧ conf' = r_conf st ∧
    Solve_r sv conf = SolveResult (passes (maxit sv) iscf) (maxit sv <? iscf)
                        (Ok (E, conf')).
Proof.
  unfold Solve_r.
  destruct (Solve_checks_r sv conf) as [[]|e]; [|done].
  destruct (start_r sv conf) as [st0|e]; [|done].
  destruct (loop_r sv (Z.to_nat (maxit sv)) 1 st0) as [iscf [st|e]] eqn:Hloop;
    [|done].
  simpl. intros [= <- <-]. exists st0, iscf, st. by repeat split.
Qed.

Lemma Solve_u_Ok (conf conf' : uconf.t) (E : float) :
  returned (Solve_u sv conf) = Ok (E, conf') →
  ∃ st0 iscf st,
    Solve_checks_u sv conf = Ok () ∧ start_u sv conf = Ok st0 ∧
    loop_u sv (Z.to_nat (maxit sv)) 1 st0 = (iscf, Ok st) ∧
    E = u_E st ∧ conf' = u_conf st ∧
    Solve_u sv conf = SolveResult (passes (maxit sv) iscf) (maxit sv <? iscf)
                        (Ok (E, conf')).
Proof.
  unfold Solve_u.
  destruct (Solve_checks_u sv conf) as [[]|e]; [|done].
  destruct (start_u sv conf) as [st0|e]; [|done].
  destruct (loop_u sv (Z.to_nat (maxit sv)) 1 st0) as [iscf [st|e]] eqn:Hloop;
    [|done].
  simpl. intros [= <- <-]. exists st0, iscf, st. by repeat split.
Qed.

End Solve_invariants.



(** A channel with [lmax = 0] and two occupations passes the checks of a
    solver with [lmax = 1] and fails in the first pass. *)
Example Solve_other_lmax :
  @SCFSolver.Solve_r sample.naive sample.bare sample.steady
    (sample.solver_of 1 3 0x1p-20 0.5)
    (rconf.Build (OrbitalChannel.SetLmax sample.ground 0)
                 sample.no_orbitals sample.no_orbitals 0 0 0 0 0 false)
  = SolveResult 1 false (Throw (out_of_range "Cube::slice(): index out of bounds")).
Proof. vm_compute. reflexivity. Qed.

(** When [Solve] returns, the occupation vector, the [restr] flag and
    [lmax] of every channel of the configuration are what they were on
    entry: neither the Fock build nor the orbital refreshes write them. *)
Theorem Solve_keeps_occupations
    `{Numerics} `{BasisProvider} `{Accelerator} (sv : SCFSolver.t) :
  (∀ conf E conf', returned (SCFSolver.Solve_r sv conf) = Ok (E, conf') →
     OrbitalChannel.Occs (rconf.orbs conf') = OrbitalChannel.Occs (rconf.orbs conf) ∧
     OrbitalChannel.Restricted (rconf.orbs conf')
     = OrbitalChannel.Restricted (rconf.orbs conf) ∧
     OrbitalChannel.Lmax (rconf.orbs conf') = OrbitalChannel.Lmax (rconf.orbs conf)) ∧
  (∀ conf E conf', returned (SCFSolver.Solve_u sv conf) = Ok (E, conf') →
     (OrbitalChannel.Occs (uconf.orbsa conf') = OrbitalChannel.Occs (uconf.orbsa conf) ∧
      OrbitalChannel.Restricted (uconf.orbsa conf')
      = OrbitalChannel.Restricted (uconf.orbsa conf) ∧
      OrbitalChannel.Lmax (uconf.orbsa conf') = OrbitalChannel.Lmax (uconf.orbsa conf)) ∧
     (OrbitalChannel.Occs (uconf.orbsb conf') = OrbitalChannel.Occs (uconf.orbsb conf) ∧
      OrbitalChannel.Restricted (uconf.orbsb conf')
      = OrbitalChannel.Restricted (uconf.orbsb conf) ∧
      OrbitalChannel.Lmax (uconf.orbsb conf') = OrbitalChannel.Lmax (uconf.orbsb conf))).
Proof.
  unfold OrbitalChannel.Occs, OrbitalChannel.Restricted, OrbitalChannel.Lmax.
  split.
  - intros conf E conf' (st0 & iscf & st & _ & Hst & Hloop & _ & -> & _)%Solve_r_Ok.
    apply start_r_conf in Hst as [<- _].
    apply (loop_r_keeps sv
             (λ a b, OrbitalChannel.occs (rconf.orbs (SCFSolver.r_conf b))
                     = OrbitalChannel.occs (rconf.orbs (SCFSolver.r_conf a)) ∧
                     OrbitalChannel.restr (rconf.orbs (SCFSolver.r_conf b))
                     = OrbitalChannel.restr (rconf.orbs (SCFSolver.r_conf a)) ∧
                     OrbitalChannel.lmax (rconf.orbs (SCFSolver.r_conf b))
                     = OrbitalChannel.lmax (rconf.orbs (SCFSolver.r_conf a))))
      in Hloop; [done|done| |].
    + intros a b c (?&?&?) (?&?&?). repeat split; congruence.
    + intros a b (?&?&?&_)%iteration_r_orbitals. done.
  - intros conf E conf' (st0 & iscf & st & _ & Hst & Hloop & _ & -> & _)%Solve_u_Ok.
    apply start_u_conf in Hst as [<- _].
    apply (loop_u_keeps sv
             (λ a b,
                (OrbitalChannel.occs (uconf.orbsa (SCFSolver.u_conf b))
                 = OrbitalChannel.occs (uconf.orbsa (SCFSolver.u_conf a)) ∧
                 OrbitalChannel.restr (uconf.orbsa (SCFSolver.u_conf b))
                 = OrbitalChannel.restr (uconf.orbsa (SCFSolver.u_conf a)) ∧
                 OrbitalChannel.lmax (uconf.orbsa (SCFSolver.u_conf b))
                 = OrbitalChannel.lmax (uconf.orbsa (SCFSolver.u_conf a))) ∧
                (OrbitalChannel.occs (uconf.orbsb (SCFSolver.u_conf b))
                 = OrbitalChannel.occs (uconf.orbsb (SCFSolver.u_conf a)) ∧
                 OrbitalChannel.restr (uconf.orbsb (SCFSolver.u_conf b))
                 = OrbitalChannel.restr (uconf.orbsb (SCFSolver.u_conf a)) ∧
                 OrbitalChannel.lmax (uconf.orbsb (SCFSolver.u_conf b))
                 = OrbitalChannel.lmax (uconf.orbsb (SCFSolver.u_conf a)))))
      in Hloop; [done|done| |].
    + intros a b c [(?&?&?) (?&?&?)] [(?&?&?) (?&?&?)]. repeat split; congruence.
    + intros a b (?&?&_)%iteration_u_orbitals. done.
Qed.

Lemma Solve_keeps_occupations_witness :
  (∃ E conf', returned (@SCFSolver.Solve_r sample.naive sample.bare sample.steady
                          (sample.solver_of 1 3 0x1p-20 0.5) sample.start)
              = Ok (E, conf') ∧
     OrbitalChannel.Occs (rconf.orbs conf') = [2; 0]) ∧
  (∃ E conf', returned (@SCFSolver.Solve_u sample.naive sample.bare sample.steady
                          (sample.solver_of 1 3 0x1p-20 0.5) sample.start_u)
              = Ok (E, conf') ∧
     OrbitalChannel.Occs (uconf.orbsa conf') = [1; 0] ∧
     OrbitalChannel.Occs (uconf.orbsb conf') = [1; 0]).
Proof.
  destruct (@Solve_keeps_occupations sample.naive sample.bare
              sample.steady (sample.solver_of 1 3 0x1p-20 0.5)) as [Hr Hu].
  split.
  - destruct (returned (@SCFSolver.Solve_r sample.naive sample.bare sample.steady
                          (sample.solver_of 1 3 0x1p-20 0.5) sample.start))
      as [[E conf']|e] eqn:Hrun; [|vm_compute in Hrun; discriminate].
    exists E, conf'. split; [reflexivity|].
    destruct (Hr _ _ _ Hrun) as (Ho & _). exact Ho.
  - destruct (returned (@SCFSolver.Solve_u sample.naive sample.bare sample.steady
                          (sample.solver_of 1 3 0x1p-20 0.5) sample.start_u))
      as [[E conf']|e] eqn:Hrun; [|vm_compute in Hrun; discriminate].
    exists E, conf'. split; [reflexivity|].
    destruct (Hu _ _ _ Hrun) as [(Ha & _) (Hb & _)]. split; [exact Ha|exact Hb].
Defined.

(** A completed pass stores the energies and the density of its Fock
    build. *)
Lemma iteration_r_energies `{Numerics} `{BasisProvider} `{Accelerator}
    (sv : SCFSolver.t) (st st' : SCFSolver.rscf) :
  SCFSolver.iteration_r sv st = Ok st' →
  ∃ conf1, SCFSolver.FockBuild_r sv (SCFSolver.r_conf st)
           = Ok (SCFSolver.r_E st', conf1) ∧
    rconf.Econf (SCFSolver.r_conf st') = rconf.Econf conf1 ∧
    rconf.Ekin (SCFSolver.r_conf st') = rconf.Ekin conf1 ∧
    rconf.Epot (SCFSolver.r_conf st') = rconf.Epot conf1 ∧
    rconf.Ecoul (SCFSolver.r_conf st') = rconf.Ecoul conf1 ∧
    rconf.Exc (SCFSolver.r_conf st') = rconf.Exc conf1 ∧
    rconf.Pl (SCFSolver.r_conf st') = rconf.Pl conf1.
Proof.
  unfold SCFSolver.iteration_r. intros Hrun.
  apply bind_Ok in Hrun as ([E conf1] & HF & Hrun).
  apply bind_Ok in Hrun as (Fsuper & _ & Hrun).
  apply bind_Ok in Hrun as (Psuper & _ & Hrun).
  destruct (rDIIS_update (SCFSolver.r_diis st) Fsuper Psuper E) as [diis diiserr].
  destruct (rDIIS_solve_F diis Fsuper) as [diis' Fsuper'].
  apply bind_Ok in Hrun as (Fl & _ & Hrun).
  apply bind_Ok in Hrun as (orbs & _ & Hrun).
  injection Hrun as <-. simpl. exists conf1. by repeat split.
Qed.

Lemma iteration_u_energies `{Numerics} `{BasisProvider} `{Accelerator}
    (sv : SCFSolver.t) (st st' : SCFSolver.uscf) :
  SCFSolver.iteration_u sv st = Ok st' →
  ∃ conf1, SCFSolver.FockBuild_u sv (SCFSolver.u_conf st)
           = Ok (SCFSolver.u_E st', conf1) ∧
    uconf.Econf (SCFSolver.u_conf st') = uconf.Econf conf1 ∧
    uconf.Ekin (SCFSolver.u_conf st') = uconf.Ekin conf1 ∧
    uconf.Epot (SCFSolver.u_conf st') = uconf.Epot conf1 ∧
    uconf.Ecoul (SCFSolver.u_conf st') = uconf.Ecoul conf1 ∧
    uconf.Exc (SCFSolver.u_conf st') = uconf.Exc conf1 ∧
    uconf.Pal (SCFSolver.u_conf st') = uconf.Pal conf1 ∧
    uconf.Pbl (SCFSolver.u_conf st') = uconf.Pbl conf1.
Proof.
  unfold SCFSolver.iteration_u. intros Hrun.
  apply bind_Ok in Hrun as ([E conf1] & HF & Hrun).
  apply bind_Ok in Hrun as (Fasuper & _ & Hrun).
  apply bind_Ok in Hrun as (Fbsuper & _ & Hrun).
  apply bind_Ok in Hrun as (Pasuper & _ & Hrun).
  apply bind_Ok in Hrun as (Pbsuper & _ & Hrun).
  destruct (uDIIS_update (SCFSolver.u_diis st) Fasuper Fbsuper Pasuper Pbsuper E)
    as [diis diiserr].
  destruct (uDIIS_solve_F diis Fasuper Fbsuper) as [[diis' Fasuper'] Fbsuper'].
  apply bind_Ok in Hrun as (Fal & _ & Hrun).
  apply bind_Ok in Hrun as (Fbl & _ & Hrun).
  apply bind_Ok in Hrun as ([orbsa orbsb] & _ & Hrun).
  injection Hrun as <-. simpl. exists conf1. by repeat split.
Qed.

(** How a loop of at least one pass that returns has ended: out of passes
    with the flag false, or by [break] with the flag true. *)
Lemma loop_r_last `{Numerics} `{BasisProvider} `{Accelerator}
    (sv : SCFSolver.t) (iscf : Z) (st0 st : SCFSolver.rscf) :
  1 ≤ SCFSolver.maxit sv →
  SCFSolver.loop_r sv (Z.to_nat (SCFSolver.maxit sv)) 1 st0 = (iscf, Ok st) →
  ∃ prev, SCFSolver.iteration_r sv prev = Ok st ∧
    (rconf.converged (SCFSolver.r_conf st) = false ∧ iscf = 1 + SCFSolver.maxit sv ∨
     rconf.converged (SCFSolver.r_conf st) = true ∧ 1 ≤ iscf ≤ SCFSolver.maxit sv).
Proof.
  intros Hmaxit Hloop.
  apply loop_r_Ok in Hloop as [(-> & _ & Hn0)|(Hi & Hc & prev & Hprev)].
  - destruct Hn0 as (Hc & prev & Hprev); [lia|].
    exists prev. split; [done|]. left. split; [done|lia].
  - exists prev. split; [done|]. right. split; [done|lia].
Qed.

Lemma loop_u_last `{Numerics} `{BasisProvider} `{Accelerator}
    (sv : SCFSolver.t) (iscf : Z) (st0 st : SCFSolver.uscf) :
  1 ≤ SCFSolver.maxit sv →
  SCFSolver.loop_u sv (Z.to_nat (SCFSolver.maxit sv)) 1 st0 = (iscf, Ok st) →
  ∃ prev, SCFSolver.iteration_u sv prev = Ok st ∧
    (uconf.converged (SCFSolver.u_conf st) = false ∧ iscf = 1 + SCFSolver.maxit sv ∨
     uconf.converged (SCFSolver.u_conf st) = true ∧ 1 ≤ iscf ≤ SCFSolver.maxit sv).
Proof.
  intros Hmaxit Hloop.
  apply loop_u_Ok in Hloop as [(-> & _ & Hn0)|(Hi & Hc & prev & Hprev)].
  - destruct Hn0 as (Hc & prev & Hprev); [lia|].
    exists prev. split; [done|]. left. split; [done|lia].
  - exists prev. split; [done|]. right. split; [done|lia].
Qed.

(** What [Solve] hands back when it returns. With [maxit ≤ 0] no pass runs:
    the not-converged line is printed, the energy returned is the initial
    [0.0] and the configuration is untouched. With [maxit ≥ 1] between one
    and [maxit] passes have run, all of them if the flag is false; the line
    is printed exactly when the flag is false; and the energy returned is
    the stored [Econf], the sum of the four stored components. *)
Theorem Solve_return_summary
    `{Numerics} `{BasisProvider} `{Accelerator} (sv : SCFSolver.t) :
  (∀ conf E conf', returned (SCFSolver.Solve_r sv conf) = Ok (E, conf') →
     (SCFSolver.maxit sv ≤ 0 →
      SCFSolver.Solve_r sv conf = SolveResult 0 true (Ok (0%float, conf))) ∧
     (1 ≤ SCFSolver.maxit sv →
      1 ≤ iterations (SCFSolver.Solve_r sv conf) ≤ SCFSolver.maxit sv ∧
      (rconf.converged conf' = false →
       iterations (SCFSolver.Solve_r sv conf) = SCFSolver.maxit sv) ∧
      reported (SCFSolver.Solve_r sv conf) = negb (rconf.converged conf') ∧
      E = rconf.Econf conf' ∧
      E = (rconf.Ekin conf' + rconf.Epot conf' + rconf.Ecoul conf'
           + rconf.Exc conf')%float)) ∧
  (∀ conf E conf', returned (SCFSolver.Solve_u sv conf) = Ok (E, conf') →
     (SCFSolver.maxit sv ≤ 0 →
      SCFSolver.Solve_u sv conf = SolveResult 0 true (Ok (0%float, conf))) ∧
     (1 ≤ SCFSolver.maxit sv →
      1 ≤ iterations (SCFSolver.Solve_u sv conf) ≤ SCFSolver.maxit sv ∧
      (uconf.converged conf' = false →
       iterations (SCFSolver.Solve_u sv conf) = SCFSolver.maxit sv) ∧
      reported (SCFSolver.Solve_u sv conf) = negb (uconf.converged conf') ∧
      E = uconf.Econf conf' ∧
      E = (uconf.Ekin conf' + uconf.Epot conf' + uconf.Ecoul conf'
           + uconf.Exc conf')%float)).
Proof.
  split.
  - intros conf E conf' (st0 & iscf & st & _ & Hst & Hloop & -> & -> & ->)%Solve_r_Ok.
    simpl. apply start_r_conf in Hst as [Hconf HE]. split.
    + intros Hmaxit. replace (Z.to_nat (SCFSolver.maxit sv)) with 0%nat in Hloop by lia.
      simpl in Hloop. injection Hloop as <- <-. rewrite Hconf, HE. unfold passes.
      destruct (Z.ltb_spec (SCFSolver.maxit sv) 1); [done|lia].
    + intros Hmaxit.
      destruct (loop_r_last sv iscf st0 st Hmaxit Hloop) as (prev & Hprev & Hcase).
      apply iteration_r_energies in Hprev
        as (c & HF & HEconf & HEkin & HEpot & HEcoul & HExc & _).
      apply FockBuild_r_energy in HF as [Hsum HEc].
      rewrite HEconf, HEkin, HEpot, HEcoul, HExc, <- Hsum, <- HEc.
      unfold passes.
      destruct Hcase as [[Hc ->]|[Hc Hi]]; rewrite Hc.
      * destruct (Z.ltb_spec (SCFSolver.maxit sv) (1 + SCFSolver.maxit sv));
          [|lia]. simpl. repeat split; try done; lia.
      * destruct (Z.ltb_spec (SCFSolver.maxit sv) iscf); [lia|]. simpl.
        repeat split; try done; lia.
  - intros conf E conf' (st0 & iscf & st & _ & Hst & Hloop & -> & -> & ->)%Solve_u_Ok.
    simpl. apply start_u_conf in Hst as [Hconf HE]. split.
    + intros Hmaxit. replace (Z.to_nat (SCFSolver.maxit sv)) with 0%nat in Hloop by lia.
      simpl in Hloop. injection Hloop as <- <-. rewrite Hconf, HE. unfold passes.
      destruct (Z.ltb_spec (SCFSolver.maxit sv) 1); [done|lia].
    + intros Hmaxit.
      destruct (loop_u_last sv iscf st0 st Hmaxit Hloop) as (prev & Hprev & Hcase).
      apply iteration_u_energies in Hprev
        as (c & HF & HEconf & HEkin & HEpot & HEcoul & HExc & _).
      apply FockBuild_u_energy in HF as [Hsum HEc].
      rewrite HEconf, HEkin, HEpot, HEcoul, HExc, <- Hsum, <- HEc.
      unfold passes.
      destruct Hcase as [[Hc ->]|[Hc Hi]]; rewrite Hc.
      * destruct (Z.ltb_spec (SCFSolver.maxit sv) (1 + SCFSolver.maxit sv));
          [|lia]. simpl. repeat split; try done; lia.
      * destruct (Z.ltb_spec (SCFSolver.maxit sv) iscf); [lia|]. simpl.
        repeat split; try done; lia.
Qed.

Lemma Solve_return_summary_witness :
  (∃ E conf', returned (@SCFSolver.Solve_r sample.naive sample.bare sample.steady
                          (sample.solver_of 1 3 0x1p-20 0.5) sample.start)
              = Ok (E, conf') ∧
     1 ≤ iterations (@SCFSolver.Solve_r sample.naive sample.bare sample.steady
                       (sample.solver_of 1 3 0x1p-20 0.5) sample.start) ≤ 3 ∧
     reported (@SCFSolver.Solve_r sample.naive sample.bare sample.steady
                 (sample.solver_of 1 3 0x1p-20 0.5) sample.start)
     = negb (rconf.converged conf') ∧
     E = rconf.Econf conf') ∧
  @SCFSolver.Solve_r sample.naive sample.bare sample.steady
    (sample.solver_of 1 0 0x1p-20 0.5) sample.start
  = SolveResult 0 true (Ok (0%float, sample.start)) ∧
  (∃ E conf', returned (@SCFSolver.Solve_u sample.naive sample.bare sample.steady
                          (sample.solver_of 1 3 0x1p-20 0.5) sample.start_u)
              = Ok (E, conf') ∧
     1 ≤ iterations (@SCFSolver.Solve_u sample.naive sample.bare sample.steady
                       (sample.solver_of 1 3 0x1p-20 0.5) sample.start_u) ≤ 3 ∧
     reported (@SCFSolver.Solve_u sample.naive sample.bare sample.steady
                 (sample.solver_of 1 3 0x1p-20 0.5) sample.start_u)
     = negb (uconf.converged conf') ∧
     E = uconf.Econf conf') ∧
  @SCFSolver.Solve_u sample.naive sample.bare sample.steady
    (sample.solver_of 1 0 0x1p-20 0.5) sample.start_u
  = SolveResult 0 true (Ok (0%float, sample.start_u)).
Proof.
  destruct (@Solve_return_summary sample.naive sample.bare sample.steady
              (sample.solver_of 1 3 0x1p-20 0.5)) as [Hr Hu].
  destruct (@Solve_return_summary sample.naive sample.bare sample.steady
              (sample.solver_of 1 0 0x1p-20 0.5)) as [Hr0 Hu0].
  split; [|split; [|split]].
  - destruct (returned (@SCFSolver.Solve_r sample.naive sample.bare sample.steady
                          (sample.solver_of 1 3 0x1p-20 0.5) sample.start))
      as [[E conf']|e] eqn:Hrun; [|vm_compute in Hrun; discriminate].
    exists E, conf'. split; [reflexivity|].
    destruct (Hr _ _ _ Hrun) as [_ Hsome].
    destruct Hsome as (Hit & _ & Hrep & HE & _); [simpl; lia|].
    split; [exact Hit|]. split; [exact Hrep|exact HE].
  - destruct (returned (@SCFSolver.Solve_r sample.naive sample.bare sample.steady
                          (sample.solver_of 1 0 0x1p-20 0.5) sample.start))
      as [[E conf']|e] eqn:Hrun; [|vm_compute in Hrun; discriminate].
    destruct (Hr0 _ _ _ Hrun) as [Hnone _]. apply Hnone. simpl. lia.
  - destruct (returned (@SCFSolver.Solve_u sample.naive sample.bare sample.steady
                          (sample.solver_of 1 3 0x1p-20 0.5) sample.start_u))
      as [[E conf']|e] eqn:Hrun; [|vm_compute in Hrun; discriminate].
    exists E, conf'. split; [reflexivity|].
    destruct (Hu _ _ _ Hrun) as [_ Hsome].
    destruct Hsome as (Hit & _ & Hrep & HE & _); [simpl; lia|].
    split; [exact Hit|]. split; [exact Hrep|exact HE].
  - destruct (returned (@SCFSolver.Solve_u sample.naive sample.bare sample.steady
                          (sample.solver_of 1 0 0x1p-20 0.5) sample.start_u))
      as [[E conf']|e] eqn:Hrun; [|vm_compute in Hrun; discriminate].
    destruct (Hu0 _ _ _ Hrun) as [Hnone _]. apply Hnone. simpl. lia.
Defined.

(** [FockBuild] writes the density, the Fock matrices and the energies of
    the configuration and nothing else: the orbital channels (with their
    occupations) and the [converged] flag are as on entry, and the density
    stored is [UpdateDensity] of those orbitals. *)
Theorem FockBuild_leaves_orbitals_and_flag `{Numerics} `{BasisProvider}
    (sv : SCFSolver.t) :
  (∀ conf E conf', SCFSolver.FockBuild_r sv conf = Ok (E, conf') →
     rconf.orbs conf' = rconf.orbs conf ∧
     rconf.converged conf' = rconf.converged conf ∧
     OrbitalChannel.UpdateDensity (rconf.orbs conf) = Ok (rconf.Pl conf')) ∧
  (∀ conf E conf', SCFSolver.FockBuild_u sv conf = Ok (E, conf') →
     uconf.orbsa conf' = uconf.orbsa conf ∧
     uconf.orbsb conf' = uconf.orbsb conf ∧
     uconf.converged conf' = uconf.converged conf ∧
     OrbitalChannel.UpdateDensity (uconf.orbsa conf) = Ok (uconf.Pal conf') ∧
     OrbitalChannel.UpdateDensity (uconf.orbsb conf) = Ok (uconf.Pbl conf')).
Proof.
  split; intros conf E conf' Hrun.
  - apply FockBuild_r_frame in Hrun as (? & ? & ? & _). done.
  - apply FockBuild_u_frame in Hrun as (? & ? & ? & ? & ? & _). done.
Qed.

Lemma FockBuild_leaves_orbitals_and_flag_witness :
  (∃ E conf', @SCFSolver.FockBuild_r sample.naive sample.bare
                (sample.solver_of 1 10 0.5 0.5) sample.start = Ok (E, conf') ∧
     rconf.orbs conf' = sample.ground ∧ rconf.converged conf' = false) ∧
  (∃ E conf', @SCFSolver.FockBuild_u sample.naive sample.bare
                (sample.solver_of 1 10 0.5 0.5) sample.start_u = Ok (E, conf') ∧
     uconf.orbsa conf' = sample.ground_u ∧ uconf.orbsb conf' = sample.ground_u ∧
     uconf.converged conf' = false).
Proof.
  destruct (@FockBuild_leaves_orbitals_and_flag sample.naive sample.bare
              (sample.solver_of 1 10 0.5 0.5)) as [Hr Hu].
  split.
  - destruct (@SCFSolver.FockBuild_r sample.naive sample.bare
                (sample.solver_of 1 10 0.5 0.5) sample.start)
      as [[E conf']|e] eqn:Hrun; [|vm_compute in Hrun; discriminate].
    exists E, conf'. split; [reflexivity|].
    destruct (Hr _ _ _ Hrun) as (Ho & Hc & _). split; [exact Ho|exact Hc].
  - destruct (@SCFSolver.FockBuild_u sample.naive sample.bare
                (sample.solver_of 1 10 0.5 0.5) sample.start_u)
      as [[E conf']|e] eqn:Hrun; [|vm_compute in Hrun; discriminate].
    exists E, conf'. split; [reflexivity|].
    destruct (Hu _ _ _ Hrun) as (Ha & Hb & Hc & _).
    split; [exact Ha|]. split; [exact Hb|exact Hc].
Defined.

(** ** Packing one matrix *)

Lemma for_each_ext {S : Type} (body1 body2 : Z → S → outcome S) (idx : list Z)
    (s : S) :
  (∀ i s, i ∈ idx → body1 i s = body2 i s) →
  for_each idx body1 s = for_each idx body2 s.
Proof.
  revert s. induction idx as [|i idx IH]; intros s Hext; [done|]. simpl.
  rewrite (Hext i s) by (by left). destruct (body2 i s) as [s'|e]; [|done]. simpl.
  apply IH. intros j s'' Hj. apply Hext. by right.
Qed.

(** [SuperMat(M)] packs what [ReplicateCube(M)] holds. *)
Lemma SuperMat_SuperCube (sv : SCFSolver.t) (M : mat.t) (Q : cube.t) :
  SCFSolver.ReplicateCube sv M = Ok Q →
  SCFSolver.SuperMat sv M = SCFSolver.SuperCube sv Q.
Proof.
  intros [HL ->]%ReplicateCube_spec.
  unfold SCFSolver.SuperMat, SCFSolver.SuperCube. simpl.
  destruct (mat.zeros _ _) as [Z0|e]; [|done]. simpl.
  unfold for_range. apply for_each_ext. intros l Ms Hl%elem_of_seqZ.
  unfold cube.slice, cube.in_bounds, cube.n_slices. simpl.
  rewrite length_replicate.
  rewrite bool_decide_eq_true_2 by lia. simpl.
  rewrite (list_lookup_total_correct _ _ M); [done|].
  apply lookup_replicate_2. lia.
Qed.

(** For a square [n×n] matrix [M], [n ≥ 1], whose packed matrix fits in
    memory: [SuperMat(M)] is the square matrix of order [(lmax+1)·n] with a
    copy of [M] in each diagonal block and zeros elsewhere; it is what
    [SuperCube] makes of [ReplicateCube(M)], and [MiniMat] gives
    [ReplicateCube(M)], [lmax+1] slices equal to [M], back from it. *)
Theorem SuperMat_repeats_on_the_diagonal (sv : SCFSolver.t) (n : Z) (M : mat.t) :
  0 ≤ SCFSolver.lmax sv →
  0 < n →
  (n * (SCFSolver.lmax sv + 1)) * (n * (SCFSolver.lmax sv + 1)) ≤ max_n_elem →
  mat.wf M → mat.n_rows M = n → mat.n_cols M = n →
  ∃ Msuper,
    SCFSolver.SuperMat sv M = Ok Msuper ∧
    mat.n_rows Msuper = (SCFSolver.lmax sv + 1) * n ∧
    mat.n_cols Msuper = (SCFSolver.lmax sv + 1) * n ∧
    (∀ i j, 0 ≤ i < (SCFSolver.lmax sv + 1) * n →
            0 ≤ j < (SCFSolver.lmax sv + 1) * n →
       mat.get Msuper i j
       = if bool_decide (i / n = j / n) then mat.get M (i mod n) (j mod n)
         else 0%float) ∧
    SCFSolver.ReplicateCube sv M
    = Ok (cube.Cube n n (replicate (Z.to_nat (SCFSolver.lmax sv + 1)) M)) ∧
    SCFSolver.SuperCube sv
      (cube.Cube n n (replicate (Z.to_nat (SCFSolver.lmax sv + 1)) M)) = Ok Msuper ∧
    SCFSolver.MiniMat sv Msuper
    = Ok (cube.Cube n n (replicate (Z.to_nat (SCFSolver.lmax sv + 1)) M)).
Proof.
  intros Hlmax Hn Hfits Hwf Hrows Hcols.
  set (L := SCFSolver.lmax sv + 1) in *.
  set (Q := cube.Cube n n (replicate (Z.to_nat L) M)).
  pose proof (packing_sizes sv n Hlmax Hn Hfits) as (HL & HnD & HD & Hnn & HDD).
  assert (HQ : SCFSolver.ReplicateCube sv M = Ok Q).
  { unfold SCFSolver.ReplicateCube. rewrite cube_zeros_Ok by (fold L; lia).
    simpl.
    destruct (fill_slices_Ok (λ _, M) (SCFSolver.lmax sv)
                (cube.Cube (mat.n_rows M) (mat.n_cols M)
                   (replicate (Z.to_nat L)
                      (mat.Mat (mat.n_rows M) (mat.n_cols M)
                         (replicate (Z.to_nat (mat.n_rows M * mat.n_cols M))
                            0%float))))) as [Q' HQ'].
    { simpl. by rewrite length_replicate. }
    { done. }
    fold L. rewrite HQ'. f_equal.
    assert (SCFSolver.ReplicateCube sv M = Ok Q') as [_ ->]%ReplicateCube_spec.
    { unfold SCFSolver.ReplicateCube. rewrite cube_zeros_Ok by (fold L; lia).
      simpl. exact HQ'. }
    unfold Q. by rewrite Hrows, Hcols. }
  assert (HwfQ : cube.wf Q).
  { unfold cube.wf. simpl. split; [lia|]. split; [lia|].
    apply Forall_replicate. done. }
  assert (HsQ : cube.n_slices Q = SCFSolver.lmax sv + 1).
  { unfold cube.n_slices. simpl. rewrite length_replicate. fold L. lia. }
  pose proof (SuperCube_spec sv n Q Hlmax Hn Hfits HwfQ eq_refl eq_refl HsQ) as Hpack.
  pose proof (MiniMat_spec sv n Q Hlmax Hn Hfits HwfQ eq_refl eq_refl HsQ) as Hunpack.
  eexists. split; [rewrite (SuperMat_SuperCube sv M Q HQ); exact Hpack|].
  split; [simpl; lia|]. split; [simpl; lia|]. split; [|done].
  intros i j Hi Hj. rewrite mat_get_tabulate by lia.
  unfold SCFSolver.block_diagonal.
  assert (0 ≤ i / n < L).
  { split; [apply Z.div_pos; lia|apply Z.div_lt_upper_bound; lia]. }
  simpl. rewrite (list_lookup_total_correct _ _ M) by (apply lookup_replicate_2; lia).
  fold L. repeat case_bool_decide; try done; lia.
Qed.

Lemma SuperMat_repeats_on_the_diagonal_witness :
  ∃ Msuper,
    SCFSolver.SuperMat (sample.solver_of 1 10 0 0) (mat.Mat 2 2 [1; 2; 3; 4]%float)
    = Ok Msuper ∧
    Msuper = mat.Mat 4 4 [1; 2; 0; 0;  3; 4; 0; 0;  0; 0; 1; 2;  0; 0; 3; 4]%float ∧
    SCFSolver.MiniMat (sample.solver_of 1 10 0 0) Msuper
    = Ok (cube.Cube 2 2 (replicate 2 (mat.Mat 2 2 [1; 2; 3; 4]%float))).
Proof.
  destruct (SuperMat_repeats_on_the_diagonal (sample.solver_of 1 10 0 0) 2
              (mat.Mat 2 2 [1; 2; 3; 4]%float))
    as (Msuper & Hpack & _ & _ & _ & _ & _ & Hunpack).
  - simpl. lia.
  - lia.
  - vm_compute. discriminate.
  - unfold mat.wf. simpl. repeat split; lia.
  - reflexivity.
  - reflexivity.
  - exists Msuper. split; [exact Hpack|]. split; [|exact Hunpack].
    vm_compute in Hpack. by injection Hpack as <-.
Defined.

(** ** The orderings *)

Ltac order_cases :=
  repeat match goal with
  | H : context [(?a ?= ?b)%Z] |- _ => destruct (Z.compare_spec a b)
  | |- context [(?a ?= ?b)%Z] => destruct (Z.compare_spec a b)
  | H : context [(?a ?= ?b)%positive] |- _ => destruct (Pos.compare_spec a b)
  | |- context [(?a ?= ?b)%positive] => destruct (Pos.compare_spec a b)
  end.

Lemma SFcompare_Lt_trans (x y z : spec_float) :
  SFcompare x y = Some Lt → SFcompare y z = Some Lt → SFcompare x z = Some Lt.
Proof.
  destruct x as [sx|sx| |sx mx ex], y as [sy|sy| |sy my ey], z as [sz|sz| |sz mz ez];
    simpl; try discriminate;
    try (destruct sx); try (destruct sy); try (destruct sz);
    try discriminate; try done;
    rewrite ?Pos.compare_cont_spec; unfold Pos.switch_Eq;
    intros Hxy Hyz; order_cases; simpl in *; try discriminate; try lia; try done.
Qed.

Lemma SFcompare_Lt_Gt (x y : spec_float) :
  SFcompare x y = Some Lt ↔ SFcompare y x = Some Gt.
Proof.
  destruct x as [sx|sx| |sx mx ex], y as [sy|sy| |sy my ey];
    simpl; try done;
    try (destruct sx); try (destruct sy); try done;
    rewrite ?Pos.compare_cont_spec; unfold Pos.switch_Eq;
    order_cases; simpl in *; split; intros; try discriminate; try lia; try done.
Qed.

Lemma SFcompare_Eq_trans (x y z : spec_float) :
  SFcompare x y = Some Eq → SFcompare y z = Some Eq → SFcompare x z = Some Eq.
Proof.
  destruct x as [sx|sx| |sx mx ex], y as [sy|sy| |sy my ey], z as [sz|sz| |sz mz ez];
    simpl; try discriminate;
    try (destruct sx); try (destruct sy); try (destruct sz);
    try discriminate; try done;
    rewrite ?Pos.compare_cont_spec; unfold Pos.switch_Eq;
    intros Hxy Hyz; order_cases; simpl in *; try discriminate; try lia; try done.
Qed.

(** Two numbers compare unless one of them is a NaN. *)
Lemma SFcompare_Some (x y : spec_float) :
  SFcompare x x ≠ None → SFcompare y y ≠ None → ∃ c, SFcompare x y = Some c.
Proof.
  destruct x as [sx|sx| |sx mx ex], y as [sy|sy| |sy my ey]; simpl; try done; eauto.
Qed.

Lemma ltb_irrefl (x : float) : PrimFloat.ltb x x = false.
Proof.
  rewrite FloatAxioms.ltb_spec. unfold SFltb.
  destruct (SFcompare (Prim2SF x) (Prim2SF x)) as [[]|] eqn:Hc; try done.
  pose proof (proj1 (SFcompare_Lt_Gt _ _) Hc). congruence.
Qed.

Lemma ltb_asym (x y : float) :
  PrimFloat.ltb x y = true → PrimFloat.ltb y x = false.
Proof.
  rewrite !FloatAxioms.ltb_spec. unfold SFltb.
  destruct (SFcompare (Prim2SF x) (Prim2SF y)) as [[]|] eqn:Hc; try done.
  apply SFcompare_Lt_Gt in Hc. by rewrite Hc.
Qed.

Lemma ltb_trans (x y z : float) :
  PrimFloat.ltb x y = true → PrimFloat.ltb y z = true → PrimFloat.ltb x z = true.
Proof.
  rewrite !FloatAxioms.ltb_spec. unfold SFltb.
  destruct (SFcompare (Prim2SF x) (Prim2SF y)) as [[]|] eqn:Hxy; try done.
  destruct (SFcompare (Prim2SF y) (Prim2SF z)) as [[]|] eqn:Hyz; try done.
  by rewrite (SFcompare_Lt_trans _ _ _ Hxy Hyz).
Qed.

Lemma is_nan_false (x : float) :
  PrimFloat.is_nan x = false → SFcompare (Prim2SF x) (Prim2SF x) ≠ None.
Proof.
  unfold PrimFloat.is_nan. rewrite FloatAxioms.eqb_spec. unfold SFeqb.
  by destruct (SFcompare (Prim2SF x) (Prim2SF x)) as [[]|].
Qed.

(** Away from NaN, being unordered either way is being equal, which is
    transitive. *)
Lemma ltb_unordered_trans (x y z : float) :
  PrimFloat.is_nan x = false → PrimFloat.is_nan y = false →
  PrimFloat.is_nan z = false →
  PrimFloat.ltb x y = false → PrimFloat.ltb y x = false →
  PrimFloat.ltb y z = false → PrimFloat.ltb z y = false →
  PrimFloat.ltb x z = false ∧ PrimFloat.ltb z x = false.
Proof.
  intros Hx%is_nan_false Hy%is_nan_false Hz%is_nan_false.
  rewrite !FloatAxioms.ltb_spec. unfold SFltb.
  destruct (SFcompare_Some _ _ Hx Hy) as [cxy Hxy].
  destruct (SFcompare_Some _ _ Hy Hz) as [cyz Hyz].
  destruct (SFcompare_Some _ _ Hy Hx) as [cyx Hyx].
  destruct (SFcompare_Some _ _ Hz Hy) as [czy Hzy].
  rewrite Hxy, Hyz, Hyx, Hzy.
  destruct cxy; try done.
  2: { apply SFcompare_Lt_Gt in Hxy. rewrite Hxy in Hyx. by injection Hyx as <-. }
  destruct cyz; try done.
  2: { apply SFcompare_Lt_Gt in Hyz. rewrite Hyz in Hzy. by injection Hzy as <-. }
  intros _ _ _ _.
  pose proof (SFcompare_Eq_trans _ _ _ Hxy Hyz) as Hxz. rewrite Hxz.
  split; [done|].
  destruct (SFcompare (Prim2SF z) (Prim2SF x)) as [[]|] eqn:Hzx; try done.
  apply SFcompare_Lt_Gt in Hzx. congruence.
Qed.

(** The comparison that both [operator<] of the configurations compute from
    the flags and the energies. *)
Lemma flag_then_energy_order (c1 c2 c3 : bool) (e1 e2 e3 : float) :
  let lt c e c' e' :=
    if c && negb c' then true
    else if c' && negb c then false else PrimFloat.ltb e e' in
  lt c1 e1 c1 e1 = false ∧
  (lt c1 e1 c2 e2 = true → lt c2 e2 c1 e1 = false) ∧
  (lt c1 e1 c2 e2 = true → lt c2 e2 c3 e3 = true → lt c1 e1 c3 e3 = true) ∧
  (PrimFloat.is_nan e1 = false → PrimFloat.is_nan e2 = false →
   PrimFloat.is_nan e3 = false →
   lt c1 e1 c2 e2 = false → lt c2 e2 c1 e1 = false →
   lt c2 e2 c3 e3 = false → lt c3 e3 c2 e2 = false →
   lt c1 e1 c3 e3 = false ∧ lt c3 e3 c1 e1 = false).
Proof.
  cbv zeta. split; [|split; [|split]].
  - destruct c1; simpl; apply ltb_irrefl.
  - destruct c1, c2; simpl; try done; apply ltb_asym.
  - destruct c1, c2, c3; simpl; try done; apply ltb_trans.
  - destruct c1, c2, c3; simpl; try done; apply ltb_unordered_trans.
Qed.

(** [operator<] on configurations is a strict weak ordering, as [std::sort]
    asks, as long as no energy is a NaN: it is irreflexive, asymmetric and
    transitive for all configurations, and for configurations with energies
    that are numbers being unordered either way (same flag and equal energy)
    is transitive too. Restricted and unrestricted. *)
Theorem conf_lt_strict_weak_order :
  ((∀ a, rconf.lt a a = false) ∧
   (∀ a b, rconf.lt a b = true → rconf.lt b a = false) ∧
   (∀ a b c, rconf.lt a b = true → rconf.lt b c = true → rconf.lt a c = true) ∧
   (∀ a b c,
      PrimFloat.is_nan (rconf.Econf a) = false →
      PrimFloat.is_nan (rconf.Econf b) = false →
      PrimFloat.is_nan (rconf.Econf c) = false →
      rconf.lt a b = false → rconf.lt b a = false →
      rconf.lt b c = false → rconf.lt c b = false →
      rconf.lt a c = false ∧ rconf.lt c a = false)) ∧
  ((∀ a, uconf.lt a a = false) ∧
   (∀ a b, uconf.lt a b = true → uconf.lt b a = false) ∧
   (∀ a b c, uconf.lt a b = true → uconf.lt b c = true → uconf.lt a c = true) ∧
   (∀ a b c,
      PrimFloat.is_nan (uconf.Econf a) = false →
      PrimFloat.is_nan (uconf.Econf b) = false →
      PrimFloat.is_nan (uconf.Econf c) = false →
      uconf.lt a b = false → uconf.lt b a = false →
      uconf.lt b c = false → uconf.lt c b = false →
      uconf.lt a c = false ∧ uconf.lt c a = false)).
Proof.
  split; (split; [|split; [|split]]).
  - intros a.
    destruct (flag_then_energy_order (rconf.converged a) (rconf.converged a)
                (rconf.converged a) (rconf.Econf a) (rconf.Econf a) (rconf.Econf a))
      as (Hirr & _). exact Hirr.
  - intros a b.
    destruct (flag_then_energy_order (rconf.converged a) (rconf.converged b)
                (rconf.converged a) (rconf.Econf a) (rconf.Econf b) (rconf.Econf a))
      as (_ & Hasym & _). exact Hasym.
  - intros a b c.
    destruct (flag_then_energy_order (rconf.converged a) (rconf.converged b)
                (rconf.converged c) (rconf.Econf a) (rconf.Econf b) (rconf.Econf c))
      as (_ & _ & Htrans & _). exact Htrans.
  - intros a b c.
    destruct (flag_then_energy_order (rconf.converged a) (rconf.converged b)
                (rconf.converged c) (rconf.Econf a) (rconf.Econf b) (rconf.Econf c))
      as (_ & _ & _ & Heq). exact Heq.
  - intros a.
    destruct (flag_then_energy_order (uconf.converged a) (uconf.converged a)
                (uconf.converged a) (uconf.Econf a) (uconf.Econf a) (uconf.Econf a))
      as (Hirr & _). exact Hirr.
  - intros a b.
    destruct (flag_then_energy_order (uconf.converged a) (uconf.converged b)
                (uconf.converged a) (uconf.Econf a) (uconf.Econf b) (uconf.Econf a))
      as (_ & Hasym & _). exact Hasym.
  - intros a b c.
    destruct (flag_then_energy_order (uconf.converged a) (uconf.converged b)
                (uconf.converged c) (uconf.Econf a) (uconf.Econf b) (uconf.Econf c))
      as (_ & _ & Htrans & _). exact Htrans.
  - intros a b c.
    destruct (flag_then_energy_order (uconf.converged a) (uconf.converged b)
                (uconf.converged c) (uconf.Econf a) (uconf.Econf b) (uconf.Econf c))
      as (_ & _ & _ & Heq). exact Heq.
Qed.

(** A converged configuration at -3 before a converged one at -2 before one
    that did not converge at -5; and positive and negative zero energies
    between which [operator<] does not decide. *)
Lemma conf_lt_strict_weak_order_witness :
  rconf.lt (sample.rconf_of (-3) true) (sample.rconf_of (-5) false) = true ∧
  uconf.lt (sample.uconf_of (-3) true) (sample.uconf_of (-5) false) = true ∧
  (rconf.lt (sample.rconf_of 0 true) (sample.rconf_of (-0) true) = false ∧
   rconf.lt (sample.rconf_of (-0) true) (sample.rconf_of 0 true) = false) ∧
  (uconf.lt (sample.uconf_of 0 true) (sample.uconf_of (-0) true) = false ∧
   uconf.lt (sample.uconf_of (-0) true) (sample.uconf_of 0 true) = false).
Proof.
  destruct conf_lt_strict_weak_order
    as [(_ & _ & Hr & Hre) (_ & _ & Hu & Hue)].
  split; [|split; [|split]].
  - apply (Hr _ (sample.rconf_of (-2) true)); reflexivity.
  - apply (Hu _ (sample.uconf_of (-2) true)); reflexivity.
  - apply (Hre _ (sample.rconf_of 0 true)); reflexivity.
  - apply (Hue _ (sample.uconf_of 0 true)); reflexivity.
Defined.

(** With a NaN energy in between, being unordered is not transitive:
    [std::sort] has no strict weak ordering to rely on. *)
Example conf_lt_nan :
  rconf.lt (sample.rconf_of (-3) true) (sample.rconf_of nan true) = false ∧
  rconf.lt (sample.rconf_of nan true) (sample.rconf_of (-3) true) = false ∧
  rconf.lt (sample.rconf_of nan true) (sample.rconf_of (-2) true) = false ∧
  rconf.lt (sample.rconf_of (-2) true) (sample.rconf_of nan true) = false ∧
  rconf.lt (sample.rconf_of (-3) true) (sample.rconf_of (-2) true) = true.
Proof. repeat split. Qed.

(** [operator<] on shells, by which [GetOccupied] sorts, is a strict weak
    ordering as long as no orbital energy is a NaN. *)
Theorem shell_lt_strict_weak_order :
  (∀ a, shell_occupation_t.lt a a = false) ∧
  (∀ a b, shell_occupation_t.lt a b = true → shell_occupation_t.lt b a = false) ∧
  (∀ a b c, shell_occupation_t.lt a b = true → shell_occupation_t.lt b c = true →
            shell_occupation_t.lt a c = true) ∧
  (∀ a b c,
     PrimFloat.is_nan (shell_occupation_t.E a) = false →
     PrimFloat.is_nan (shell_occupation_t.E b) = false →
     PrimFloat.is_nan (shell_occupation_t.E c) = false →
     shell_occupation_t.lt a b = false → shell_occupation_t.lt b a = false →
     shell_occupation_t.lt b c = false → shell_occupation_t.lt c b = false →
     shell_occupation_t.lt a c = false ∧ shell_occupation_t.lt c a = false).
Proof.
  unfold shell_occupation_t.lt. split; [|split; [|split]].
  - intros a. apply ltb_irrefl.
  - intros a b. apply ltb_asym.
  - intros a b c. apply ltb_trans.
  - intros a b c. apply ltb_unordered_trans.
Qed.

Lemma shell_lt_strict_weak_order_witness :
  shell_occupation_t.lt (shell_occupation_t.Build 1 0 (-2) 2)
                        (shell_occupation_t.Build 2 0 (-0.5) 2) = true ∧
  (shell_occupation_t.lt (shell_occupation_t.Build 2 0 (-1) 2)
                         (shell_occupation_t.Build 2 1 (-1) 6) = false ∧
   shell_occupation_t.lt (shell_occupation_t.Build 2 1 (-1) 6)
                         (shell_occupation_t.Build 2 0 (-1) 2) = false).
Proof.
  destruct shell_lt_strict_weak_order as (_ & _ & Ht & He).
  split.
  - apply (Ht _ (shell_occupation_t.Build 2 1 (-1) 3)); reflexivity.
  - apply (He _ (shell_occupation_t.Build 3 2 (-1) 10)); reflexivity.
Defined.

(** ** The trial channels *)

Section Trials.
Import OrbitalChannel.
Variable ch : OrbitalChannel.t.
Hypothesis Hlen : Z.of_nat (length (occs ch)) = lmax ch + 1.

Lemma move_trial (shell_from shell_to nmove : Z) (ret : list t) :
  0 ≤ shell_from < lmax ch + 1 → 0 ≤ shell_to < lmax ch + 1 →
  1 ≤ nmove ≤ Z.min (ShellCapacity ch shell_from) (ShellCapacity ch shell_to) →
  Forall (trial_of ch) ret →
  ∃ ret', move ch shell_from shell_to nmove ret = Ok ret' ∧
          Forall (trial_of ch) ret'.
Proof.
  intros Hf Ht Hn Hret. unfold move, ivec.at_.
  rewrite ivec_in_bounds_true by lia. simpl.
  destruct (Z.ltb_spec (occs ch !!! Z.to_nat shell_from) nmove) as [Hlt|Hge].
  { eexists. split; [reflexivity|done]. }
  unfold ivec.add_at. rewrite ivec_in_bounds_true by lia. simpl.
  rewrite ivec_in_bounds_true by (rewrite length_insert; lia). simpl.
  eexists. split; [reflexivity|].
  apply Forall_app. split; [done|]. apply Forall_singleton.
  unfold trial_of. simpl. repeat (split; [done|]). right.
  exists shell_from, shell_to, nmove.
  split; [lia|]. split; [lia|]. split; [done|]. split; [done|].
  unfold moved. cbv zeta. by rewrite !Z.add_opp_r.
Qed.

Lemma move_loops_trial :
  ∃ ret, for_range 0 (lmax ch) (λ shell_from,
           for_range 0 (lmax ch) (λ shell_to,
             for_range 1 (Z.min (ShellCapacity ch shell_from)
                                (ShellCapacity ch shell_to))
                       (λ nmove, move ch shell_from shell_to nmove))) [] = Ok ret ∧
    Forall (trial_of ch) ret.
Proof.
  unfold for_range at 1.
  apply (for_each_inv (λ _ ret, Forall (trial_of ch) ret)); [done|].
  intros done1 shell_from ret1 Hpre1 Hret1.
  apply prefix_snoc_elem, elem_of_seqZ in Hpre1.
  unfold for_range at 1.
  apply (for_each_inv (λ _ ret, Forall (trial_of ch) ret)); [done|].
  intros done2 shell_to ret2 Hpre2 Hret2.
  apply prefix_snoc_elem, elem_of_seqZ in Hpre2.
  unfold for_range.
  apply (for_each_inv (λ _ ret, Forall (trial_of ch) ret)); [done|].
  intros done3 nmove ret3 Hpre3 Hret3.
  apply prefix_snoc_elem, elem_of_seqZ in Hpre3.
  apply move_trial; [lia|lia|lia|done].
Qed.

End Trials.

Lemma moved_nonneg (ch : OrbitalChannel.t) (shell_from shell_to nmove : Z) :
  Forall (λ n, 0 ≤ n) (OrbitalChannel.occs ch) →
  0 ≤ nmove ≤ OrbitalChannel.occs ch !!! Z.to_nat shell_from →
  Forall (λ n, 0 ≤ n) (OrbitalChannel.moved ch shell_from shell_to nmove) ∧
  length (OrbitalChannel.moved ch shell_from shell_to nmove)
  = length (OrbitalChannel.occs ch).
Proof.
  intros Hnn Hn. unfold OrbitalChannel.moved. cbv zeta.
  set (o1 := <[Z.to_nat shell_from := _]> (OrbitalChannel.occs ch)).
  assert (Ho1 : Forall (λ n, 0 ≤ n) o1).
  { unfold o1. apply Forall_insert; [exact Hnn|]. simpl. lia. }
  split; [|unfold o1; by rewrite !length_insert].
  rewrite Forall_lookup. intros i x Hx.
  destruct (decide (i = Z.to_nat shell_to)) as [->|Hne].
  - pose proof (lookup_lt_Some _ _ _ Hx) as Hi. rewrite length_insert in Hi.
    rewrite list_lookup_insert_eq in Hx by done. injection Hx as <-.
    assert (0 ≤ o1 !!! Z.to_nat shell_to); [|lia].
    rewrite Forall_lookup in Ho1. apply (Ho1 (Z.to_nat shell_to)).
    by apply list_lookup_lookup_total_lt.
  - rewrite list_lookup_insert_ne in Hx by done.
    rewrite Forall_lookup in Ho1. by apply (Ho1 i).
Qed.

(** For a channel whose occupation vector has [lmax+1] non-negative entries,
    every channel that [MoveElectrons] returns is the input channel (same
    orbitals, energies, [restr] and [lmax]) with other occupations: those of
    the input itself, or those of the input after between one electron and a
    whole shell ([min] of the two capacities), and no more than the source
    channel holds, is moved from one channel to another. The occupation
    vectors returned have the length of the input's and no negative
    entry. *)
Theorem MoveElectrons_trial_channels (ch : OrbitalChannel.t) :
  Z.of_nat (length (OrbitalChannel.occs ch)) = OrbitalChannel.lmax ch + 1 →
  Forall (λ n, 0 ≤ n) (OrbitalChannel.occs ch) →
  ∃ ret, OrbitalChannel.MoveElectrons ch = Ok ret ∧
    ∀ c, c ∈ ret →
      OrbitalChannel.trial_of ch c ∧
      length (OrbitalChannel.occs c) = length (OrbitalChannel.occs ch) ∧
      Forall (λ n, 0 ≤ n) (OrbitalChannel.occs c).
Proof.
  intros Hlen Hnn.
  assert (Hvalid : ∀ c, OrbitalChannel.trial_of ch c →
            OrbitalChannel.trial_of ch c ∧
            length (OrbitalChannel.occs c) = length (OrbitalChannel.occs ch) ∧
            Forall (λ n, 0 ≤ n) (OrbitalChannel.occs c)).
  { intros c Htrial. split; [done|].
    destruct Htrial as (_ & _ & _ & _ & [->|(f & t & n & _ & _ & Hn & Hle & ->)]);
      [done|].
    destruct (moved_nonneg ch f t n Hnn ltac:(lia)) as [? ?]. done. }
  unfold OrbitalChannel.MoveElectrons.
  destruct (move_from_loop_spec ch Hlen) as (ret0 & Hloops & _ & Hid).
  destruct (move_loops_trial ch Hlen) as (ret0' & Hloops' & Htrials).
  rewrite Hloops in Hloops'. injection Hloops' as <-.
  rewrite Hloops. simpl.
  case_bool_decide as Hempty.
  - apply nil_length_inv in Hempty. subst ret0.
    unfold ivec.zeros, alloc.
    destruct (Z.ltb_spec (OrbitalChannel.lmax ch + 1) 0) as [?|_]; [lia|]. simpl.
    assert (Hz : OrbitalChannel.occs ch
                 = replicate (Z.to_nat (OrbitalChannel.lmax ch + 1)) 0).
    { rewrite <- Hlen, Nat2Z.id. apply all_zero_replicate; [done|].
      intros i Hi. rewrite (list_lookup_lookup_total_lt _ _ Hi). simpl.
      destruct (Z.lt_ge_cases (OrbitalChannel.occs ch !!! i) 1) as [|Hge]; [done|].
      destruct (Hid (Z.of_nat i)) as (c & Hc & _); [lia| |].
      - by rewrite Nat2Z.id.
      - by apply elem_of_nil in Hc. }
    eexists. split; [reflexivity|].
    intros c Hc%list_elem_of_singleton. subst c. apply Hvalid.
    unfold OrbitalChannel.trial_of. simpl. repeat (split; [done|]). by left.
  - exists ret0. split; [done|]. intros c Hc. apply Hvalid.
    rewrite Forall_forall in Htrials. by apply Htrials.
Qed.

Lemma MoveElectrons_trial_channels_witness :
  ∃ ret, OrbitalChannel.MoveElectrons sample.two_s = Ok ret ∧
    ∀ c, c ∈ ret →
      OrbitalChannel.trial_of sample.two_s c ∧
      length (OrbitalChannel.occs c) = length (OrbitalChannel.occs sample.two_s) ∧
      Forall (λ n, 0 ≤ n) (OrbitalChannel.occs c).
Proof.
  apply MoveElectrons_trial_channels; [reflexivity|].
  repeat constructor; lia.
Defined.

(** ** The order of the Aufbau filling *)

Lemma sum_over_fmap {A B} (f : B → Z) (g : A → B) (l : list A) :
  sum_over f (g <$> l) = sum_over (f ∘ g) l.
Proof. unfold sum_over. by rewrite <- list_fmap_compose. Qed.

Lemma shell_labels_lookup (Nrad : nat) (k : nat) (j : nat) :
  (j < k * Nrad)%nat →
  OrbitalChannel.shell_labels Nrad (Z.of_nat k) !!! j = Z.of_nat j / Z.of_nat Nrad.
Proof.
  induction k as [|k IH]; intros Hj; [lia|].
  rewrite shell_labels_S.
  destruct (decide (j < k * Nrad)%nat) as [Hlt|Hge].
  - rewrite lookup_total_app_l by (rewrite length_shell_labels; lia). by apply IH.
  - rewrite lookup_total_app_r by (rewrite length_shell_labels; lia).
    rewrite length_shell_labels, lookup_total_replicate_2 by lia.
    apply Z.div_unique with (r := Z.of_nat j - Z.of_nat k * Z.of_nat Nrad); nia.
Qed.

Section Aufbau_order.
Import OrbitalChannel.
Variable ch : OrbitalChannel.t.

Lemma share_in_cons (l l0 : Z) (lval : list Z) (numel : Z) :
  share_in ch l (l0 :: lval) numel
  = (if bool_decide (l0 = l) then Z.min (ShellCapacity ch l0) (Z.max 0 numel) else 0)
    + share_in ch l lval (numel - ShellCapacity ch l0).
Proof.
  unfold share_in. simpl length. rewrite <- cons_seq, <- fmap_S_seq.
  rewrite sum_over_cons, sum_over_fmap. f_equal.
  - unfold share. simpl. change (sum_over _ []) with 0. by rewrite Z.sub_0_r.
  - apply sum_over_ext. intros i _. unfold compose, share. simpl.
    rewrite sum_over_cons, Z.sub_add_distr. done.
Qed.

Lemma share_in_spent (l : Z) (lval : list Z) (numel : Z) :
  numel ≤ 0 → Forall (λ x, 0 ≤ x) lval → share_in ch l lval numel = 0.
Proof.
  intros Hn Hnn. unfold share_in. apply sum_over_zero. intros i Hi%elem_of_seq.
  case_bool_decide; [|done]. unfold share.
  assert (Hi' : lval !!! i ∈ lval) by (apply list_elem_of_lookup_total_2; lia).
  rewrite Forall_forall in Hnn.
  pose proof (ShellCapacity_pos ch _ (Hnn _ Hi')).
  assert (0 ≤ sum_over (ShellCapacity ch) (take i lval)).
  { apply capacity_nonneg. apply Forall_take. by apply Forall_forall. }
  lia.
Qed.

Lemma aufbau_fill_shares (lval : list Z) (occs occs' : ivec.t) (numel : Z) :
  0 ≤ numel →
  Forall (λ l, 0 ≤ l < Z.of_nat (length occs)) lval →
  aufbau_fill ch lval occs numel = Ok occs' →
  ∀ l : nat, (l < length occs)%nat →
    occs' !!! l = occs !!! l + share_in ch (Z.of_nat l) lval numel.
Proof.
  revert occs numel. induction lval as [|l0 lval IH]; intros occs numel Hn Hin Hrun l Hl.
  - simpl in Hrun. injection Hrun as <-. unfold share_in. simpl.
    change (sum_over _ []) with 0. lia.
  - apply Forall_cons in Hin as [Hl0 Hin].
    assert (Hnn : Forall (λ x, 0 ≤ x) lval).
    { eapply Forall_impl; [exact Hin|]. simpl. lia. }
    pose proof (ShellCapacity_pos ch l0 ltac:(lia)) as Hcap.
    simpl in Hrun. unfold ivec.add_at in Hrun.
    rewrite ivec_in_bounds_true in Hrun by lia. simpl in Hrun.
    rewrite share_in_cons.
    set (nocc := Z.min (ShellCapacity ch l0) numel) in *.
    set (occs1 := <[Z.to_nat l0 := occs !!! Z.to_nat l0 + nocc]> occs) in *.
    assert (Hat1 : occs1 !!! l = occs !!! l
                   + if bool_decide (l0 = Z.of_nat l) then nocc else 0).
    { unfold occs1. case_bool_decide as Hlj.
      - subst l0. rewrite Nat2Z.id. by rewrite list_lookup_total_insert_eq.
      - rewrite list_lookup_total_insert_ne; [lia|]. lia. }
    replace (Z.min (ShellCapacity ch l0) (Z.max 0 numel)) with nocc by (unfold nocc; lia).
    destruct (Z.eqb_spec (numel - nocc) 0) as [Hz|Hnz].
    + injection Hrun as <-. rewrite Hat1.
      rewrite share_in_spent by (done || unfold nocc in Hz; lia). lia.
    + rewrite (IH occs1 (numel - nocc)); [| |by unfold occs1; rewrite length_insert
                                         |done|by unfold occs1; rewrite length_insert].
      * rewrite Hat1. replace (numel - nocc) with (numel - ShellCapacity ch l0); [lia|].
        unfold nocc in *. lia.
      * unfold nocc. lia.
Qed.

Lemma aufbau_fill_negative (l0 : Z) (lval : list Z) (occs : ivec.t) (numel : Z) :
  numel < 0 → 0 ≤ l0 < Z.of_nat (length occs) →
  aufbau_fill ch (l0 :: lval) occs numel
  = Ok (<[Z.to_nat l0 := occs !!! Z.to_nat l0 + numel]> occs).
Proof.
  intros Hn Hl0. pose proof (ShellCapacity_pos ch l0 ltac:(lia)) as Hcap.
  simpl. unfold ivec.add_at. rewrite ivec_in_bounds_true by lia. simpl.
  rewrite Z.min_r by lia. by rewrite Z.sub_diag.
Qed.

End Aufbau_order.

(** After the energies are collected and sorted, [AufbauOccupations] fills
    the shells in the order of the index sort; the shell at the flat index
    [j] of the energy table belongs to channel [j / Nrad]. *)
Lemma AufbauOccupations_sorted (sort_index : list float → list Z)
    (numel : Z) (ch : OrbitalChannel.t) :
  mat.wf (OrbitalChannel.E ch) →
  0 < mat.n_rows (OrbitalChannel.E ch) →
  sort_index (mat.mem (OrbitalChannel.E ch))
    ≡ₚ seqZ 0 (mat.n_elem (OrbitalChannel.E ch)) →
  OrbitalChannel.AufbauOccupations sort_index numel ch
  = (occs0 ← ivec.zeros (OrbitalChannel.lmax ch + 1);
     occs' ← OrbitalChannel.aufbau_fill ch
               ((λ j, j `div` mat.n_rows (OrbitalChannel.E ch))
                  <$> sort_index (mat.mem (OrbitalChannel.E ch))) occs0 numel;
     Ok (OrbitalChannel.SetOccs ch occs')).
Proof.
  intros Hwf HNrad Hperm. pose proof Hwf as (Hr & Hc & Hu & Hlen).
  unfold OrbitalChannel.AufbauOccupations.
  rewrite aufbau_collect by (done || lia). simpl.
  set (N := Z.to_nat (mat.n_rows (OrbitalChannel.E ch))) in *.
  set (labels := OrbitalChannel.shell_labels N (mat.n_cols (OrbitalChannel.E ch))).
  set (idx := sort_index (mat.mem (OrbitalChannel.E ch))) in *.
  assert (Hlab : Z.of_nat (length labels) = mat.n_elem (OrbitalChannel.E ch)).
  { unfold labels. rewrite <- (Z2Nat.id (mat.n_cols _)) by done.
    rewrite length_shell_labels. unfold mat.n_elem, N. lia. }
  destruct (col_elem_perm (mat.mem (OrbitalChannel.E ch)) idx) as (El & -> & _).
  { by rewrite Hlen. }
  simpl. unfold col.elem.
  assert (Hall : forallb (λ i, bool_decide (0 ≤ i < Z.of_nat (length labels))) idx = true).
  { apply forallb_forall. intros i Hi. apply list_elem_of_In in Hi.
    rewrite Hperm in Hi. apply elem_of_seqZ in Hi.
    apply bool_decide_eq_true_2. lia. }
  rewrite Hall. simpl.
  replace ((λ i, labels !!! Z.to_nat i) <$> idx)
    with ((λ j, j `div` mat.n_rows (OrbitalChannel.E ch)) <$> idx); [done|].
  apply list_fmap_ext. intros i j Hj.
  apply list_elem_of_lookup_2 in Hj. rewrite Hperm in Hj. apply elem_of_seqZ in Hj.
  unfold labels. rewrite <- (Z2Nat.id (mat.n_cols _)) by done.
  rewrite shell_labels_lookup.
  - unfold N. by rewrite !Z2Nat.id by lia.
  - unfold mat.n_elem, N in *. nia.
Qed.

(** [AufbauOccupations(numel)] for [numel ≥ 0] hands the electrons out shell
    by shell in the order of the index sort of the energies: the shell in
    position [i] of that order, which belongs to channel
    [idx(i) / Nrad], is given what the shells before it leave of [numel],
    up to its capacity, and [occs(l)] is what the shells of channel [l] are
    given together. Orbitals, energies, [restr] and [lmax] are untouched. *)
Theorem AufbauOccupations_fills_in_sorted_order (sort_index : list float → list Z)
    (numel Nrad : Z) (ch : OrbitalChannel.t) :
  0 ≤ numel →
  0 < Nrad →
  mat.wf (OrbitalChannel.E ch) →
  mat.n_rows (OrbitalChannel.E ch) = Nrad →
  mat.n_cols (OrbitalChannel.E ch) = OrbitalChannel.lmax ch + 1 →
  sort_index (mat.mem (OrbitalChannel.E ch))
    ≡ₚ seqZ 0 (mat.n_elem (OrbitalChannel.E ch)) →
  ∃ occs', OrbitalChannel.AufbauOccupations sort_index numel ch
           = Ok (OrbitalChannel.SetOccs ch occs') ∧
    ∀ l, 0 ≤ l ≤ OrbitalChannel.lmax ch →
      occs' !!! Z.to_nat l
      = OrbitalChannel.share_in ch l
          ((λ j, j `div` Nrad) <$> sort_index (mat.mem (OrbitalChannel.E ch))) numel.
Proof.
  intros Hnumel HNrad Hwf Hrows Hcols Hperm.
  pose proof Hwf as (Hr & Hc & Hu & Hlen).
  rewrite AufbauOccupations_sorted by (done || lia). rewrite Hrows.
  set (lval := (λ j, j `div` Nrad) <$> sort_index (mat.mem (OrbitalChannel.E ch))).
  unfold ivec.zeros, alloc.
  destruct (Z.ltb_spec (OrbitalChannel.lmax ch + 1) 0) as [?|_]; [lia|]. simpl.
  set (occs0 := replicate (Z.to_nat (OrbitalChannel.lmax ch + 1)) 0).
  assert (Hlen0 : Z.of_nat (length occs0) = OrbitalChannel.lmax ch + 1).
  { unfold occs0. rewrite length_replicate. lia. }
  assert (Hin : Forall (λ l, 0 ≤ l < Z.of_nat (length occs0)) lval).
  { apply Forall_forall. intros l Hl. unfold lval in Hl.
    apply list_elem_of_fmap in Hl as (j & -> & Hj).
    rewrite Hperm in Hj. apply elem_of_seqZ in Hj. unfold mat.n_elem in Hj.
    rewrite Hlen0, <- Hcols. split; [apply Z.div_pos; lia|].
    apply Z.div_lt_upper_bound; [lia|]. rewrite Hrows in Hj. lia. }
  destruct (aufbau_fill_spec ch lval occs0 numel Hnumel Hin) as (occs' & Hrun & _).
  rewrite Hrun. simpl. exists occs'. split; [done|].
  intros l Hl.
  rewrite (aufbau_fill_shares ch lval occs0 occs' numel Hnumel Hin Hrun (Z.to_nat l))
    by lia.
  unfold occs0. rewrite lookup_total_replicate_2 by lia.
  rewrite Z2Nat.id by lia. lia.
Qed.

Lemma AufbauOccupations_fills_in_sorted_order_witness :
  ∃ occs', OrbitalChannel.AufbauOccupations sample.sort_index 9 sample.two_by_two
           = Ok (OrbitalChannel.SetOccs sample.two_by_two occs') ∧
    ∀ l, 0 ≤ l ≤ OrbitalChannel.lmax sample.two_by_two →
      occs' !!! Z.to_nat l
      = OrbitalChannel.share_in sample.two_by_two l
          ((λ j, j `div` 2)
             <$> sample.sort_index (mat.mem (OrbitalChannel.E sample.two_by_two))) 9.
Proof.
  apply (AufbauOccupations_fills_in_sorted_order sample.sort_index 9 2 sample.two_by_two).
  - lia.
  - lia.
  - vm_compute. repeat split; congruence.
  - reflexivity.
  - reflexivity.
  - vm_compute. apply perm_skip, perm_swap.
Defined.

(** Nine electrons on two s and two p levels of which 2p lies below 2s: the
    shells are filled in the order 1s, 2p, 2s, and the last gets the one
    electron that is left. *)
Example Aufbau_nine_order :
  (λ j, j `div` 2) <$> sample.sort_index (mat.mem sample.levels) = [0; 1; 0; 1] ∧
  OrbitalChannel.share sample.two_by_two [0; 1; 0; 1] 9 <$> [0; 1; 2; 3]%nat
  = [2; 6; 1; 0] ∧
  OrbitalChannel.AufbauOccupations sample.sort_index 9 sample.two_by_two
  = Ok (OrbitalChannel.SetOccs sample.two_by_two [3; 6]).
Proof. vm_compute. done. Qed.

(** A negative [numel] is not refused: the whole of it goes to the channel of
    the first shell of the sorted order, so that the occupations sum to the
    negative [numel]; every other channel is left at zero. *)
Theorem AufbauOccupations_negative_count (sort_index : list float → list Z)
    (numel Nrad : Z) (ch : OrbitalChannel.t) :
  numel < 0 →
  0 < Nrad →
  mat.wf (OrbitalChannel.E ch) →
  mat.n_rows (OrbitalChannel.E ch) = Nrad →
  mat.n_cols (OrbitalChannel.E ch) = OrbitalChannel.lmax ch + 1 →
  0 ≤ OrbitalChannel.lmax ch →
  sort_index (mat.mem (OrbitalChannel.E ch))
    ≡ₚ seqZ 0 (mat.n_elem (OrbitalChannel.E ch)) →
  let l0 := (sort_index (mat.mem (OrbitalChannel.E ch)) !!! 0%nat) `div` Nrad in
  ∃ ch', OrbitalChannel.AufbauOccupations sort_index numel ch = Ok ch' ∧
    OrbitalChannel.occs ch'
    = <[Z.to_nat l0 := numel]> (replicate (Z.to_nat (OrbitalChannel.lmax ch + 1)) 0) ∧
    0 ≤ l0 ≤ OrbitalChannel.lmax ch ∧
    OrbitalChannel.Nel ch' = numel ∧
    OrbitalChannel.OccupationsInitialized ch' = true.
Proof.
  intros Hnumel HNrad Hwf Hrows Hcols Hlmax Hperm l0.
  pose proof Hwf as (Hr & Hc & Hu & Hlen).
  rewrite AufbauOccupations_sorted by (done || lia). rewrite Hrows.
  set (idx := sort_index (mat.mem (OrbitalChannel.E ch))) in *.
  assert (Hidx : length idx = Z.to_nat (mat.n_elem (OrbitalChannel.E ch))).
  { rewrite Hperm, length_seqZ. done. }
  assert (Hpos : 0 < mat.n_elem (OrbitalChannel.E ch)) by (unfold mat.n_elem; nia).
  destruct idx as [|j idx'] eqn:Hidx0; [simpl in Hidx; lia|].
  assert (Hj : 0 ≤ j < mat.n_elem (OrbitalChannel.E ch)).
  { assert (Hin : j ∈ j :: idx') by by left.
    rewrite Hperm in Hin. apply elem_of_seqZ in Hin. lia. }
  simpl in l0.
  assert (Hl0 : 0 ≤ l0 ≤ OrbitalChannel.lmax ch).
  { unfold l0. unfold mat.n_elem in Hj. split; [apply Z.div_pos; lia|].
    apply Z.lt_succ_r. apply Z.div_lt_upper_bound; [lia|]. nia. }
  unfold ivec.zeros, alloc.
  destruct (Z.ltb_spec (OrbitalChannel.lmax ch + 1) 0) as [?|_]; [lia|]. simpl fmap.
  cbn [mbind outcome_bind].
  set (occs0 := replicate (Z.to_nat (OrbitalChannel.lmax ch + 1)) 0).
  rewrite aufbau_fill_negative
    by (done || unfold occs0; rewrite length_replicate; fold l0; lia).
  fold l0. eexists. split; [reflexivity|].
  unfold OrbitalChannel.OccupationsInitialized, OrbitalChannel.Nel. simpl.
  unfold occs0. rewrite lookup_total_replicate_2 by lia. rewrite Z.add_0_l.
  split; [done|]. split; [done|].
  rewrite ivec_sum_insert by (rewrite length_replicate; lia).
  rewrite ivec_sum_replicate_zero, lookup_total_replicate_2 by lia.
  split; [lia|]. destruct (Z.eqb_spec (0 - 0 + numel) 0); [lia|done].
Qed.

Lemma AufbauOccupations_negative_count_witness :
  ∃ ch', OrbitalChannel.AufbauOccupations sample.sort_index (-3) sample.two_by_two
         = Ok ch' ∧
    OrbitalChannel.occs ch' = [-3; 0] ∧
    0 ≤ 0 ≤ 1 ∧
    OrbitalChannel.Nel ch' = -3 ∧
    OrbitalChannel.OccupationsInitialized ch' = true.
Proof.
  apply (AufbauOccupations_negative_count sample.sort_index (-3) 2 sample.two_by_two).
  - lia.
  - lia.
  - vm_compute. repeat split; congruence.
  - reflexivity.
  - reflexivity.
  - simpl. lia.
  - vm_compute. apply perm_skip, perm_swap.
Defined.

(** ** Densities *)

Lemma foldl_ext_in {A B} (f g : A → B → A) (l : list B) (a : A) :
  (∀ a x, x ∈ l → f a x = g a x) → foldl f a l = foldl g a l.
Proof.
  revert a. induction l as [|x l IH]; intros a Hfg; [done|].
  simpl. rewrite (Hfg a x) by by left. apply IH. intros. apply Hfg. by right.
Qed.

Section Densities.
Import OrbitalChannel.
Context `{Numerics}.
Variable ch : OrbitalChannel.t.
Variable l : Z.
Let cap := ShellCapacity ch l.
Let Cl := cube.slices (C ch) !!! Z.to_nat l.
Hypothesis Hl : 0 ≤ l.
Hypothesis HCl : cube.in_bounds (C ch) l = true.
Hypothesis Hadd : ∀ A B, mat.n_rows (mat_add A B) = mat.n_rows A ∧
                         mat.n_cols (mat_add A B) = mat.n_cols A.

Lemma set_slice_Ok (Q : cube.t) (A : mat.t) :
  cube.in_bounds Q l = true →
  mat.n_rows A = cube.n_rows Q → mat.n_cols A = cube.n_cols Q →
  cube.set_slice Q l A
  = Ok (cube.Cube (cube.n_rows Q) (cube.n_cols Q) (<[Z.to_nat l := A]> (cube.slices Q))).
Proof.
  intros HQ Hr Hc. unfold cube.set_slice. rewrite HQ.
  by rewrite bool_decide_eq_true_2.
Qed.

(** One pass of either inner loop: the term of shell [io] is added to the
    slice [l]. *)
Lemma add_shell_step (Pl : cube.t) (io : Z) (w : Z → float) :
  cube.in_bounds Pl l = true →
  mat.n_rows (cube.slices Pl !!! Z.to_nat l) = cube.n_rows Pl →
  mat.n_cols (cube.slices Pl !!! Z.to_nat l) = cube.n_cols Pl →
  0 ≤ io < mat.n_cols Cl →
  (Pll ← cube.slice Pl l;
   Cl ← cube.slice (C ch) l;
   c ← mat.col Cl io;
   let c := mat.of_col c in
   cube.set_slice Pl l (mat_add Pll (mat_mul (mat_scale (w io) c) (mat_trans c))))
  = Ok (cube.Cube (cube.n_rows Pl) (cube.n_cols Pl)
          (<[Z.to_nat l := add_shell ch l w (cube.slices Pl !!! Z.to_nat l) io]>
             (cube.slices Pl))).
Proof.
  intros HPl Hr Hc Hio. unfold cube.slice. rewrite HPl, HCl. simpl.
  unfold mat.col. fold Cl. rewrite bool_decide_eq_true_2 by done. simpl.
  rewrite set_slice_Ok.
  - done.
  - done.
  - etrans; [apply Hadd|done].
  - etrans; [apply Hadd|done].
Qed.

Lemma in_bounds_lt (Q : cube.t) :
  cube.in_bounds Q l = true → (Z.to_nat l < length (cube.slices Q))%nat.
Proof.
  unfold cube.in_bounds, cube.n_slices. intros Hb%bool_decide_eq_true. lia.
Qed.

(** The inner loop of [UpdateDensity]: the shells that hold electrons and
    the first empty one add their terms. *)
Lemma density_shells_closed (m : nat) (k numl : Z) (Pl : cube.t) :
  0 ≤ k → k + Z.of_nat m ≤ mat.n_cols Cl → 0 ≤ numl →
  cube.in_bounds Pl l = true →
  mat.n_rows (cube.slices Pl !!! Z.to_nat l) = cube.n_rows Pl →
  mat.n_cols (cube.slices Pl !!! Z.to_nat l) = cube.n_cols Pl →
  density_shells ch l numl (seqZ k (Z.of_nat m)) Pl
  = Ok (cube.Cube (cube.n_rows Pl) (cube.n_cols Pl)
          (<[Z.to_nat l :=
               foldl (add_shell ch l
                        (λ io, of_sword (Z.max 0 (Z.min cap (numl - (io - k) * cap)))))
                     (cube.slices Pl !!! Z.to_nat l)
                     (seqZ k (Z.min (Z.of_nat m) ((numl + cap - 1) / cap + 1)))]>
             (cube.slices Pl))).
Proof.
  assert (Hcap1 : 1 ≤ cap) by (apply ShellCapacity_pos; lia).
  revert k numl Pl. induction m as [|m IH]; intros k numl Pl Hk Hm Hn HPl Hr Hc.
  - simpl. assert (0 ≤ (numl + cap - 1) / cap) by (apply Z.div_pos; lia).
    rewrite Z.min_l by lia. simpl. rewrite list_insert_id; [by destruct Pl|].
    apply list_lookup_lookup_total_lt. by apply in_bounds_lt.
  - rewrite seqZ_cons by lia. cbn [density_shells]. fold cap.
    unfold cube.slice. rewrite HPl, HCl. cbn [mbind outcome_bind].
    unfold mat.col. fold Cl. rewrite bool_decide_eq_true_2 by lia.
    cbn [mbind outcome_bind].
    change (take _ (drop (Z.to_nat (k * mat.n_rows Cl)) (mat.mem Cl)))
      with (mat.col_of Cl k).
    set (w := λ io, of_sword (Z.max 0 (Z.min cap (numl - (io - k) * cap)))).
    set (P0 := cube.slices Pl !!! Z.to_nat l) in *.
    assert (Hw : of_sword (Z.min cap numl) = w k).
    { unfold w. do 2 f_equal. lia. }
    rewrite Hw. change (mat_add P0 _) with (add_shell ch l w P0 k).
    assert (Hshape : mat.n_rows (add_shell ch l w P0 k) = cube.n_rows Pl ∧
                     mat.n_cols (add_shell ch l w P0 k) = cube.n_cols Pl).
    { unfold add_shell. split; (etrans; [apply Hadd|done]). }
    destruct Hshape as [Hr1 Hc1].
    rewrite set_slice_Ok by done. cbn [mbind outcome_bind].
    replace (Z.succ k) with (k + 1) by lia.
    replace (Z.pred (Z.of_nat (S m))) with (Z.of_nat m) by lia.
    pose proof (in_bounds_lt Pl HPl) as Hlt.
    destruct (Z.eqb_spec (Z.min cap numl) 0) as [Hz|Hnz].
    + assert (numl = 0) as Hn0 by lia.
      replace ((numl + cap - 1) / cap) with 0 by (rewrite Hn0, Z.div_small; lia).
      replace (Z.min (Z.of_nat (S m)) (0 + 1)) with 1 by lia. done.
    + rewrite IH; [|lia|lia|lia| | |].
      * simpl. rewrite list_lookup_total_insert_eq by done.
        rewrite list_insert_insert_eq. do 3 f_equal.
        pose proof (ceil_pos cap numl Hcap1 ltac:(lia)) as Hc1'.
        rewrite (seqZ_cons k (Z.min (Z.of_nat (S m)) _)) by lia.
        cbn [foldl]. replace (Z.succ k) with (k + 1) by lia.
        destruct (Z.le_gt_cases cap numl) as [Hfull|Hpart].
        -- rewrite (Z.min_l cap numl) by lia.
           rewrite (ceil_step cap numl) by lia.
           set (q := (numl - cap + cap - 1) / cap).
           replace (Z.pred (Z.min (Z.of_nat (S m)) (1 + q + 1)))
             with (Z.min (Z.of_nat m) (q + 1)) by lia.
           apply foldl_ext_in. intros a io _. unfold add_shell, w.
           do 4 f_equal. lia.
        -- rewrite (Z.min_r cap numl) by lia.
           rewrite (ceil_one cap numl) by lia.
           replace (numl - numl + cap - 1) with (cap - 1) by lia.
           rewrite (Z.div_small (cap - 1)) by lia.
           replace (Z.pred (Z.min (Z.of_nat (S m)) (1 + 1)))
             with (Z.min (Z.of_nat m) (0 + 1)) by lia.
           apply foldl_ext_in. intros a io Hio%elem_of_seqZ.
           assert (io = k + 1) as -> by lia. unfold add_shell, w.
           do 4 f_equal. lia.
      * unfold cube.in_bounds, cube.n_slices in *. simpl. by rewrite length_insert.
      * simpl. by rewrite list_lookup_total_insert_eq.
      * simpl. by rewrite list_lookup_total_insert_eq.
Qed.

(** The inner loop of [AngularDensity]: the shells that hold electrons add
    their terms, weighted with the fraction of the shell that is filled. *)
Lemma angular_shells_closed (m : nat) (k numl : Z) (P : cube.t) :
  0 ≤ k → k + Z.of_nat m ≤ mat.n_cols Cl → 0 ≤ numl →
  cube.in_bounds P l = true →
  mat.n_rows (cube.slices P !!! Z.to_nat l) = cube.n_rows P →
  mat.n_cols (cube.slices P !!! Z.to_nat l) = cube.n_cols P →
  angular_shells ch l numl (seqZ k (Z.of_nat m)) P
  = Ok (cube.Cube (cube.n_rows P) (cube.n_cols P)
          (<[Z.to_nat l :=
               foldl (add_shell ch l
                        (λ io, PrimFloat.div
                                 (PrimFloat.mul
                                    (of_sword (Z.max 0 (Z.min cap (numl - (io - k) * cap))))
                                    1)
                                 (of_sword cap)))
                     (cube.slices P !!! Z.to_nat l)
                     (seqZ k (Z.min (Z.of_nat m) ((numl + cap - 1) / cap)))]>
             (cube.slices P))).
Proof.
  assert (Hcap1 : 1 ≤ cap) by (apply ShellCapacity_pos; lia).
  revert k numl P. induction m as [|m IH]; intros k numl P Hk Hm Hn HP Hr Hc.
  - simpl. assert (0 ≤ (numl + cap - 1) / cap) by (apply Z.div_pos; lia).
    rewrite Z.min_l by lia. simpl. rewrite list_insert_id; [by destruct P|].
    apply list_lookup_lookup_total_lt. by apply in_bounds_lt.
  - rewrite seqZ_cons by lia. cbn [angular_shells]. fold cap.
    pose proof (in_bounds_lt P HP) as Hlt.
    destruct (Z.eqb_spec (Z.min cap numl) 0) as [Hz|Hnz].
    + assert (numl = 0) as Hn0 by lia.
      replace ((numl + cap - 1) / cap) with 0 by (rewrite Hn0, Z.div_small; lia).
      rewrite Z.min_r by lia. simpl. rewrite list_insert_id; [by destruct P|].
      by apply list_lookup_lookup_total_lt.
    + unfold cube.slice. rewrite HP, HCl. cbn [mbind outcome_bind].
      unfold mat.col. fold Cl. rewrite bool_decide_eq_true_2 by lia.
      cbn [mbind outcome_bind].
      change (take _ (drop (Z.to_nat (k * mat.n_rows Cl)) (mat.mem Cl)))
        with (mat.col_of Cl k).
      set (w := λ io, PrimFloat.div
                        (PrimFloat.mul
                           (of_sword (Z.max 0 (Z.min cap (numl - (io - k) * cap)))) 1)
                        (of_sword cap)).
      set (P0 := cube.slices P !!! Z.to_nat l) in *.
      assert (Hw : PrimFloat.div (PrimFloat.mul (of_sword (Z.min cap numl)) 1)
                                 (of_sword cap) = w k).
      { unfold w. do 4 f_equal. lia. }
      rewrite Hw. change (mat_add P0 _) with (add_shell ch l w P0 k).
      assert (Hshape : mat.n_rows (add_shell ch l w P0 k) = cube.n_rows P ∧
                       mat.n_cols (add_shell ch l w P0 k) = cube.n_cols P).
      { unfold add_shell. split; (etrans; [apply Hadd|done]). }
      destruct Hshape as [Hr1 Hc1].
      rewrite set_slice_Ok by done. cbn [mbind outcome_bind].
      replace (Z.succ k) with (k + 1) by lia.
      replace (Z.pred (Z.of_nat (S m))) with (Z.of_nat m) by lia.
      rewrite IH; [|lia|lia|lia| | |].
      * simpl. rewrite list_lookup_total_insert_eq by done.
        rewrite list_insert_insert_eq. do 3 f_equal.
        pose proof (ceil_pos cap numl Hcap1 ltac:(lia)) as Hc1'.
        rewrite (seqZ_cons k (Z.min (Z.of_nat (S m)) _)) by lia.
        cbn [foldl]. replace (Z.succ k) with (k + 1) by lia.
        destruct (Z.le_gt_cases cap numl) as [Hfull|Hpart].
        -- rewrite (Z.min_l cap numl) by lia.
           rewrite (ceil_step cap numl) by lia.
           set (q := (numl - cap + cap - 1) / cap).
           replace (Z.pred (Z.min (Z.of_nat (S m)) (1 + q)))
             with (Z.min (Z.of_nat m) q) by lia.
           apply foldl_ext_in. intros a io _. unfold add_shell, w.
           do 6 f_equal. lia.
        -- rewrite (Z.min_r cap numl) by lia.
           rewrite (ceil_one cap numl) by lia.
           replace (numl - numl + cap - 1) with (cap - 1) by lia.
           rewrite (Z.div_small (cap - 1)) by lia.
           replace (Z.pred (Z.min (Z.of_nat (S m)) 1)) with 0 by lia.
           rewrite Z.min_r by lia. done.
      * unfold cube.in_bounds, cube.n_slices in *. simpl. by rewrite length_insert.
      * simpl. by rewrite list_lookup_total_insert_eq.
      * simpl. by rewrite list_lookup_total_insert_eq.
Qed.

End Densities.

(** The loop over the channels that the two densities share: each pass
    writes the slice of its own channel. *)
Lemma per_channel_loop (inner : Z → Z → cube.t → outcome cube.t)
    (g : Z → mat.t) (occs : ivec.t) (n L : Z) (zero : mat.t) :
  0 ≤ L → Z.of_nat (length occs) = L →
  (∀ l Q, 0 ≤ l < L → cube.in_bounds Q l = true →
     cube.n_rows Q = n → cube.n_cols Q = n →
     cube.slices Q !!! Z.to_nat l = zero →
     inner l (occs !!! Z.to_nat l) Q
     = Ok (cube.Cube n n (<[Z.to_nat l := g l]> (cube.slices Q)))) →
  for_each (seqZ 0 L) (λ l Q, numl ← ivec.at_ occs l; inner l numl Q)
           (cube.Cube n n (replicate (Z.to_nat L) zero))
  = Ok (cube.Cube n n (g <$> seqZ 0 L)).
Proof.
  intros HL Hlen Hinner.
  match goal with |- for_each ?idx ?body ?s0 = _ =>
    destruct (for_each_inv
      (λ done Q, Q = cube.Cube n n
                       ((g <$> done) ++ replicate (Z.to_nat L - length done) zero))
      body idx s0) as (Q & -> & HQ)
  end.
  - simpl. by rewrite Nat.sub_0_r.
  - intros done l Q Hpre ->. apply prefix_seqZ_snoc in Hpre as [Hl Hlt].
    unfold ivec.at_, ivec.in_bounds. rewrite bool_decide_eq_true_2 by lia.
    cbn [mbind outcome_bind].
    assert (Hd : length (g <$> done) = Z.to_nat l) by (rewrite length_fmap; lia).
    rewrite Hinner.
    + eexists. split; [reflexivity|]. simpl. f_equal.
      rewrite <- Hd, insert_app_r_alt, Nat.sub_diag by lia.
      rewrite fmap_app, <- app_assoc. f_equal.
      rewrite length_app. simpl.
      replace (Z.to_nat L - length done)%nat
        with (S (Z.to_nat L - (length done + 1)))%nat by lia.
      done.
    + lia.
    + unfold cube.in_bounds, cube.n_slices. simpl.
      rewrite length_app, length_replicate, length_fmap.
      apply bool_decide_eq_true_2. lia.
    + done.
    + done.
    + simpl. rewrite lookup_total_app_r by lia.
      rewrite lookup_total_replicate_2; [done|]. rewrite Hd. lia.
  - rewrite HQ, length_seqZ, Nat.sub_diag. simpl. by rewrite app_nil_r.
Qed.

Lemma cube_wf_slice (Q : cube.t) (l : Z) :
  cube.wf Q → 0 ≤ l < cube.n_slices Q →
  cube.in_bounds Q l = true ∧
  mat.n_rows (cube.slices Q !!! Z.to_nat l) = cube.n_rows Q ∧
  mat.n_cols (cube.slices Q !!! Z.to_nat l) = cube.n_cols Q.
Proof.
  intros (_ & _ & Hall) Hl. split.
  - unfold cube.in_bounds. by apply bool_decide_eq_true_2.
  - rewrite Forall_forall in Hall.
    destruct (Hall (cube.slices Q !!! Z.to_nat l)) as (_ & ? & ?); [|done].
    apply list_elem_of_lookup_total_2. unfold cube.n_slices in Hl. lia.
Qed.

(** For a channel with [lmax+1] occupations, none negative, and orbitals
    for each of its channels, [UpdateDensity] returns the cube whose slice
    [l] is the zero matrix to which the terms [nocc · c cᵀ] of the orbitals
    [c] of the channel have been added one after the other: first those of
    the shells that hold electrons, the same shells that [CountOccupied]
    counts, with the electrons [nocc] each of them holds, then, if an
    orbital is left, one more term of weight zero for the first empty one.
    The matrix sum is taken to keep the size of its first operand. *)
Theorem UpdateDensity_sums_filled_shells `{Numerics} (ch : OrbitalChannel.t) :
  let n := cube.n_rows (OrbitalChannel.C ch) in
  let zero := mat.Mat n n (replicate (Z.to_nat (n * n)) 0%float) in
  0 ≤ OrbitalChannel.lmax ch + 1 →
  Z.of_nat (length (OrbitalChannel.occs ch)) = OrbitalChannel.lmax ch + 1 →
  Forall (λ numl, 0 ≤ numl) (OrbitalChannel.occs ch) →
  cube.wf (OrbitalChannel.C ch) →
  cube.n_slices (OrbitalChannel.C ch) = OrbitalChannel.lmax ch + 1 →
  n * n ≤ max_n_elem →
  (∀ A B, mat.n_rows (mat_add A B) = mat.n_rows A ∧
          mat.n_cols (mat_add A B) = mat.n_cols A) →
  OrbitalChannel.UpdateDensity ch
  = Ok (cube.Cube n n
          ((λ l, foldl (OrbitalChannel.add_shell ch l
                          (λ io, of_sword (OrbitalChannel.held ch l io)))
                       zero
                       (seqZ 0 (Z.min (cube.n_cols (OrbitalChannel.C ch))
                                      (OrbitalChannel.filled_shells ch l + 1))))
           <$> seqZ 0 (OrbitalChannel.lmax ch + 1))).
Proof.
  intros n zero HL Hlen Hnn Hwf Hslices Hfit Hadd.
  pose proof Hwf as (Hr & Hc & _).
  unfold OrbitalChannel.UpdateDensity. fold n.
  rewrite cube_zeros_Ok by lia. cbn [mbind outcome_bind].
  unfold for_range. rewrite Z.sub_0_r. fold zero.
  apply (per_channel_loop
           (λ l numl Q, OrbitalChannel.density_shells ch l numl
                          (seqZ 0 (cube.n_cols (OrbitalChannel.C ch))) Q));
    [done|done|].
  intros l Q Hl HQ HQr HQc HQl.
  destruct (cube_wf_slice _ l Hwf ltac:(lia)) as (HCl & _ & HClc).
  assert (Hnuml : 0 ≤ OrbitalChannel.occs ch !!! Z.to_nat l).
  { rewrite Forall_forall in Hnn. apply Hnn, list_elem_of_lookup_total_2. lia. }
  rewrite <- (Z2Nat.id (cube.n_cols (OrbitalChannel.C ch))) at 1 by done.
  rewrite (density_shells_closed ch l) by (rewrite ?HQl; simpl; lia || done).
  rewrite HQr, HQc, HQl, Z2Nat.id by done.
  replace (Z.min (cube.n_cols (OrbitalChannel.C ch))
                 ((OrbitalChannel.occs ch !!! Z.to_nat l
                   + OrbitalChannel.ShellCapacity ch l - 1)
                  / OrbitalChannel.ShellCapacity ch l + 1))
    with (Z.min (cube.n_cols (OrbitalChannel.C ch))
                (OrbitalChannel.filled_shells ch l + 1)).
  2: { unfold OrbitalChannel.filled_shells. set (q := (_ + _ - 1) / _). lia. }
  do 3 f_equal.
  apply foldl_ext_in. intros a io _. unfold OrbitalChannel.add_shell, OrbitalChannel.held.
  do 6 f_equal. lia.
Qed.

Lemma UpdateDensity_sums_filled_shells_witness :
  @OrbitalChannel.UpdateDensity sample.naive sample.ground
  = Ok (cube.Cube 2 2
          ((λ l, foldl (@OrbitalChannel.add_shell sample.naive sample.ground l
                          (λ io, of_sword (OrbitalChannel.held sample.ground l io)))
                       (mat.Mat 2 2 (replicate 4 0%float))
                       (seqZ 0 (Z.min 2 (OrbitalChannel.filled_shells sample.ground l + 1))))
           <$> seqZ 0 2)).
Proof.
  apply (@UpdateDensity_sums_filled_shells sample.naive sample.ground).
  - simpl. lia.
  - reflexivity.
  - repeat constructor; lia.
  - repeat split; simpl; try lia; repeat constructor; simpl; unfold uword_modulus; lia.
  - reflexivity.
  - vm_compute. discriminate.
  - intros A B. split; reflexivity.
Defined.

(** Two electrons in the s channel of two unit orbitals: the first orbital
    enters with weight 2, the second with weight 0; the empty p channel gets
    a term of weight 0 from its first orbital. *)
Example UpdateDensity_ground :
  @OrbitalChannel.UpdateDensity sample.naive sample.ground
  = Ok (cube.Cube 2 2 [mat.Mat 2 2 [2; 0; 0; 0]%float; mat.Mat 2 2 [0; 0; 0; 0]%float]) ∧
  @OrbitalChannel.AngularDensity sample.naive sample.ground
  = Ok (cube.Cube 2 2 [mat.Mat 2 2 [1; 0; 0; 0]%float; mat.Mat 2 2 [0; 0; 0; 0]%float]).
Proof. vm_compute. done. Qed.

(** Under the same conditions [AngularDensity] returns the cube whose slice
    [l] is the zero matrix to which the terms [(nocc·1.0/ShellCapacity(l)) · c cᵀ]
    of the shells that hold electrons have been added one after the other:
    the shells are those of [UpdateDensity], the weights are the fractions
    of the shells that are filled, and an empty orbital adds no term. *)
Theorem AngularDensity_sums_filled_fractions `{Numerics} (ch : OrbitalChannel.t) :
  let n := cube.n_rows (OrbitalChannel.C ch) in
  let zero := mat.Mat n n (replicate (Z.to_nat (n * n)) 0%float) in
  0 ≤ OrbitalChannel.lmax ch + 1 →
  Z.of_nat (length (OrbitalChannel.occs ch)) = OrbitalChannel.lmax ch + 1 →
  Forall (λ numl, 0 ≤ numl) (OrbitalChannel.occs ch) →
  cube.wf (OrbitalChannel.C ch) →
  cube.n_slices (OrbitalChannel.C ch) = OrbitalChannel.lmax ch + 1 →
  n * n ≤ max_n_elem →
  (∀ A B, mat.n_rows (mat_add A B) = mat.n_rows A ∧
          mat.n_cols (mat_add A B) = mat.n_cols A) →
  OrbitalChannel.AngularDensity ch
  = Ok (cube.Cube n n
          ((λ l, foldl (OrbitalChannel.add_shell ch l
                          (λ io, PrimFloat.div
                                   (PrimFloat.mul (of_sword (OrbitalChannel.held ch l io)) 1)
                                   (of_sword (OrbitalChannel.ShellCapacity ch l))))
                       zero
                       (seqZ 0 (OrbitalChannel.filled_shells ch l)))
           <$> seqZ 0 (OrbitalChannel.lmax ch + 1))).
Proof.
  intros n zero HL Hlen Hnn Hwf Hslices Hfit Hadd.
  pose proof Hwf as (Hr & Hc & _).
  unfold OrbitalChannel.AngularDensity. fold n.
  rewrite cube_zeros_Ok by lia. cbn [mbind outcome_bind].
  unfold for_range. rewrite Z.sub_0_r. fold zero.
  apply (per_channel_loop
           (λ l numl Q, OrbitalChannel.angular_shells ch l numl
                          (seqZ 0 (cube.n_cols (OrbitalChannel.C ch))) Q));
    [done|done|].
  intros l Q Hl HQ HQr HQc HQl.
  destruct (cube_wf_slice _ l Hwf ltac:(lia)) as (HCl & _ & HClc).
  assert (Hnuml : 0 ≤ OrbitalChannel.occs ch !!! Z.to_nat l).
  { rewrite Forall_forall in Hnn. apply Hnn, list_elem_of_lookup_total_2. lia. }
  rewrite <- (Z2Nat.id (cube.n_cols (OrbitalChannel.C ch))) at 1 by done.
  rewrite (angular_shells_closed ch l) by (rewrite ?HQl; simpl; lia || done).
  rewrite HQr, HQc, HQl, Z2Nat.id by done.
  fold (OrbitalChannel.filled_shells ch l).
  do 3 f_equal.
  apply foldl_ext_in. intros a io _. unfold OrbitalChannel.add_shell, OrbitalChannel.held.
  do 8 f_equal. lia.
Qed.

Lemma AngularDensity_sums_filled_fractions_witness :
  @OrbitalChannel.AngularDensity sample.naive sample.ground
  = Ok (cube.Cube 2 2
          ((λ l, foldl (@OrbitalChannel.add_shell sample.naive sample.ground l
                          (λ io, PrimFloat.div
                                   (PrimFloat.mul
                                      (of_sword (OrbitalChannel.held sample.ground l io)) 1)
                                   (of_sword (OrbitalChannel.ShellCapacity sample.ground l))))
                       (mat.Mat 2 2 (replicate 4 0%float))
                       (seqZ 0 (OrbitalChannel.filled_shells sample.ground l)))
           <$> seqZ 0 2)).
Proof.
  apply (@AngularDensity_sums_filled_fractions sample.naive sample.ground).
  - simpl. lia.
  - reflexivity.
  - repeat constructor; lia.
  - repeat split; simpl; try lia; repeat constructor; simpl; unfold uword_modulus; lia.
  - reflexivity.
  - vm_compute. discriminate.
  - intros A B. split; reflexivity.
Defined.
